(** * OpenEvolve desktop engine: a shallow embedding and its properties

    The development follows the TypeScript sources of the evolution engine
    ([utils.ts], [database.ts], [pacevolve/backtracking.ts],
    [pacevolve/collaborative.ts], [evaluator.ts], [prompt/templates.ts],
    [controller.ts]).

    Conventions of the embedding:
    - a JavaScript [number] is an exact rational ([Q]) where only the order
      of the values or an exact count matters; comparisons are the decidable
      ones of [Q] and [Math.floor] is [Qfloor], and [-Infinity] and
      [undefined]/[null] are [None] of an option type.  Where the rounding,
      an infinity or [NaN] decides a property (the sampling policy and the
      bin of a feature value) a [number] is a double ([JsNumber.t]) and the
      arithmetic is that of binary64;
    - a JavaScript string is a [string]; program identifiers are strings;
    - a [Map] or [Set] whose iteration order the code observes is an
      insertion-ordered list; one that is only looked up is a [gmap];
    - [Math.random()] is an explicit draw handed to the function;
    - an object that is shared between two programs (the [metadata] record
      after a spread copy) lives in an explicit store indexed by a
      reference. *)

From Stdlib Require Import QArith Qround Qminmax Qabs Qpower ZArith Lia Lqa Ascii String DecimalString.
From stdpp Require Import gmap strings list.

#[local] Arguments String.append !s1 s2 : simpl nomatch.

(* ================================================================== *)
(** * Part I.  The embedding                                           *)
(* ================================================================== *)

(** ** utils.ts: literal search and [String.prototype.replace] *)

(** [s.startsWith(search)]. *)
Fixpoint startsWith (search s : string) : bool :=
  match search, s with
  | EmptyString, _ => true
  | String _ _, EmptyString => false
  | String a search', String b s' => Ascii.eqb a b && startsWith search' s'
  end.

(** [s.slice(n)]. *)
Fixpoint sliceFrom (n : nat) (s : string) : string :=
  match n, s with
  | O, _ => s
  | S _, EmptyString => EmptyString
  | S n', String _ s' => sliceFrom n' s'
  end.

(** The first literal occurrence of [search] in [s], as the text before it
    and the text after it ([StringIndexOf] of the language standard, then
    the two substrings that [replace] keeps). *)
Fixpoint splitAtFirst (search s : string) : option (string * string) :=
  if startsWith search s then Some (EmptyString, sliceFrom (String.length search) s)
  else
    match s with
    | EmptyString => None
    | String c s' =>
        match splitAtFirst search s' with
        | Some (before, after) => Some (String c before, after)
        | None => None
        end
    end.

(** [s.indexOf(search)], with [None] for [-1]. *)
Definition indexOf (search s : string) : option nat :=
  match splitAtFirst search s with
  | Some (before, _) => Some (String.length before)
  | None => None
  end.

(** Number of positions of [s] at which [search] starts. *)
Fixpoint countOccurrences (search s : string) : nat :=
  (if startsWith search s then 1 else 0) +
  match s with
  | EmptyString => 0
  | String _ s' => countOccurrences search s'
  end.

(** [GetSubstitution] for a string pattern (no capture groups): in the
    replacement text [$$] stands for a dollar sign, [$&] for the matched
    text, [$`] for the text before the match and [$'] for the text after
    it; a dollar sign followed by anything else is kept as it is. *)
Fixpoint getSubstitution (matched before after template : string) : string :=
  match template with
  | EmptyString => EmptyString
  | String c rest =>
      if Ascii.eqb c "$"%char then
        match rest with
        | EmptyString => String c EmptyString
        | String d rest' =>
            if Ascii.eqb d "$"%char then String "$"%char (getSubstitution matched before after rest')
            else if Ascii.eqb d "&"%char then matched +:+ getSubstitution matched before after rest'
            else if Ascii.eqb d "`"%char then before +:+ getSubstitution matched before after rest'
            else if Ascii.eqb d "'"%char then after +:+ getSubstitution matched before after rest'
            else String c (getSubstitution matched before after rest)
        end
      else String c (getSubstitution matched before after rest)
  end.

(** [s.replace(search, replacement)] with two string arguments. *)
Definition jsReplace (s search replacement : string) : string :=
  match splitAtFirst search s with
  | None => s
  | Some (before, after) =>
      before +:+ getSubstitution search before after replacement +:+ after
  end.

Record Diff := mkDiff { search : string; replace : string }.

(** [applyDiffs(originalCode, diffs)]. *)
Definition applyDiffs (originalCode : string) (diffs : list Diff) : string :=
  fold_left (fun result diff => jsReplace result (search diff) (replace diff))
            diffs originalCode.

(** [search] occurs somewhere in [s]. *)
Definition occursIn (search s : string) : Prop :=
  exists p q, s = p +:+ search +:+ q.

(** A text without a dollar sign. *)
Fixpoint noDollar (s : string) : bool :=
  match s with
  | EmptyString => true
  | String c s' => negb (Ascii.eqb c "$"%char) && noDollar s'
  end.

(** ** JavaScript numbers, ordered collections and sorting *)

(** [a < b] on numbers. *)
Definition Qltb (a b : Q) : bool := negb (Qle_bool b a).

(** [r] lies in part [i] of the [n] equal parts of the unit interval. *)
Definition inSlot (r : Q) (i n : nat) : Prop :=
  (inject_Z (Z.of_nat i) / inject_Z (Z.of_nat n) <= r)%Q /\
  (r < inject_Z (Z.of_nat (S i)) / inject_Z (Z.of_nat n))%Q.

(** A division that reports a zero divisor instead of producing a value
    that is not a number. *)
Definition checkedDiv (a b : Q) : option Q :=
  if Qeq_bool b 0 then None else Some (a / b)%Q.

(** [values.reduce((sum, v) => sum + v, 0)]. *)
Definition sumQ (values : list Q) : Q := fold_left Qplus values 0%Q.

(** [array.slice(0, n)]: a negative [n] counts from the end. *)
Definition sliceTo {A} (n : Z) (l : list A) : list A :=
  if (0 <=? n)%Z then firstn (Z.to_nat n) l
  else firstn (Z.to_nat (Z.of_nat (length l) + n)) l.

(** A [Map<string, V>] whose iteration order is observed: the entries in
    insertion order. *)
Fixpoint mapGet {V} (k : string) (m : list (string * V)) : option V :=
  match m with
  | [] => None
  | (k', v) :: m' => if String.eqb k k' then Some v else mapGet k m'
  end.

Definition mapHas {V} (k : string) (m : list (string * V)) : bool :=
  match mapGet k m with Some _ => true | None => false end.

Fixpoint mapSet {V} (k : string) (v : V) (m : list (string * V)) : list (string * V) :=
  match m with
  | [] => [(k, v)]
  | (k', v') :: m' =>
      if String.eqb k k' then (k, v) :: m' else (k', v') :: mapSet k v m'
  end.

Definition mapDelete {V} (k : string) (m : list (string * V)) : list (string * V) :=
  List.filter (fun kv => negb (String.eqb k (fst kv))) m.

(** A [Set<string>], in insertion order. *)
Definition setHas (x : string) (s : list string) : bool := existsb (String.eqb x) s.

Definition setAdd (x : string) (s : list string) : list string :=
  if setHas x s then s else s ++ [x].

Definition setDelete (x : string) (s : list string) : list string :=
  List.filter (fun y => negb (String.eqb x y)) s.

(** [array.sort(compare)] is stable; [goesBefore a b] says that [compare(a, b)]
    is not positive. *)
Fixpoint insertSorted {A} (goesBefore : A -> A -> bool) (x : A) (l : list A) : list A :=
  match l with
  | [] => [x]
  | y :: l' => if goesBefore x y then x :: l else y :: insertSorted goesBefore x l'
  end.

Definition stableSort {A} (goesBefore : A -> A -> bool) (l : list A) : list A :=
  fold_right (insertSorted goesBefore) [] l.

(** A truthy string is a non-empty one. *)
Definition truthy (s : string) : bool := negb (String.eqb s EmptyString).

(** ** JavaScript numbers as doubles *)

Module JsNumber.

(** A [number]: a rational that a double holds, an infinity, or [NaN].  The
    sign of zero is not kept. *)
Inductive t := Finite (q : Q) | PlusInfinity | MinusInfinity | NaN.

(** [2 ^ e] for an integer exponent. *)
Definition pow2 (e : Z) : Q := (2 ^ e)%Q.

(** The unit roundoff of binary64. *)
Definition unitRoundoff : Q := pow2 (-53).

(** [floor (log2 q)] for a positive [q]. *)
Definition floorLog2 (q : Q) : Z :=
  let e := (Z.log2 (Qnum q) - Z.log2 (Zpos (Qden q)))%Z in
  if Qle_bool (pow2 e) q then e else (e - 1)%Z.

(** The nearest integer, the even one of two that are equally near. *)
Definition roundHalfEven (q : Q) : Z :=
  let f := Qfloor q in
  match Qcompare (q - inject_Z f) (1 # 2) with
  | Lt => f
  | Eq => if Z.even f then f else (f + 1)%Z
  | Gt => (f + 1)%Z
  end.

(** The distance between the doubles around a positive [a]: 53 bits of
    precision, and the subnormal numbers below [2 ^ -1022]. *)
Definition ulp (a : Q) : Q := pow2 (Z.max (floorLog2 a) (-1022) - 52).

(** The multiple of [ulp a] nearest to a positive [a]. *)
Definition nearest (a : Q) : Q := inject_Z (roundHalfEven (a / ulp a)) * ulp a.

(** The double that a real number rounds to, as IEEE 754 has it for
    binary64 and rounding to nearest, ties to even; an infinity from
    [2 ^ 1024] on. *)
Definition binary64 (q : Q) : t :=
  if Qeq_bool q 0 then Finite 0
  else
    let x := Qred (nearest (Qabs q)) in
    if Qle_bool (pow2 1024) x
    then (if Qle_bool 0 q then PlusInfinity else MinusInfinity)
    else Finite (if Qle_bool 0 q then x else Qred (- x)).

(** Arithmetic without rounding, for comparison. *)
Definition exact (q : Q) : t := Finite q.

(** The order of the numbers; [NaN] is not comparable. *)
Definition le (a b : t) : Prop :=
  match a, b with
  | NaN, _ | _, NaN => False
  | MinusInfinity, _ | _, PlusInfinity => True
  | Finite x, Finite y => (x <= y)%Q
  | _, _ => False
  end.

(** What is used of the rounding [round] of the arithmetic: it is
    monotone; integers up to [2 ^ 53] are doubles; and in the range of the
    normal numbers the relative error is at most the unit roundoff. *)
Record Rounding (round : Q -> t) : Prop := {
  round_monotone : forall p q, (p <= q)%Q -> le (round p) (round q);
  round_integer : forall z,
    (Z.abs z <= 2 ^ 53)%Z -> exists x, round (inject_Z z) = Finite x /\ (x == inject_Z z)%Q;
  round_nearly : forall q,
    (pow2 (-1022) <= Qabs q)%Q -> (Qabs q <= pow2 1023)%Q ->
    exists x, round q = Finite x /\ (Qabs (x - q) <= unitRoundoff * Qabs q)%Q
}.

Section Arithmetic.
Variable round : Q -> t.

(** A literal of the program text and a number read from the
    configuration. *)
Definition number (q : Q) : t := round q.

(** Unary minus. *)
Definition opp (a : t) : t :=
  match a with
  | Finite x => Finite (- x)
  | PlusInfinity => MinusInfinity
  | MinusInfinity => PlusInfinity
  | NaN => NaN
  end.

(** [a + b]. *)
Definition add (a b : t) : t :=
  match a, b with
  | NaN, _ | _, NaN => NaN
  | Finite x, Finite y => round (x + y)
  | PlusInfinity, MinusInfinity | MinusInfinity, PlusInfinity => NaN
  | PlusInfinity, _ | _, PlusInfinity => PlusInfinity
  | MinusInfinity, _ | _, MinusInfinity => MinusInfinity
  end.

(** [a - b]. *)
Definition sub (a b : t) : t := add a (opp b).

(** The infinity of the sign of [x] times the sign of [inf]; [NaN] for zero. *)
Definition scaled (x : Q) (inf : t) : t :=
  if Qeq_bool x 0 then NaN else if Qle_bool 0 x then inf else opp inf.

(** [a * b]. *)
Definition mul (a b : t) : t :=
  match a, b with
  | NaN, _ | _, NaN => NaN
  | Finite x, Finite y => round (x * y)
  | Finite x, inf => scaled x inf
  | inf, Finite y => scaled y inf
  | PlusInfinity, inf => inf
  | MinusInfinity, inf => opp inf
  end.

(** [a / b]; a zero divisor counts as [+0]. *)
Definition div (a b : t) : t :=
  match a, b with
  | NaN, _ | _, NaN => NaN
  | Finite x, Finite y =>
      if Qeq_bool y 0 then scaled x PlusInfinity else round (x / y)
  | Finite _, _ => Finite 0
  | inf, Finite y => if Qle_bool 0 y then inf else opp inf
  | _, _ => NaN
  end.

(** [a <= b] and [a < b]; false when one of them is [NaN]. *)
Definition leb (a b : t) : bool :=
  match a, b with
  | NaN, _ | _, NaN => false
  | MinusInfinity, _ | _, PlusInfinity => true
  | Finite x, Finite y => Qle_bool x y
  | _, _ => false
  end.

Definition ltb (a b : t) : bool :=
  match a, b with
  | NaN, _ | _, NaN => false
  | _, _ => negb (leb b a)
  end.

(** [Math.max(a, b)] and [Math.min(a, b)]. *)
Definition max (a b : t) : t :=
  match a, b with
  | NaN, _ | _, NaN => NaN
  | _, _ => if leb a b then b else a
  end.

Definition min (a b : t) : t :=
  match a, b with
  | NaN, _ | _, NaN => NaN
  | _, _ => if leb a b then a else b
  end.

(** [Math.abs(a)]. *)
Definition abs (a : t) : t :=
  match a with
  | Finite x => Finite (Qabs x)
  | PlusInfinity | MinusInfinity => PlusInfinity
  | NaN => NaN
  end.

(** [Math.floor(a)]. *)
Definition floor (a : t) : t :=
  match a with
  | Finite x => Finite (inject_Z (Qfloor x))
  | _ => a
  end.

(** [a === 0]. *)
Definition isZero (a : t) : bool :=
  match a with
  | Finite x => Qeq_bool x 0
  | _ => false
  end.

End Arithmetic.

End JsNumber.

(** ** types.ts: programs *)

(** [Program].  [metadata] is a reference to the metadata object: a spread
    copy [{ ...program, id }] keeps the reference, so that both programs see
    a later write to [metadata.island]. *)
Module Prog.
Record t := mk {
  id : string;
  code : string;
  parentId : option string;
  generation : nat;
  iterationFound : nat;
  metrics : list (string * Q);
  complexity : Q;
  diversity : Q;
  metadata : nat
}.

Definition withId (p : t) (newId : string) : t :=
  mk newId (code p) (parentId p) (generation p) (iterationFound p)
     (metrics p) (complexity p) (diversity p) (metadata p).

Definition withIterationFound (p : t) (iteration : nat) : t :=
  mk (id p) (code p) (parentId p) (generation p) iteration
     (metrics p) (complexity p) (diversity p) (metadata p).

(** [program.metrics.combined_score || 0]. *)
Definition combinedScoreOr0 (p : t) : Q :=
  match mapGet "combined_score" (metrics p) with
  | Some v => v
  | None => 0%Q
  end.
End Prog.

Abbreviation Program := Prog.t.

(** A program with the given identifier, combined score and metadata
    reference, used in examples. *)
Definition exampleProgram (id : string) (score : Q) (metadata : nat) : Program :=
  Prog.mk id "x=1" None 0 0 [("combined_score", score)] 3 0 metadata.

(** ** utils.ts: fitness and edit distance *)

Definition safeNumericAverage (metrics : list (string * Q)) : Q :=
  match metrics with
  | [] => 0%Q
  | _ => (sumQ (map snd metrics) / inject_Z (Z.of_nat (length metrics)))%Q
  end.

Definition getFitnessScore (metrics : list (string * Q)) (featureDimensions : list string) : Q :=
  match mapGet "combined_score" metrics with
  | Some v => v
  | None =>
      safeNumericAverage
        (List.filter (fun kv => negb (setHas (fst kv) featureDimensions)) metrics)
  end.

(** One row of the Levenshtein table: [prevRow] is row [i-1], [left] the
    entry to the left of the one being filled. *)
Fixpoint editRow (c : ascii) (s2 : string) (prevRow : list nat) (left : nat) : list nat :=
  match s2, prevRow with
  | String d s2', diag :: ((up :: _) as prevRow') =>
      let v := if Ascii.eqb c d then diag
               else 1 + Nat.min up (Nat.min left diag) in
      v :: editRow c s2' prevRow' v
  | _, _ => []
  end.

Fixpoint editRows (s1 s2 : string) (i : nat) (prevRow : list nat) : list nat :=
  match s1 with
  | EmptyString => prevRow
  | String c s1' => editRows s1' s2 (S i) (S i :: editRow c s2 prevRow (S i))
  end.

Definition calculateEditDistance (s1 s2 : string) : nat :=
  List.last (editRows s1 s2 0 (seq 0 (S (String.length s2)))) 0.

(** The recurrence that the table of [calculateEditDistance] follows, on
    the reversed texts: [a] and [b] are the characters of two prefixes, last
    character first. *)
Fixpoint levenshtein (a : list ascii) : list ascii -> nat :=
  match a with
  | [] => fun b => length b
  | x :: a' =>
      fix against (b : list ascii) : nat :=
        match b with
        | [] => S (length a')
        | y :: b' =>
            if Ascii.eqb x y then levenshtein a' b'
            else 1 + Nat.min (levenshtein a' b)
                             (Nat.min (against b') (levenshtein a' b'))
        end
  end.

(** The row of the table for the prefix [a] of the first text: the entries
    from the column of the prefix [b] of the second text on, [t] being the
    rest of the second text. *)
Fixpoint rowFrom (a b : list ascii) (t : string) : list nat :=
  levenshtein a b ::
  match t with
  | EmptyString => []
  | String d t' => rowFrom a (d :: b) t'
  end.

(** ** pacevolve/context-manager.ts: the similarity of two summaries *)

(** [calculateSimilarity(a, b)]. *)
Definition calculateSimilarity (a b : string) : Q :=
  let maxLen := Nat.max (String.length a) (String.length b) in
  if (maxLen =? 0)%nat then 0%Q
  else (1 - inject_Z (Z.of_nat (calculateEditDistance a b)) / inject_Z (Z.of_nat maxLen))%Q.

(** ** config.ts *)

Inductive FeatureBins :=
| BinsNumber (bins : Z)
| BinsPerDimension (bins : gmap string Z).

Record DatabaseConfig := {
  populationSize : nat;
  archiveSize : nat;
  numIslands : nat;
  explorationRatio : Q;
  exploitationRatio : Q;
  featureDimensions : list string;
  featureBins : FeatureBins;
  migrationInterval : nat;
  migrationRate : Q
}.

Record PACEvolveConfig := {
  enableMBB : bool;
  momentumWindowSize : nat;
  backtrackDepth : nat;
  momentumBeta : Q;
  initialExploreProb : Q;
  initialExploitProb : Q;
  initialBacktrackProb : Q;
  adaptationRate : Q
}.

(** The defaults of [config.ts]. *)
Definition defaultDatabaseConfig : DatabaseConfig :=
  {| populationSize := 1000; archiveSize := 100; numIslands := 5;
     explorationRatio := 2 # 10; exploitationRatio := 7 # 10;
     featureDimensions := ["complexity"; "diversity"];
     featureBins := BinsNumber 10;
     migrationInterval := 50; migrationRate := 1 # 10 |}.

Definition defaultPACEvolveConfig : PACEvolveConfig :=
  {| enableMBB := true; momentumWindowSize := 10; backtrackDepth := 5;
     momentumBeta := 9 # 10;
     initialExploreProb := 3 # 10; initialExploitProb := 5 # 10;
     initialBacktrackProb := 2 # 10; adaptationRate := 1 # 10 |}.

(** The fields of the same configuration object that backtracking reads
    besides: [stagnationThreshold], and [powerLawWeight idx] for
    [1 / Math.pow(idx + 1, backtrackPower)]. *)
Record BacktrackConfig := {
  stagnationThreshold : Q;
  powerLawWeight : nat -> Q
}.

(** The fields that crossover reads. *)
Record CrossoverConfig := {
  enableCE : bool;
  crossoverFrequency : nat
}.

(** ** database.ts *)

(** Running statistics of one feature dimension. *)
Module FeatureStat.
Record t := mk { min : Q; max : Q; values : list Q }.
End FeatureStat.

(** Monadic left fold: a loop whose body may throw. *)
Fixpoint foldOpt {A S} (body : S -> A -> option S) (l : list A) (s : S) : option S :=
  match l with
  | [] => Some s
  | x :: l' =>
      match body s x with
      | Some s' => foldOpt body l' s'
      | None => None
      end
  end.

Definition stringOfZ (z : Z) : string := NilZero.string_of_int (Z.to_int z).

Module ProgramDatabase.

(** The fields of the class, and [metadataIsland]: the [island] entry of
    the metadata objects that programs refer to ([None] on lookup is
    [undefined]). *)
Record t := mk {
  config : DatabaseConfig;
  programs : list (string * Program);
  islands : list (list string);
  islandFeatureMaps : list (gmap string string);
  archive : list string;
  bestProgramId : option string;
  islandBestPrograms : list (option string);
  currentIsland : nat;
  islandGenerations : list nat;
  lastMigrationGeneration : nat;
  lastIteration : nat;
  diversityReferenceSet : list string;
  featureStats : gmap string FeatureStat.t;
  featureBinsPerDim : gmap string Z;
  metadataIsland : gmap nat nat
}.

Definition setPrograms v d :=
  mk (config d) v (islands d) (islandFeatureMaps d) (archive d) (bestProgramId d)
     (islandBestPrograms d) (currentIsland d) (islandGenerations d)
     (lastMigrationGeneration d) (lastIteration d) (diversityReferenceSet d)
     (featureStats d) (featureBinsPerDim d) (metadataIsland d).
Definition setIslands v d :=
  mk (config d) (programs d) v (islandFeatureMaps d) (archive d) (bestProgramId d)
     (islandBestPrograms d) (currentIsland d) (islandGenerations d)
     (lastMigrationGeneration d) (lastIteration d) (diversityReferenceSet d)
     (featureStats d) (featureBinsPerDim d) (metadataIsland d).
Definition setIslandFeatureMaps v d :=
  mk (config d) (programs d) (islands d) v (archive d) (bestProgramId d)
     (islandBestPrograms d) (currentIsland d) (islandGenerations d)
     (lastMigrationGeneration d) (lastIteration d) (diversityReferenceSet d)
     (featureStats d) (featureBinsPerDim d) (metadataIsland d).
Definition setArchive v d :=
  mk (config d) (programs d) (islands d) (islandFeatureMaps d) v (bestProgramId d)
     (islandBestPrograms d) (currentIsland d) (islandGenerations d)
     (lastMigrationGeneration d) (lastIteration d) (diversityReferenceSet d)
     (featureStats d) (featureBinsPerDim d) (metadataIsland d).
Definition setBestProgramId v d :=
  mk (config d) (programs d) (islands d) (islandFeatureMaps d) (archive d) v
     (islandBestPrograms d) (currentIsland d) (islandGenerations d)
     (lastMigrationGeneration d) (lastIteration d) (diversityReferenceSet d)
     (featureStats d) (featureBinsPerDim d) (metadataIsland d).
Definition setIslandBestPrograms v d :=
  mk (config d) (programs d) (islands d) (islandFeatureMaps d) (archive d)
     (bestProgramId d) v (currentIsland d) (islandGenerations d)
     (lastMigrationGeneration d) (lastIteration d) (diversityReferenceSet d)
     (featureStats d) (featureBinsPerDim d) (metadataIsland d).
Definition setLastMigrationGeneration v d :=
  mk (config d) (programs d) (islands d) (islandFeatureMaps d) (archive d)
     (bestProgramId d) (islandBestPrograms d) (currentIsland d) (islandGenerations d)
     v (lastIteration d) (diversityReferenceSet d)
     (featureStats d) (featureBinsPerDim d) (metadataIsland d).
Definition setLastIteration v d :=
  mk (config d) (programs d) (islands d) (islandFeatureMaps d) (archive d)
     (bestProgramId d) (islandBestPrograms d) (currentIsland d) (islandGenerations d)
     (lastMigrationGeneration d) v (diversityReferenceSet d)
     (featureStats d) (featureBinsPerDim d) (metadataIsland d).
Definition setFeatureStats v d :=
  mk (config d) (programs d) (islands d) (islandFeatureMaps d) (archive d)
     (bestProgramId d) (islandBestPrograms d) (currentIsland d) (islandGenerations d)
     (lastMigrationGeneration d) (lastIteration d) (diversityReferenceSet d)
     v (featureBinsPerDim d) (metadataIsland d).
Definition setMetadataIsland v d :=
  mk (config d) (programs d) (islands d) (islandFeatureMaps d) (archive d)
     (bestProgramId d) (islandBestPrograms d) (currentIsland d) (islandGenerations d)
     (lastMigrationGeneration d) (lastIteration d) (diversityReferenceSet d)
     (featureStats d) (featureBinsPerDim d) v.

(** [constructor(config)]. *)
Definition new (cfg : DatabaseConfig) : t :=
  mk cfg [] (replicate (numIslands cfg) []) (replicate (numIslands cfg) ∅) []
     None (replicate (numIslands cfg) None) 0 (replicate (numIslands cfg) 0)
     0 0 [] ∅
     (match featureBins cfg with
      | BinsPerDimension m => m
      | BinsNumber n =>
          fold_left (fun m dim => <[dim := n]> m) (featureDimensions cfg) ∅
      end)
     ∅.

Definition fitness (d : t) (p : Program) : Q :=
  getFitnessScore (Prog.metrics p) (featureDimensions (config d)).

(** [isBetter(program1, program2)]. *)
Definition isBetter (d : t) (program1 program2 : Program) : bool :=
  Qltb (fitness d program2) (fitness d program1).

(** Comparators of the three [sort] calls. *)
Definition ascending (d : t) (a b : Program) : bool := Qle_bool (fitness d a) (fitness d b).
Definition descending (d : t) (a b : Program) : bool := Qle_bool (fitness d b) (fitness d a).

(** [ids.map((id) => this.programs.get(id)!).filter(Boolean)]. *)
Definition lookupAll (d : t) (ids : list string) : list Program :=
  omap (fun i => mapGet i (programs d)) ids.

(** [valueTobin(dimension, value, bins)] as the database uses it: the
    updated statistics and the bin index, over finite values and exact
    rationals.  What is proved of the database does not depend on the bin
    that a value falls into; the function on doubles, with its rounding and
    its [NaN], is [FeatureBinning.valueTobin] below. *)
Definition valueTobin (stats : gmap string FeatureStat.t)
    (dimension : string) (value : Q) (bins : Z)
  : option (gmap string FeatureStat.t * Z) :=
  match stats !! dimension with
  | None =>
      Some (<[dimension := FeatureStat.mk value value [value]]> stats, 0%Z)
  | Some st =>
      let mn := Qmin (FeatureStat.min st) value in
      let mx := Qmax (FeatureStat.max st) value in
      let stats' :=
        <[dimension := FeatureStat.mk mn mx (FeatureStat.values st ++ [value])]> stats in
      let range := (mx - mn)%Q in
      if Qeq_bool range 0 then Some (stats', 0%Z)
      else
        match checkedDiv (value - mn) range with
        | Some q => Some (stats', Z.min (Qfloor (q * inject_Z bins)) (bins - 1))
        | None => None
        end
  end.

(** [calculateDiversity(program)]. *)
Definition calculateDiversity (d : t) (p : Program) : Q :=
  match diversityReferenceSet d with
  | [] => 0%Q
  | refs =>
      (sumQ (map (fun refCode =>
                    inject_Z (Z.of_nat (calculateEditDistance (Prog.code p) refCode)))
                 refs)
       / inject_Z (Z.of_nat (length refs)))%Q
  end.

(** The value of one feature dimension for a program. *)
Definition featureValue (d : t) (p : Program) (dim : string) : Q :=
  if String.eqb dim "complexity" then
    if Qeq_bool (Prog.complexity p) 0
    then inject_Z (Z.of_nat (String.length (Prog.code p)))
    else Prog.complexity p
  else if String.eqb dim "diversity" then calculateDiversity d p
  else if String.eqb dim "score" then fitness d p
  else match mapGet dim (Prog.metrics p) with
       | Some v => v
       | None => 0%Q
       end.

(** [this.featureBinsPerDim[dim] || 10]. *)
Definition binsFor (d : t) (dim : string) : Z :=
  match featureBinsPerDim d !! dim with
  | Some b => if (b =? 0)%Z then 10%Z else b
  | None => 10%Z
  end.

(** [calculateFeatureCoords(program)], threading the running statistics. *)
Fixpoint calculateFeatureCoordsFrom (d : t) (p : Program) (dims : list string)
    (stats : gmap string FeatureStat.t)
  : option (list Z * gmap string FeatureStat.t) :=
  match dims with
  | [] => Some ([], stats)
  | dim :: dims' =>
      match valueTobin stats dim (featureValue d p dim) (binsFor d dim) with
      | Some (stats1, binIdx) =>
          match calculateFeatureCoordsFrom d p dims' stats1 with
          | Some (coords, stats2) => Some (binIdx :: coords, stats2)
          | None => None
          end
      | None => None
      end
  end.

Definition calculateFeatureCoords (d : t) (p : Program)
  : option (list Z * gmap string FeatureStat.t) :=
  calculateFeatureCoordsFrom d p (featureDimensions (config d)) (featureStats d).

(** [featureCoordsToKey(coords)]: [coords.join(',')]. *)
Definition featureCoordsToKey (coords : list Z) : string :=
  String.concat "," (map stringOfZ coords).

(** [updateArchive(program)]. *)
Definition updateArchive (d : t) (p : Program) : t :=
  if (length (archive d) <? archiveSize (config d))%nat then
    setArchive (setAdd (Prog.id p) (archive d)) d
  else
    match stableSort (ascending d) (lookupAll d (archive d)) with
    | worst :: _ =>
        if isBetter d p worst
        then setArchive (setAdd (Prog.id p) (setDelete (Prog.id worst) (archive d))) d
        else d
    | [] => d
    end.

(** The test shared by [updateBestProgram] and [updateIslandBestProgram]:
    is the tracked best to be replaced by [p]? *)
Definition replacesBest (d : t) (current : option string) (p : Program) : bool :=
  match current with
  | None => true
  | Some bestId =>
      if truthy bestId then
        match mapGet bestId (programs d) with
        | None => true
        | Some currentBest => isBetter d p currentBest
        end
      else true
  end.

Definition updateBestProgram (d : t) (p : Program) : t :=
  if replacesBest d (bestProgramId d) p
  then setBestProgramId (Some (Prog.id p)) d else d.

Definition updateIslandBestProgram (d : t) (p : Program) (islandIdx : nat) : t :=
  if replacesBest d (mjoin (islandBestPrograms d !! islandIdx)) p
  then setIslandBestPrograms (<[islandIdx := Some (Prog.id p)]> (islandBestPrograms d)) d
  else d.

(** One round of the removal loop of [enforcePopulationLimit]. *)
Definition removeProgram (d : t) (p : Program) : option t :=
  let d1 := setPrograms (mapDelete (Prog.id p) (programs d)) d in
  match metadataIsland d1 !! Prog.metadata p with
  | None => Some (setArchive (setDelete (Prog.id p) (archive d1)) d1)
  | Some island =>
      match islands d1 !! island with
      | None => None
      | Some residents =>
          let d2 := setIslands (<[island := setDelete (Prog.id p) residents]> (islands d1)) d1 in
          Some (setArchive (setDelete (Prog.id p) (archive d2)) d2)
      end
  end.

(** [enforcePopulationLimit(excludeProgramId)]. *)
Definition enforcePopulationLimit (d : t) (excludeProgramId : string) : option t :=
  if (length (programs d) <=? populationSize (config d))%nat then Some d
  else
    let sorted :=
      stableSort (ascending d)
        (List.filter (fun p => negb (String.eqb (Prog.id p) excludeProgramId))
                     (map snd (programs d))) in
    let toRemove :=
      sliceTo (Z.of_nat (length (programs d)) - Z.of_nat (populationSize (config d)))
              sorted in
    foldOpt removeProgram toRemove d.

(** The island an insertion goes to, before the modulo. *)
Definition chooseIsland (d : t) (p : Program) (targetIsland : option nat) : nat :=
  match targetIsland with
  | Some k => k
  | None =>
      match Prog.parentId p with
      | Some parentId =>
          if truthy parentId then
            match mapGet parentId (programs d) with
            | Some parent =>
                match metadataIsland d !! Prog.metadata parent with
                | Some k => k
                | None => currentIsland d
                end
            | None => currentIsland d
            end
          else currentIsland d
      | None => currentIsland d
      end
  end.

(** Does the insertion write the cell?  [occupant] is the cell's entry. *)
Definition shouldReplace (d : t) (p : Program) (occupant : option string) : bool :=
  match occupant with
  | None => true
  | Some existingProgramId =>
      match mapGet existingProgramId (programs d) with
      | None => true
      | Some existingProgram => isBetter d p existingProgram
      end
  end.

(** The cell update of [add], for island [islandIdx] and cell [featureKey]. *)
Definition placeInCell (d : t) (p : Program) (islandIdx : nat) (featureKey : string)
    (islandFeatureMap : gmap string string) (residents : list string) : t :=
  if shouldReplace d p (islandFeatureMap !! featureKey) then
    let d1 :=
      match islandFeatureMap !! featureKey with
      | Some existingProgramId =>
          if truthy existingProgramId then
            let d' := setIslands (<[islandIdx := setDelete existingProgramId residents]>
                                    (islands d)) d in
            if setHas existingProgramId (archive d')
            then setArchive (setAdd (Prog.id p) (setDelete existingProgramId (archive d'))) d'
            else d'
          else d
      | None => d
      end in
    setIslandFeatureMaps
      (<[islandIdx := <[featureKey := Prog.id p]> islandFeatureMap]> (islandFeatureMaps d1)) d1
  else d.

(** [add(program, iteration?, targetIsland?)]; [None] when a statement
    throws.  The iteration and the target island are non-negative integers,
    as the callers pass them (an island index, or [iteration % numIslands]):
    a negative or fractional target would make the source look up an island
    that does not exist, and throw. *)
Definition add (d : t) (program : Program) (iteration : option nat)
    (targetIsland : option nat) : option t :=
  let p := match iteration with
           | Some i => Prog.withIterationFound program i
           | None => program
           end in
  let d := match iteration with
           | Some i => setLastIteration (Nat.max (lastIteration d) i) d
           | None => d
           end in
  let d := setPrograms (mapSet (Prog.id p) p (programs d)) d in
  match calculateFeatureCoords d p with
  | None => None
  | Some (featureCoords, stats) =>
      let d := setFeatureStats stats d in
      let islandIdx := (chooseIsland d p targetIsland mod length (islands d))%nat in
      let featureKey := featureCoordsToKey featureCoords in
      match islandFeatureMaps d !! islandIdx, islands d !! islandIdx with
      | Some islandFeatureMap, Some residents =>
          let d := placeInCell d p islandIdx featureKey islandFeatureMap residents in
          let d := setIslands (alter (setAdd (Prog.id p)) islandIdx (islands d)) d in
          let d := setMetadataIsland (<[Prog.metadata p := islandIdx]> (metadataIsland d)) d in
          let d := updateArchive d p in
          match enforcePopulationLimit d (Prog.id p) with
          | Some d =>
              let d := updateBestProgram d p in
              Some (updateIslandBestProgram d p islandIdx)
          | None => None
          end
      | _, _ => None
      end
  end.

(** [sampleFromIslandRandom(islandId)]; [r] is the [Math.random()] draw.
    [None] is [undefined]. *)
Definition sampleFromIslandRandom (d : t) (islandId : nat) (r : Q) : option Program :=
  match islands d !! islandId with
  | None => None
  | Some islandPrograms =>
      let idx := Qfloor (r * inject_Z (Z.of_nat (length islandPrograms))) in
      if (idx <? 0)%Z then None
      else
        match islandPrograms !! Z.to_nat idx with
        | Some randomId => mapGet randomId (programs d)
        | None => None
        end
  end.

(** The archive members that [sampleFromArchiveForIsland] keeps. *)
Definition islandArchive (d : t) (islandId : nat) : list string :=
  List.filter
    (fun i =>
       match mapGet i (programs d) with
       | Some p =>
           match metadataIsland d !! Prog.metadata p with
           | Some k => Nat.eqb k islandId
           | None => false
           end
       | None => false
       end)
    (archive d).

(** [sampleFromArchiveForIsland(islandId)]. *)
Definition sampleFromArchiveForIsland (d : t) (islandId : nat) (r : Q) : option Program :=
  match islandArchive d islandId with
  | [] => sampleFromIslandRandom d islandId r
  | candidates =>
      let idx := Qfloor (r * inject_Z (Z.of_nat (length candidates))) in
      if (idx <? 0)%Z then None
      else
        match candidates !! Z.to_nat idx with
        | Some randomId => mapGet randomId (programs d)
        | None => None
        end
  end.

(** The loop of [sampleFromIslandWeighted]: the first program whose
    cumulative fitness exceeds [rand]. *)
Fixpoint pickWeighted (d : t) (rand cumulative : Q) (candidates : list Program)
  : option Program :=
  match candidates with
  | [] => None
  | p :: rest =>
      let cumulative' := (cumulative + fitness d p)%Q in
      if Qltb rand cumulative' then Some p
      else pickWeighted d rand cumulative' rest
  end.

(** [sampleFromIslandWeighted(islandId)]. *)
Definition sampleFromIslandWeighted (d : t) (islandId : nat) (r : Q) : option Program :=
  match islands d !! islandId with
  | None => None
  | Some residents =>
      let islandPrograms := lookupAll d residents in
      let totalFitness := sumQ (map (fitness d) islandPrograms) in
      match pickWeighted d (r * totalFitness) 0 islandPrograms with
      | Some p => Some p
      | None => List.last (map Some islandPrograms) None
      end
  end.

(** The three parent-selection branches of [sampleFromIsland]. *)
Inductive Branch := Exploration | Exploitation | Weighted.

(** The branch taken for the draw [randVal]. *)
Definition parentBranch (d : t) (randVal : Q) : Branch :=
  if Qltb randVal (explorationRatio (config d)) then Exploration
  else if Qltb randVal (explorationRatio (config d) + exploitationRatio (config d))
  then Exploitation
  else Weighted.

Definition sampleParent (d : t) (islandId : nat) (branch : Branch) (r : Q)
  : option Program :=
  match branch with
  | Exploration => sampleFromIslandRandom d islandId r
  | Exploitation => sampleFromArchiveForIsland d islandId r
  | Weighted => sampleFromIslandWeighted d islandId r
  end.

(** [sampleRandom(array, n)].  [shuffle] is the permutation that the
    engine's sort produces for the random comparator. *)
Definition sampleRandom (shuffle : list string -> list string)
    (array : list string) (n : nat) : list string :=
  firstn n (shuffle array).

(** [sampleFromIsland(islandId, numInspirations)].  [randVal] and [r] are
    the two [Math.random()] draws of the parent selection; [None] when the
    call throws. *)
Definition sampleFromIsland (shuffle : list string -> list string)
    (d : t) (islandId numInspirations : nat) (randVal r : Q)
  : option (Program * list Program) :=
  let islandId := (islandId mod length (islands d))%nat in
  match islands d !! islandId with
  | None => None
  | Some [] => None
  | Some islandPrograms =>
      match sampleParent d islandId (parentBranch d randVal) r with
      | None => None
      | Some parent =>
          let otherPrograms :=
            List.filter (fun i => negb (String.eqb i (Prog.id parent))) islandPrograms in
          let inspirationIds :=
            if (length otherPrograms <=? numInspirations)%nat then otherPrograms
            else sampleRandom shuffle otherPrograms numInspirations in
          Some (parent, lookupAll d inspirationIds)
      end
  end.

(** [Math.min(...this.islandGenerations)]; [None] for the empty array. *)
Definition minGeneration (d : t) : option nat :=
  match islandGenerations d with
  | [] => None
  | g :: gs => Some (fold_left Nat.min gs g)
  end.

(** The body of the island loop of [migratePrograms]; [uuid] enumerates the
    identifiers that [uuidv4()] returns and [next] counts the calls. *)
Definition migrateIsland (uuid : nat -> string) (numMigrants : Z)
    (st : t * nat) (i : nat) : option (t * nat) :=
  let d := fst st in
  let targetIsland := (S i mod length (islands d))%nat in
  match islands d !! i with
  | None => None
  | Some [] => Some st
  | Some sourcePrograms =>
      let migrants :=
        sliceTo numMigrants (stableSort (descending d) (lookupAll d sourcePrograms)) in
      foldOpt
        (fun (st : t * nat) (migrant : Program) =>
           match add (fst st) (Prog.withId migrant (uuid (snd st))) None (Some targetIsland) with
           | Some d' => Some (d', S (snd st))
           | None => None
           end)
        migrants st
  end.

(** [migratePrograms()]. *)
Definition migratePrograms (uuid : nat -> string) (d : t) (next : nat) : option (t * nat) :=
  let numMigrants :=
    Qfloor (inject_Z (Z.of_nat (populationSize (config d))) * migrationRate (config d)) in
  match foldOpt (migrateIsland uuid numMigrants) (seq 0 (length (islands d))) (d, next) with
  | None => None
  | Some (d', next') =>
      match minGeneration d' with
      | Some g => Some (setLastMigrationGeneration g d', next')
      | None => None
      end
  end.

(** The program stored under [x], if any, is still in the programs map. *)
Definition stored (d : t) (x : string) : Prop := mapGet x (programs d) <> None.

(** [x] is the entry of some cell of island [k]. *)
Definition inCellOf (d : t) (k : nat) (x : string) : Prop :=
  exists cells key, islandFeatureMaps d !! k = Some cells /\ cells !! key = Some x.

(** [x] is a resident of island [k]. *)
Definition residentOf (d : t) (k : nat) (x : string) : Prop :=
  exists residents, islands d !! k = Some residents /\ In x residents.

(** Every stored program that a cell of an island names is a resident of
    that island. *)
Definition cellsResident (d : t) : Prop :=
  forall k x, inCellOf d k x -> stored d x -> residentOf d k x.

(** No identifier is the entry of two cells of one island. *)
Definition cellsInjective (d : t) : Prop :=
  forall k cells key1 key2 x,
    islandFeatureMaps d !! k = Some cells ->
    cells !! key1 = Some x -> cells !! key2 = Some x -> key1 = key2.

(** [x] names no stored program and no cell entry. *)
Definition unused (d : t) (x : string) : Prop :=
  ~ stored d x /\ forall k, ~ inCellOf d k x.

(** The identifiers of the stored programs and of the cell entries are
    among the first [n] of [uuid]. *)
Definition idsBelow (uuid : nat -> string) (n : nat) (d : t) : Prop :=
  forall x, stored d x \/ (exists k, inCellOf d k x) -> exists i, i < n /\ x = uuid i.

(** The invariant of the states paired with the count of identifiers
    handed out. *)
Definition invariant (uuid : nat -> string) (st : t * nat) : Prop :=
  cellsResident (fst st) /\ cellsInjective (fst st) /\ idsBelow uuid (snd st) (fst st).

(** The shape that the constructor gives the database for at least one
    island, and that insertions keep: as many cell maps as islands, a
    generation counter, and island tags that name an island. *)
Definition wellShaped (d : t) : Prop :=
  0 < length (islands d) /\
  length (islandFeatureMaps d) = length (islands d) /\
  islandGenerations d <> [] /\
  forall ref k, metadataIsland d !! ref = Some k -> k < length (islands d).

(** The states that the constructor, [add] with the next identifier of
    [uuid], and [migratePrograms] lead to; the second component counts the
    identifiers handed out. *)
Inductive reachable (uuid : nat -> string) (cfg : DatabaseConfig) : t * nat -> Prop :=
| reachable_new : reachable uuid cfg (new cfg, 0)
| reachable_add d n program iteration targetIsland d' :
    reachable uuid cfg (d, n) ->
    Prog.id program = uuid n ->
    add d program iteration targetIsland = Some d' ->
    reachable uuid cfg (d', S n)
| reachable_migrate d n d' n' :
    reachable uuid cfg (d, n) ->
    migratePrograms uuid d n = Some (d', n') ->
    reachable uuid cfg (d', n').

(** The states that follow a state: by [add] with the next identifier of
    [uuid], and by [migratePrograms]. *)
Inductive later (uuid : nat -> string) (st : t * nat) : t * nat -> Prop :=
| later_now : later uuid st st
| later_add d n program iteration targetIsland d' :
    later uuid st (d, n) ->
    Prog.id program = uuid n ->
    add d program iteration targetIsland = Some d' ->
    later uuid st (d', S n)
| later_migrate d n d' n' :
    later uuid st (d, n) ->
    migratePrograms uuid d n = Some (d', n') ->
    later uuid st (d', n').

(** Cell [key] of island [k] holds [x], or the identifier of a program that
    was inserted after the first [n] identifiers had been handed out. *)
Definition keptUntilTaken (uuid : nat -> string) (n k : nat) (key x : string)
    (st : t * nat) : Prop :=
  exists cells,
    islandFeatureMaps (fst st) !! k = Some cells /\
    (cells !! key = Some x \/
     exists i, n <= i < snd st /\ cells !! key = Some (uuid i)).

(** The island and the feature key of the cell that [add] works on
    (database.ts:72-98); [None] when a statement before throws. *)
Definition cellFor (d : t) (program : Program) (iteration : option nat)
    (targetIsland : option nat) : option (nat * string) :=
  let p := match iteration with
           | Some i => Prog.withIterationFound program i
           | None => program
           end in
  let d := match iteration with
           | Some i => setLastIteration (Nat.max (lastIteration d) i) d
           | None => d
           end in
  let d := setPrograms (mapSet (Prog.id p) p (programs d)) d in
  match calculateFeatureCoords d p with
  | None => None
  | Some (featureCoords, stats) =>
      let d := setFeatureStats stats d in
      Some ((chooseIsland d p targetIsland mod length (islands d))%nat,
            featureCoordsToKey featureCoords)
  end.

(** The residents of an island other than the parent. *)
Definition othersThan (parent : Program) (islandPrograms : list string) : list string :=
  List.filter (fun i => negb (String.eqb i (Prog.id parent))) islandPrograms.

(** The strategies that [controller.ts] names in its call
    [sampleFromIsland(islandId, numTopPrograms, strategy)].  The function has
    two parameters, so the call evaluates it without the third argument. *)
Inductive Strategy := StrategyExplore | StrategyExploit | StrategyWeighted.

Definition sampleFromIslandCall (shuffle : list string -> list string)
    (d : t) (islandId numInspirations : nat) (strategy : Strategy) (randVal r : Q)
  : option (Program * list Program) :=
  sampleFromIsland shuffle d islandId numInspirations randVal r.

(** The branch that the specification assigns to a strategy. *)
Definition branchOfStrategy (strategy : Strategy) : Branch :=
  match strategy with
  | StrategyExplore => Exploration
  | StrategyExploit => Exploitation
  | StrategyWeighted => Weighted
  end.

(** [get(programId)]. *)
Definition get (d : t) (programId : string) : option Program :=
  mapGet programId (programs d).

(** The program that a truthy [bestProgramId] names, if it is stored. *)
Definition trackedBest (d : t) : option Program :=
  match bestProgramId d with
  | Some bestId => if truthy bestId then mapGet bestId (programs d) else None
  | None => None
  end.

(** The comparator [b.metrics[metric] - a.metrics[metric]] is not
    positive; a difference that is not a number leaves the order as it is. *)
Definition byMetric (metric : string) (a b : Program) : bool :=
  match mapGet metric (Prog.metrics b), mapGet metric (Prog.metrics a) with
  | Some vb, Some va => Qle_bool vb va
  | _, _ => true
  end.

(** [getBestProgram(metric?)]; [None] is [null]. *)
Definition getBestProgram (d : t) (metric : option string) : option Program :=
  match programs d with
  | [] => None
  | _ =>
      let metricGiven := match metric with
                         | Some m => truthy m
                         | None => false
                         end in
      match (if metricGiven then None else trackedBest d) with
      | Some best => Some best
      | None =>
          let all := map snd (programs d) in
          match metric with
          | Some m =>
              if truthy m then
                head (stableSort (byMetric m)
                        (List.filter (fun p => mapHas m (Prog.metrics p)) all))
              else head (stableSort (descending d) all)
          | None => head (stableSort (descending d) all)
          end
      end
  end.

(** [shouldMigrate()]; the minimum of no generation counter is
    [Infinity]. *)
Definition shouldMigrate (d : t) : bool :=
  match minGeneration d with
  | None => true
  | Some minGen =>
      (Z.of_nat (migrationInterval (config d))
       <=? Z.of_nat minGen - Z.of_nat (lastMigrationGeneration d))%Z
  end.

(** [incrementIslandGeneration(islandIdx)]; [None] when the array has no
    such entry, whose increment is not a number. *)
Definition incrementIslandGeneration (d : t) (islandIdx : nat) : option t :=
  match islandGenerations d !! islandIdx with
  | Some g =>
      Some (mk (config d) (programs d) (islands d) (islandFeatureMaps d) (archive d)
               (bestProgramId d) (islandBestPrograms d) (currentIsland d)
               (<[islandIdx := S g]> (islandGenerations d))
               (lastMigrationGeneration d) (lastIteration d) (diversityReferenceSet d)
               (featureStats d) (featureBinsPerDim d) (metadataIsland d))
  | None => None
  end.

(** Every entry of the programs map is stored under the identifier of its
    program, and no key occurs twice. *)
Definition keyed (d : t) : Prop :=
  List.NoDup (map fst (programs d)) /\
  Forall (fun kv => Prog.id (snd kv) = fst kv) (programs d).

(** What insertions leave alone: the configuration, the generation
    counters, the generation of the last migration and the reference set of
    the diversity measure. *)
Definition sameSettings (d d' : t) : Prop :=
  config d' = config d /\
  islandGenerations d' = islandGenerations d /\
  lastMigrationGeneration d' = lastMigrationGeneration d /\
  diversityReferenceSet d' = diversityReferenceSet d.

(** The databases that the constructor and any calls of [add],
    [migratePrograms] and [incrementIslandGeneration] lead to, whatever the
    identifiers of the programs. *)
Inductive built (cfg : DatabaseConfig) : t -> Prop :=
| built_new : built cfg (new cfg)
| built_add d program iteration targetIsland d' :
    built cfg d ->
    add d program iteration targetIsland = Some d' ->
    built cfg d'
| built_migrate uuid d n d' n' :
    built cfg d ->
    migratePrograms uuid d n = Some (d', n') ->
    built cfg d'
| built_increment d islandIdx d' :
    built cfg d ->
    incrementIslandGeneration d islandIdx = Some d' ->
    built cfg d'.

End ProgramDatabase.

(** ** database.ts: the bin of a feature value, on doubles *)

(** [ProgramDatabase.valueTobin] (database.ts:386-410) with the numbers as
    doubles.  (The database above keeps exact rationals: what is proved of
    it does not depend on the bin that a value falls into.) *)
Module FeatureBinning.
Import JsNumber.

(** One entry of [featureStats]. *)
Record Stat := mkStat { min : JsNumber.t; max : JsNumber.t; values : list JsNumber.t }.

Section Doubles.
Variable round : Q -> JsNumber.t.

(** [valueTobin(dimension, value, bins)] on doubles: the updated statistics
    and the number returned. *)
Definition valueTobin (stats : gmap string Stat) (dimension : string)
    (value bins : JsNumber.t) : gmap string Stat * JsNumber.t :=
  match stats !! dimension with
  | None => (<[dimension := mkStat value value [value]]> stats, Finite 0)
  | Some st =>
      let mn := JsNumber.min (min st) value in
      let mx := JsNumber.max (max st) value in
      let stats' := <[dimension := mkStat mn mx (values st ++ [value])]> stats in
      let range := sub round mx mn in
      if isZero range then (stats', Finite 0)
      else
        let binIdx := floor (mul round (div round (sub round value mn) range) bins) in
        (stats', JsNumber.min binIdx (sub round bins (Finite 1)))
  end.

End Doubles.
End FeatureBinning.

(** ** types.ts: progress metrics *)

Module Progress.
Record t := mk {
  recentImprovements : list Q;
  momentum : Q;
  iterationsSinceImprovement : nat;
  currentBestScore : option Q
}.
End Progress.

(** Progress with the given momentum. *)
Definition progressWithMomentum (m : Q) : Progress.t := Progress.mk [] m 0 None.

(** ** pacevolve/backtracking.ts (the per-island tracker) *)

Module MomentumTracker.

(** One island's state; [currentBestScore = None] is [-Infinity] and
    [initialScore = None] is [null]. *)
Record IslandState := mkState {
  recentRelativeImprovements : list Q;
  momentum : Q;
  backtrackHistory : list (nat * Program);
  iterationsSinceImprovement : nat;
  currentBestScore : option Q;
  initialScore : option Q
}.

Record t := mk {
  config : PACEvolveConfig;
  states : gmap nat IslandState
}.

Definition new (cfg : PACEvolveConfig) : t := mk cfg ∅.

Definition freshState : IslandState := mkState [] 0 [] 0 None None.

(** [getState(islandId)]: the stored state, or a fresh one. *)
Definition getState (tr : t) (islandId : nat) : IslandState :=
  match states tr !! islandId with
  | Some st => st
  | None => freshState
  end.

(** [relativeGap(previousBest, targetScore?)]. *)
Definition relativeGap (previousBest : Q) (targetScore : option Q) : Q :=
  match targetScore with
  | Some target => Qmax (Qabs (target - previousBest)) (1 # 1000000)
  | None => Qmax (Qabs previousBest) (1 # 1000000)
  end.

(** [push] followed by [if (length > limit) shift()]. *)
Definition pushBounded {A} (limit : nat) (l : list A) (x : A) : list A :=
  let l' := l ++ [x] in
  if (limit <? length l')%nat then tail l' else l'.

(** The state of the island after [update], without the momentum line. *)
Definition recordScore (cfg : PACEvolveConfig) (state : IslandState)
    (program : Program) (iteration : nat) (targetScore : option Q) : IslandState :=
  let score := Prog.combinedScoreOr0 program in
  let initial := match initialScore state with
                 | None => score
                 | Some i => i
                 end in
  let improved := match currentBestScore state with
                  | None => true
                  | Some best => Qltb best score
                  end in
  if improved then
    let previousBest :=
      match currentBestScore state with
      | None => if Qeq_bool initial 0 then score else initial
      | Some best => best
      end in
    let relativeImprovement :=
      ((score - previousBest) / relativeGap previousBest targetScore)%Q in
    mkState
      (pushBounded (momentumWindowSize cfg) (recentRelativeImprovements state)
                   relativeImprovement)
      (momentum state)
      (pushBounded (backtrackDepth cfg) (backtrackHistory state) (iteration, program))
      0
      (Some score)
      (Some initial)
  else
    mkState
      (pushBounded (momentumWindowSize cfg) (recentRelativeImprovements state) 0%Q)
      (momentum state)
      (backtrackHistory state)
      (S (iterationsSinceImprovement state))
      (currentBestScore state)
      (Some initial).

(** [recentRelativeImprovements.at(-1) || 0]. *)
Definition latestImprovement (state : IslandState) : Q :=
  List.last (recentRelativeImprovements state) 0%Q.

(** [update(program, iteration, islandId, targetScore?)]. *)
Definition update (tr : t) (program : Program) (iteration islandId : nat)
    (targetScore : option Q) : t :=
  if negb (enableMBB (config tr)) then tr
  else
    let state := recordScore (config tr) (getState tr islandId) program iteration targetScore in
    let beta := momentumBeta (config tr) in
    let state' :=
      mkState (recentRelativeImprovements state)
              (beta * momentum state + (1 - beta) * latestImprovement state)%Q
              (backtrackHistory state) (iterationsSinceImprovement state)
              (currentBestScore state) (initialScore state) in
    mk (config tr) (<[islandId := state']> (states tr)).

(** [getProgressMetrics(islandId)]. *)
Definition getProgressMetrics (tr : t) (islandId : nat) : Progress.t :=
  let state := getState tr islandId in
  Progress.mk (recentRelativeImprovements state) (momentum state)
              (iterationsSinceImprovement state) (currentBestScore state).

(** The arguments of one call of [update], and a sequence of calls. *)
Record Call := mkCall {
  callProgram : Program;
  callIteration : nat;
  callIsland : nat;
  callTarget : option Q
}.

Definition updates (tr : t) (calls : list Call) : t :=
  fold_left (fun tr c => update tr (callProgram c) (callIteration c) (callIsland c)
                                (callTarget c))
            calls tr.

(** [shouldBacktrack(islandId)].  (The source's [getState] stores the fresh
    state it returns for an unknown island; a missing entry reads as that
    fresh state here.) *)
Definition shouldBacktrack (bt : BacktrackConfig) (tr : t) (islandId : nat) : bool :=
  if negb (enableMBB (config tr)) then false
  else
    let state := getState tr islandId in
    match backtrackHistory state with
    | [] => false
    | _ =>
        let momentumStagnation := Qltb (Qabs (momentum state)) (stagnationThreshold bt) in
        let longStagnation :=
          (momentumWindowSize (config tr) * 2 <? iterationsSinceImprovement state)%nat in
        (momentumStagnation && longStagnation)
        || (50 <? iterationsSinceImprovement state)%nat
    end.

(** The loop of [samplePowerLawIndex]: the first index at which the draw,
    less the weights so far, is not positive. *)
Fixpoint powerLawLoop (rand : Q) (weights : list Q) (i : nat) : option nat :=
  match weights with
  | [] => None
  | w :: weights' =>
      if Qle_bool (rand - w) 0 then Some i
      else powerLawLoop (rand - w) weights' (S i)
  end.

(** [samplePowerLawIndex(count)], for the draw [r]. *)
Definition samplePowerLawIndex (bt : BacktrackConfig) (count : nat) (r : Q) : Z :=
  let weights := map (powerLawWeight bt) (seq 0 count) in
  let total := sumQ weights in
  match powerLawLoop (r * total) weights 0 with
  | Some i => Z.of_nat i
  | None => (Z.of_nat count - 1)%Z
  end.

(** [getBacktrackTarget(islandId)]: the program returned ([None] is [null])
    and the tracker afterwards; the outer [None] is a thrown error (the
    history has no entry at the index). *)
Definition getBacktrackTarget (bt : BacktrackConfig) (tr : t) (islandId : nat) (r : Q)
  : option (option Program * t) :=
  if negb (enableMBB (config tr)) then Some (None, tr)
  else
    let state := getState tr islandId in
    match backtrackHistory state with
    | [] => Some (None, tr)
    | history =>
        let targetIndex :=
          samplePowerLawIndex bt (Nat.max 1 (length history - 1)) r in
        let index := Z.min targetIndex (Z.of_nat (length history) - 1) in
        if (index <? 0)%Z then None
        else
          match history !! Z.to_nat index with
          | None => None
          | Some target =>
              Some (Some (snd target),
                    mk (config tr)
                       (<[islandId := mkState [] 0 history 0 (currentBestScore state)
                                              (initialScore state)]> (states tr)))
          end
    end.

(** [reset(islandId?)]. *)
Definition reset (tr : t) (islandId : option nat) : t :=
  match islandId with
  | None => mk (config tr) ∅
  | Some k => mk (config tr) (<[k := freshState]> (states tr))
  end.

(** The scores of the calls of [update] for an island, oldest first. *)
Definition scoresOn (islandId : nat) (calls : list Call) : list Q :=
  map (fun c => Prog.combinedScoreOr0 (callProgram c))
      (List.filter (fun c => Nat.eqb (callIsland c) islandId) calls).

(** What [update] keeps of an island's state: the momentum is not
    negative, and a state without a best score has no initial score. *)
Definition steady (state : IslandState) : Prop :=
  (0 <= momentum state)%Q /\
  (currentBestScore state = None -> initialScore state = None).

End MomentumTracker.

(** ** pacevolve/collaborative.ts: the adaptive sampling policy *)

Module AdaptiveSamplingPolicy.
Import JsNumber.

Record t := mk {
  config : PACEvolveConfig;
  exploreProb : JsNumber.t;
  exploitProb : JsNumber.t;
  backtrackProb : JsNumber.t
}.

Inductive Action := explore | exploit | backtrack.

Section Doubles.
Variable round : Q -> JsNumber.t.

(** The probabilities after the three [Math.max(0.05, ...)] of
    [normalize]. *)
Definition floored (p : t) : t :=
  mk (config p)
     (max (number round (5 # 100)) (exploreProb p))
     (max (number round (5 # 100)) (exploitProb p))
     (max (number round (5 # 100)) (backtrackProb p)).

(** The sum that [normalize] divides by. *)
Definition flooredTotal (p : t) : JsNumber.t :=
  add round (add round (exploreProb (floored p)) (exploitProb (floored p)))
      (backtrackProb (floored p)).

(** [normalize()]. *)
Definition normalize (p : t) : t :=
  let total := flooredTotal p in
  mk (config p)
     (div round (exploreProb (floored p)) total)
     (div round (exploitProb (floored p)) total)
     (div round (backtrackProb (floored p)) total).

(** [constructor(config)]. *)
Definition new (cfg : PACEvolveConfig) : t :=
  normalize (mk cfg (number round (initialExploreProb cfg))
                (number round (initialExploitProb cfg))
                (number round (initialBacktrackProb cfg))).

(** [sample()], for the draw [rand]. *)
Definition sample (p : t) (rand : Q) : Action :=
  if ltb (number round rand) (exploreProb p) then explore
  else if ltb (number round rand) (add round (exploreProb p) (exploitProb p)) then exploit
  else backtrack.

(** The three adjustments of [update], before [normalize].  The adaptation
    rate, the momentum and the two progress values are read as doubles. *)
Definition adjust (p : t) (progress : Progress.t)
    (absoluteProgress peerBest : option Q) : t :=
  let adaptRate := number round (adaptationRate (config p)) in
  let m := number round (Progress.momentum progress) in
  let lit := number round in
  if ltb (lit (1 # 100)) m then
    mk (config p)
       (sub round (exploreProb p) (mul round adaptRate (lit (5 # 10))))
       (add round (exploitProb p) adaptRate)
       (sub round (backtrackProb p) (mul round adaptRate (lit (5 # 10))))
  else if ltb (abs m) (lit (1 # 1000)) then
    let lagging :=
      match absoluteProgress, peerBest with
      | Some a, Some b => ltb (lit (5 # 100)) (sub round (lit b) (lit a))
      | _, _ => false
      end in
    mk (config p)
       (add round (exploreProb p)
            (mul round adaptRate (if lagging then lit (6 # 10) else lit 1%Q)))
       (sub round (exploitProb p) (mul round adaptRate (lit (7 # 10))))
       (add round (backtrackProb p)
            (mul round adaptRate (if lagging then lit (7 # 10) else lit (3 # 10))))
  else if ltb m (opp (lit (1 # 100))) then
    mk (config p)
       (sub round (exploreProb p) (mul round adaptRate (lit (3 # 10))))
       (sub round (exploitProb p) (mul round adaptRate (lit (7 # 10))))
       (add round (backtrackProb p) adaptRate)
  else p.

(** [update(progress, absoluteProgress?, peerBest?)]. *)
Definition update (p : t) (progress : Progress.t)
    (absoluteProgress peerBest : option Q) : t :=
  normalize (adjust p progress absoluteProgress peerBest).

End Doubles.

(** The policies after construction and after every [update]. *)
Inductive reached (round : Q -> JsNumber.t) (cfg : PACEvolveConfig) : t -> Prop :=
| reached_new : reached round cfg (new round cfg)
| reached_update p progress absoluteProgress peerBest :
    reached round cfg p ->
    reached round cfg (update round p progress absoluteProgress peerBest).

(** The three probabilities are finite and positive. *)
Definition allPositive (p : t) : Prop :=
  exists e x b,
    exploreProb p = Finite e /\ exploitProb p = Finite x /\ backtrackProb p = Finite b /\
    (0 < e)%Q /\ (0 < x)%Q /\ (0 < b)%Q.

(** The three probabilities are finite and add up to one within [1e-9]. *)
Definition sumsToOne (p : t) : Prop :=
  exists e x b,
    exploreProb p = Finite e /\ exploitProb p = Finite x /\ backtrackProb p = Finite b /\
    (Qabs (e + x + b - 1) <= 1 # 1000000000)%Q.

(** Each of the three probabilities is finite and at least [c]. *)
Definition allAtLeast (c : Q) (p : t) : Prop :=
  exists e x b,
    exploreProb p = Finite e /\ exploitProb p = Finite x /\ backtrackProb p = Finite b /\
    (c <= e)%Q /\ (c <= x)%Q /\ (c <= b)%Q.

(** The three probabilities are finite and of magnitude at most [bound]. *)
Definition allWithin (bound : Q) (p : t) : Prop :=
  exists e x b,
    exploreProb p = Finite e /\ exploitProb p = Finite x /\ backtrackProb p = Finite b /\
    (Qabs e <= bound)%Q /\ (Qabs x <= bound)%Q /\ (Qabs b <= bound)%Q.

End AdaptiveSamplingPolicy.

(** ** pacevolve/collaborative.ts: the crossover coordinator *)

Module CollaborativeEvolution.

(** One island's entry of [islandProgress]; [bestScore = None] is
    [-Infinity]. *)
Record IslandProgress := mkProgress {
  initialScore : option Q;
  bestScore : option Q;
  absoluteProgress : Q
}.

Record t := mk {
  config : CrossoverConfig;
  lastCrossoverIteration : nat;
  islandProgress : gmap nat IslandProgress
}.

Definition new (cfg : CrossoverConfig) : t := mk cfg 0 ∅.

(** [getAbsoluteProgress(islandId)]. *)
Definition getAbsoluteProgress (ce : t) (islandId : nat) : Q :=
  match islandProgress ce !! islandId with
  | Some state => absoluteProgress state
  | None => 0%Q
  end.

(** [getMaxAbsoluteProgress()]: the loop over the values of the map; the
    largest value does not depend on the order of the entries. *)
Definition getMaxAbsoluteProgress (ce : t) : Q :=
  fold_left (fun best state =>
               if Qltb best (absoluteProgress state) then absoluteProgress state else best)
            (map snd (map_to_list (islandProgress ce))) 0%Q.

(** [shouldPerformCrossover(currentIteration, islandId, stagnating)]. *)
Definition shouldPerformCrossover (ce : t) (currentIteration islandId : nat)
    (stagnating : bool) : bool :=
  if negb (enableCE (config ce)) then false
  else
    let timeReady :=
      (Z.of_nat (crossoverFrequency (config ce))
       <=? Z.of_nat currentIteration - Z.of_nat (lastCrossoverIteration ce))%Z in
    let currentProgress := getAbsoluteProgress ce islandId in
    let bestProgress := getMaxAbsoluteProgress ce in
    let hasBetterPeer := Qltb (5 # 100) (bestProgress - currentProgress) in
    timeReady && stagnating && hasBetterPeer.

(** [setLastCrossoverIteration(iteration)]. *)
Definition setLastCrossoverIteration (ce : t) (iteration : nat) : t :=
  mk (config ce) iteration (islandProgress ce).

(** [calculateAbsoluteProgress(initialScore, bestScore, targetScore?)]. *)
Definition calculateAbsoluteProgress (initial best : Q) (targetScore : option Q) : Q :=
  match targetScore with
  | Some target => ((best - initial) / Qmax (Qabs (target - initial)) (1 # 1000000))%Q
  | None => ((best - initial) / Qmax (Qabs initial) (1 # 1000000))%Q
  end.

(** [updateIslandProgress(islandId, currentBest, initialScore?, targetScore?)]. *)
Definition updateIslandProgress (ce : t) (islandId : nat) (currentBest : Q)
    (initial targetScore : option Q) : t :=
  let state := default (mkProgress None None 0) (islandProgress ce !! islandId) in
  let initial' := match initialScore state with
                  | None => initial
                  | Some i => Some i
                  end in
  let best' := match bestScore state with
               | None => currentBest
               | Some b => if Qltb b currentBest then currentBest else b
               end in
  let progress := calculateAbsoluteProgress (default currentBest initial') best' targetScore in
  mk (config ce) (lastCrossoverIteration ce)
     (<[islandId := mkProgress initial' (Some best') progress]> (islandProgress ce)).

(** The loop of [selectIslandsForCrossover] over the weighted candidates. *)
Fixpoint pickPartner (rand : Q) (weighted : list (nat * Q)) : option nat :=
  match weighted with
  | [] => None
  | (idx, weight) :: weighted' =>
      if Qle_bool (rand - weight) 0 then Some idx
      else pickPartner (rand - weight) weighted'
  end.

(** [selectIslandsForCrossover(numIslands)], for the two draws; the second
    island is [None] when there is no candidate. *)
Definition selectIslandsForCrossover (ce : t) (numIslands : nat) (r1 r2 : Q)
  : Z * option nat :=
  let island1 := Qfloor (r1 * inject_Z (Z.of_nat numIslands)) in
  let candidates :=
    List.filter (fun idx => negb (Z.of_nat idx =? island1)%Z) (seq 0 numIslands) in
  let weighted :=
    map (fun idx => (idx, Qmax (1 # 100) (getAbsoluteProgress ce idx + (1 # 100)))) candidates in
  let total := sumQ (map snd weighted) in
  let island2 :=
    match pickPartner (r2 * total) weighted with
    | Some idx => Some idx
    | None => head candidates
    end in
  (island1, island2).

End CollaborativeEvolution.

(** ** evaluator.ts *)

Record EvaluatorConfig := {
  timeout : Z;
  maxRetries : nat;
  cascadeEvaluation : bool;
  cascadeThresholds : list Q;
  useLlmFeedback : bool;
  llmFeedbackWeight : Q
}.

Module Evaluator.

(** [EvaluationResult]; an artifact is a string, or [undefined] ([None]). *)
Record EvaluationResult := mkResult {
  metrics : list (string * Q);
  artifacts : option (list (string * option string))
}.

(** What a [throw] or a rejected promise carries: a value whose [message]
    is a string (an [Error]), a value without a [message], [null], or
    [undefined]. *)
Inductive Thrown :=
| WithMessage (message : string)
| WithoutMessage
| ThrownNull
| ThrownUndefined.

(** [(error as Error).message]: the message on the right, [None] for
    [undefined]; on the left the [TypeError] that reading a property of
    [null] or [undefined] raises, with the text that V8 gives it. *)
Definition messageOf (error : Thrown) : Thrown + option string :=
  match error with
  | WithMessage message => inr (Some message)
  | WithoutMessage => inr None
  | ThrownNull =>
      inl (WithMessage "Cannot read properties of null (reading 'message')")
  | ThrownUndefined =>
      inl (WithMessage "Cannot read properties of undefined (reading 'message')")
  end.

(** What a call of a user function does: it returns (or resolves to) a
    value, it throws (or rejects with) a value, or it stays pending until
    the timer fires. *)
Inductive UserValue :=
| ResultObject (r : EvaluationResult)
| MetricsObject (m : list (string * Q))
| NotAnObject.

Inductive UserCall :=
| Returns (v : UserValue)
| Throws (error : Thrown)
| StaysPending.

(** The evaluation module; the argument of a function is the number of the
    attempt that calls it. *)
Record EvaluationModule := {
  evaluate : nat -> UserCall;
  evaluate_stage1 : option (nat -> UserCall);
  evaluate_stage2 : option (nat -> UserCall);
  evaluate_stage3 : option (nat -> UserCall)
}.

(** A settled promise. *)
Inductive Settled :=
| Resolved (r : EvaluationResult)
| Rejected (error : Thrown).

(** What one entry of [pendingArtifacts] holds. *)
Inductive Artifacts :=
| FailureRecord (stderr : option string) (failureStage : string) (attempt : nat)
| Produced (a : list (string * option string)).

Inductive Event :=
| Attempt (attempt : nat)
| SetPending (programId : string) (a : Artifacts)
| Sleep (milliseconds : nat).

(** What a call of [evaluateProgram] ends with: the metrics it returns, or
    the value that it raises (its promise rejects with). *)
Inductive Outcome :=
| Returned (metrics : list (string * Q))
| Raised (error : Thrown).

(** [processEvaluationResult(result)]. *)
Definition processEvaluationResult (v : UserValue) : EvaluationResult :=
  match v with
  | ResultObject r => r
  | MetricsObject m => mkResult m None
  | NotAnObject => mkResult [("error", 0%Q)] None
  end.

(** The promise built by [directEvaluate] and by [runEvaluationStage];
    [what] is the word of the timeout message that differs. *)
Definition settle (cfg : EvaluatorConfig) (what : string) (call : UserCall) : Settled :=
  match call with
  | Returns v => Resolved (processEvaluationResult v)
  | Throws error => Rejected error
  | StaysPending =>
      Rejected (WithMessage
                  (what +:+ " timed out after " +:+ stringOfZ (timeout cfg) +:+ "s"))
  end.

Definition directEvaluate (cfg : EvaluatorConfig) (m : EvaluationModule) (attempt : nat) : Settled :=
  settle cfg "Evaluation" (evaluate m attempt).

Definition runEvaluationStage (cfg : EvaluatorConfig) (stage : nat -> UserCall)
    (attempt : nat) : Settled :=
  settle cfg "Evaluation stage" (stage attempt).

(** [passesThreshold(metrics, threshold)]; a missing threshold compares
    false. *)
Definition passesThreshold (metrics : list (string * Q)) (threshold : option Q) : bool :=
  match threshold with
  | None => false
  | Some t =>
      match mapGet "combined_score" metrics with
      | Some score => Qle_bool t score
      | None =>
          match List.filter (fun kv => negb (String.eqb (fst kv) "error")) metrics with
          | [] => false
          | vals =>
              Qle_bool t (sumQ (map snd vals) / inject_Z (Z.of_nat (length vals)))
          end
      end
  end.

(** [{ ...a, ...b }]. *)
Definition spread {V} (a b : list (string * V)) : list (string * V) :=
  fold_left (fun acc kv => mapSet (fst kv) (snd kv) acc) b a.

Definition spreadOpt {V} (a b : option (list (string * V))) : list (string * V) :=
  spread (default [] a) (default [] b).

(** The [catch] block of stage 2 and of stage 3: the metric and, when the
    result has artifacts, the two artifact entries; on the left what the
    block throws when it reads the message. *)
Definition stageFailed (r : EvaluationResult) (stage : string) (error : Thrown)
  : Thrown + EvaluationResult :=
  let metrics' := mapSet (stage +:+ "_passed") 0%Q (metrics r) in
  match artifacts r with
  | Some a =>
      match messageOf error with
      | inl typeError => inl typeError
      | inr message =>
          inr (mkResult metrics'
                 (Some (mapSet "failureStage" (Some stage)
                               (mapSet (stage +:+ "_stderr") message a))))
      end
  | None => inr (mkResult metrics' None)
  end.

Definition merge (r1 r2 : EvaluationResult) : EvaluationResult :=
  mkResult (spread (metrics r1) (metrics r2))
           (Some (spreadOpt (artifacts r1) (artifacts r2))).

(** The result object of a [catch] block of [cascadeEvaluate] that names
    [stage]; on the left what the block throws when it reads the message. *)
Definition setupFailed (stage : string) (error : Thrown) : Thrown + EvaluationResult :=
  match messageOf error with
  | inl typeError => inl typeError
  | inr message =>
      inr (mkResult [("stage1_passed", 0%Q); ("error", 0%Q)]
                    (Some [("stderr", message); ("failureStage", Some stage)]))
  end.

(** The body of the outer [try] of [cascadeEvaluate] from stage 1 on: the
    result that it returns, or on the left what it throws. *)
Definition cascadeStages (cfg : EvaluatorConfig) (m : EvaluationModule)
    (stage1 : nat -> UserCall) (attempt : nat) : Thrown + EvaluationResult :=
  match runEvaluationStage cfg stage1 attempt with
  | Rejected error => setupFailed "stage1" error
  | Resolved stage1Result =>
      if negb (passesThreshold (metrics stage1Result) (cascadeThresholds cfg !! 0%nat))
      then inr stage1Result
      else
        match evaluate_stage2 m with
        | None => inr stage1Result
        | Some stage2 =>
            match runEvaluationStage cfg stage2 attempt with
            | Rejected error => stageFailed stage1Result "stage2" error
            | Resolved stage2Result =>
                let merged := merge stage1Result stage2Result in
                if (2 <=? length (cascadeThresholds cfg))%nat
                   && passesThreshold (metrics merged) (cascadeThresholds cfg !! 1%nat)
                then
                  match evaluate_stage3 m with
                  | None => inr merged
                  | Some stage3 =>
                      match runEvaluationStage cfg stage3 attempt with
                      | Rejected error => stageFailed merged "stage3" error
                      | Resolved stage3Result => inr (merge merged stage3Result)
                      end
                  end
                else inr merged
            end
        end
  end.

(** [cascadeEvaluate(programPath)].  Without a first stage the promise of
    [directEvaluate] is returned as it is; what the stages throw goes to the
    outer [catch]. *)
Definition cascadeEvaluate (cfg : EvaluatorConfig) (m : EvaluationModule) (attempt : nat)
  : Settled :=
  match evaluate_stage1 m with
  | None => directEvaluate cfg m attempt
  | Some stage1 =>
      match cascadeStages cfg m stage1 attempt with
      | inr result => Resolved result
      | inl error =>
          match setupFailed "cascade_setup" error with
          | inr result => Resolved result
          | inl typeError => Rejected typeError
          end
      end
  end.

(** The surroundings of one call of [evaluateProgram]: the evaluation
    module, whether [ENABLE_ARTIFACTS] differs from ['false'], the message
    of the error with which [mkdtempSync] or [writeFileSync] throws at an
    attempt, if it does, and the metrics of the LLM feedback ([None]
    without an ensemble). *)
Record Surroundings := {
  evaluationModule : EvaluationModule;
  artifactsEnabled : bool;
  makeTempDirError : nat -> option string;
  writeFileError : nat -> option string;
  llmFeedback : option (nat -> list (string * Q))
}.

(** The [try] block of one attempt: the result whose metrics it returns
    and whose artifacts it stores, or what it throws. *)
Definition tryBlock (cfg : EvaluatorConfig) (env : Surroundings) (attempt : nat) : Settled :=
  match writeFileError env attempt with
  | Some message => Rejected (WithMessage message)
  | None =>
      match (if cascadeEvaluation cfg
             then cascadeEvaluate cfg (evaluationModule env) attempt
             else directEvaluate cfg (evaluationModule env) attempt) with
      | Rejected error => Rejected error
      | Resolved result =>
          match useLlmFeedback cfg, llmFeedback env with
          | true, Some llm =>
              Resolved
                (mkResult
                   (fold_left
                      (fun acc kv =>
                         mapSet ("llm_" +:+ fst kv) (snd kv * llmFeedbackWeight cfg)%Q acc)
                      (llm attempt) (metrics result))
                   (artifacts result))
          | _, _ => Resolved result
          end
      end
  end.

(** The sleep that ends the [catch] block of an attempt that is not the
    last. *)
Definition sleepBeforeRetry (cfg : EvaluatorConfig) (attempt : nat) : list Event :=
  if (attempt <? maxRetries cfg)%nat then [Sleep 1000] else [].

(** The retry loop of [evaluateProgram], from attempt [attempt] on with
    [remaining] attempts left: how the call ends, the pending-artifacts map
    and the events, oldest first.  [mkdtempSync] is called before the [try],
    so what it throws leaves the function; so does the [TypeError] of the
    [catch] block that reads the message of [null] or [undefined] for the
    failure record. *)
Fixpoint attempts (cfg : EvaluatorConfig) (env : Surroundings) (programId : string)
    (remaining attempt : nat) (pending : gmap string Artifacts) (events : list Event)
  : Outcome * gmap string Artifacts * list Event :=
  match remaining with
  | O => (Returned [("error", 0%Q)], pending, events)
  | S remaining' =>
      match makeTempDirError env attempt with
      | Some message => (Raised (WithMessage message), pending, events)
      | None =>
          let events := events ++ [Attempt attempt] in
          match tryBlock cfg env attempt with
          | Resolved result =>
              match artifacts result with
              | Some a =>
                  if artifactsEnabled env && truthy programId
                  then (Returned (metrics result), <[programId := Produced a]> pending,
                        events ++ [SetPending programId (Produced a)])
                  else (Returned (metrics result), pending, events)
              | None => (Returned (metrics result), pending, events)
              end
          | Rejected error =>
              if artifactsEnabled env && truthy programId then
                match messageOf error with
                | inl typeError => (Raised typeError, pending, events)
                | inr message =>
                    let record := FailureRecord message "evaluation" (attempt + 1) in
                    attempts cfg env programId remaining' (S attempt)
                      (<[programId := record]> pending)
                      ((events ++ [SetPending programId record])
                       ++ sleepBeforeRetry cfg attempt)
                end
              else
                attempts cfg env programId remaining' (S attempt) pending
                  (events ++ sleepBeforeRetry cfg attempt)
          end
      end
  end.

(** [evaluateProgram(programCode, programId = '')]. *)
Definition evaluateProgram (cfg : EvaluatorConfig) (env : Surroundings)
    (programId : string) (pending : gmap string Artifacts)
  : Outcome * gmap string Artifacts * list Event :=
  attempts cfg env programId (maxRetries cfg + 1) 0 pending [].

(** The events of a failed attempt [a] whose error has the message
    [message a]. *)
Definition failedAttemptEvents (cfg : EvaluatorConfig) (recording : bool)
    (programId : string) (message : nat -> option string) (a : nat) : list Event :=
  [Attempt a]
  ++ (if recording
      then [SetPending programId (FailureRecord (message a) "evaluation" (a + 1))]
      else [])
  ++ sleepBeforeRetry cfg a.

(** An evaluation module whose [evaluate] always throws. *)
Definition alwaysThrows (error : Thrown) : EvaluationModule :=
  {| evaluate := fun _ => Throws error;
     evaluate_stage1 := None; evaluate_stage2 := None; evaluate_stage3 := None |}.

(** [getPendingArtifacts(programId)]: the entry, and the map without it. *)
Definition getPendingArtifacts (pending : gmap string Artifacts) (programId : string)
  : option Artifacts * gmap string Artifacts :=
  (pending !! programId, delete programId pending).

(** The attempts and the sleeps among the events. *)
Definition attemptsMade (events : list Event) : list nat :=
  omap (fun ev => match ev with Attempt a => Some a | _ => None end) events.

Definition sleepsMade (events : list Event) : nat :=
  length (List.filter (fun ev => match ev with Sleep _ => true | _ => false end) events).

End Evaluator.

(** ** prompt/templates.ts *)

Module TemplateManager.

(** A directory: file names and contents in the order of [readdirSync]. *)
Definition Directory := list (string * string).

(** [file.endsWith(suffix)]. *)
Definition endsWith (file suffix : string) : bool :=
  (String.length suffix <=? String.length file)%nat
  && String.eqb (sliceFrom (String.length file - String.length suffix) file) suffix.

(** [path.basename(file, suffix)] for a file name that ends with [suffix]. *)
Definition basename (file suffix : string) : string :=
  String.substring 0 (String.length file - String.length suffix) file.

(** [loadTemplatesFromDir(dir)]; [None] is a directory that does not
    exist. *)
Definition loadTemplatesFromDir (dir : option Directory)
    (templates : gmap string string) : gmap string string :=
  match dir with
  | None => templates
  | Some files =>
      fold_left
        (fun acc file =>
           if endsWith (fst file) ".txt"
           then <[basename (fst file) ".txt" := snd file]> acc
           else acc)
        files templates
  end.

(** [loadTemplates()], for the file system [fs]. *)
Definition loadTemplates (fs : string -> option Directory)
    (customTemplateDir : option string) (defaultTemplateDir : string)
  : gmap string string :=
  let templates :=
    match customTemplateDir with
    | Some dir =>
        if truthy dir then loadTemplatesFromDir (fs dir) ∅ else ∅
    | None => ∅
    end in
  loadTemplatesFromDir (fs defaultTemplateDir) templates.

(** [getTemplate(name)]. *)
Definition getTemplate (templates : gmap string string) (name : string) : string :=
  match templates !! name with
  | Some template => template
  | None => EmptyString
  end.

(** [hasTemplate(name)]. *)
Definition hasTemplate (templates : gmap string string) (name : string) : bool :=
  bool_decide (is_Some (templates !! name)).

(** The names under which a directory defines templates. *)
Definition templateNames (dir : option Directory) : list string :=
  match dir with
  | None => []
  | Some files =>
      map (fun file => basename (fst file) ".txt")
          (List.filter (fun file => endsWith (fst file) ".txt") files)
  end.

End TemplateManager.

(** ** controller.ts: the run loop *)

Module EvolutionEngine.

Inductive RunState := idle | running | paused | completed | failed.

(** [EvolutionStatus]. *)
Record EvolutionStatus := mkStatus {
  status : RunState;
  iteration : nat;
  totalIterations : nat;
  bestScore : option Q
}.

(** What the loop uses of the rest of the engine.  [runIteration] returns
    the engine after the iteration and whether the iteration threw;
    [bestCombinedScore] is [getBestProgram().metrics.combined_score], and
    [None] when there is no best program or no such metric;
    [shouldStop] is the stop flag; [saveCheckpoint] returns whether it
    threw; [hasErrorListener] tells whether a listener of the ['error']
    event is registered, without which [emit('error', error)] throws;
    [configMaxIterations] is [config.maxIterations].  Listeners are taken
    not to throw. *)
Record Engine (World : Type) := {
  runIteration : nat -> World -> World * bool;
  bestCombinedScore : World -> option Q;
  hasBestProgram : World -> bool;
  shouldStop : World -> bool;
  saveCheckpoint : nat -> World -> World * bool;
  hasErrorListener : World -> bool;
  checkpointInterval : nat;
  configMaxIterations : nat
}.
Arguments runIteration {World}.
Arguments bestCombinedScore {World}.
Arguments hasBestProgram {World}.
Arguments shouldStop {World}.
Arguments saveCheckpoint {World}.
Arguments hasErrorListener {World}.
Arguments checkpointInterval {World}.
Arguments configMaxIterations {World}.

(** The state of the loop: the engine, the status object, the iterations run
    so far, oldest first, whether the loop was left through the [break] of
    the target check, and whether it was left by the throw of
    [emit('error', error)] in the [catch] block. *)
Record Loop (World : Type) := mkLoop {
  world : World;
  currentStatus : EvolutionStatus;
  iterationsRun : list nat;
  leftOnTarget : bool;
  leftOnError : bool
}.
Arguments mkLoop {World}.
Arguments world {World}.
Arguments currentStatus {World}.
Arguments iterationsRun {World}.
Arguments leftOnTarget {World}.
Arguments leftOnError {World}.

(** [best && best.metrics.combined_score >= targetScore]. *)
Definition targetReached {World} (e : Engine World) (w : World) (targetScore : option Q) : bool :=
  match targetScore with
  | None => false
  | Some target =>
      hasBestProgram e w &&
      match bestCombinedScore e w with
      | Some score => Qle_bool target score
      | None => false
      end
  end.

(** [iteration % this.config.checkpointInterval === 0]. *)
Definition checkpointDue {World} (e : Engine World) (iteration : nat) : bool :=
  if (checkpointInterval e =? 0)%nat then false
  else (iteration mod checkpointInterval e =? 0)%nat.

(** [maxIterations || this.config.maxIterations]: an absent argument and
    the argument 0 give the configured number. *)
Definition iterationCount {World} (e : Engine World) (maxIterations : option nat) : nat :=
  match maxIterations with
  | Some (S n) => S n
  | _ => configMaxIterations e
  end.

(** The [for] loop of [run], from [iteration] on; [remaining] is the number
    of iterations up to the last one.  The [catch] block emits the error:
    with a listener the loop goes on, without one the throw of [emit] ends
    the call. *)
Fixpoint loop {World} (e : Engine World) (targetScore : option Q)
    (remaining iteration : nat) (s : Loop World) : Loop World :=
  match remaining with
  | O => s
  | S remaining' =>
      if shouldStop e (world s) then s
      else
        let (w1, threw) := runIteration e iteration (world s) in
        let ran := iterationsRun s ++ [iteration] in
        if threw then
          if hasErrorListener e w1 then
            loop e targetScore remaining' (S iteration)
                 (mkLoop w1 (currentStatus s) ran false false)
          else mkLoop w1 (currentStatus s) ran false true
        else if targetReached e w1 targetScore then
          mkLoop w1 (currentStatus s) ran true false
        else
          let (w2, threw) :=
            if checkpointDue e iteration then saveCheckpoint e iteration w1
            else (w1, false) in
          if threw then
            if hasErrorListener e w2 then
              loop e targetScore remaining' (S iteration)
                   (mkLoop w2 (currentStatus s) ran false false)
            else mkLoop w2 (currentStatus s) ran false true
          else
            let st := currentStatus s in
            let st' := mkStatus (status st) iteration (totalIterations st)
                                (if hasBestProgram e w2 then bestCombinedScore e w2 else None) in
            loop e targetScore remaining' (S iteration) (mkLoop w2 st' ran false false)
  end.

(** [run(maxIterations?, targetScore?)] after initialization: the loop,
    then the final status; a call that the throw of [emit] ends leaves the
    status as the loop left it. *)
Definition run {World} (e : Engine World) (maxIterations : option nat)
    (targetScore : option Q) (w : World) : Loop World :=
  let iterations := iterationCount e maxIterations in
  let s := loop e targetScore iterations 1
                (mkLoop w (mkStatus running 0 iterations None) [] false false) in
  if leftOnError s then s
  else
    mkLoop (world s)
           (mkStatus completed (iteration (currentStatus s))
                     (totalIterations (currentStatus s)) (bestScore (currentStatus s)))
           (iterationsRun s) (leftOnTarget s) false.

End EvolutionEngine.

(** ** Fixtures of the examples *)

(** The surroundings of a direct evaluation whose [evaluate] throws. *)
Definition throwingSurroundings (enabled : bool) : Evaluator.Surroundings :=
  {| Evaluator.evaluationModule := Evaluator.alwaysThrows (Evaluator.WithMessage "boom");
     Evaluator.artifactsEnabled := enabled;
     Evaluator.makeTempDirError := fun _ => None;
     Evaluator.writeFileError := fun _ => None;
     Evaluator.llmFeedback := None |}.

(** The surroundings of a direct evaluation whose [evaluate] returns a
    promise that rejects with [null]. *)
Definition rejectingNull : Evaluator.Surroundings :=
  {| Evaluator.evaluationModule := Evaluator.alwaysThrows Evaluator.ThrownNull;
     Evaluator.artifactsEnabled := true;
     Evaluator.makeTempDirError := fun _ => None;
     Evaluator.writeFileError := fun _ => None;
     Evaluator.llmFeedback := None |}.

(** Surroundings in which the temporary directory cannot be created. *)
Definition fullDisk : Evaluator.Surroundings :=
  {| Evaluator.evaluationModule := Evaluator.alwaysThrows (Evaluator.WithMessage "boom");
     Evaluator.artifactsEnabled := true;
     Evaluator.makeTempDirError := fun _ => Some "ENOSPC: no space left on device, mkdtemp";
     Evaluator.writeFileError := fun _ => None;
     Evaluator.llmFeedback := None |}.

Definition directConfig (retries : nat) : EvaluatorConfig :=
  {| timeout := 300; maxRetries := retries; cascadeEvaluation := false;
     cascadeThresholds := [5 # 10; 75 # 100; 9 # 10];
     useLlmFeedback := false; llmFeedbackWeight := 1 # 10 |}.

(** A file system with a user directory and the defaults directory, both
    holding [diff_user.txt]. *)
Definition collidingFiles (path : string) : option TemplateManager.Directory :=
  if String.eqb path "user" then Some [("diff_user.txt", "USER TEXT"); ("extra.txt", "EXTRA")]
  else if String.eqb path "defaults" then Some [("diff_user.txt", "DEFAULT TEXT")]
  else None.

(** An engine whose world is the number of iterations done: the best
    combined score after [n] iterations is [n / 10], nothing throws and no
    stop is requested. *)
Definition countingEngine : EvolutionEngine.Engine nat :=
  {| EvolutionEngine.runIteration := fun _ w => (S w, false);
     EvolutionEngine.bestCombinedScore := fun w => Some (inject_Z (Z.of_nat w) / 10)%Q;
     EvolutionEngine.hasBestProgram := fun _ => true;
     EvolutionEngine.shouldStop := fun _ => false;
     EvolutionEngine.saveCheckpoint := fun _ w => (w, false);
     EvolutionEngine.hasErrorListener := fun _ => false;
     EvolutionEngine.checkpointInterval := 100;
     EvolutionEngine.configMaxIterations := 3 |}.

(** A database of one island that keeps a single program. *)
Definition singletonConfig : DatabaseConfig :=
  {| populationSize := 1; archiveSize := 100; numIslands := 1;
     explorationRatio := 2 # 10; exploitationRatio := 7 # 10;
     featureDimensions := ["complexity"; "diversity"];
     featureBins := BinsNumber 10;
     migrationInterval := 50; migrationRate := 1 # 10 |}.

(** [add] applied to each program in turn, on island 0. *)
Definition addAll (d : ProgramDatabase.t) (ps : list Program) : option ProgramDatabase.t :=
  foldOpt (fun d p => ProgramDatabase.add d p None (Some 0)) ps d.

(** The entry of a cell of an island. *)
Definition cellOf (d : ProgramDatabase.t) (k : nat) (key : string) : option string :=
  match ProgramDatabase.islandFeatureMaps d !! k with
  | Some cells => cells !! key
  | None => None
  end.

(** An injective enumeration of identifiers: [p], [pi], [pii], ... *)
Definition tallyUuid (n : nat) : string := String "p"%char (Nat.iter n (String "i"%char) EmptyString).

(** The default database after the insertion of one program, and after the
    insertion of a better program of the same cell. *)
Definition oneProgramDb : ProgramDatabase.t :=
  match ProgramDatabase.add (ProgramDatabase.new defaultDatabaseConfig)
          (exampleProgram (tallyUuid 0) (5 # 10) 1) None (Some 0) with
  | Some d => d
  | None => ProgramDatabase.new defaultDatabaseConfig
  end.

Definition twoProgramDb : ProgramDatabase.t :=
  match ProgramDatabase.add oneProgramDb
          (exampleProgram (tallyUuid 1) (8 # 10) 2) None (Some 0) with
  | Some d => d
  | None => oneProgramDb
  end.

(** The default database with two residents on island 0: the second program
    is worse than the first and shares its cell. *)
Definition pairDb : ProgramDatabase.t :=
  match ProgramDatabase.add oneProgramDb
          (exampleProgram (tallyUuid 1) (2 # 10) 2) None (Some 0) with
  | Some d => d
  | None => oneProgramDb
  end.

(** Three insertions of which the second repeats the identifier of the
    first, with a longer code and hence another cell. *)
Definition repeatedId : list Program :=
  [Prog.mk "a" "x=1" None 0 0 [("combined_score", 5 # 10)] 3 0 1;
   Prog.mk "a" "x=12" None 0 0 [("combined_score", 5 # 10)] 4 0 2;
   Prog.mk "b" "x=3" None 0 0 [("combined_score", 9 # 10)] 3 0 3].

(** Backtracking settings with the default threshold and the weights of the
    power 1, and a tracker after two improving programs on island 0. *)
Definition exampleBacktrackConfig : BacktrackConfig :=
  {| stagnationThreshold := 1 # 1000;
     powerLawWeight := fun idx => (1 / inject_Z (Z.of_nat (idx + 1)))%Q |}.

Definition trackedTwice : MomentumTracker.t :=
  MomentumTracker.updates (MomentumTracker.new defaultPACEvolveConfig)
    [MomentumTracker.mkCall (exampleProgram "a" (5 # 10) 0) 1 0 None;
     MomentumTracker.mkCall (exampleProgram "b" (8 # 10) 1) 2 0 None].

(** A coordinator that has recorded progress 0 for island 0 and progress 1
    for island 1. *)
Definition laggingCoordinator : CollaborativeEvolution.t :=
  CollaborativeEvolution.updateIslandProgress
    (CollaborativeEvolution.updateIslandProgress
       (CollaborativeEvolution.new {| enableCE := true; crossoverFrequency := 20 |})
       1 (8 # 10) (Some (4 # 10)) None)
    0 (4 # 10) (Some (4 # 10)) None.

(** The surroundings of a direct evaluation that throws at the first
    attempt and returns a score afterwards. *)
Definition flakySurroundings : Evaluator.Surroundings :=
  {| Evaluator.evaluationModule :=
       {| Evaluator.evaluate := fun attempt =>
            if (attempt =? 0)%nat then Evaluator.Throws (Evaluator.WithMessage "boom")
            else Evaluator.Returns (Evaluator.MetricsObject [("combined_score", 1 # 2)]);
          Evaluator.evaluate_stage1 := None;
          Evaluator.evaluate_stage2 := None;
          Evaluator.evaluate_stage3 := None |};
     Evaluator.artifactsEnabled := true;
     Evaluator.makeTempDirError := fun _ => None;
     Evaluator.writeFileError := fun _ => None;
     Evaluator.llmFeedback := None |}.

(** A cascade whose first stage throws, and its configuration. *)
Definition throwingCascade : Evaluator.Surroundings :=
  {| Evaluator.evaluationModule :=
       {| Evaluator.evaluate := fun _ => Evaluator.Throws (Evaluator.WithMessage "unused");
          Evaluator.evaluate_stage1 :=
            Some (fun _ => Evaluator.Throws (Evaluator.WithMessage "stage one failed"));
          Evaluator.evaluate_stage2 := None;
          Evaluator.evaluate_stage3 := None |};
     Evaluator.artifactsEnabled := true;
     Evaluator.makeTempDirError := fun _ => None;
     Evaluator.writeFileError := fun _ => None;
     Evaluator.llmFeedback := None |}.

Definition cascadeConfig (retries : nat) : EvaluatorConfig :=
  {| timeout := 300; maxRetries := retries; cascadeEvaluation := true;
     cascadeThresholds := [5 # 10; 75 # 100; 9 # 10];
     useLlmFeedback := false; llmFeedbackWeight := 1 # 10 |}.


(** The same engine with nobody listening for errors. *)
Definition unheardEngine : EvolutionEngine.Engine nat :=
  {| EvolutionEngine.runIteration := fun _ w => (S w, true);
     EvolutionEngine.bestCombinedScore := fun _ => None;
     EvolutionEngine.hasBestProgram := fun _ => false;
     EvolutionEngine.shouldStop := fun _ => false;
     EvolutionEngine.saveCheckpoint := fun _ w => (w, false);
     EvolutionEngine.hasErrorListener := fun _ => false;
     EvolutionEngine.checkpointInterval := 100;
     EvolutionEngine.configMaxIterations := 3 |}.

(** The database [twoProgramDb] after a migration. *)
Definition migratedDb : ProgramDatabase.t :=
  match ProgramDatabase.migratePrograms tallyUuid twoProgramDb 2 with
  | Some (d, _) => d
  | None => twoProgramDb
  end.

(** The statistics of a dimension that has seen the values 0 and 22. *)
Definition seenZeroTo22 : gmap string FeatureBinning.Stat :=
  <["complexity" := FeatureBinning.mkStat (JsNumber.Finite 0) (JsNumber.Finite 22)
                      [JsNumber.Finite 0; JsNumber.Finite 22]]> ∅.

(** [Number.MAX_VALUE]. *)
Definition maxValue : Q := inject_Z (2 ^ 1024 - 2 ^ 971).

(** The statistics of a dimension that has seen [-Number.MAX_VALUE]. *)
Definition seenLowest : gmap string FeatureBinning.Stat :=
  <["score" := FeatureBinning.mkStat (JsNumber.Finite (- maxValue))
                 (JsNumber.Finite (- maxValue)) [JsNumber.Finite (- maxValue)]]> ∅.

(** The default policy after [n] updates under the momentum 0.02. *)
Definition risingPolicy (n : nat) : AdaptiveSamplingPolicy.t :=
  Nat.iter n
    (fun p => AdaptiveSamplingPolicy.update JsNumber.binary64 p
                (progressWithMomentum (2 # 100)) None None)
    (AdaptiveSamplingPolicy.new JsNumber.binary64 defaultPACEvolveConfig).
(* ================================================================== *)
(** * Part II.  Properties                                             *)
(* ================================================================== *)

(** ** Diff application *)

Lemma startsWith_spec search s :
  startsWith search s = true <-> s = search +:+ sliceFrom (String.length search) s.
Proof.
  revert s; induction search as [|a search IH]; intros s; simpl.
  - split; auto.
  - destruct s as [|b s]; simpl.
    + split; discriminate.
    + rewrite andb_true_iff, Ascii.eqb_eq, IH. split.
      * intros [-> H]. now f_equal.
      * intros H. injection H as -> H. auto.
Qed.

Lemma sliceFrom_app (p q : string) : sliceFrom (String.length p) (p +:+ q) = q.
Proof. induction p; simpl; auto. Qed.

Lemma startsWith_app (x q : string) : startsWith x (x +:+ q) = true.
Proof. apply startsWith_spec. now rewrite sliceFrom_app. Qed.

Lemma splitAtFirst_sound search s before after :
  splitAtFirst search s = Some (before, after) ->
  s = before +:+ search +:+ after.
Proof.
  revert before after; induction s as [|c s IH]; intros before after; simpl.
  - destruct (startsWith search EmptyString) eqn:E; [|discriminate].
    intros [= <- <-]. now apply startsWith_spec.
  - destruct (startsWith search (String c s)) eqn:E.
    + intros [= <- <-]. now apply startsWith_spec.
    + destruct (splitAtFirst search s) as [[b a]|] eqn:F; [|discriminate].
      intros [= <- <-]. simpl. f_equal. now apply IH.
Qed.

Lemma splitAtFirst_least search s before after :
  splitAtFirst search s = Some (before, after) ->
  forall p q, s = p +:+ search +:+ q -> String.length before <= String.length p.
Proof.
  revert before after; induction s as [|c s IH]; intros before after; simpl.
  - destruct (startsWith search EmptyString); [|discriminate].
    intros [= <- <-] p q _. simpl. lia.
  - destruct (startsWith search (String c s)) eqn:E.
    + intros [= <- <-] p q _. simpl. lia.
    + destruct (splitAtFirst search s) as [[b a]|] eqn:F; [|discriminate].
      intros [= <- <-] p q Hs. destruct p as [|c' p]; simpl in Hs.
      * rewrite Hs, startsWith_app in E. discriminate.
      * injection Hs as -> Hs. simpl. specialize (IH _ _ eq_refl _ _ Hs). lia.
Qed.

Lemma splitAtFirst_here search s :
  startsWith search s = true ->
  splitAtFirst search s = Some (EmptyString, sliceFrom (String.length search) s).
Proof. intros H. destruct s; simpl; now rewrite H. Qed.

Lemma splitAtFirst_complete search s p q :
  s = p +:+ search +:+ q -> splitAtFirst search s <> None.
Proof.
  revert s; induction p as [|c p IH]; intros s ->.
  - simpl. now rewrite splitAtFirst_here by apply startsWith_app.
  - simpl. destruct (startsWith search (String c (p +:+ search +:+ q))); [discriminate|].
    specialize (IH _ eq_refl).
    destruct (splitAtFirst search (p +:+ search +:+ q)) as [[? ?]|]; congruence.
Qed.

Lemma getSubstitution_literal matched before after template :
  noDollar template = true ->
  getSubstitution matched before after template = template.
Proof.
  induction template as [|c t IH]; simpl; auto.
  rewrite andb_true_iff, negb_true_iff. intros [-> H]. now rewrite IH.
Qed.

Lemma string_app_inj_length (p1 p2 a b : string) :
  p1 +:+ a = p2 +:+ b -> String.length p1 = String.length p2 -> p1 = p2 /\ a = b.
Proof.
  revert p2; induction p1 as [|c p1 IH]; intros [|c2 p2]; simpl; try discriminate; auto.
  intros [= -> H] [= L]. destruct (IH _ H L) as [-> ->]. auto.
Qed.

Lemma indexOf_None_iff search s : indexOf search s = None <-> ~ occursIn search s.
Proof.
  unfold indexOf, occursIn. split.
  - intros H (p & q & Hs). apply (splitAtFirst_complete _ _ _ _ Hs).
    destruct (splitAtFirst search s) as [[? ?]|]; [discriminate|reflexivity].
  - intros H. destruct (splitAtFirst search s) as [[b a]|] eqn:E; [|reflexivity].
    exfalso. apply H. exists b, a. now apply splitAtFirst_sound.
Qed.

Lemma jsReplace_literal s search replacement before after :
  splitAtFirst search s = Some (before, after) ->
  noDollar replacement = true ->
  jsReplace s search replacement = before +:+ replacement +:+ after.
Proof.
  intros E H. unfold jsReplace. rewrite E. now rewrite getSubstitution_literal.
Qed.

Lemma jsReplace_roundtrip C X Y :
  noDollar X = true -> noDollar Y = true ->
  indexOf X C <> None ->
  indexOf Y (jsReplace C X Y) = indexOf X C ->
  jsReplace (jsReplace C X Y) Y X = C.
Proof.
  intros HX HY Hocc Hidx. unfold indexOf in Hocc, Hidx.
  destruct (splitAtFirst X C) as [[b a]|] eqn:E; [clear Hocc|congruence].
  rewrite (jsReplace_literal _ _ _ _ _ E HY) in *.
  destruct (splitAtFirst Y (b +:+ Y +:+ a)) as [[b2 a2]|] eqn:F; [|discriminate].
  injection Hidx as Hlen.
  rewrite (jsReplace_literal _ _ _ _ _ F HX).
  pose proof (splitAtFirst_sound _ _ _ _ F) as HR.
  destruct (string_app_inj_length _ _ _ _ HR (eq_sym Hlen)) as [-> HR'].
  destruct (string_app_inj_length _ _ _ _ HR' eq_refl) as [_ ->].
  symmetry. now apply splitAtFirst_sound.
Qed.

(** C7, as the code has it.  A diff whose search text does not occur in the
    code leaves the code unchanged.  When it occurs and the replacement holds
    no dollar sign, the first occurrence, and only it, is replaced by the
    replacement text.  Applying a diff and then its inverse gives the code
    back when neither text holds a dollar sign and the first occurrence of
    the replacement in the patched code is the one just written. *)
Theorem applyDiffs_single_diff (C X Y : string) :
  (~ occursIn X C -> applyDiffs C [mkDiff X Y] = C) /\
  (forall before after,
      splitAtFirst X C = Some (before, after) ->
      C = before +:+ X +:+ after /\
      (forall p q, C = p +:+ X +:+ q -> String.length before <= String.length p) /\
      (noDollar Y = true -> applyDiffs C [mkDiff X Y] = before +:+ Y +:+ after)) /\
  (noDollar X = true -> noDollar Y = true ->
   occursIn X C ->
   indexOf Y (applyDiffs C [mkDiff X Y]) = indexOf X C ->
   applyDiffs (applyDiffs C [mkDiff X Y]) [mkDiff Y X] = C).
Proof.
  repeat split.
  - intros H. apply indexOf_None_iff in H. unfold indexOf in H. simpl. unfold jsReplace.
    destruct (splitAtFirst X C) as [[? ?]|]; [discriminate|reflexivity].
  - now apply splitAtFirst_sound.
  - now apply splitAtFirst_least with (after := after).
  - intros HY. simpl. now apply jsReplace_literal.
  - intros HX HY Hocc Hidx. simpl in *. apply jsReplace_roundtrip; auto.
    intros HN. now apply indexOf_None_iff in HN.
Qed.

(** The three parts of [applyDiffs_single_diff] at concrete texts. *)
Lemma applyDiffs_single_diff_witness :
  applyDiffs "x=1" [mkDiff "y" "z"] = "x=1" /\
  applyDiffs "a=1;b=1" [mkDiff "=1" "=2"] = "a=2;b=1" /\
  applyDiffs (applyDiffs "x=1" [mkDiff "1" "2"]) [mkDiff "2" "1"] = "x=1".
Proof.
  split; [|split].
  - apply (proj1 (applyDiffs_single_diff "x=1" "y" "z")).
    apply indexOf_None_iff. reflexivity.
  - apply (proj1 (proj2 (applyDiffs_single_diff "a=1;b=1" "=1" "=2")) "a" ";b=1");
      reflexivity.
  - apply (proj2 (proj2 (applyDiffs_single_diff "x=1" "1" "2"))); try reflexivity.
    exists "x=", EmptyString. reflexivity.
Defined.

(** C7 as stated fails: the search text occurs exactly once, yet the inverse
    diff rewrites an earlier occurrence of the replacement text. *)
Lemma applyDiffs_roundtrip_fails :
  countOccurrences "a" "ba" = 1 /\
  applyDiffs (applyDiffs "ba" [mkDiff "a" "b"]) [mkDiff "b" "a"] = "ab" /\
  applyDiffs (applyDiffs "ba" [mkDiff "a" "b"]) [mkDiff "b" "a"] <> "ba".
Proof. repeat split. discriminate. Qed.

(** A dollar pattern in the replacement text is expanded, not copied. *)
Example jsReplace_expands_dollar_patterns :
  applyDiffs "a" [mkDiff "a" "$&$&"] = "aa" /\
  applyDiffs "x=1" [mkDiff "1" "$$"] = "x=$".
Proof. split; reflexivity. Qed.

(** ** Feature binning *)

Lemma Qltb_lt a b : Qltb a b = true <-> (a < b)%Q.
Proof.
  unfold Qltb. rewrite negb_true_iff. split.
  - intros H. apply Qnot_le_lt. intros Hle. apply Qle_bool_iff in Hle. congruence.
  - intros H. destruct (Qle_bool b a) eqn:E; [|reflexivity].
    apply Qle_bool_iff in E. exfalso. apply (Qlt_not_le _ _ H E).
Qed.

Lemma Qltb_ge a b : Qltb a b = false <-> (b <= a)%Q.
Proof.
  unfold Qltb. rewrite negb_false_iff. apply Qle_bool_iff.
Qed.

Lemma checkedDiv_nonzero a b : ~ (b == 0)%Q -> checkedDiv a b = Some (a / b)%Q.
Proof.
  intros H. unfold checkedDiv. destruct (Qeq_bool b 0) eqn:E; [|reflexivity].
  apply Qeq_bool_iff in E. contradiction.
Qed.

Lemma Qdiv_nonneg a b : (0 <= a)%Q -> (0 < b)%Q -> (0 <= a / b)%Q.
Proof.
  intros Ha Hb. apply Qle_shift_div_l; [exact Hb|]. lra.
Qed.

Lemma binIndex_bounds (value mn mx : Q) (bins : Z) :
  (0 < bins)%Z -> (mn <= value)%Q -> (value <= mx)%Q -> ~ (mx - mn == 0)%Q ->
  (0 <= Z.min (Qfloor ((value - mn) / (mx - mn) * inject_Z bins)) (bins - 1) <= bins - 1)%Z.
Proof.
  intros Hb H1 H2 Hr. split; [|apply Z.le_min_r].
  apply Z.min_glb; [|lia].
  assert (Hpos : (0 < mx - mn)%Q) by (destruct (Qlt_le_dec 0 (mx - mn)); [assumption|exfalso; apply Hr; lra]).
  assert (Hq : (0 <= (value - mn) / (mx - mn))%Q) by (apply Qdiv_nonneg; lra).
  assert (HB : (0 <= inject_Z bins)%Q) by (change 0%Q with (inject_Z 0); rewrite <- Zle_Qle; lia).
  rewrite <- (Qfloor_Z 0). apply Qfloor_resp_le. simpl.
  apply Qmult_le_0_compat; assumption.
Qed.

(** In the database, whose numbers are exact rationals, [valueTobin]
    returns a bin index between 0 and [bins - 1] for a positive bin count,
    and the divisor is not zero. *)
Lemma valueTobin_of_rationals (stats : gmap string FeatureStat.t)
    (dimension : string) (value : Q) (bins : Z) :
  (0 < bins)%Z ->
  exists stats' binIdx,
    ProgramDatabase.valueTobin stats dimension value bins = Some (stats', binIdx) /\
    (0 <= binIdx <= bins - 1)%Z /\
    match stats !! dimension with
    | None =>
        binIdx = 0%Z /\
        stats' = <[dimension := FeatureStat.mk value value [value]]> stats
    | Some st =>
        let mn := Qmin (FeatureStat.min st) value in
        let mx := Qmax (FeatureStat.max st) value in
        stats' = <[dimension := FeatureStat.mk mn mx (FeatureStat.values st ++ [value])]> stats /\
        ((mx - mn == 0)%Q -> binIdx = 0%Z) /\
        (~ (mx - mn == 0)%Q ->
         checkedDiv (value - mn) (mx - mn) = Some ((value - mn) / (mx - mn))%Q /\
         binIdx = Z.min (Qfloor ((value - mn) / (mx - mn) * inject_Z bins)) (bins - 1))
    end.
Proof.
  intros Hb. unfold ProgramDatabase.valueTobin.
  destruct (stats !! dimension) as [st|] eqn:E.
  - cbv zeta. destruct (Qeq_bool _ 0) eqn:R.
    + apply Qeq_bool_iff in R. eexists _, _. split; [reflexivity|].
      split; [lia|]. split; [reflexivity|]. split; [reflexivity|]. intros H. contradiction.
    + assert (Hr : ~ (Qmax (FeatureStat.max st) value - Qmin (FeatureStat.min st) value == 0)%Q).
      { intros H. apply Qeq_bool_iff in H. congruence. }
      rewrite (checkedDiv_nonzero _ _ Hr). eexists _, _. split; [reflexivity|].
      split.
      * apply binIndex_bounds; auto using Q.le_min_r, Q.le_max_r.
      * split; [reflexivity|]. split; [intros H; contradiction|].
        intros _. split; reflexivity.
  - eexists _, _. split; [reflexivity|]. split; [lia|]. split; reflexivity.
Qed.

Example valueTobin_middle :
  snd <$> ProgramDatabase.valueTobin
      (<["complexity" := FeatureStat.mk 0 10 [0%Q; 10%Q]]> ∅) "complexity" 5 10
  = Some 5%Z.
Proof. vm_compute. reflexivity. Qed.

(** ** Doubles: the rounding of binary64 *)

Section Binary64.
Import JsNumber.

Lemma pow2_pos (e : Z) : (0 < pow2 e)%Q.
Proof. apply Qpower_0_lt. reflexivity. Qed.

Lemma pow2_plus (a b : Z) : (pow2 (a + b) == pow2 a * pow2 b)%Q.
Proof. apply Qpower_plus. discriminate. Qed.

Lemma pow2_succ (a : Z) : (pow2 (a + 1) == 2 * pow2 a)%Q.
Proof. rewrite pow2_plus. unfold pow2 at 2. simpl. ring. Qed.

Lemma pow2_le (a b : Z) : (a <= b)%Z -> (pow2 a <= pow2 b)%Q.
Proof. intros H. apply Qpower_le_compat_l; [exact H|]. unfold Qle. simpl. lia. Qed.

Lemma pow2_lt (a b : Z) : (a < b)%Z -> (pow2 a < pow2 b)%Q.
Proof. intros H. apply Qpower_lt_compat_l; [exact H|reflexivity]. Qed.

Lemma pow2_lt_inv (a b : Z) : (pow2 a < pow2 b)%Q -> (a < b)%Z.
Proof. intros H. apply (Qpower_lt_compat_l_inv 2); [exact H|reflexivity]. Qed.

Lemma pow2_le_inv (a b : Z) : (pow2 a <= pow2 b)%Q -> (a <= b)%Z.
Proof. intros H. apply (Qpower_le_compat_l_inv 2); [exact H|reflexivity]. Qed.

Lemma pow2_inject (k : Z) : (0 <= k)%Z -> (pow2 k == inject_Z (2 ^ k))%Q.
Proof. intros H. unfold pow2. now rewrite Zpower_Qpower. Qed.

(** [floorLog2] is the exponent of the binade of a positive number. *)
Lemma floorLog2_spec (a : Q) :
  (0 < a)%Q -> (pow2 (floorLog2 a) <= a)%Q /\ (a < pow2 (floorLog2 a + 1))%Q.
Proof.
  intros Ha. destruct a as [n d].
  assert (Hn : (0 < n)%Z) by (unfold Qlt in Ha; simpl in Ha; lia).
  unfold floorLog2. cbn [Qnum Qden].
  set (ln := Z.log2 n). set (ld := Z.log2 (Z.pos d)).
  destruct (Z.log2_spec n Hn) as (N1 & N2). fold ln in N1, N2.
  destruct (Z.log2_spec (Z.pos d) eq_refl) as (D1 & D2). fold ld in D1, D2.
  assert (Ln : (0 <= ln)%Z) by apply Z.log2_nonneg.
  assert (Ld : (0 <= ld)%Z) by apply Z.log2_nonneg.
  set (A := inject_Z n). set (D := inject_Z (Z.pos d)).
  assert (Ea : (n # d == A / D)%Q) by apply Qmake_Qdiv.
  set (L := pow2 ln). set (K := pow2 ld).
  assert (HL : (0 < L)%Q) by apply pow2_pos.
  assert (HK : (0 < K)%Q) by apply pow2_pos.
  assert (A1 : (L <= A)%Q) by (subst L A; rewrite pow2_inject by exact Ln; now rewrite <- Zle_Qle).
  assert (A2 : (A < 2 * L)%Q).
  { subst L A. rewrite <- pow2_succ, pow2_inject by lia. rewrite <- Zlt_Qlt.
    now rewrite <- Z.add_1_r in N2. }
  assert (B1 : (K <= D)%Q) by (subst K D; rewrite pow2_inject by exact Ld; now rewrite <- Zle_Qle).
  assert (B2 : (D < 2 * K)%Q).
  { subst K D. rewrite <- pow2_succ, pow2_inject by lia. rewrite <- Zlt_Qlt.
    now rewrite <- Z.add_1_r in D2. }
  assert (HD : (0 < D)%Q) by lra.
  assert (E0 : (pow2 (ln - ld) == L / K)%Q) by (apply Qpower_minus; discriminate).
  assert (Hup : (A / D < 2 * (L / K))%Q).
  { apply Qlt_shift_div_r; [exact HD|].
    assert (H : (2 * (L / K) * D == 2 * L * D / K)%Q) by (field; lra).
    rewrite H. apply Qlt_shift_div_l; [exact HK|]. nra. }
  assert (Hlo : (L / K < 2 * (A / D))%Q).
  { apply Qlt_shift_div_r; [exact HK|].
    assert (H : (2 * (A / D) * K == 2 * A * K / D)%Q) by (field; lra).
    rewrite H. apply Qlt_shift_div_l; [exact HD|]. nra. }
  destruct (Qle_bool (pow2 (ln - ld)) (n # d)) eqn:E.
  - apply Qle_bool_iff in E. split; [exact E|].
    rewrite pow2_succ, E0, Ea. exact Hup.
  - assert (E' : (n # d < pow2 (ln - ld))%Q).
    { apply Qnot_le_lt. intros H. apply Qle_bool_iff in H. congruence. }
    replace (ln - ld - 1 + 1)%Z with (ln - ld)%Z by lia. split; [|exact E'].
    assert (H : (pow2 (ln - ld) == 2 * pow2 (ln - ld - 1))%Q).
    { rewrite <- pow2_succ. replace (ln - ld - 1 + 1)%Z with (ln - ld)%Z by lia. reflexivity. }
    rewrite E0 in H. rewrite Ea. lra.
Qed.

Lemma floorLog2_monotone (a b : Q) :
  (0 < a)%Q -> (a <= b)%Q -> (floorLog2 a <= floorLog2 b)%Z.
Proof.
  intros Ha Hab.
  destruct (floorLog2_spec a Ha) as (A1 & _).
  destruct (floorLog2_spec b) as (_ & B2); [lra|].
  assert (H : (floorLog2 a < floorLog2 b + 1)%Z) by (apply pow2_lt_inv; lra).
  lia.
Qed.

(** ** Rounding to the nearest integer *)

Lemma roundHalfEven_cases (t : Q) :
  let f := Qfloor t in
  (inject_Z f <= t)%Q /\ (t < inject_Z f + 1)%Q /\
  ((t - inject_Z f < 1 # 2)%Q /\ roundHalfEven t = f \/
   (t - inject_Z f == 1 # 2)%Q /\ (roundHalfEven t = f \/ roundHalfEven t = (f + 1)%Z) \/
   (1 # 2 < t - inject_Z f)%Q /\ roundHalfEven t = (f + 1)%Z).
Proof.
  cbv zeta. split; [apply Qfloor_le|]. split.
  - pose proof (Qlt_floor t) as H. rewrite inject_Z_plus in H. exact H.
  - unfold roundHalfEven.
    destruct (Qcompare (t - inject_Z (Qfloor t)) (1 # 2)) eqn:E.
    + apply Qeq_alt in E. right. left. split; [exact E|].
      destruct (Z.even (Qfloor t)); auto.
    + apply Qlt_alt in E. left. auto.
    + apply Qgt_alt in E. right. right. auto.
Qed.

Lemma roundHalfEven_near (t : Q) :
  (t - (1 # 2) <= inject_Z (roundHalfEven t))%Q /\
  (inject_Z (roundHalfEven t) <= t + (1 # 2))%Q.
Proof.
  destruct (roundHalfEven_cases t) as (F1 & F2 & [(H & ->)|[(H & [->| ->])|(H & ->)]]);
    rewrite ?inject_Z_plus; change (inject_Z 1) with 1%Q; lra.
Qed.

Lemma roundHalfEven_comp (s t : Q) : (s == t)%Q -> roundHalfEven s = roundHalfEven t.
Proof.
  intros H. unfold roundHalfEven. rewrite (Qfloor_comp s t H).
  assert (E : (s - inject_Z (Qfloor t) == t - inject_Z (Qfloor t))%Q) by (rewrite H; reflexivity).
  now rewrite (Qcompare_comp _ _ E (1 # 2) (1 # 2) (Qeq_refl _)).
Qed.

Lemma roundHalfEven_integer (t : Q) (k : Z) : (t == inject_Z k)%Q -> roundHalfEven t = k.
Proof.
  intros H. rewrite (roundHalfEven_comp t (inject_Z k) H).
  unfold roundHalfEven. rewrite Qfloor_Z.
  assert (E : (inject_Z k - inject_Z k ?= 1 # 2)%Q = Lt).
  { apply (proj1 (Qlt_alt _ _)). lra. }
  now rewrite E.
Qed.

Lemma roundHalfEven_monotone (s t : Q) :
  (s <= t)%Q -> (roundHalfEven s <= roundHalfEven t)%Z.
Proof.
  intros H.
  pose proof (Qfloor_resp_le s t H) as Hf.
  destruct (roundHalfEven_cases s) as (S1 & S2 & Cs).
  destruct (roundHalfEven_cases t) as (T1 & T2 & Ct).
  destruct (Z.eq_dec (Qfloor s) (Qfloor t)) as [E|E].
  - rewrite E in *.
    destruct (Qcompare (s - inject_Z (Qfloor t)) (1 # 2)) eqn:Cmp.
    + apply Qeq_alt in Cmp.
      destruct (Qeq_dec s t) as [Est|Nst].
      * rewrite (roundHalfEven_comp s t Est). lia.
      * destruct Ct as [(Ht & _)|[(Ht & _)|(Ht & ->)]]; [lra| |].
        -- exfalso. apply Nst. lra.
        -- destruct Cs as [(_ & ->)|[(_ & [->| ->])|(_ & ->)]]; lia.
    + apply Qlt_alt in Cmp.
      destruct Cs as [(_ & ->)|[(Hs & _)|(Hs & _)]]; [|lra|lra].
      destruct Ct as [(_ & ->)|[(_ & [->| ->])|(_ & ->)]]; lia.
    + apply Qgt_alt in Cmp.
      destruct Ct as [(Ht & _)|[(Ht & _)|(_ & ->)]]; [lra|lra|].
      destruct Cs as [(_ & ->)|[(_ & [->| ->])|(_ & ->)]]; lia.
  - assert (Hlt : (Qfloor s + 1 <= Qfloor t)%Z) by lia.
    assert (Hs : (roundHalfEven s <= Qfloor s + 1)%Z)
      by (destruct Cs as [(_ & ->)|[(_ & [->| ->])|(_ & ->)]]; lia).
    assert (Ht : (Qfloor t <= roundHalfEven t)%Z)
      by (destruct Ct as [(_ & ->)|[(_ & [->| ->])|(_ & ->)]]; lia).
    lia.
Qed.

(** ** The nearest double *)

Lemma ulp_pos (a : Q) : (0 < ulp a)%Q.
Proof. apply pow2_pos. Qed.

Lemma nearest_nonneg (a : Q) : (0 < a)%Q -> (0 <= nearest a)%Q.
Proof.
  intros Ha. unfold nearest. pose proof (ulp_pos a) as Hu.
  apply Qmult_le_0_compat; [|lra].
  change 0%Q with (inject_Z 0). rewrite <- Zle_Qle.
  rewrite <- (roundHalfEven_integer 0 0) by reflexivity.
  apply roundHalfEven_monotone. apply Qle_shift_div_l; lra.
Qed.

(** A number below a power of two rounds to at most that power. *)
Lemma nearest_upper (a : Q) (E k : Z) :
  (0 < a)%Q -> ulp a = pow2 E -> (0 <= k)%Z -> (a <= pow2 (E + k))%Q ->
  (nearest a <= pow2 (E + k))%Q.
Proof.
  intros Ha Hu Hk H. unfold nearest. rewrite Hu.
  pose proof (pow2_pos E) as HE.
  rewrite Z.add_comm, pow2_plus, (pow2_inject k) by exact Hk.
  apply Qmult_le_compat_r; [|lra].
  rewrite <- Zle_Qle.
  apply Z.le_trans with (roundHalfEven (inject_Z (2 ^ k)));
    [|rewrite (roundHalfEven_integer _ (2 ^ k)) by reflexivity; lia].
  apply roundHalfEven_monotone. apply Qle_shift_div_r; [exact HE|].
  rewrite <- pow2_inject, <- pow2_plus, Z.add_comm by exact Hk. exact H.
Qed.

(** A number above a power of two rounds to at least that power. *)
Lemma nearest_lower (a : Q) (E k : Z) :
  (0 < a)%Q -> ulp a = pow2 E -> (0 <= k)%Z -> (pow2 (E + k) <= a)%Q ->
  (pow2 (E + k) <= nearest a)%Q.
Proof.
  intros Ha Hu Hk H. unfold nearest. rewrite Hu.
  pose proof (pow2_pos E) as HE.
  rewrite Z.add_comm, pow2_plus, (pow2_inject k) by exact Hk.
  apply Qmult_le_compat_r; [|lra].
  rewrite <- Zle_Qle.
  apply Z.le_trans with (roundHalfEven (inject_Z (2 ^ k)));
    [rewrite (roundHalfEven_integer _ (2 ^ k)) by reflexivity; lia|].
  apply roundHalfEven_monotone. apply Qle_shift_div_l; [exact HE|].
  rewrite <- pow2_inject, <- pow2_plus, Z.add_comm by exact Hk. exact H.
Qed.

Lemma nearest_monotone (a b : Q) :
  (0 < a)%Q -> (a <= b)%Q -> (nearest a <= nearest b)%Q.
Proof.
  intros Ha Hab. assert (Hb : (0 < b)%Q) by lra.
  pose proof (floorLog2_monotone a b Ha Hab) as He.
  destruct (floorLog2_spec a Ha) as (A1 & A2).
  destruct (floorLog2_spec b Hb) as (B1 & B2).
  set (Ea := (Z.max (floorLog2 a) (-1022) - 52)%Z).
  set (Eb := (Z.max (floorLog2 b) (-1022) - 52)%Z).
  destruct (Z.eq_dec Ea Eb) as [E|E].
  - unfold nearest, ulp. fold Ea. fold Eb. rewrite E.
    pose proof (pow2_pos Eb) as HE.
    apply Qmult_le_compat_r; [|lra]. rewrite <- Zle_Qle.
    apply roundHalfEven_monotone. unfold Qdiv. apply Qmult_le_compat_r; [exact Hab|].
    apply Qlt_le_weak, Qinv_lt_0_compat, HE.
  - assert (Hlt : (Ea < Eb)%Z) by (subst Ea Eb; lia).
    apply Qle_trans with (pow2 (Ea + 53)).
    + apply nearest_upper; [exact Ha|reflexivity|lia|].
      apply Qle_trans with (pow2 (floorLog2 a + 1)); [lra|].
      apply pow2_le. subst Ea. lia.
    + apply Qle_trans with (pow2 (Eb + 52)).
      * apply pow2_le. lia.
      * apply nearest_lower; [exact Hb|reflexivity|lia|].
        apply Qle_trans with (pow2 (floorLog2 b)); [|exact B1].
        apply pow2_le. subst Ea Eb. lia.
Qed.

(** In the range of the normal numbers the nearest double is within the
    unit roundoff. *)
Lemma nearest_near (a : Q) :
  (pow2 (-1022) <= a)%Q ->
  (a * (1 - unitRoundoff) <= nearest a)%Q /\ (nearest a <= a * (1 + unitRoundoff))%Q.
Proof.
  intros H. pose proof (pow2_pos (-1022)) as Hp.
  assert (Ha : (0 < a)%Q) by lra.
  destruct (floorLog2_spec a Ha) as (A1 & A2).
  assert (He : (-1022 <= floorLog2 a)%Z).
  { assert (H' : (-1022 < floorLog2 a + 1)%Z) by (apply pow2_lt_inv; lra). lia. }
  unfold nearest, ulp. rewrite Z.max_l by exact He.
  set (e := floorLog2 a) in *. set (w := pow2 (e - 52)).
  assert (Hw : (0 < w)%Q) by apply pow2_pos.
  destruct (roundHalfEven_near (a / w)) as (N1 & N2).
  set (m := inject_Z (roundHalfEven (a / w))) in *.
  assert (Hd : (a / w * w == a)%Q) by (field; lra).
  assert (Hu : (w == 2 * (pow2 e * unitRoundoff))%Q).
  { subst w. unfold unitRoundoff. rewrite <- pow2_plus, <- pow2_succ.
    replace (e + -53 + 1)%Z with (e - 52)%Z by lia. reflexivity. }
  assert (U0 : (0 < unitRoundoff)%Q) by apply pow2_pos.
  assert (Hh : (w * (1 # 2) <= a * unitRoundoff)%Q).
  { rewrite Hu. assert (H0 : (pow2 e * unitRoundoff <= a * unitRoundoff)%Q)
      by (apply Qmult_le_compat_r; lra). lra. }
  assert (M1 : ((a / w - (1 # 2)) * w <= m * w)%Q) by (apply Qmult_le_compat_r; lra).
  assert (M2 : (m * w <= (a / w + (1 # 2)) * w)%Q) by (apply Qmult_le_compat_r; lra).
  assert (D1 : ((a / w - (1 # 2)) * w == a - w * (1 # 2))%Q) by (field; lra).
  assert (D2 : ((a / w + (1 # 2)) * w == a + w * (1 # 2))%Q) by (field; lra).
  rewrite D1 in M1. rewrite D2 in M2. split; lra.
Qed.

(** A multiple of the distance between doubles is a double. *)
Lemma nearest_multiple (a : Q) (k : Z) :
  (a / ulp a == inject_Z k)%Q -> (nearest a == a)%Q.
Proof.
  intros H. unfold nearest. pose proof (ulp_pos a) as Hw.
  rewrite (roundHalfEven_integer _ _ H), <- H. field. lra.
Qed.

(** An integer of at most 53 bits is a double. *)
Lemma nearest_integer (z : Z) :
  (1 <= z <= 2 ^ 53)%Z -> (nearest (inject_Z z) == inject_Z z)%Q.
Proof.
  intros Hz. set (a := inject_Z z).
  assert (Ha1 : (1 <= a)%Q) by (subst a; change 1%Q with (inject_Z 1); rewrite <- Zle_Qle; lia).
  assert (Ha : (0 < a)%Q) by lra.
  destruct (floorLog2_spec a Ha) as (A1 & A2).
  assert (Hz53 : (a <= pow2 53)%Q)
    by (subst a; rewrite pow2_inject by lia; rewrite <- Zle_Qle; lia).
  assert (E0 : (0 <= floorLog2 a)%Z).
  { assert (H : (0 < floorLog2 a + 1)%Z).
    { apply pow2_lt_inv. change (pow2 0) with 1%Q. lra. }
    lia. }
  assert (E1 : (floorLog2 a <= 53)%Z) by (apply pow2_le_inv; lra).
  assert (Hu : ulp a = pow2 (floorLog2 a - 52)) by (unfold ulp; now rewrite Z.max_l by lia).
  set (e := floorLog2 a) in *.
  pose proof (pow2_pos (e - 52)) as Hw.
  destruct (Z.eq_dec e 53%Z) as [E|E].
  - apply (nearest_multiple a (2 ^ 52)). rewrite Hu, E.
    assert (Ea : (a == inject_Z (2 ^ 52) * pow2 (53 - 52))%Q).
    { rewrite <- pow2_inject, <- pow2_plus by lia. rewrite E in A1.
      change (52 + (53 - 52))%Z with 53%Z. lra. }
    rewrite Ea. apply Qdiv_mult_l. pose proof (pow2_pos (53 - 52)). lra.
  - apply (nearest_multiple a (z * 2 ^ (52 - e))). rewrite Hu.
    assert (Ea : (a == inject_Z (z * 2 ^ (52 - e)) * pow2 (e - 52))%Q).
    { rewrite inject_Z_mult, <- pow2_inject by lia. fold a.
      rewrite <- Qmult_assoc, <- pow2_plus.
      replace (52 - e + (e - 52))%Z with 0%Z by lia. change (pow2 0) with 1%Q. ring. }
    rewrite Ea at 1. apply Qdiv_mult_l. lra.
Qed.

(** ** The laws of the rounding *)

Lemma binary64_zero (d : positive) : binary64 (0 # d) = Finite 0.
Proof. reflexivity. Qed.

Lemma binary64_positive (n d : positive) :
  binary64 (Z.pos n # d) =
  if Qle_bool (pow2 1024) (Qred (nearest (Z.pos n # d))) then PlusInfinity
  else Finite (Qred (nearest (Z.pos n # d))).
Proof. reflexivity. Qed.

Lemma binary64_negative (n d : positive) :
  binary64 (Z.neg n # d) =
  if Qle_bool (pow2 1024) (Qred (nearest (Z.pos n # d))) then MinusInfinity
  else Finite (Qred (- Qred (nearest (Z.pos n # d)))).
Proof. reflexivity. Qed.

Lemma Qle_bool_false (a b : Q) : Qle_bool a b = false -> (b < a)%Q.
Proof.
  intros E. apply Qnot_le_lt. intros H. apply Qle_bool_iff in H. congruence.
Qed.

Lemma positive_fraction (n d : positive) : (0 < Z.pos n # d)%Q.
Proof. reflexivity. Qed.

Lemma binary64_monotone (p q : Q) : (p <= q)%Q -> le (binary64 p) (binary64 q).
Proof.
  intros H.
  destruct p as [[|np|np] dp], q as [[|nq|nq] dq];
    try (exfalso; unfold Qle in H; simpl in H; lia);
    rewrite ?binary64_zero, ?binary64_positive, ?binary64_negative.
  - simpl. lra.
  - pose proof (nearest_nonneg _ (positive_fraction nq dq)) as N.
    destruct (Qle_bool _ _); simpl; [exact I|]. now rewrite Qred_correct.
  - pose proof (nearest_monotone _ _ (positive_fraction np dp) H) as M.
    destruct (Qle_bool (pow2 1024) (Qred (nearest (Z.pos nq # dq)))) eqn:Eq;
      destruct (Qle_bool (pow2 1024) (Qred (nearest (Z.pos np # dp)))) eqn:Ep;
      simpl; auto.
    + apply Qle_bool_iff in Ep. apply Qle_bool_false in Eq.
      rewrite Qred_correct in Ep, Eq. lra.
    + now rewrite !Qred_correct.
  - pose proof (nearest_nonneg _ (positive_fraction np dp)) as N.
    destruct (Qle_bool _ _); simpl; [exact I|]. rewrite !Qred_correct. lra.
  - pose proof (nearest_nonneg _ (positive_fraction np dp)) as Np.
    pose proof (nearest_nonneg _ (positive_fraction nq dq)) as Nq.
    destruct (Qle_bool (pow2 1024) (Qred (nearest (Z.pos nq # dq))));
      destruct (Qle_bool (pow2 1024) (Qred (nearest (Z.pos np # dp))));
      simpl; auto.
    rewrite !Qred_correct. lra.
  - assert (H' : (Z.pos nq # dq <= Z.pos np # dp)%Q)
      by (unfold Qle in *; simpl in *; lia).
    pose proof (nearest_monotone _ _ (positive_fraction nq dq) H') as M.
    destruct (Qle_bool (pow2 1024) (Qred (nearest (Z.pos nq # dq)))) eqn:Eq;
      destruct (Qle_bool (pow2 1024) (Qred (nearest (Z.pos np # dp)))) eqn:Ep;
      simpl; auto.
    + apply Qle_bool_iff in Eq. apply Qle_bool_false in Ep.
      rewrite Qred_correct in Ep, Eq. lra.
    + rewrite !Qred_correct. lra.
Qed.

Lemma binary64_nearly (q : Q) :
  (pow2 (-1022) <= Qabs q)%Q -> (Qabs q <= pow2 1023)%Q ->
  exists x, binary64 q = Finite x /\ (Qabs (x - q) <= unitRoundoff * Qabs q)%Q.
Proof.
  intros H1 H2. pose proof (pow2_pos (-1022)) as Hp.
  assert (U1 : (unitRoundoff <= 1 # 2)%Q) by (unfold Qle; vm_compute; discriminate).
  assert (U0 : (0 < unitRoundoff)%Q) by apply pow2_pos.
  assert (Hbig : (pow2 1024 == 2 * pow2 1023)%Q) by (rewrite <- pow2_succ; reflexivity).
  assert (Hfin : forall a, (pow2 (-1022) <= a)%Q -> (a <= pow2 1023)%Q ->
            Qle_bool (pow2 1024) (Qred (nearest a)) = false /\
            (a * (1 - unitRoundoff) <= nearest a)%Q /\
            (nearest a <= a * (1 + unitRoundoff))%Q).
  { intros a A1 A2. destruct (nearest_near a A1) as (N1 & N2).
    split; [|auto].
    destruct (Qle_bool (pow2 1024) (Qred (nearest a))) eqn:E; [|reflexivity].
    apply Qle_bool_iff in E. rewrite Qred_correct in E. nra. }
  destruct q as [[|n|n] d].
  - exfalso. assert (E : (Qabs (0 # d) == 0)%Q) by reflexivity. rewrite E in H1. lra.
  - rewrite binary64_positive.
    change (Qabs (Z.pos n # d)) with (Z.pos n # d) in *.
    destruct (Hfin _ H1 H2) as (-> & N1 & N2).
    eexists. split; [reflexivity|]. rewrite Qred_correct.
    apply Qabs_Qle_condition. split; nra.
  - rewrite binary64_negative.
    change (Qabs (Z.neg n # d)) with (Z.pos n # d) in *.
    destruct (Hfin _ H1 H2) as (-> & N1 & N2).
    eexists. split; [reflexivity|]. rewrite !Qred_correct.
    assert (En : (Z.neg n # d == - (Z.pos n # d))%Q) by reflexivity.
    rewrite En. apply Qabs_Qle_condition. split; nra.
Qed.

Lemma binary64_integer (z : Z) :
  (Z.abs z <= 2 ^ 53)%Z ->
  exists x, binary64 (inject_Z z) = Finite x /\ (x == inject_Z z)%Q.
Proof.
  intros Hz.
  assert (Hfin : forall n, (Z.pos n <= 2 ^ 53)%Z ->
            Qle_bool (pow2 1024) (Qred (nearest (Z.pos n # 1))) = false /\
            (nearest (Z.pos n # 1) == Z.pos n # 1)%Q).
  { intros n Hn. pose proof (nearest_integer (Z.pos n)) as N.
    change (inject_Z (Z.pos n)) with (Z.pos n # 1) in N.
    split; [|apply N; lia].
    destruct (Qle_bool (pow2 1024) (Qred (nearest (Z.pos n # 1)))) eqn:E; [|reflexivity].
    apply Qle_bool_iff in E. rewrite Qred_correct, N in E by lia.
    assert (H53 : (Z.pos n # 1 <= pow2 53)%Q).
    { change (Z.pos n # 1) with (inject_Z (Z.pos n)).
      rewrite pow2_inject by lia. now rewrite <- Zle_Qle. }
    assert (Hlt : (pow2 53 < pow2 1024)%Q) by (apply pow2_lt; lia).
    lra. }
  destruct z as [|n|n]; unfold inject_Z.
  - exists 0%Q. split; reflexivity.
  - rewrite binary64_positive. destruct (Hfin n Hz) as (-> & N).
    eexists. split; [reflexivity|]. now rewrite Qred_correct.
  - rewrite binary64_negative. destruct (Hfin n) as (-> & N); [simpl in Hz; lia|].
    eexists. split; [reflexivity|]. rewrite !Qred_correct, N. reflexivity.
Qed.

(** The rounding of binary64 has the properties that are used. *)
Lemma binary64_rounding : Rounding binary64.
Proof.
  split.
  - apply binary64_monotone.
  - apply binary64_integer.
  - apply binary64_nearly.
Qed.

Lemma exact_rounding : Rounding exact.
Proof.
  split.
  - intros p q H. exact H.
  - intros z _. exists (inject_Z z). split; reflexivity.
  - intros q _ _. exists q. split; [reflexivity|].
    assert (E : (q - q == 0)%Q) by ring. rewrite E. simpl.
    apply Qmult_le_0_compat; [apply Qlt_le_weak, pow2_pos|apply Qabs_nonneg].
Qed.

End Binary64.

(** ** Doubles: what the rounding gives *)

Section RoundingFacts.
Import JsNumber.
Variable round : Q -> JsNumber.t.
Hypothesis rounding : Rounding round.

Lemma round_squeezed (lo q hi x y : Q) :
  (lo <= q)%Q -> (q <= hi)%Q -> round lo = Finite x -> round hi = Finite y ->
  exists z, round q = Finite z /\ (x <= z)%Q /\ (z <= y)%Q.
Proof.
  intros H1 H2 Hlo Hhi.
  pose proof (round_monotone round rounding lo q H1) as M1.
  pose proof (round_monotone round rounding q hi H2) as M2.
  rewrite Hlo in M1. rewrite Hhi in M2.
  destruct (round q) as [z| | |]; simpl in M1, M2; try contradiction.
  exists z. auto.
Qed.

Lemma round_integer_eq (q : Q) (z : Z) :
  (Z.abs z <= 2 ^ 53)%Z -> (q == inject_Z z)%Q ->
  exists x, round q = Finite x /\ (x == inject_Z z)%Q.
Proof.
  intros Hz Hq.
  destruct (round_integer round rounding z Hz) as (y & Hy & Ey).
  destruct (round_squeezed (inject_Z z) q (inject_Z z) y y) as (x & Hx & H1 & H2);
    auto; try (rewrite Hq; apply Qle_refl).
  exists x. split; [exact Hx|]. lra.
Qed.

Lemma round_zero : exists x, round 0 = Finite x /\ (x == 0)%Q.
Proof. apply (round_integer_eq 0 0); [vm_compute; discriminate|reflexivity]. Qed.

Lemma round_one : exists x, round 1 = Finite x /\ (x == 1)%Q.
Proof. apply (round_integer_eq 1 1); [vm_compute; discriminate|reflexivity]. Qed.

(** A real number between zero and [hi] rounds to a double between zero
    and the double of [hi]. *)
Lemma round_nonneg (q hi y : Q) :
  (0 <= q)%Q -> (q <= hi)%Q -> round hi = Finite y ->
  exists z, round q = Finite z /\ (0 <= z)%Q /\ (z <= y)%Q.
Proof.
  intros H0 H1 Hy. destruct round_zero as (x0 & Hx0 & E0).
  destruct (round_squeezed 0 q hi x0 y H0 H1 Hx0 Hy) as (z & Hz & Z1 & Z2).
  exists z. split; [exact Hz|]. split; [lra|exact Z2].
Qed.

End RoundingFacts.

Lemma Qabs_bound (x b : Q) : (Qabs x <= b)%Q <-> (- b <= x /\ x <= b)%Q.
Proof. apply Qabs_Qle_condition. Qed.

(** The constants of binary64 that the proofs compare. *)
Lemma binary64_constants :
  let u := JsNumber.unitRoundoff in
  let tiny := JsNumber.pow2 (-1022) in
  let huge := JsNumber.pow2 1023 in
  let M := JsNumber.pow2 1010 in
  let m := JsNumber.pow2 1000 in
  (0 < u)%Q /\ (u <= 1 # 10000000000)%Q /\ (0 < tiny)%Q /\ (tiny <= 1 # 100)%Q /\
  (1 <= m)%Q /\ (1024 * m == M)%Q /\ (8 * M <= huge)%Q /\ (tiny * (8 * M) <= 1 # 100)%Q /\
  (1 - JsNumber.pow2 (-52) == 1 - 2 * u)%Q.
Proof.
  cbv zeta. repeat split; try (unfold Qlt; vm_compute; reflexivity);
    try (unfold Qle; vm_compute; discriminate); try (unfold Qeq; vm_compute; reflexivity).
Qed.

Section RoundingBounds.
Import JsNumber.
Variable round : Q -> JsNumber.t.
Hypothesis rounding : Rounding round.

(** A positive number of the normal range rounds within the unit roundoff. *)
Lemma round_normal (q : Q) :
  (pow2 (-1022) <= q)%Q -> (q <= pow2 1023)%Q ->
  exists x, round q = Finite x /\
    (q * (1 - unitRoundoff) <= x)%Q /\ (x <= q * (1 + unitRoundoff))%Q.
Proof.
  intros H1 H2. pose proof (pow2_pos (-1022)) as Hp.
  assert (Ha : (Qabs q == q)%Q) by (apply Qabs_pos; lra).
  destruct (round_nearly round rounding q) as (x & Hx & E); [rewrite Ha; lra|rewrite Ha; lra|].
  exists x. split; [exact Hx|]. rewrite Ha in E. apply Qabs_bound in E. lra.
Qed.

(** A number of magnitude at most [B] rounds to a double of magnitude at
    most [2 B]. *)
Lemma round_within (q B : Q) :
  (pow2 (-1022) <= B)%Q -> (B <= pow2 1023)%Q -> (Qabs q <= B)%Q ->
  exists x, round q = Finite x /\ (Qabs x <= 2 * B)%Q.
Proof.
  intros H1 H2 Hq. pose proof (pow2_pos (-1022)) as Hp.
  destruct binary64_constants as (U0 & U1 & _).
  destruct (round_normal B H1 H2) as (y & Hy & Y1 & Y2).
  assert (Hn : exists z, round (- B) = Finite z /\ (- (2 * B) <= z)%Q).
  { assert (Ha : (Qabs (- B) == B)%Q) by (rewrite Qabs_opp; apply Qabs_pos; lra).
    destruct (round_nearly round rounding (- B)) as (z & Hz & E);
      [rewrite Ha; lra|rewrite Ha; lra|].
    exists z. split; [exact Hz|]. rewrite Ha in E. apply Qabs_bound in E. nra. }
  destruct Hn as (z & Hz & Z1).
  apply Qabs_bound in Hq.
  destruct (round_squeezed round rounding (- B) q B z y) as (x & Hx & X1 & X2);
    try tauto.
  exists x. split; [exact Hx|]. apply Qabs_bound. split; [lra|nra].
Qed.

End RoundingBounds.

(** The sum of three quotients that are each rounded, by a total that was
    rounded twice. *)
Lemma sum_near_one (u S T q1 q2 q3 e1 e2 e3 : Q) :
  (0 <= u)%Q -> (u <= 1 # 10000000000)%Q -> (0 < S)%Q -> (0 < T)%Q ->
  (S * (1 - u) * (1 - u) <= T)%Q -> (T <= S * (1 + u) * (1 + u))%Q ->
  ((q1 + q2 + q3) * T == S)%Q ->
  (0 <= q1)%Q -> (0 <= q2)%Q -> (0 <= q3)%Q ->
  (q1 * (1 - u) <= e1)%Q -> (e1 <= q1 * (1 + u))%Q ->
  (q2 * (1 - u) <= e2)%Q -> (e2 <= q2 * (1 + u))%Q ->
  (q3 * (1 - u) <= e3)%Q -> (e3 <= q3 * (1 + u))%Q ->
  (Qabs (e1 + e2 + e3 - 1) <= 1 # 1000000000)%Q.
Proof.
  intros U0 U1 HS HT T1 T2 HQ Q1 Q2 Q3 A1 B1 A2 B2 A3 B3.
  set (q := (q1 + q2 + q3)%Q) in *.
  assert (Hq0 : (0 <= q)%Q) by (subst q; lra).
  assert (Hup : (q * ((1 - u) * (1 - u)) <= 1)%Q).
  { assert (H : (q * (S * (1 - u) * (1 - u)) <= S * 1)%Q) by nra.
    assert (H' : (S * (q * ((1 - u) * (1 - u))) <= S * 1)%Q) by lra.
    apply Qmult_le_l in H'; auto. }
  assert (Hlo : (1 <= q * ((1 + u) * (1 + u)))%Q).
  { assert (H : (S * 1 <= q * (S * (1 + u) * (1 + u)))%Q) by nra.
    assert (H' : (S * 1 <= S * (q * ((1 + u) * (1 + u))))%Q) by lra.
    apply Qmult_le_l in H'; auto. }
  assert (Hqle : (q <= 2)%Q) by nra.
  apply Qabs_bound. split.
  - assert (H : (q * (1 - u) <= e1 + e2 + e3)%Q) by (subst q; lra).
    assert (H2 : (1 - (1 # 1000000000) <= q * (1 - u))%Q) by nra.
    lra.
  - assert (H : (e1 + e2 + e3 <= q * (1 + u))%Q) by (subst q; lra).
    assert (H2 : (q * (1 + u) <= 1 + (1 # 1000000000))%Q) by nra.
    lra.
Qed.

Lemma scale_bounds (u a s : Q) :
  (0 <= u)%Q -> (u <= 1 # 10000000000)%Q -> (0 <= a)%Q ->
  (a * (1 - u) <= s)%Q -> (s <= a * (1 + u))%Q ->
  (a <= 2 * s)%Q /\ (s <= 2 * a)%Q.
Proof. intros U0 U1 A L H. split; nra. Qed.

Lemma total_bounds (u x1 x2 x3 s T : Q) :
  (0 <= u)%Q -> (u <= 1 # 10000000000)%Q ->
  (0 < x1)%Q -> (0 < x2)%Q -> (0 < x3)%Q ->
  ((x1 + x2) * (1 - u) <= s)%Q -> (s <= (x1 + x2) * (1 + u))%Q ->
  ((s + x3) * (1 - u) <= T)%Q -> (T <= (s + x3) * (1 + u))%Q ->
  ((x1 + x2 + x3) * (1 - u) * (1 - u) <= T)%Q /\
  (T <= (x1 + x2 + x3) * (1 + u) * (1 + u))%Q /\
  ((x1 + x2 + x3) <= 2 * T)%Q /\ (T <= 2 * (x1 + x2 + x3))%Q.
Proof.
  intros U0 U1 X1 X2 X3 S1 S2 T1 T2.
  assert (A1 : ((x1 + x2 + x3) * (1 - u) <= s + x3)%Q) by nra.
  assert (A2 : (s + x3 <= (x1 + x2 + x3) * (1 + u))%Q) by nra.
  assert (B1 : ((x1 + x2 + x3) * (1 - u) * (1 - u) <= (s + x3) * (1 - u))%Q)
    by (apply Qmult_le_compat_r; lra).
  assert (B2 : ((s + x3) * (1 + u) <= (x1 + x2 + x3) * (1 + u) * (1 + u))%Q)
    by (apply Qmult_le_compat_r; lra).
  split; [lra|]. split; [lra|].
  set (S := (x1 + x2 + x3)%Q) in *.
  assert (HS : (0 < S)%Q) by (subst S; lra).
  split; nra.
Qed.

(** A rounded quotient of a floored value keeps its share of the floor. *)
Lemma quotient_share (u c x T e : Q) :
  (0 <= u)%Q -> (u <= 1 # 10000000000)%Q -> (0 < T)%Q ->
  ((5 # 100) * (1 - u) <= c)%Q -> (c <= x)%Q -> (x / T * (1 - u) <= e)%Q ->
  ((5 # 100) * (1 - 2 * u) / T <= e)%Q /\ (0 < e)%Q.
Proof.
  intros U0 U1 HT Hc Hx He.
  assert (Hq : (0 < x / T)%Q) by (apply Qlt_shift_div_l; lra).
  split; [|nra].
  apply Qle_trans with (x / T * (1 - u))%Q; [|exact He].
  apply Qle_shift_div_r; [exact HT|].
  assert (Hd : (x / T * (1 - u) * T == x * (1 - u))%Q) by (field; lra).
  rewrite Hd. nra.
Qed.

Lemma quotient_small (u x T e : Q) :
  (0 <= u)%Q -> (u <= 1 # 10000000000)%Q -> (0 < T)%Q ->
  (0 <= x)%Q -> (x <= 2 * T)%Q -> (e <= x / T * (1 + u))%Q -> (e <= 3)%Q.
Proof.
  intros U0 U1 HT H0 Hx He.
  assert (Hq : (x / T <= 2)%Q) by (apply Qle_shift_div_r; lra).
  assert (Hq0 : (0 <= x / T)%Q) by (apply Qle_shift_div_l; lra).
  nra.
Qed.

(** ** The bin of a feature value *)

Section Binning.
Import JsNumber FeatureBinning.
Variable round : Q -> JsNumber.t.
Hypothesis rounding : Rounding round.

Lemma min_finite (a b : Q) :
  exists m, JsNumber.min (Finite a) (Finite b) = Finite m /\
            (m <= a)%Q /\ (m <= b)%Q /\ (m == Qmin a b)%Q.
Proof.
  unfold JsNumber.min, leb. destruct (Qle_bool a b) eqn:E.
  - apply Qle_bool_iff in E. exists a. repeat split; [lra|exact E|].
    symmetry. now apply Q.min_l.
  - assert (H : (b < a)%Q).
    { apply Qnot_le_lt. intros H. apply Qle_bool_iff in H. congruence. }
    exists b. repeat split; [lra|lra|]. symmetry. apply Q.min_r. lra.
Qed.

Lemma max_finite (a b : Q) :
  exists m, JsNumber.max (Finite a) (Finite b) = Finite m /\
            (a <= m)%Q /\ (b <= m)%Q /\ (m == Qmax a b)%Q.
Proof.
  unfold JsNumber.max, leb. destruct (Qle_bool a b) eqn:E.
  - apply Qle_bool_iff in E. exists b. repeat split; [exact E|lra|].
    symmetry. now apply Q.max_r.
  - assert (H : (b < a)%Q).
    { apply Qnot_le_lt. intros H. apply Qle_bool_iff in H. congruence. }
    exists a. repeat split; [lra|lra|]. symmetry. apply Q.max_l. lra.
Qed.

(** The bin index of a value inside a range that does not overflow. *)
Lemma binIndex_in_range (mn mx value : Q) (bins : Z) :
  (1 <= bins <= 2 ^ 53)%Z ->
  (mn <= value)%Q -> (value <= mx)%Q ->
  (mx - mn <= pow2 1023)%Q ->
  exists r, sub round (Finite mx) (Finite mn) = Finite r /\ (0 <= r)%Q /\
    (~ (r == 0)%Q ->
     exists y i,
       JsNumber.min
         (floor (mul round (div round (sub round (Finite value) (Finite mn)) (Finite r))
                     (Finite (inject_Z bins))))
         (sub round (Finite (inject_Z bins)) (Finite 1)) = Finite y /\
       (y == inject_Z i)%Q /\ (0 <= i <= bins - 1)%Z).
Proof.
  intros Hb H1 H2 Hr.
  assert (Hbig : exists y, round (pow2 1023) = Finite y).
  { destruct (round_nearly round rounding (pow2 1023)) as (y & Hy & _); eauto.
    - unfold Qle. vm_compute. discriminate.
    - unfold Qle. vm_compute. discriminate. }
  destruct Hbig as (ybig & Hbig).
  destruct (round_nonneg round rounding (mx + - mn) (pow2 1023) ybig) as (r & Er & R0 & _);
    [lra|exact Hr|exact Hbig|].
  exists r. split; [exact Er|]. split; [exact R0|]. intros Rne.
  assert (Rpos : (0 < r)%Q) by (destruct (Qlt_le_dec 0 r); [assumption|exfalso; apply Rne; lra]).
  destruct (round_nonneg round rounding (value + - mn) (mx + - mn) r) as (a & Ea & A0 & A1);
    [lra|lra|exact Er|].
  destruct (round_one round rounding) as (one & Eone & One).
  destruct (round_nonneg round rounding (a / r) 1 one) as (n & En & N0 & N1);
    [apply Qle_shift_div_l; [exact Rpos|lra]
    |apply Qle_shift_div_r; [exact Rpos|lra]|exact Eone|].
  assert (HB : (1 <= inject_Z bins)%Q)
    by (change 1%Q with (inject_Z 1); rewrite <- Zle_Qle; lia).
  destruct (round_integer round rounding bins) as (b & Eb & B); [lia|].
  destruct (round_nonneg round rounding (n * inject_Z bins) (inject_Z bins) b)
    as (p & Ep & P0 & P1); [nra|nra|exact Eb|].
  destruct (round_integer_eq round rounding (inject_Z bins + - (1)) (bins - 1))
    as (c & Ec & C); [lia| |].
  { unfold Z.sub. rewrite inject_Z_plus. reflexivity. }
  unfold sub, opp, add. rewrite Ea. unfold div.
  assert (Eq : Qeq_bool r 0 = false).
  { destruct (Qeq_bool r 0) eqn:E; [|reflexivity]. apply Qeq_bool_iff in E. contradiction. }
  rewrite Eq, En. unfold mul. rewrite Ep. unfold floor. rewrite Ec.
  assert (F0 : (0 <= Qfloor p)%Z).
  { rewrite <- (Qfloor_Z 0). apply Qfloor_resp_le. exact P0. }
  assert (F1 : (Qfloor p <= bins)%Z).
  { rewrite <- (Qfloor_Z bins). apply Qfloor_resp_le. lra. }
  destruct (min_finite (inject_Z (Qfloor p)) c) as (y & Ey & Y1 & Y2 & Y3).
  exists y. exists (Z.min (Qfloor p) (bins - 1)). split; [exact Ey|]. split; [|lia].
  rewrite Y3, C. destruct (Z.min_spec (Qfloor p) (bins - 1)) as [[L ->]|[L ->]].
  - apply Q.min_l. rewrite <- Zle_Qle. lia.
  - apply Q.min_r. rewrite <- Zle_Qle. lia.
Qed.

(** What [valueTobin] returns for a finite value, finite statistics and a
    range that does not overflow. *)
Lemma valueTobin_rounded (stats : gmap string Stat) (dimension : string)
    (value : Q) (bins : Z) :
  (1 <= bins <= 2 ^ 53)%Z ->
  (forall st, stats !! dimension = Some st ->
     exists mn mx, FeatureBinning.min st = Finite mn /\ FeatureBinning.max st = Finite mx /\
       (Qmax mx value - Qmin mn value <= pow2 1023)%Q) ->
  exists stats' y i,
    valueTobin round stats dimension (Finite value) (Finite (inject_Z bins))
    = (stats', Finite y) /\
    (y == inject_Z i)%Q /\ (0 <= i <= bins - 1)%Z /\
    match stats !! dimension with
    | None =>
        i = 0%Z /\
        stats' = <[dimension := mkStat (Finite value) (Finite value) [Finite value]]> stats
    | Some st =>
        let mn := JsNumber.min (FeatureBinning.min st) (Finite value) in
        let mx := JsNumber.max (FeatureBinning.max st) (Finite value) in
        stats' = <[dimension := mkStat mn mx (values st ++ [Finite value])]> stats /\
        exists r,
          sub round mx mn = Finite r /\ (0 <= r)%Q /\
          ((r == 0)%Q -> i = 0%Z) /\
          (~ (r == 0)%Q ->
           Finite y =
           JsNumber.min
             (floor (mul round (div round (sub round (Finite value) mn) (Finite r))
                         (Finite (inject_Z bins))))
             (sub round (Finite (inject_Z bins)) (Finite 1)))
    end.
Proof.
  intros Hb Hst. unfold valueTobin.
  destruct (stats !! dimension) as [st|] eqn:E.
  - destruct (Hst st eq_refl) as (a0 & c0 & Emin & Emax & Hr).
    cbv zeta. rewrite Emin, Emax.
    destruct (min_finite a0 value) as (mn & Emn & M1 & M2 & M3).
    destruct (max_finite c0 value) as (mx & Emx & X1 & X2 & X3).
    rewrite Emn, Emx.
    destruct (binIndex_in_range mn mx value bins Hb M2 X2) as (r & Er & R0 & Hbin);
      [rewrite M3, X3; exact Hr|].
    rewrite Er. cbn [isZero].
    destruct (Qeq_bool r 0) eqn:Z.
    + apply Qeq_bool_iff in Z. eexists _, 0%Q, 0%Z.
      split; [reflexivity|]. split; [reflexivity|]. split; [lia|].
      split; [reflexivity|]. exists r. split; [reflexivity|]. split; [exact R0|].
      split; [reflexivity|]. intros H. contradiction.
    + assert (Rne : ~ (r == 0)%Q) by (intros H; apply Qeq_bool_iff in H; congruence).
      destruct (Hbin Rne) as (y & i & Ey & Y & I).
      rewrite Ey. eexists _, y, i.
      split; [reflexivity|]. split; [exact Y|]. split; [exact I|].
      split; [reflexivity|]. exists r. split; [reflexivity|]. split; [exact R0|].
      split; [intros H; contradiction|]. intros _. symmetry. exact Ey.
  - eexists _, 0%Q, 0%Z. split; [reflexivity|]. split; [reflexivity|].
    split; [lia|]. split; reflexivity.
Qed.

End Binning.

(** C10, as the code has it.  Let the bin count be an integer from 1 to
    [2 ^ 53], the value a finite number, the running minimum and maximum of
    the dimension finite numbers, and the range from the minimum to the
    maximum, the value included, at most [2 ^ 1023].  Then [valueTobin], on
    doubles, returns an integer from 0 to [bins - 1].  The first value of a
    dimension gives bin 0 and starts the running minimum and maximum; a zero
    range gives bin 0; otherwise the divisor is a positive number and the
    index is [Math.min(Math.floor((value - min) / range * bins), bins - 1)]
    with every operation rounded. *)
Theorem valueTobin_in_range (stats : gmap string FeatureBinning.Stat)
    (dimension : string) (value : Q) (bins : Z) :
  (1 <= bins <= 2 ^ 53)%Z ->
  (forall st, stats !! dimension = Some st ->
     exists mn mx,
       FeatureBinning.min st = JsNumber.Finite mn /\
       FeatureBinning.max st = JsNumber.Finite mx /\
       (Qmax mx value - Qmin mn value <= JsNumber.pow2 1023)%Q) ->
  exists stats' y i,
    FeatureBinning.valueTobin JsNumber.binary64 stats dimension
      (JsNumber.Finite value) (JsNumber.Finite (inject_Z bins))
    = (stats', JsNumber.Finite y) /\
    (y == inject_Z i)%Q /\ (0 <= i <= bins - 1)%Z /\
    match stats !! dimension with
    | None =>
        i = 0%Z /\
        stats' = <[dimension := FeatureBinning.mkStat (JsNumber.Finite value)
                                  (JsNumber.Finite value) [JsNumber.Finite value]]> stats
    | Some st =>
        let mn := JsNumber.min (FeatureBinning.min st) (JsNumber.Finite value) in
        let mx := JsNumber.max (FeatureBinning.max st) (JsNumber.Finite value) in
        stats' = <[dimension := FeatureBinning.mkStat mn mx
                                  (FeatureBinning.values st ++ [JsNumber.Finite value])]> stats /\
        exists r,
          JsNumber.sub JsNumber.binary64 mx mn = JsNumber.Finite r /\ (0 <= r)%Q /\
          ((r == 0)%Q -> i = 0%Z) /\
          (~ (r == 0)%Q ->
           JsNumber.Finite y =
           JsNumber.min
             (JsNumber.floor
                (JsNumber.mul JsNumber.binary64
                   (JsNumber.div JsNumber.binary64
                      (JsNumber.sub JsNumber.binary64 (JsNumber.Finite value) mn)
                      (JsNumber.Finite r))
                   (JsNumber.Finite (inject_Z bins))))
             (JsNumber.sub JsNumber.binary64 (JsNumber.Finite (inject_Z bins))
                (JsNumber.Finite 1)))
    end.
Proof. apply (valueTobin_rounded JsNumber.binary64 binary64_rounding). Qed.

(** [valueTobin_in_range] for the value 15 of a dimension that has seen 0
    and 22, with 22 bins. *)
Lemma valueTobin_in_range_witness :
  exists stats' y i,
    FeatureBinning.valueTobin JsNumber.binary64 seenZeroTo22 "complexity"
      (JsNumber.Finite 15) (JsNumber.Finite (inject_Z 22))
    = (stats', JsNumber.Finite y) /\
    (y == inject_Z i)%Q /\ (0 <= i <= 21)%Z.
Proof.
  destruct (valueTobin_in_range seenZeroTo22 "complexity" 15 22)
    as (stats' & y & i & H1 & H2 & H3 & _).
  - vm_compute. split; discriminate.
  - intros st H. vm_compute in H. injection H as <-.
    exists 0%Q, 22%Q. split; [reflexivity|]. split; [reflexivity|].
    unfold Qle. vm_compute. discriminate.
  - exists stats', y, i. auto.
Defined.

(** C10 as stated fails.  For the value [Infinity] the function returns
    [NaN]; so it does for the finite value [Number.MAX_VALUE] after
    [-Number.MAX_VALUE], where the range overflows.  And between 0 and 22
    the value 15 falls into bin 14 of 22, where the floor of
    [(value - min) / (max - min) * bins] is 15: the quotient is rounded
    before it is multiplied. *)
Lemma valueTobin_not_a_bin :
  snd (FeatureBinning.valueTobin JsNumber.binary64 seenZeroTo22 "complexity"
         JsNumber.PlusInfinity (JsNumber.Finite 22)) = JsNumber.NaN /\
  snd (FeatureBinning.valueTobin JsNumber.binary64 seenLowest "score"
         (JsNumber.Finite maxValue) (JsNumber.Finite 10)) = JsNumber.NaN /\
  snd (FeatureBinning.valueTobin JsNumber.binary64 seenZeroTo22 "complexity"
         (JsNumber.Finite 15) (JsNumber.Finite 22)) = JsNumber.Finite 14 /\
  Qfloor ((15 - 0) / (22 - 0) * 22) = 15%Z.
Proof. repeat split; vm_compute; reflexivity. Qed.

(** ** The adaptive sampling policy *)

Section Policy.
Import JsNumber AdaptiveSamplingPolicy.
Variable round : Q -> JsNumber.t.
Hypothesis rounding : Rounding round.

(** The double of the literal [0.05]. *)
Lemma floor_literal :
  exists c, number round (5 # 100) = Finite c /\
    ((5 # 100) * (1 - unitRoundoff) <= c)%Q /\ (c <= (5 # 100) * (1 + unitRoundoff))%Q.
Proof.
  apply (round_normal round rounding).
  - unfold Qle. vm_compute. discriminate.
  - unfold Qle. vm_compute. discriminate.
Qed.

(** One quotient of [normalize]. *)
Lemma quotient_rounded (x T : Q) :
  (0 < T)%Q -> (T <= 8 * pow2 1010)%Q -> (1 # 25 <= x)%Q -> (x <= 2 * T)%Q ->
  exists e, div round (Finite x) (Finite T) = Finite e /\
    (x / T * (1 - unitRoundoff) <= e)%Q /\ (e <= x / T * (1 + unitRoundoff))%Q.
Proof.
  intros HT HM Hx Hx2.
  destruct binary64_constants as (_ & _ & T0 & _ & _ & _ & M2 & M3 & _).
  cbv zeta in *. unfold div.
  assert (Eq : Qeq_bool T 0 = false).
  { destruct (Qeq_bool T 0) eqn:E; [|reflexivity]. apply Qeq_bool_iff in E. lra. }
  rewrite Eq.
  set (M := pow2 1010) in *. set (tiny := pow2 (-1022)) in *. set (huge := pow2 1023) in *.
  apply (round_normal round rounding); fold tiny; fold huge.
  - apply Qle_shift_div_l; [exact HT|].
    apply Qle_trans with (tiny * (8 * M))%Q; [|lra].
    apply Qmult_le_l; [exact T0|exact HM].
  - apply Qle_shift_div_r; [exact HT|].
    apply Qle_trans with (2 * T)%Q; [exact Hx2|].
    assert (H2 : (2 <= huge)%Q) by (subst huge; unfold Qle; vm_compute; discriminate).
    apply Qmult_le_compat_r; lra.
Qed.

(** What [normalize] computes from three finite values. *)
Lemma normalize_spec (p : t) (p1 p2 p3 : Q) :
  exploreProb p = Finite p1 -> exploitProb p = Finite p2 -> backtrackProb p = Finite p3 ->
  (Qabs p1 <= pow2 1010)%Q -> (Qabs p2 <= pow2 1010)%Q -> (Qabs p3 <= pow2 1010)%Q ->
  exists T e1 e2 e3,
    flooredTotal round p = Finite T /\ (0 < T)%Q /\
    exploreProb (normalize round p) = Finite e1 /\
    exploitProb (normalize round p) = Finite e2 /\
    backtrackProb (normalize round p) = Finite e3 /\
    ((0 < e1)%Q /\ (0 < e2)%Q /\ (0 < e3)%Q) /\
    ((e1 <= 3)%Q /\ (e2 <= 3)%Q /\ (e3 <= 3)%Q) /\
    (Qabs (e1 + e2 + e3 - 1) <= 1 # 1000000000)%Q /\
    (((5 # 100) * (1 - pow2 (-52)) / T <= e1)%Q /\
     ((5 # 100) * (1 - pow2 (-52)) / T <= e2)%Q /\
     ((5 # 100) * (1 - pow2 (-52)) / T <= e3)%Q).
Proof.
  intros E1 E2 E3 B1 B2 B3.
  destruct binary64_constants as (U0 & U1 & T0 & T1 & M0 & M1 & M2 & M3 & U2).
  cbv zeta in *.
  set (u := unitRoundoff) in *. set (M := pow2 1010) in *.
  set (tiny := pow2 (-1022)) in *. set (huge := pow2 1023) in *.
  assert (U0' : (0 <= u)%Q) by lra.
  apply Qabs_bound in B1, B2, B3.
  destruct floor_literal as (c & Ec & C1 & C2). fold u in C1, C2.
  assert (C3 : (1 # 25 <= c)%Q) by lra.
  assert (C4 : (c <= 1)%Q) by lra.
  assert (M4 : (1 <= M)%Q) by lra.
  destruct (max_finite c p1) as (x1 & X1 & X1c & X1p & X1m).
  destruct (max_finite c p2) as (x2 & X2 & X2c & X2p & X2m).
  destruct (max_finite c p3) as (x3 & X3 & X3c & X3p & X3m).
  assert (X1M : (x1 <= M)%Q) by (rewrite X1m; apply Q.max_lub; lra).
  assert (X2M : (x2 <= M)%Q) by (rewrite X2m; apply Q.max_lub; lra).
  assert (X3M : (x3 <= M)%Q) by (rewrite X3m; apply Q.max_lub; lra).
  destruct (round_normal round rounding (x1 + x2)) as (s & Es & S1 & S2);
    [fold tiny; lra|fold huge; lra|]. fold u in S1, S2.
  destruct (scale_bounds u (x1 + x2) s U0' U1) as (S3 & S4); [lra|exact S1|exact S2|].
  destruct (round_normal round rounding (s + x3)) as (T & ET & Tlo & Thi);
    [fold tiny; lra|fold huge; lra|]. fold u in Tlo, Thi.
  destruct (total_bounds u x1 x2 x3 s T U0' U1) as (T1' & T2' & T3' & T4'); try lra.
  set (S := (x1 + x2 + x3)%Q) in *.
  assert (HS : (0 < S)%Q) by (subst S; lra).
  assert (HT : (0 < T)%Q) by lra.
  assert (HTM : (T <= 8 * M)%Q) by (subst S; lra).
  destruct (quotient_rounded x1 T HT HTM) as (e1 & D1 & L1 & H1); [lra|subst S; lra|].
  destruct (quotient_rounded x2 T HT HTM) as (e2 & D2 & L2 & H2); [lra|subst S; lra|].
  destruct (quotient_rounded x3 T HT HTM) as (e3 & D3 & L3 & H3); [lra|subst S; lra|].
  fold u in L1, H1, L2, H2, L3, H3.
  assert (Ef : floored round p = mk (config p) (Finite x1) (Finite x2) (Finite x3)).
  { unfold floored. now rewrite E1, E2, E3, Ec, X1, X2, X3. }
  assert (Et : flooredTotal round p = Finite T).
  { unfold flooredTotal. rewrite Ef. cbn [exploreProb exploitProb backtrackProb add].
    rewrite Es. cbn [add]. exact ET. }
  exists T, e1, e2, e3.
  split; [exact Et|]. split; [exact HT|].
  unfold normalize. rewrite Et, Ef. cbn [exploreProb exploitProb backtrackProb].
  split; [exact D1|]. split; [exact D2|]. split; [exact D3|].
  destruct (quotient_share u c x1 T e1 U0' U1 HT C1 X1c L1) as (G1 & P1).
  destruct (quotient_share u c x2 T e2 U0' U1 HT C1 X2c L2) as (G2 & P2).
  destruct (quotient_share u c x3 T e3 U0' U1 HT C1 X3c L3) as (G3 & P3).
  split; [auto|]. split.
  { repeat split.
    - apply (quotient_small u x1 T e1); auto; subst S; lra.
    - apply (quotient_small u x2 T e2); auto; subst S; lra.
    - apply (quotient_small u x3 T e3); auto; subst S; lra. }
  split.
  - assert (Q1 : (0 <= x1 / T)%Q) by (apply Qle_shift_div_l; lra).
    assert (Q2 : (0 <= x2 / T)%Q) by (apply Qle_shift_div_l; lra).
    assert (Q3 : (0 <= x3 / T)%Q) by (apply Qle_shift_div_l; lra).
    apply (sum_near_one u S T (x1 / T) (x2 / T) (x3 / T)); auto.
    subst S. field. lra.
  - rewrite U2. fold u. auto.
Qed.


(** The double of a literal between -1 and 1. *)
Lemma literal_within (q : Q) :
  (Qabs q <= 1)%Q -> exists k, number round q = Finite k /\ (Qabs k <= 2)%Q.
Proof.
  intros H. destruct (round_within round rounding q 1) as (k & Hk & K); auto.
  - unfold Qle. vm_compute. discriminate.
  - unfold Qle. vm_compute. discriminate.
  - exists k. split; [exact Hk|lra].
Qed.

(** The three forms of an adjustment of [update]. *)
Lemma adjustment_within (p r k : Q) :
  (Qabs p <= pow2 1000)%Q -> (Qabs r <= 2 * pow2 1000)%Q -> (Qabs k <= 2)%Q ->
  (exists z, add round (Finite p) (mul round (Finite r) (Finite k)) = Finite z /\
             (Qabs z <= pow2 1010)%Q) /\
  (exists z, sub round (Finite p) (mul round (Finite r) (Finite k)) = Finite z /\
             (Qabs z <= pow2 1010)%Q) /\
  (exists z, add round (Finite p) (Finite r) = Finite z /\ (Qabs z <= pow2 1010)%Q).
Proof.
  intros Hp Hr Hk.
  destruct binary64_constants as (_ & _ & T0 & T1 & M0 & M1 & M2 & _ & _).
  cbv zeta in *.
  set (M := pow2 1010) in *. set (m := pow2 1000) in *.
  set (tiny := pow2 (-1022)) in *. set (huge := pow2 1023) in *.
  assert (Hrk : (Qabs (r * k) <= 4 * m)%Q).
  { rewrite Qabs_Qmult.
    apply Qle_trans with (2 * m * Qabs k)%Q.
    - apply Qmult_le_compat_r; [exact Hr|apply Qabs_nonneg].
    - assert (H : (2 * m * Qabs k <= 2 * m * 2)%Q) by (apply Qmult_le_l; lra). lra. }
  destruct (round_within round rounding (r * k) (4 * m)) as (y & Ey & Y);
    [fold tiny; lra|fold huge; lra|exact Hrk|].
  cbn [mul]. rewrite Ey. cbn [sub opp add].
  apply Qabs_bound in Hp, Y, Hr.
  repeat split.
  - destruct (round_within round rounding (p + y) (9 * m)) as (z & Ez & Z);
      [fold tiny; lra|fold huge; lra|apply Qabs_bound; lra|].
    exists z. split; [exact Ez|lra].
  - destruct (round_within round rounding (p + - y) (9 * m)) as (z & Ez & Z);
      [fold tiny; lra|fold huge; lra|apply Qabs_bound; lra|].
    exists z. split; [exact Ez|lra].
  - destruct (round_within round rounding (p + r) (3 * m)) as (z & Ez & Z);
      [fold tiny; lra|fold huge; lra|apply Qabs_bound; lra|].
    exists z. split; [exact Ez|lra].
Qed.

(** The adjustments of [update] keep the probabilities finite. *)
Lemma adjust_within (p : t) (progress : Progress.t) (absoluteProgress peerBest : option Q) :
  allWithin (pow2 1000) p -> (Qabs (adaptationRate (config p)) <= pow2 1000)%Q ->
  allWithin (pow2 1010) (adjust round p progress absoluteProgress peerBest).
Proof.
  intros (e & x & b & Ee & Ex & Eb & He & Hx & Hb) Hr.
  destruct (round_within round rounding (adaptationRate (config p)) (pow2 1000))
    as (r & Er & R); [unfold Qle; vm_compute; discriminate
                     |unfold Qle; vm_compute; discriminate|exact Hr|].
  assert (Hlit : forall q, (Qabs q <= 1)%Q ->
            exists k, number round q = Finite k /\ (Qabs k <= 2)%Q)
    by apply literal_within.
  destruct (Hlit (5 # 10)) as (k5 & E5 & K5); [unfold Qle; vm_compute; discriminate|].
  destruct (Hlit (6 # 10)) as (k6 & E6 & K6); [unfold Qle; vm_compute; discriminate|].
  destruct (Hlit (7 # 10)) as (k7 & E7 & K7); [unfold Qle; vm_compute; discriminate|].
  destruct (Hlit (3 # 10)) as (k3 & E3 & K3); [unfold Qle; vm_compute; discriminate|].
  destruct (Hlit 1%Q) as (k1 & E1 & K1); [unfold Qle; vm_compute; discriminate|].
  assert (Hweak : forall z, (Qabs z <= pow2 1000)%Q -> (Qabs z <= pow2 1010)%Q).
  { intros z Hz. eapply Qle_trans; [exact Hz|]. unfold Qle. vm_compute. discriminate. }
  unfold adjust, number in *. rewrite Er, Ee, Ex, Eb.
  destruct (ltb _ _).
  { rewrite E5.
    destruct (adjustment_within e r k5 He R K5) as (_ & (z1 & -> & Z1) & _).
    destruct (adjustment_within x r k5 Hx R K5) as (_ & _ & (z2 & -> & Z2)).
    destruct (adjustment_within b r k5 Hb R K5) as (_ & (z3 & -> & Z3) & _).
    exists z1, z2, z3. cbn. auto 10. }
  destruct (ltb _ _).
  { rewrite E7.
    destruct (adjustment_within x r k7 Hx R K7) as (_ & (z2 & -> & Z2) & _).
    destruct (match absoluteProgress with
              | Some a => match peerBest with
                          | Some b0 => ltb _ _
                          | None => false
                          end
              | None => false
              end).
    - rewrite E6.
      destruct (adjustment_within e r k6 He R K6) as ((z1 & -> & Z1) & _).
      destruct (adjustment_within b r k7 Hb R K7) as ((z3 & -> & Z3) & _).
      exists z1, z2, z3. cbn. auto 10.
    - rewrite E1, E3.
      destruct (adjustment_within e r k1 He R K1) as ((z1 & -> & Z1) & _).
      destruct (adjustment_within b r k3 Hb R K3) as ((z3 & -> & Z3) & _).
      exists z1, z2, z3. cbn. auto 10. }
  destruct (ltb _ _).
  { rewrite E3, E7.
    destruct (adjustment_within e r k3 He R K3) as (_ & (z1 & -> & Z1) & _).
    destruct (adjustment_within x r k7 Hx R K7) as (_ & (z2 & -> & Z2) & _).
    destruct (adjustment_within b r k7 Hb R K7) as (_ & _ & (z3 & -> & Z3)).
    exists z1, z2, z3. cbn. auto 10. }
  exists e, x, b. auto 10.
Qed.

(** What [normalize] returns for finite values. *)
Lemma normalize_distribution (p : t) :
  allWithin (pow2 1010) p ->
  sumsToOne (normalize round p) /\ allPositive (normalize round p) /\
  allWithin (1 + (1 # 1000000000)) (normalize round p) /\
  exists total,
    flooredTotal round p = Finite total /\ (0 < total)%Q /\
    allAtLeast ((5 # 100) * (1 - pow2 (-52)) / total) (normalize round p).
Proof.
  intros (p1 & p2 & p3 & E1 & E2 & E3 & B1 & B2 & B3).
  destruct (normalize_spec p p1 p2 p3 E1 E2 E3 B1 B2 B3)
    as (T & e1 & e2 & e3 & Et & HT & D1 & D2 & D3 & (P1 & P2 & P3) & (S1 & S2 & S3)
        & Hsum & (G1 & G2 & G3)).
  split; [exists e1, e2, e3; auto|].
  split; [exists e1, e2, e3; auto 10|].
  split.
  - apply Qabs_bound in Hsum.
    exists e1, e2, e3. repeat split; auto; apply Qabs_bound; lra.
  - exists T. split; [exact Et|]. split; [exact HT|]. exists e1, e2, e3. auto 10.
Qed.

(** The probabilities that the constructor reads are finite. *)
Lemma configured_within (cfg : PACEvolveConfig) :
  (Qabs (initialExploreProb cfg) <= pow2 1000)%Q ->
  (Qabs (initialExploitProb cfg) <= pow2 1000)%Q ->
  (Qabs (initialBacktrackProb cfg) <= pow2 1000)%Q ->
  allWithin (pow2 1010)
    (mk cfg (number round (initialExploreProb cfg)) (number round (initialExploitProb cfg))
        (number round (initialBacktrackProb cfg))).
Proof.
  intros H1 H2 H3.
  assert (Hn : forall q, (Qabs q <= pow2 1000)%Q ->
            exists x, number round q = Finite x /\ (Qabs x <= pow2 1010)%Q).
  { intros q Hq.
    destruct (round_within round rounding q (pow2 1000)) as (x & Ex & X);
      [unfold Qle; vm_compute; discriminate|unfold Qle; vm_compute; discriminate|exact Hq|].
    exists x. split; [exact Ex|]. eapply Qle_trans; [exact X|].
    unfold Qle. vm_compute. discriminate. }
  destruct (Hn _ H1) as (e & -> & He).
  destruct (Hn _ H2) as (x & -> & Hx).
  destruct (Hn _ H3) as (b & -> & Hb).
  exists e, x, b. cbn. auto 10.
Qed.

Lemma adjust_config (p : t) (progress : Progress.t) (absoluteProgress peerBest : option Q) :
  config (adjust round p progress absoluteProgress peerBest) = config p.
Proof.
  unfold adjust. destruct (ltb _ _); [reflexivity|].
  destruct (ltb _ _); [reflexivity|]. destruct (ltb _ _); reflexivity.
Qed.

(** What holds of the policy after construction and after every [update]. *)
Lemma reached_normalized (cfg : PACEvolveConfig) (p : t) :
  (Qabs (initialExploreProb cfg) <= pow2 1000)%Q ->
  (Qabs (initialExploitProb cfg) <= pow2 1000)%Q ->
  (Qabs (initialBacktrackProb cfg) <= pow2 1000)%Q ->
  (Qabs (adaptationRate cfg) <= pow2 1000)%Q ->
  reached round cfg p ->
  config p = cfg /\ sumsToOne p /\ allPositive p /\
  allWithin (1 + (1 # 1000000000)) p.
Proof.
  intros H1 H2 H3 Hr. induction 1 as [|p progress absoluteProgress peerBest _ IH].
  - destruct (normalize_distribution
                (mk cfg (number round (initialExploreProb cfg))
                    (number round (initialExploitProb cfg))
                    (number round (initialBacktrackProb cfg))))
      as (F1 & F2 & F3 & _); [now apply configured_within|].
    unfold new. auto.
  - destruct IH as (Ec & _ & _ & Hw).
    destruct (normalize_distribution (adjust round p progress absoluteProgress peerBest))
      as (U1 & U2 & U3 & _).
    { apply adjust_within; [|now rewrite Ec].
      destruct Hw as (e & x & b & Ee & Ex & Eb & He & Hx & Hb).
      assert (Hweak : forall z, (Qabs z <= 1 + (1 # 1000000000))%Q ->
                (Qabs z <= pow2 1000)%Q).
      { intros z Hz. eapply Qle_trans; [exact Hz|]. unfold Qle. vm_compute. discriminate. }
      exists e, x, b. auto 10. }
    unfold update. split; [|auto].
    cbn [normalize config]. rewrite adjust_config. exact Ec.
Qed.

(** The share of the floor that an [update] leaves to each probability. *)
Lemma update_share (cfg : PACEvolveConfig) (p : t) (progress : Progress.t)
    (absoluteProgress peerBest : option Q) :
  config p = cfg -> allWithin (1 + (1 # 1000000000)) p ->
  (Qabs (adaptationRate cfg) <= pow2 1000)%Q ->
  exists total,
    flooredTotal round (adjust round p progress absoluteProgress peerBest) = Finite total /\
    (0 < total)%Q /\
    allAtLeast ((5 # 100) * (1 - pow2 (-52)) / total)
      (update round p progress absoluteProgress peerBest).
Proof.
  intros Ec Hw Hr.
  destruct (normalize_distribution (adjust round p progress absoluteProgress peerBest))
    as (_ & _ & _ & U4); [|exact U4].
  apply adjust_within; [|now rewrite Ec].
  destruct Hw as (e & x & b & Ee & Ex & Eb & He & Hx & Hb).
  assert (Hweak : forall z, (Qabs z <= 1 + (1 # 1000000000))%Q -> (Qabs z <= pow2 1000)%Q).
  { intros z Hz. eapply Qle_trans; [exact Hz|]. unfold Qle. vm_compute. discriminate. }
  exists e, x, b. auto 10.
Qed.

End Policy.

(** C3, as the code has it.  Let the three initial probabilities and the
    adaptation rate of the configuration be of magnitude at most
    [2 ^ 1000].  After construction and after every [update] the three
    probabilities are finite doubles that add up to one within [1e-9], and
    each is positive.  An [update] leaves each probability its value floored
    at 0.05 and divided by the sum of the three floored values: at least
    0.05 divided by that sum, up to the rounding, and not at least 0.05. *)
Theorem sampling_policy_normalized (cfg : PACEvolveConfig) (p : AdaptiveSamplingPolicy.t) :
  (Qabs (initialExploreProb cfg) <= JsNumber.pow2 1000)%Q ->
  (Qabs (initialExploitProb cfg) <= JsNumber.pow2 1000)%Q ->
  (Qabs (initialBacktrackProb cfg) <= JsNumber.pow2 1000)%Q ->
  (Qabs (adaptationRate cfg) <= JsNumber.pow2 1000)%Q ->
  AdaptiveSamplingPolicy.reached JsNumber.binary64 cfg p ->
  AdaptiveSamplingPolicy.sumsToOne p /\
  AdaptiveSamplingPolicy.allPositive p /\
  forall progress absoluteProgress peerBest,
    exists total,
      AdaptiveSamplingPolicy.flooredTotal JsNumber.binary64
        (AdaptiveSamplingPolicy.adjust JsNumber.binary64 p progress absoluteProgress peerBest)
      = JsNumber.Finite total /\
      (0 < total)%Q /\
      AdaptiveSamplingPolicy.allAtLeast
        ((5 # 100) * (1 - JsNumber.pow2 (-52)) / total)
        (AdaptiveSamplingPolicy.update JsNumber.binary64 p progress absoluteProgress peerBest).
Proof.
  intros H1 H2 H3 Hr Hp.
  destruct (reached_normalized JsNumber.binary64 binary64_rounding cfg p H1 H2 H3 Hr Hp)
    as (Ec & Hs & Hpos & Hw).
  split; [exact Hs|]. split; [exact Hpos|].
  intros progress absoluteProgress peerBest.
  now apply (update_share JsNumber.binary64 binary64_rounding cfg).
Qed.

(** [sampling_policy_normalized] for the first update of the default policy
    under rising momentum. *)
Lemma sampling_policy_normalized_witness :
  AdaptiveSamplingPolicy.sumsToOne (risingPolicy 1) /\
  AdaptiveSamplingPolicy.allPositive (risingPolicy 1).
Proof.
  destruct (sampling_policy_normalized defaultPACEvolveConfig (risingPolicy 1))
    as (H1 & H2 & _).
  - unfold Qle. vm_compute. discriminate.
  - unfold Qle. vm_compute. discriminate.
  - unfold Qle. vm_compute. discriminate.
  - unfold Qle. vm_compute. discriminate.
  - apply AdaptiveSamplingPolicy.reached_update, AdaptiveSamplingPolicy.reached_new.
  - split; [exact H1|exact H2].
Defined.

(** C3 as stated fails: four updates of the default policy under rising
    momentum leave the backtrack probability at 0.0476..., below 0.05. *)
Lemma sampling_policy_floor_lost :
  AdaptiveSamplingPolicy.backtrackProb (risingPolicy 4)
  = JsNumber.Finite (857828500451523 # 18014398509481984) /\
  (857828500451523 # 18014398509481984 < 5 # 100)%Q /\
  ~ AdaptiveSamplingPolicy.allAtLeast (5 # 100) (risingPolicy 4).
Proof.
  assert (E : AdaptiveSamplingPolicy.backtrackProb (risingPolicy 4)
              = JsNumber.Finite (857828500451523 # 18014398509481984))
    by (vm_compute; reflexivity).
  split; [exact E|]. split; [reflexivity|].
  intros (e & x & b & _ & _ & Eb & _ & _ & H).
  rewrite E in Eb. injection Eb as <-.
  revert H. unfold Qle. vm_compute. intros H. apply H. reflexivity.
Qed.

(** On doubles the sum is not one exactly: after two updates of the default
    policy the three probabilities add up to [1 + 5 * 2 ^ -55]. *)
Example sampling_policy_sum_rounded :
  match AdaptiveSamplingPolicy.exploreProb (risingPolicy 2),
        AdaptiveSamplingPolicy.exploitProb (risingPolicy 2),
        AdaptiveSamplingPolicy.backtrackProb (risingPolicy 2) with
  | JsNumber.Finite e, JsNumber.Finite x, JsNumber.Finite b =>
      Qred (e + x + b) = (36028797018963973 # 36028797018963968)%Q
  | _, _, _ => False
  end.
Proof. vm_compute. reflexivity. Qed.

(** ** The momentum tracker *)

Lemma pushBounded_length {A} (limit : nat) (l : list A) (x : A) :
  length l <= limit -> length (MomentumTracker.pushBounded limit l x) <= limit.
Proof.
  intros H. unfold MomentumTracker.pushBounded.
  destruct (limit <? length (l ++ [x]))%nat eqn:E.
  - rewrite length_tl, length_app. simpl. lia.
  - apply Nat.ltb_ge in E. exact E.
Qed.

Lemma pushBounded_last {A} (limit : nat) (l : list A) (x d : A) :
  1 <= limit -> List.last (MomentumTracker.pushBounded limit l x) d = x.
Proof.
  intros H. unfold MomentumTracker.pushBounded.
  destruct (limit <? length (l ++ [x]))%nat eqn:E.
  - apply Nat.ltb_lt in E. rewrite length_app in E. simpl in E.
    destruct l as [|y l]; simpl in *; [lia|]. apply List.last_last.
  - apply List.last_last.
Qed.

Lemma getState_update_same (tr : MomentumTracker.t) program iteration islandId targetScore :
  enableMBB (MomentumTracker.config tr) = true ->
  MomentumTracker.getState
    (MomentumTracker.update tr program iteration islandId targetScore) islandId
  = let st := MomentumTracker.recordScore (MomentumTracker.config tr)
                (MomentumTracker.getState tr islandId) program iteration targetScore in
    MomentumTracker.mkState
      (MomentumTracker.recentRelativeImprovements st)
      (momentumBeta (MomentumTracker.config tr) * MomentumTracker.momentum st
       + (1 - momentumBeta (MomentumTracker.config tr)) * MomentumTracker.latestImprovement st)%Q
      (MomentumTracker.backtrackHistory st)
      (MomentumTracker.iterationsSinceImprovement st)
      (MomentumTracker.currentBestScore st) (MomentumTracker.initialScore st).
Proof.
  intros H. unfold MomentumTracker.update. rewrite H. simpl.
  unfold MomentumTracker.getState at 1. simpl. now rewrite lookup_insert_eq.
Qed.

(** C5, as the code has it.  With [best] the island's running best score:
    before the first update of an island there is none, the update takes the
    improvement branch whatever the score, and the relative improvement is
    measured from the score itself, so it is zero.  Afterwards, a score above
    [best] gives the relative improvement [(score - best) / gap], makes the
    score the new best, resets the stagnation counter and appends the program
    with its iteration to the bounded backtrack history; any other score
    gives relative improvement 0 and adds one to the stagnation counter.  The
    momentum becomes [beta * momentum + (1 - beta) * latest], the history
    stays within [backtrackDepth], and the other islands keep their state. *)
Theorem momentum_update (tr : MomentumTracker.t) (program : Program)
    (iteration islandId : nat) (targetScore : option Q) :
  enableMBB (MomentumTracker.config tr) = true ->
  1 <= momentumWindowSize (MomentumTracker.config tr) ->
  let cfg := MomentumTracker.config tr in
  let st := MomentumTracker.getState tr islandId in
  let tr' := MomentumTracker.update tr program iteration islandId targetScore in
  let st' := MomentumTracker.getState tr' islandId in
  let score := Prog.combinedScoreOr0 program in
  let latest := MomentumTracker.latestImprovement st' in
  match MomentumTracker.currentBestScore st with
  | Some best =>
      if Qltb best score then
        latest = ((score - best) / MomentumTracker.relativeGap best targetScore)%Q /\
        (0 < MomentumTracker.relativeGap best targetScore)%Q /\
        MomentumTracker.currentBestScore st' = Some score /\
        MomentumTracker.iterationsSinceImprovement st' = 0 /\
        MomentumTracker.backtrackHistory st' =
          MomentumTracker.pushBounded (backtrackDepth cfg)
            (MomentumTracker.backtrackHistory st) (iteration, program)
      else
        latest = 0%Q /\
        MomentumTracker.currentBestScore st' = Some best /\
        MomentumTracker.iterationsSinceImprovement st' =
          S (MomentumTracker.iterationsSinceImprovement st) /\
        MomentumTracker.backtrackHistory st' = MomentumTracker.backtrackHistory st
  | None =>
      (MomentumTracker.initialScore st = None -> (latest == 0)%Q) /\
      MomentumTracker.currentBestScore st' = Some score /\
      MomentumTracker.iterationsSinceImprovement st' = 0 /\
      MomentumTracker.backtrackHistory st' =
        MomentumTracker.pushBounded (backtrackDepth cfg)
          (MomentumTracker.backtrackHistory st) (iteration, program)
  end /\
  MomentumTracker.momentum st' =
    (momentumBeta cfg * MomentumTracker.momentum st + (1 - momentumBeta cfg) * latest)%Q /\
  (length (MomentumTracker.backtrackHistory st) <= backtrackDepth cfg ->
   length (MomentumTracker.backtrackHistory st') <= backtrackDepth cfg) /\
  (forall other, other <> islandId ->
     MomentumTracker.getState tr' other = MomentumTracker.getState tr other).
Proof.
  intros Hen Hwin. cbv zeta.
  rewrite (getState_update_same _ _ _ _ _ Hen). cbv zeta.
  set (st := MomentumTracker.getState tr islandId).
  unfold MomentumTracker.latestImprovement. simpl.
  split; [|split; [|split]].
  - unfold MomentumTracker.recordScore.
    destruct (MomentumTracker.currentBestScore st) as [best|] eqn:Eb.
    + destruct (Qltb best (Prog.combinedScoreOr0 program)) eqn:El; simpl.
      * rewrite pushBounded_last by exact Hwin. repeat split; auto.
        unfold MomentumTracker.relativeGap. destruct targetScore.
        -- eapply Qlt_le_trans; [|apply Q.le_max_r]. reflexivity.
        -- eapply Qlt_le_trans; [|apply Q.le_max_r]. reflexivity.
      * rewrite pushBounded_last by exact Hwin. repeat split; auto.
    + simpl. rewrite pushBounded_last by exact Hwin. repeat split; auto.
      intros Hi. rewrite Hi.
      destruct (Qeq_bool (Prog.combinedScoreOr0 program) 0); unfold Qdiv; ring.
  - unfold MomentumTracker.recordScore.
    destruct (match MomentumTracker.currentBestScore st with
              | Some best => Qltb best (Prog.combinedScoreOr0 program)
              | None => true
              end); reflexivity.
  - intros Hlen. unfold MomentumTracker.recordScore.
    destruct (match MomentumTracker.currentBestScore st with
              | Some best => Qltb best (Prog.combinedScoreOr0 program)
              | None => true
              end); simpl; [apply pushBounded_length|]; exact Hlen.
  - intros other Hne. unfold MomentumTracker.update. rewrite Hen. simpl.
    unfold MomentumTracker.getState. simpl. now rewrite lookup_insert_ne.
Qed.

(** [momentum_update] for a second program that beats the first. *)
Lemma momentum_update_witness :
  let first := exampleProgram "a" (5 # 10) 0 in
  let second := exampleProgram "b" (8 # 10) 1 in
  let tr1 := MomentumTracker.update (MomentumTracker.new defaultPACEvolveConfig) first 1 0 None in
  let tr2 := MomentumTracker.update tr1 second 2 0 None in
  MomentumTracker.currentBestScore (MomentumTracker.getState tr2 0) = Some (8 # 10) /\
  MomentumTracker.iterationsSinceImprovement (MomentumTracker.getState tr2 0) = 0.
Proof.
  cbv zeta.
  pose proof (momentum_update
                (MomentumTracker.update (MomentumTracker.new defaultPACEvolveConfig)
                   (exampleProgram "a" (5 # 10) 0) 1 0 None)
                (exampleProgram "b" (8 # 10) 1) 2 0 None eq_refl
                (le_S _ _ (le_S _ _ (le_S _ _ (le_S _ _ (le_S _ _ (le_S _ _
                   (le_S _ _ (le_S _ _ (le_S _ _ (le_n 1))))))))))) as H.
  cbv zeta in H. destruct H as (H & _).
  vm_compute in H. destruct H as (_ & _ & H1 & H2 & _).
  split; [exact H1|exact H2].
Defined.

(** C5 as stated fails on the first update of an island: the score does not
    exceed the initial score, which is the score itself, yet the stagnation
    counter is reset instead of increased and the program enters the
    backtrack history. *)
Lemma momentum_first_update_is_improvement :
  let first := exampleProgram "a" (5 # 10) 0 in
  let tr0 := MomentumTracker.new defaultPACEvolveConfig in
  let st := MomentumTracker.getState tr0 0 in
  let st' := MomentumTracker.getState (MomentumTracker.update tr0 first 1 0 None) 0 in
  MomentumTracker.initialScore st' = Some (Prog.combinedScoreOr0 first) /\
  Qltb (Prog.combinedScoreOr0 first) (Prog.combinedScoreOr0 first) = false /\
  MomentumTracker.iterationsSinceImprovement st' <>
    S (MomentumTracker.iterationsSinceImprovement st) /\
  MomentumTracker.backtrackHistory st' = [(1, first)].
Proof. cbv zeta. repeat split. vm_compute. discriminate. Qed.

Lemma update_history_bound (tr : MomentumTracker.t) (c : MomentumTracker.Call) :
  (forall islandId,
     length (MomentumTracker.backtrackHistory (MomentumTracker.getState tr islandId))
     <= backtrackDepth (MomentumTracker.config tr)) ->
  MomentumTracker.config
    (MomentumTracker.update tr (MomentumTracker.callProgram c) (MomentumTracker.callIteration c)
       (MomentumTracker.callIsland c) (MomentumTracker.callTarget c))
  = MomentumTracker.config tr /\
  forall islandId,
    length (MomentumTracker.backtrackHistory
              (MomentumTracker.getState
                 (MomentumTracker.update tr (MomentumTracker.callProgram c)
                    (MomentumTracker.callIteration c) (MomentumTracker.callIsland c)
                    (MomentumTracker.callTarget c)) islandId))
    <= backtrackDepth (MomentumTracker.config tr).
Proof.
  intros H. destruct (enableMBB (MomentumTracker.config tr)) eqn:Hen.
  - split; [unfold MomentumTracker.update; now rewrite Hen|].
    intros islandId. destruct (decide (islandId = MomentumTracker.callIsland c)) as [->|Hne].
    + rewrite (getState_update_same _ _ _ _ _ Hen). cbv zeta. simpl.
      unfold MomentumTracker.recordScore.
      destruct (match MomentumTracker.currentBestScore _ with
                | Some best => Qltb best _
                | None => true
                end); simpl; [apply pushBounded_length|]; apply H.
    + unfold MomentumTracker.update. rewrite Hen. simpl.
      unfold MomentumTracker.getState at 1. simpl. rewrite lookup_insert_ne by auto.
      apply H.
  - unfold MomentumTracker.update. rewrite Hen. simpl. auto.
Qed.

(** X30.  Whatever the calls of [update] on a new tracker, no island's
    backtrack history exceeds [backtrackDepth]. *)
Lemma backtrackHistory_bounded (cfg : PACEvolveConfig) (calls : list MomentumTracker.Call)
    (islandId : nat) :
  length (MomentumTracker.backtrackHistory
            (MomentumTracker.getState
               (MomentumTracker.updates (MomentumTracker.new cfg) calls) islandId))
  <= backtrackDepth cfg.
Proof.
  assert (H : forall tr,
             MomentumTracker.config tr = cfg ->
             (forall i, length (MomentumTracker.backtrackHistory (MomentumTracker.getState tr i))
                        <= backtrackDepth cfg) ->
             forall i, length (MomentumTracker.backtrackHistory
                                 (MomentumTracker.getState (MomentumTracker.updates tr calls) i))
                       <= backtrackDepth cfg).
  { induction calls as [|c calls IH]; intros tr Hc Hb i; simpl; [apply Hb|].
    destruct (update_history_bound tr c) as [Hc' Hb']; [now rewrite Hc|].
    apply IH; [congruence|]. intros j. rewrite <- Hc. apply Hb'. }
  apply H; [reflexivity|]. intros i.
  unfold MomentumTracker.getState. simpl. rewrite lookup_empty. simpl. lia.
Qed.

(** ** The evaluator *)

Lemma attemptsMade_app (l1 l2 : list Evaluator.Event) :
  Evaluator.attemptsMade (l1 ++ l2) = Evaluator.attemptsMade l1 ++ Evaluator.attemptsMade l2.
Proof. unfold Evaluator.attemptsMade. apply omap_app. Qed.

Lemma sleepsMade_app (l1 l2 : list Evaluator.Event) :
  Evaluator.sleepsMade (l1 ++ l2) = Evaluator.sleepsMade l1 + Evaluator.sleepsMade l2.
Proof. unfold Evaluator.sleepsMade. now rewrite List.filter_app, length_app. Qed.

Lemma attemptsMade_failed (cfg : EvaluatorConfig) (recording : bool) (programId : string)
    (message : nat -> option string) (j a : nat) :
  Evaluator.attemptsMade
    (flat_map (Evaluator.failedAttemptEvents cfg recording programId message) (seq a j))
  = seq a j.
Proof.
  revert a. induction j as [|j IH]; intros a; [reflexivity|].
  cbn [seq flat_map]. rewrite attemptsMade_app, IH.
  unfold Evaluator.failedAttemptEvents, Evaluator.sleepBeforeRetry.
  destruct recording; destruct (a <? maxRetries cfg)%nat; reflexivity.
Qed.

Lemma sleepsMade_failed (cfg : EvaluatorConfig) (recording : bool) (programId : string)
    (message : nat -> option string) (j a : nat) :
  a + j <= maxRetries cfg ->
  Evaluator.sleepsMade
    (flat_map (Evaluator.failedAttemptEvents cfg recording programId message) (seq a j))
  = j.
Proof.
  revert a. induction j as [|j IH]; intros a Ha; [reflexivity|].
  cbn [seq flat_map]. rewrite sleepsMade_app, IH by lia.
  unfold Evaluator.failedAttemptEvents, Evaluator.sleepBeforeRetry.
  assert (L : (a <? maxRetries cfg)%nat = true) by (apply Nat.ltb_lt; lia).
  rewrite L. destruct recording; reflexivity.
Qed.

Lemma directEvaluate_rejects (cfg : EvaluatorConfig) (env : Evaluator.Surroundings) (a : nat) :
  cascadeEvaluation cfg = false ->
  Evaluator.writeFileError env a = None ->
  match Evaluator.evaluate (Evaluator.evaluationModule env) a with
  | Evaluator.Returns _ => True
  | _ => exists error, Evaluator.tryBlock cfg env a = Evaluator.Rejected error
  end.
Proof.
  intros Hc Hw. unfold Evaluator.tryBlock, Evaluator.directEvaluate. rewrite Hw, Hc.
  destruct (Evaluator.evaluate (Evaluator.evaluationModule env) a); simpl; eauto.
Qed.

(** The retry loop over [j] attempts that throw, when the temporary
    directory can be made and, where a failure record is kept, the message
    of what is thrown can be read. *)
Lemma attempts_rejected_prefix (cfg : EvaluatorConfig) (env : Evaluator.Surroundings)
    (programId : string) (message : nat -> option string) :
  forall j remaining attempt pending events,
    (forall a, attempt <= a < attempt + j ->
       Evaluator.makeTempDirError env a = None /\
       exists error,
         Evaluator.tryBlock cfg env a = Evaluator.Rejected error /\
         (Evaluator.artifactsEnabled env && truthy programId = true ->
          Evaluator.messageOf error = inr (message a))) ->
    Evaluator.attempts cfg env programId (j + remaining) attempt pending events =
    Evaluator.attempts cfg env programId remaining (attempt + j)
      (if Evaluator.artifactsEnabled env && truthy programId then
         match j with
         | O => pending
         | S j' => <[programId := Evaluator.FailureRecord (message (attempt + j'))
                                    "evaluation" (attempt + j' + 1)]> pending
         end
       else pending)
      (events ++ flat_map (Evaluator.failedAttemptEvents cfg
                             (Evaluator.artifactsEnabled env && truthy programId)
                             programId message)
                          (seq attempt j)).
Proof.
  induction j as [|j IH]; intros remaining attempt pending events Hrej.
  - cbn [seq flat_map Nat.add]. rewrite app_nil_r, Nat.add_0_r.
    now destruct (_ && _).
  - destruct (Hrej attempt) as (Hdir & error & Htry & Hmsg); [lia|].
    cbn [Nat.add Evaluator.attempts]. rewrite Hdir, Htry.
    destruct (Evaluator.artifactsEnabled env && truthy programId) eqn:R.
    + rewrite (Hmsg eq_refl).
      rewrite IH by (intros a Ha; apply Hrej; lia).
      cbn [seq flat_map]. unfold Evaluator.failedAttemptEvents at 2.
      rewrite <- !app_assoc. cbn [app].
      replace (S attempt + j) with (attempt + S j) by lia.
      f_equal. destruct j as [|j'].
      * now rewrite Nat.add_0_r.
      * rewrite insert_insert_eq.
        replace (S attempt + j') with (attempt + S j') by lia. reflexivity.
    + rewrite IH by (intros a Ha; apply Hrej; lia).
      cbn [seq flat_map]. unfold Evaluator.failedAttemptEvents at 2.
      rewrite <- !app_assoc. cbn [app].
      replace (S attempt + j) with (attempt + S j) by lia. reflexivity.
Qed.

(** The message of what attempt [a] throws, where it can be read. *)
Lemma readable_messages (error : nat -> Evaluator.Thrown) (k : nat) :
  (forall a, a < k -> exists message, Evaluator.messageOf (error a) = inr message) ->
  exists message : nat -> option string,
    forall a, a < k -> Evaluator.messageOf (error a) = inr (message a).
Proof.
  intros H.
  exists (fun a => match Evaluator.messageOf (error a) with inr m => m | inl _ => None end).
  intros a Ha. destruct (H a Ha) as [m ->]. reflexivity.
Qed.

(** When every attempt throws and nothing else fails, the loop runs out of
    attempts. *)
Lemma evaluateProgram_all_rejected (cfg : EvaluatorConfig) (env : Evaluator.Surroundings)
    (programId : string) (pending : gmap string Evaluator.Artifacts)
    (error : nat -> Evaluator.Thrown) (message : nat -> option string) :
  (forall a, a <= maxRetries cfg ->
     Evaluator.tryBlock cfg env a = Evaluator.Rejected (error a)) ->
  (forall a, a <= maxRetries cfg -> Evaluator.makeTempDirError env a = None) ->
  (Evaluator.artifactsEnabled env && truthy programId = true ->
   forall a, a <= maxRetries cfg -> Evaluator.messageOf (error a) = inr (message a)) ->
  Evaluator.evaluateProgram cfg env programId pending =
  (Evaluator.Returned [("error", 0%Q)],
   (if Evaluator.artifactsEnabled env && truthy programId
    then <[programId := Evaluator.FailureRecord (message (maxRetries cfg))
                          "evaluation" (maxRetries cfg + 1)]> pending
    else pending),
   flat_map (Evaluator.failedAttemptEvents cfg
               (Evaluator.artifactsEnabled env && truthy programId) programId message)
            (seq 0 (maxRetries cfg + 1))).
Proof.
  intros Hrej Hdir Hmsg. unfold Evaluator.evaluateProgram.
  rewrite <- (Nat.add_0_r (maxRetries cfg + 1)) at 1.
  rewrite (attempts_rejected_prefix cfg env programId message).
  - rewrite Nat.add_1_r. cbn [Evaluator.attempts Nat.add app].
    rewrite !Nat.add_1_r. reflexivity.
  - intros a Ha. split; [apply Hdir; lia|].
    exists (error a). split; [apply Hrej; lia|].
    intros R. apply Hmsg; [exact R|lia].
Qed.

(** The loop up to attempt [k], when the attempts before it throw and
    nothing else fails. *)
Lemma evaluateProgram_up_to (cfg : EvaluatorConfig) (env : Evaluator.Surroundings)
    (programId : string) (pending : gmap string Evaluator.Artifacts) (k : nat) :
  k <= maxRetries cfg ->
  (forall a, a < k -> Evaluator.makeTempDirError env a = None) ->
  (forall a, a < k -> exists error,
      Evaluator.tryBlock cfg env a = Evaluator.Rejected error /\
      (Evaluator.artifactsEnabled env && truthy programId = true ->
       exists message, Evaluator.messageOf error = inr message)) ->
  exists pending' events,
    Evaluator.evaluateProgram cfg env programId pending =
    Evaluator.attempts cfg env programId (S (maxRetries cfg - k)) k pending' events /\
    Evaluator.attemptsMade events = seq 0 k /\
    Evaluator.sleepsMade events = k /\
    forall other, other <> programId -> pending' !! other = pending !! other.
Proof.
  intros Hk Hdir Hrej. unfold Evaluator.evaluateProgram.
  replace (maxRetries cfg + 1) with (k + S (maxRetries cfg - k)) by lia.
  set (message := fun a =>
         match Evaluator.tryBlock cfg env a with
         | Evaluator.Rejected error =>
             match Evaluator.messageOf error with inr m => m | inl _ => None end
         | Evaluator.Resolved _ => None
         end).
  rewrite (attempts_rejected_prefix cfg env programId message).
  - eexists _, _. split; [reflexivity|].
    cbn [app]. split; [apply attemptsMade_failed|].
    split; [apply sleepsMade_failed; lia|].
    intros other Hne. destruct (_ && _); [|reflexivity].
    destruct k; [reflexivity|]. now rewrite lookup_insert_ne by congruence.
  - intros a Ha. split; [apply Hdir; lia|].
    destruct (Hrej a) as (error & Htry & Hmsg); [lia|].
    exists error. split; [exact Htry|].
    intros R. destruct (Hmsg R) as [m Hm]. subst message. cbv beta.
    now rewrite Htry, Hm.
Qed.

(** C8, as the code has it.  Let every attempt throw.  When the temporary
    directory can be made at every attempt and, where failure records are
    kept (artifacts enabled and an identifier that is not empty), what is
    thrown is not [null] or [undefined], [evaluateProgram] makes
    [maxRetries + 1] attempts with a sleep of one second between two of them
    and returns the metrics [{ error: 0 }]; after each failed attempt it
    stores the failure record, with the message or [undefined] as [stderr],
    under the program identifier where records are kept, and otherwise
    leaves the pending-artifacts map as it was.  When the temporary
    directory of attempt [k] cannot be made, the call raises that error
    before attempt [k]; when attempt [k] throws [null] or [undefined] while
    records are kept, the call raises the [TypeError] of reading the message
    after attempt [k]. *)
Theorem evaluateProgram_retries_then_error (cfg : EvaluatorConfig)
    (env : Evaluator.Surroundings) (programId : string)
    (pending : gmap string Evaluator.Artifacts) (error : nat -> Evaluator.Thrown) :
  (forall a, a <= maxRetries cfg ->
     Evaluator.tryBlock cfg env a = Evaluator.Rejected (error a)) ->
  let recording := Evaluator.artifactsEnabled env && truthy programId in
  let result := Evaluator.evaluateProgram cfg env programId pending in
  (forall message : nat -> option string,
     (forall a, a <= maxRetries cfg -> Evaluator.makeTempDirError env a = None) ->
     (recording = true ->
      forall a, a <= maxRetries cfg -> Evaluator.messageOf (error a) = inr (message a)) ->
     fst (fst result) = Evaluator.Returned [("error", 0%Q)] /\
     snd result =
       flat_map (Evaluator.failedAttemptEvents cfg recording programId message)
                (seq 0 (maxRetries cfg + 1)) /\
     snd (fst result) =
       (if recording
        then <[programId := Evaluator.FailureRecord (message (maxRetries cfg))
                              "evaluation" (maxRetries cfg + 1)]> pending
        else pending)) /\
  (forall k description,
     k <= maxRetries cfg ->
     (forall a, a < k -> Evaluator.makeTempDirError env a = None) ->
     (recording = true ->
      forall a, a < k -> exists message, Evaluator.messageOf (error a) = inr message) ->
     Evaluator.makeTempDirError env k = Some description ->
     fst (fst result) = Evaluator.Raised (Evaluator.WithMessage description) /\
     Evaluator.attemptsMade (snd result) = seq 0 k) /\
  (forall k typeError,
     k <= maxRetries cfg ->
     (forall a, a <= k -> Evaluator.makeTempDirError env a = None) ->
     recording = true ->
     (forall a, a < k -> exists message, Evaluator.messageOf (error a) = inr message) ->
     Evaluator.messageOf (error k) = inl typeError ->
     fst (fst result) = Evaluator.Raised typeError /\
     Evaluator.attemptsMade (snd result) = seq 0 (S k)).
Proof.
  intros Hrej. cbv zeta. split; [|split].
  - intros message Hdir Hmsg.
    rewrite (evaluateProgram_all_rejected cfg env programId pending error message)
      by assumption.
    auto.
  - intros k description Hk Hdir Hmsg Hfail.
    destruct (evaluateProgram_up_to cfg env programId pending k Hk Hdir)
      as (pending' & events & -> & Ha & _).
    { intros a Ha. exists (error a). split; [apply Hrej; lia|].
      intros R. now apply Hmsg. }
    cbn [Evaluator.attempts]. rewrite Hfail. cbn [fst snd]. auto.
  - intros k typeError Hk Hdir R Hmsg Hfail.
    destruct (evaluateProgram_up_to cfg env programId pending k Hk)
      as (pending' & events & -> & Ha & _).
    { intros a Ha. apply Hdir. lia. }
    { intros a Ha. exists (error a). split; [apply Hrej; lia|].
      intros _. now apply Hmsg. }
    cbn [Evaluator.attempts]. rewrite (Hdir k) by lia. rewrite (Hrej k) by lia.
    rewrite R, Hfail. cbn [fst snd]. split; [reflexivity|].
    rewrite seq_S, attemptsMade_app, Ha. reflexivity.
Qed.

(** [evaluateProgram_retries_then_error] with one retry and a named
    program. *)
Lemma evaluateProgram_retries_then_error_witness :
  let result := Evaluator.evaluateProgram (directConfig 1) (throwingSurroundings true) "p1" ∅ in
  fst (fst result) = Evaluator.Returned [("error", 0%Q)] /\
  snd result =
    [Evaluator.Attempt 0;
     Evaluator.SetPending "p1" (Evaluator.FailureRecord (Some "boom") "evaluation" 1);
     Evaluator.Sleep 1000;
     Evaluator.Attempt 1;
     Evaluator.SetPending "p1" (Evaluator.FailureRecord (Some "boom") "evaluation" 2)].
Proof.
  destruct (evaluateProgram_retries_then_error (directConfig 1) (throwingSurroundings true)
              "p1" ∅ (fun _ => Evaluator.WithMessage "boom") (fun a _ => eq_refl))
    as (H & _).
  destruct (H (fun _ => Some "boom") (fun a _ => eq_refl) (fun _ a _ => eq_refl))
    as (H1 & H2 & _).
  split; [exact H1|exact H2].
Defined.

(** C8 as stated fails.  With artifacts disabled, and also with the default
    (empty) program identifier, every attempt fails and nothing is recorded.
    With artifacts enabled and a named program, an [evaluate] that rejects
    with [null] makes the call raise a [TypeError] after the first attempt,
    and a temporary directory that cannot be made makes it raise before the
    first. *)
Lemma evaluateProgram_records_nothing :
  let disabled := Evaluator.evaluateProgram (directConfig 1) (throwingSurroundings false)
                    "p1" ∅ in
  let unnamed := Evaluator.evaluateProgram (directConfig 1) (throwingSurroundings true)
                    EmptyString ∅ in
  let null := Evaluator.evaluateProgram (directConfig 1) rejectingNull "p1" ∅ in
  let full := Evaluator.evaluateProgram (directConfig 1) fullDisk "p1" ∅ in
  fst (fst disabled) = Evaluator.Returned [("error", 0%Q)] /\
  snd (fst disabled) = ∅ /\
  snd disabled = [Evaluator.Attempt 0; Evaluator.Sleep 1000; Evaluator.Attempt 1] /\
  fst (fst unnamed) = Evaluator.Returned [("error", 0%Q)] /\
  snd (fst unnamed) = ∅ /\
  snd unnamed = [Evaluator.Attempt 0; Evaluator.Sleep 1000; Evaluator.Attempt 1] /\
  null = (Evaluator.Raised
            (Evaluator.WithMessage "Cannot read properties of null (reading 'message')"),
          ∅, [Evaluator.Attempt 0]) /\
  full = (Evaluator.Raised
            (Evaluator.WithMessage "ENOSPC: no space left on device, mkdtemp"), ∅, []).
Proof. cbv zeta. repeat split. Qed.

(** ** The template manager *)

Lemma loadTemplatesFromDir_last (files : TemplateManager.Directory)
    (templates : gmap string string) (file content : string) :
  TemplateManager.endsWith file ".txt" = true ->
  TemplateManager.loadTemplatesFromDir (Some (files ++ [(file, content)])) templates
    !! TemplateManager.basename file ".txt" = Some content.
Proof.
  intros H. unfold TemplateManager.loadTemplatesFromDir.
  rewrite fold_left_app. simpl. rewrite H. apply lookup_insert_eq.
Qed.

(** Whatever the user directory holds, the last [.txt] file of the defaults
    directory is the template of its name. *)
Lemma loadTemplates_defaults_last (fs : string -> option TemplateManager.Directory)
    (customTemplateDir : option string) (defaultTemplateDir : string)
    (files : TemplateManager.Directory) (file content : string) :
  fs defaultTemplateDir = Some (files ++ [(file, content)]) ->
  TemplateManager.endsWith file ".txt" = true ->
  TemplateManager.loadTemplates fs customTemplateDir defaultTemplateDir
    !! TemplateManager.basename file ".txt" = Some content.
Proof.
  intros Hfs Hext. unfold TemplateManager.loadTemplates. rewrite Hfs.
  now apply loadTemplatesFromDir_last.
Qed.

(** C9 fails on the code: the defaults directory is loaded after the user
    directory and overwrites the user's template of the same name. *)
Theorem loadTemplates_default_overwrites_user :
  let templates := TemplateManager.loadTemplates collidingFiles (Some "user") "defaults" in
  TemplateManager.getTemplate templates "diff_user" = "DEFAULT TEXT" /\
  TemplateManager.getTemplate templates "extra" = "EXTRA".
Proof. cbv zeta. split; vm_compute; reflexivity. Qed.

(** ** The run loop *)

Section RunLoop.
Import EvolutionEngine.
Context {World : Type} (e : Engine World) (targetScore : option Q).

Lemma loop_left_on_target :
  forall remaining first (s : Loop World),
    leftOnTarget s = false ->
    leftOnTarget (loop e targetScore remaining first s) = true ->
    exists k,
      first <= k < first + remaining /\
      iterationsRun (loop e targetScore remaining first s)
        = iterationsRun s ++ seq first (S (k - first)) /\
      targetReached e (world (loop e targetScore remaining first s)) targetScore = true /\
      leftOnError (loop e targetScore remaining first s) = false /\
      (iteration (currentStatus (loop e targetScore remaining first s))
         = iteration (currentStatus s) \/
       first <= iteration (currentStatus (loop e targetScore remaining first s)) < k).
Proof.
  induction remaining as [|remaining IH]; intros first s Hs; simpl.
  - congruence.
  - destruct (shouldStop e (world s)); [congruence|].
    destruct (runIteration e first (world s)) as [w1 threw] eqn:Erun.
    assert (Hnext : forall s1,
               leftOnTarget s1 = false ->
               iterationsRun s1 = iterationsRun s ++ [first] ->
               (iteration (currentStatus s1) = iteration (currentStatus s) \/
                iteration (currentStatus s1) = first) ->
               leftOnTarget (loop e targetScore remaining (S first) s1) = true ->
               exists k,
                 first <= k < first + S remaining /\
                 iterationsRun (loop e targetScore remaining (S first) s1)
                   = iterationsRun s ++ seq first (S (k - first)) /\
                 targetReached e (world (loop e targetScore remaining (S first) s1))
                   targetScore = true /\
                 leftOnError (loop e targetScore remaining (S first) s1) = false /\
                 (iteration (currentStatus (loop e targetScore remaining (S first) s1))
                    = iteration (currentStatus s) \/
                  first <= iteration (currentStatus (loop e targetScore remaining (S first) s1)) < k)).
    { intros s1 Hl Hran Hst Hleft.
      destruct (IH (S first) s1 Hl Hleft) as (k & Hk & Hr & Ht & He & Hi).
      exists k. split; [lia|]. split; [|split; [exact Ht|split; [exact He|]]].
      - rewrite Hr, Hran, <- app_assoc. f_equal.
        replace (S (k - first)) with (S (S (k - S first))) by lia. reflexivity.
      - destruct Hi as [Hi|Hi]; [|right; lia].
        destruct Hst as [Hst|Hst]; [left; congruence|right; lia]. }
    destruct threw.
    + destruct (hasErrorListener e w1); [|simpl; congruence].
      apply Hnext; simpl; auto.
    + destruct (targetReached e w1 targetScore) eqn:Et.
      * simpl. intros _. exists first. split; [lia|].
        rewrite Nat.sub_diag. simpl. auto.
      * destruct (if checkpointDue e first then saveCheckpoint e first w1 else (w1, false))
          as [w2 threw2].
        destruct threw2; [destruct (hasErrorListener e w2); [|simpl; congruence]|];
          apply Hnext; simpl; auto.
Qed.

(** When [run] leaves its loop through the target check, the iterations run
    are exactly 1 to [k] for some [k], the target is reached in the final
    engine, and the reported iteration is below [k]: the [break] comes before
    the status is written. *)
Lemma run_left_on_target (maxIterations : option nat) (w : World) :
  leftOnTarget (run e maxIterations targetScore w) = true ->
  exists k,
    1 <= k <= iterationCount e maxIterations /\
    iterationsRun (run e maxIterations targetScore w) = seq 1 k /\
    targetReached e (world (run e maxIterations targetScore w)) targetScore = true /\
    iteration (currentStatus (run e maxIterations targetScore w)) < k.
Proof.
  unfold run. cbv zeta.
  set (s0 := mkLoop w (mkStatus running 0 (iterationCount e maxIterations) None)
                    [] false false).
  intros H.
  assert (H' : leftOnTarget (loop e targetScore (iterationCount e maxIterations) 1 s0) = true)
    by (destruct (leftOnError (loop e targetScore _ 1 s0)); exact H).
  destruct (loop_left_on_target (iterationCount e maxIterations) 1 s0 eq_refl H')
    as (k & Hk & Hr & Ht & He & Hi).
  rewrite He. cbn [world currentStatus iterationsRun iteration].
  exists k. split; [lia|]. split; [|split; [exact Ht|]].
  - rewrite Hr. simpl. f_equal. replace (k - 1 - 0) with (k - 1) by lia.
    destruct k; [lia|]. simpl. now rewrite Nat.sub_0_r.
  - simpl in Hi. lia.
Qed.

End RunLoop.

(** C6 fails on the code.  The target 0.3 is first reached at iteration 3:
    the loop runs iterations 1 to 3 and stops, but the reported iteration is
    2 and the reported best score is the one of iteration 2. *)
Theorem run_reports_previous_iteration :
  let r := EvolutionEngine.run countingEngine (Some 5) (Some (3 # 10)) 0 in
  EvolutionEngine.iterationsRun r = [1; 2; 3] /\
  EvolutionEngine.leftOnTarget r = true /\
  EvolutionEngine.status (EvolutionEngine.currentStatus r) = EvolutionEngine.completed /\
  EvolutionEngine.iteration (EvolutionEngine.currentStatus r) = 2 /\
  EvolutionEngine.bestScore (EvolutionEngine.currentStatus r) = Some (2 / 10)%Q.
Proof. cbv zeta. repeat split. Qed.

(** ** Ordered maps and sets *)

Lemma mapGet_mapSet_eq {V} (k : string) (v : V) (m : list (string * V)) :
  mapGet k (mapSet k v m) = Some v.
Proof.
  induction m as [|[k' v'] m IH]; simpl.
  - now rewrite String.eqb_refl.
  - destruct (String.eqb k k') eqn:E; simpl; rewrite ?String.eqb_refl, ?E; auto.
Qed.

Lemma mapGet_mapSet_ne {V} (k k' : string) (v : V) (m : list (string * V)) :
  k <> k' -> mapGet k' (mapSet k v m) = mapGet k' m.
Proof.
  intros Hne. induction m as [|[k0 v0] m IH]; simpl.
  - apply String.eqb_neq in Hne. rewrite String.eqb_sym. now rewrite Hne.
  - destruct (String.eqb k k0) eqn:E; simpl.
    + apply String.eqb_eq in E. subst k0.
      assert (String.eqb k' k = false) as -> by (apply String.eqb_neq; congruence).
      reflexivity.
    + destruct (String.eqb k' k0); auto.
Qed.

Lemma mapGet_mapDelete_eq {V} (k : string) (m : list (string * V)) :
  mapGet k (mapDelete k m) = None.
Proof.
  induction m as [|[k0 v0] m IH]; simpl; auto.
  destruct (String.eqb k k0) eqn:E; simpl; auto. now rewrite E.
Qed.

Lemma mapGet_mapDelete_ne {V} (k k' : string) (m : list (string * V)) :
  k <> k' -> mapGet k' (mapDelete k m) = mapGet k' m.
Proof.
  intros Hne. induction m as [|[k0 v0] m IH]; simpl; auto.
  destruct (String.eqb k k0) eqn:E; simpl.
  - apply String.eqb_eq in E. subst k0.
    assert (String.eqb k' k = false) as -> by (apply String.eqb_neq; congruence).
    exact IH.
  - destruct (String.eqb k' k0); auto.
Qed.

Lemma mapGet_mapDelete_Some {V} (k k' : string) (m : list (string * V)) (v : V) :
  mapGet k' (mapDelete k m) = Some v -> k <> k' /\ mapGet k' m = Some v.
Proof.
  intros H. destruct (String.eqb_spec k k') as [->|Hne].
  - rewrite mapGet_mapDelete_eq in H. discriminate.
  - split; [exact Hne|]. now rewrite mapGet_mapDelete_ne in H.
Qed.

Lemma setHas_In (x : string) (s : list string) : setHas x s = true <-> In x s.
Proof.
  unfold setHas. rewrite existsb_exists. split.
  - intros (y & Hy & E). apply String.eqb_eq in E. now subst.
  - intros H. exists x. split; [exact H|apply String.eqb_refl].
Qed.

Lemma In_setAdd (x y : string) (s : list string) :
  In y (setAdd x s) <-> y = x \/ In y s.
Proof.
  unfold setAdd. destruct (setHas x s) eqn:E.
  - apply setHas_In in E. split; [auto|]. intros [->|H]; auto.
  - rewrite in_app_iff. simpl. intuition.
Qed.

Lemma In_setDelete (x y : string) (s : list string) :
  In y (setDelete x s) <-> y <> x /\ In y s.
Proof.
  unfold setDelete. rewrite filter_In, negb_true_iff, String.eqb_neq.
  split; intros [H1 H2]; split; auto.
Qed.

Lemma In_insertSorted {A} (goesBefore : A -> A -> bool) (x y : A) (l : list A) :
  In y (insertSorted goesBefore x l) <-> y = x \/ In y l.
Proof.
  induction l as [|z l IH]; simpl.
  - intuition.
  - destruct (goesBefore x z); simpl; [intuition|].
    rewrite IH. intuition.
Qed.

Lemma In_stableSort {A} (goesBefore : A -> A -> bool) (y : A) (l : list A) :
  In y (stableSort goesBefore l) <-> In y l.
Proof.
  induction l as [|x l IH]; simpl; [reflexivity|].
  rewrite In_insertSorted, IH. intuition.
Qed.

Lemma length_insertSorted {A} (goesBefore : A -> A -> bool) (x : A) (l : list A) :
  length (insertSorted goesBefore x l) = S (length l).
Proof.
  induction l as [|z l IH]; simpl; auto. destruct (goesBefore x z); simpl; auto.
Qed.

Lemma length_stableSort {A} (goesBefore : A -> A -> bool) (l : list A) :
  length (stableSort goesBefore l) = length l.
Proof.
  induction l as [|x l IH]; simpl; auto. now rewrite length_insertSorted, IH.
Qed.

Lemma In_firstn_In {A} (n : nat) (x : A) (l : list A) : In x (firstn n l) -> In x l.
Proof.
  revert l; induction n as [|n IH]; intros [|y l]; simpl; intuition.
Qed.

Lemma In_sliceTo {A} (n : Z) (x : A) (l : list A) : In x (sliceTo n l) -> In x l.
Proof.
  unfold sliceTo. destruct (0 <=? n)%Z; apply In_firstn_In.
Qed.

Lemma foldOpt_invariant {A S} (body : S -> A -> option S) (P : S -> Prop) (Q : A -> Prop) :
  (forall s x s', Q x -> P s -> body s x = Some s' -> P s') ->
  forall l s s', (forall x, In x l -> Q x) -> P s -> foldOpt body l s = Some s' -> P s'.
Proof.
  intros Hstep. induction l as [|x l IH]; simpl; intros s s' HQ HP H.
  - now injection H as <-.
  - destruct (body s x) as [s1|] eqn:E; [|discriminate].
    apply (IH s1 s'); auto. apply (Hstep s x); auto.
Qed.

(** ** The program database: what an insertion changes *)

Section DatabaseFacts.
Import ProgramDatabase.

Lemma updateArchive_frame (d : t) (p : Program) :
  programs (updateArchive d p) = programs d /\
  islands (updateArchive d p) = islands d /\
  islandFeatureMaps (updateArchive d p) = islandFeatureMaps d /\
  metadataIsland (updateArchive d p) = metadataIsland d /\
  config (updateArchive d p) = config d.
Proof.
  unfold updateArchive.
  destruct (length (archive d) <? archiveSize (config d))%nat; [simpl; auto|].
  destruct (stableSort _ _) as [|worst ?]; [auto|].
  destruct (isBetter d p worst); simpl; auto.
Qed.

Lemma updateBestProgram_frame (d : t) (p : Program) :
  programs (updateBestProgram d p) = programs d /\
  islands (updateBestProgram d p) = islands d /\
  islandFeatureMaps (updateBestProgram d p) = islandFeatureMaps d /\
  metadataIsland (updateBestProgram d p) = metadataIsland d /\
  config (updateBestProgram d p) = config d.
Proof.
  unfold updateBestProgram. destruct (replacesBest _ _ _); simpl; auto.
Qed.

Lemma updateIslandBestProgram_frame (d : t) (p : Program) (k : nat) :
  programs (updateIslandBestProgram d p k) = programs d /\
  islands (updateIslandBestProgram d p k) = islands d /\
  islandFeatureMaps (updateIslandBestProgram d p k) = islandFeatureMaps d /\
  metadataIsland (updateIslandBestProgram d p k) = metadataIsland d /\
  config (updateIslandBestProgram d p k) = config d.
Proof.
  unfold updateIslandBestProgram. destruct (replacesBest _ _ _); simpl; auto.
Qed.

Lemma removeProgram_cells (d d' : t) (p : Program) :
  removeProgram d p = Some d' ->
  islandFeatureMaps d' = islandFeatureMaps d /\ config d' = config d /\
  metadataIsland d' = metadataIsland d /\ length (islands d') = length (islands d).
Proof.
  unfold removeProgram. simpl.
  destruct (metadataIsland d !! Prog.metadata p) as [island|].
  - destruct (islands d !! island); [|discriminate].
    intros [= <-]. simpl. rewrite length_insert. auto.
  - intros [= <-]. simpl. auto.
Qed.

Lemma enforcePopulationLimit_cells (d d' : t) (x : string) :
  enforcePopulationLimit d x = Some d' ->
  islandFeatureMaps d' = islandFeatureMaps d /\ config d' = config d /\
  metadataIsland d' = metadataIsland d /\ length (islands d') = length (islands d).
Proof.
  unfold enforcePopulationLimit.
  destruct (length (programs d) <=? populationSize (config d))%nat.
  - intros [= <-]. auto.
  - apply (foldOpt_invariant removeProgram
             (fun s => islandFeatureMaps s = islandFeatureMaps d /\ config s = config d /\
                       metadataIsland s = metadataIsland d /\
                       length (islands s) = length (islands d))
             (fun _ => True)); auto.
    intros s q s' _ (H1 & H2 & H3 & H4) Hr.
    destruct (removeProgram_cells _ _ _ Hr) as (E1 & E2 & E3 & E4). repeat split; congruence.
Qed.

Lemma placeInCell_cells (d : t) (p : Program) (k : nat) (key : string)
    (cells : gmap string string) (residents : list string) :
  islandFeatureMaps (placeInCell d p k key cells residents) =
    (if shouldReplace d p (cells !! key)
     then <[k := <[key := Prog.id p]> cells]> (islandFeatureMaps d)
     else islandFeatureMaps d) /\
  programs (placeInCell d p k key cells residents) = programs d /\
  config (placeInCell d p k key cells residents) = config d /\
  metadataIsland (placeInCell d p k key cells residents) = metadataIsland d.
Proof.
  unfold placeInCell. destruct (shouldReplace d p (cells !! key)); [|auto].
  destruct (cells !! key) as [e|]; [|simpl; auto].
  destruct (truthy e); [|simpl; auto].
  simpl. destruct (setHas e (archive d)); simpl; auto.
Qed.

(** The cell maps after [add]: those of the state before, with the cell of
    the program written when the insertion replaces. *)
Lemma add_cells (d d' : t) (program : Program) (iteration targetIsland : option nat) :
  add d program iteration targetIsland = Some d' ->
  config d' = config d /\
  exists k key cells d0,
    islandFeatureMaps d !! k = Some cells /\
    config d0 = config d /\
    programs d0 = mapSet (Prog.id program)
                    (match iteration with
                     | Some i => Prog.withIterationFound program i
                     | None => program
                     end) (programs d) /\
    islandFeatureMaps d' =
      (if shouldReplace d0
            (match iteration with
             | Some i => Prog.withIterationFound program i
             | None => program
             end) (cells !! key)
       then <[k := <[key := Prog.id program]> cells]> (islandFeatureMaps d)
       else islandFeatureMaps d) /\
    cellFor d program iteration targetIsland = Some (k, key).
Proof.
  unfold add, cellFor.
  set (p := match iteration with Some i => Prog.withIterationFound program i | None => program end).
  assert (Hid : Prog.id p = Prog.id program) by (subst p; destruct iteration; reflexivity).
  set (dL := match iteration with Some i => setLastIteration _ d | None => d end).
  assert (HL : programs dL = programs d /\ islandFeatureMaps dL = islandFeatureMaps d /\
               config dL = config d /\ islands dL = islands d)
    by (subst dL; destruct iteration; simpl; auto).
  destruct HL as (HL1 & HL2 & HL3 & HL4).
  destruct (calculateFeatureCoords _ p) as [[coords stats]|]; [|discriminate].
  set (d0 := setFeatureStats stats (setPrograms (mapSet (Prog.id p) p (programs dL)) dL)).
  set (k := (chooseIsland d0 p targetIsland mod length (islands d0))%nat).
  destruct (islandFeatureMaps d0 !! k) as [cells|] eqn:Ec; [|discriminate].
  destruct (islands d0 !! k) as [residents|] eqn:Er; [|discriminate].
  set (d1 := placeInCell d0 p k (featureCoordsToKey coords) cells residents).
  destruct (placeInCell_cells d0 p k (featureCoordsToKey coords) cells residents)
    as (C1 & C2 & C3 & C4).
  fold d1 in C1, C2, C3, C4.
  set (d2 := updateArchive _ p).
  destruct (enforcePopulationLimit d2 (Prog.id p)) as [d3|] eqn:Ee; [|discriminate].
  intros [= <-].
  destruct (enforcePopulationLimit_cells _ _ _ Ee) as (F1 & F2 & _).
  destruct (updateIslandBestProgram_frame (updateBestProgram d3 p) p k) as (_ & _ & G3 & _ & G5).
  destruct (updateBestProgram_frame d3 p) as (_ & _ & B3 & _ & B5).
  destruct (updateArchive_frame
              (setMetadataIsland (<[Prog.metadata p := k]> (metadataIsland
                 (setIslands (alter (setAdd (Prog.id p)) k (islands d1)) d1)))
                 (setIslands (alter (setAdd (Prog.id p)) k (islands d1)) d1)) p)
    as (_ & _ & A3 & _ & A5).
  fold d2 in A3, A5. simpl in A3, A5.
  assert (H0c : config d0 = config dL) by reflexivity.
  assert (H0m : islandFeatureMaps d0 = islandFeatureMaps dL) by reflexivity.
  assert (H0p : programs d0 = mapSet (Prog.id p) p (programs dL)) by reflexivity.
  split; [congruence|].
  exists k, (featureCoordsToKey coords), cells, d0.
  split; [congruence|].
  split; [congruence|].
  split; [rewrite H0p, Hid, HL1; reflexivity|].
  split; [|reflexivity].
  rewrite G3, B3, F1, A3, C1, Hid, H0m, HL2. reflexivity.
Qed.

Lemma placeInCell_islands (d : t) (p : Program) (k : nat) (key : string)
    (cells : gmap string string) (residents : list string) :
  islands (placeInCell d p k key cells residents) =
    (if shouldReplace d p (cells !! key)
     then match cells !! key with
          | Some e => if truthy e then <[k := setDelete e residents]> (islands d)
                      else islands d
          | None => islands d
          end
     else islands d).
Proof.
  unfold placeInCell. destruct (shouldReplace d p (cells !! key)); [|auto].
  destruct (cells !! key) as [e|]; [|simpl; auto].
  destruct (truthy e); [|simpl; auto].
  simpl. destruct (setHas e (archive d)); simpl; auto.
Qed.

(** The state [add] hands to [enforcePopulationLimit], and what remains to
    be done afterwards. *)
Lemma add_inversion (d d' : t) (program : Program) (iteration targetIsland : option nat) :
  add d program iteration targetIsland = Some d' ->
  exists (replaces : bool) k key cells residents d2 d3,
    islandFeatureMaps d !! k = Some cells /\
    islands d !! k = Some residents /\
    programs d2 = mapSet (Prog.id program)
                    (match iteration with
                     | Some i => Prog.withIterationFound program i
                     | None => program
                     end) (programs d) /\
    islandFeatureMaps d2 =
      (if replaces then <[k := <[key := Prog.id program]> cells]> (islandFeatureMaps d)
       else islandFeatureMaps d) /\
    islands d2 =
      alter (setAdd (Prog.id program)) k
        (if replaces
         then match cells !! key with
              | Some e => if truthy e then <[k := setDelete e residents]> (islands d)
                          else islands d
              | None => islands d
              end
         else islands d) /\
    metadataIsland d2 = <[Prog.metadata program := k]> (metadataIsland d) /\
    config d2 = config d /\
    enforcePopulationLimit d2 (Prog.id program) = Some d3 /\
    programs d' = programs d3 /\ islands d' = islands d3 /\
    islandFeatureMaps d' = islandFeatureMaps d3 /\
    metadataIsland d' = metadataIsland d3 /\ config d' = config d3.
Proof.
  unfold add.
  set (p := match iteration with Some i => Prog.withIterationFound program i | None => program end).
  assert (Hid : Prog.id p = Prog.id program) by (subst p; destruct iteration; reflexivity).
  assert (Hmd : Prog.metadata p = Prog.metadata program)
    by (subst p; destruct iteration; reflexivity).
  set (dL := match iteration with Some i => setLastIteration _ d | None => d end).
  assert (HL : programs dL = programs d /\ islandFeatureMaps dL = islandFeatureMaps d /\
               config dL = config d /\ islands dL = islands d /\
               metadataIsland dL = metadataIsland d)
    by (subst dL; destruct iteration; simpl; auto).
  destruct HL as (HL1 & HL2 & HL3 & HL4 & HL5).
  destruct (calculateFeatureCoords _ p) as [[coords stats]|]; [|discriminate].
  set (d0 := setFeatureStats stats (setPrograms (mapSet (Prog.id p) p (programs dL)) dL)).
  set (k := (chooseIsland d0 p targetIsland mod length (islands d0))%nat).
  destruct (islandFeatureMaps d0 !! k) as [cells|] eqn:Ec; [|discriminate].
  destruct (islands d0 !! k) as [residents|] eqn:Er; [|discriminate].
  set (d1 := placeInCell d0 p k (featureCoordsToKey coords) cells residents).
  destruct (placeInCell_cells d0 p k (featureCoordsToKey coords) cells residents)
    as (C1 & C2 & C3 & C4).
  pose proof (placeInCell_islands d0 p k (featureCoordsToKey coords) cells residents) as C5.
  fold d1 in C1, C2, C3, C4, C5.
  set (dM := setMetadataIsland _ _).
  destruct (updateArchive_frame dM p) as (A1 & A2 & A3 & A4 & A5).
  set (d2 := updateArchive dM p) in *.
  destruct (enforcePopulationLimit d2 (Prog.id p)) as [d3|] eqn:Ee; [|discriminate].
  intros [= <-].
  destruct (updateIslandBestProgram_frame (updateBestProgram d3 p) p k) as (G1 & G2 & G3 & G4 & G5).
  destruct (updateBestProgram_frame d3 p) as (B1 & B2 & B3 & B4 & B5).
  assert (H0c : config d0 = config dL) by reflexivity.
  assert (H0m : islandFeatureMaps d0 = islandFeatureMaps dL) by reflexivity.
  assert (H0i : islands d0 = islands dL) by reflexivity.
  assert (H0h : metadataIsland d0 = metadataIsland dL) by reflexivity.
  assert (H0p : programs d0 = mapSet (Prog.id p) p (programs dL)) by reflexivity.
  assert (HMp : programs dM = programs d1) by reflexivity.
  assert (HMc : islandFeatureMaps dM = islandFeatureMaps d1) by reflexivity.
  assert (HMi : islands dM = alter (setAdd (Prog.id p)) k (islands d1)) by reflexivity.
  assert (HMh : metadataIsland dM = <[Prog.metadata p := k]> (metadataIsland d1)) by reflexivity.
  assert (HMg : config dM = config d1) by reflexivity.
  exists (shouldReplace d0 p (cells !! featureCoordsToKey coords)), k,
    (featureCoordsToKey coords), cells, residents, d2, d3.
  rewrite Hid in *. rewrite Hmd in *.
  split; [congruence|]. split; [congruence|].
  split; [rewrite A1, HMp, C2, H0p, HL1; reflexivity|].
  split; [rewrite A3, HMc, C1, H0m, HL2; reflexivity|].
  split; [rewrite A2, HMi, C5, H0i, HL4; reflexivity|].
  split; [rewrite A4, HMh, C4, H0h, HL5; reflexivity|].
  split; [congruence|].
  split; [exact Ee|].
  repeat split; congruence.
Qed.

Lemma stored_mapSet (d : t) (x y : string) (p : Program) (ps : list (string * Program)) :
  ps = mapSet x p (programs d) ->
  mapGet y ps <> None -> y = x \/ stored d y.
Proof.
  intros -> H. destruct (String.eqb_spec x y) as [->|Hne]; [now left|right].
  unfold stored. now rewrite mapGet_mapSet_ne in H.
Qed.

Lemma removeProgram_inv (d d' : t) (q : Program) :
  removeProgram d q = Some d' ->
  islandFeatureMaps d' = islandFeatureMaps d /\
  (forall y, stored d' y -> stored d y /\ y <> Prog.id q) /\
  (forall k y, residentOf d k y -> y <> Prog.id q -> residentOf d' k y).
Proof.
  unfold removeProgram. simpl.
  assert (Hst : forall ps, ps = mapDelete (Prog.id q) (programs d) ->
                           forall y, mapGet y ps <> None -> stored d y /\ y <> Prog.id q).
  { intros ps -> y Hy. destruct (mapGet y (mapDelete _ _)) as [v|] eqn:E; [|congruence].
    apply mapGet_mapDelete_Some in E as [Hne E]. unfold stored. split; congruence. }
  destruct (metadataIsland d !! Prog.metadata q) as [island|].
  - destruct (islands d !! island) as [res|] eqn:Er; [|discriminate].
    intros [= <-]. simpl. split; [reflexivity|]. split.
    + intros y Hy. now apply (Hst _ eq_refl).
    + intros k y (r & Hr & Hin) Hne. unfold residentOf. simpl.
      destruct (decide (island = k)) as [->|Hk].
      * rewrite list_lookup_insert_eq by (eapply lookup_lt_Some; eauto).
        eexists. split; [reflexivity|]. apply In_setDelete. split; [exact Hne|congruence].
      * rewrite list_lookup_insert_ne by exact Hk. eauto.
  - intros [= <-]. simpl. split; [reflexivity|]. split.
    + intros y Hy. now apply (Hst _ eq_refl).
    + intros k y Hr _. exact Hr.
Qed.

Lemma enforcePopulationLimit_inv (d d' : t) (x : string) :
  enforcePopulationLimit d x = Some d' ->
  islandFeatureMaps d' = islandFeatureMaps d /\
  (forall y, stored d' y -> stored d y) /\
  (forall k y, residentOf d k y -> stored d' y -> residentOf d' k y).
Proof.
  unfold enforcePopulationLimit.
  destruct (length (programs d) <=? populationSize (config d))%nat.
  - intros [= <-]. auto.
  - apply (foldOpt_invariant removeProgram
             (fun s => islandFeatureMaps s = islandFeatureMaps d /\
                       (forall y, stored s y -> stored d y) /\
                       (forall k y, residentOf d k y -> stored s y -> residentOf s k y))
             (fun _ => True)); auto.
    intros s q s' _ (H1 & H2 & H3) Hr.
    destruct (removeProgram_inv _ _ _ Hr) as (E1 & E2 & E3).
    split; [congruence|]. split.
    + intros y Hy. apply H2. now apply E2.
    + intros k y Hd Hy. destruct (E2 _ Hy) as [Hs Hne]. apply E3; auto.
Qed.

(** One insertion of a program with an unused identifier keeps the cell
    entries that name stored programs among the residents. *)
Lemma add_preserves (d d' : t) (program : Program) (iteration targetIsland : option nat) :
  cellsResident d -> cellsInjective d -> unused d (Prog.id program) ->
  add d program iteration targetIsland = Some d' ->
  cellsResident d' /\ cellsInjective d' /\
  (forall y, stored d' y -> y = Prog.id program \/ stored d y) /\
  (forall k y, inCellOf d' k y -> y = Prog.id program \/ inCellOf d k y).
Proof.
  intros HR HI [Hns Hnc] Hadd.
  destruct (add_inversion _ _ _ _ _ Hadd)
    as (replaces & k & key & cells & residents & d2 & d3 &
        Ec & Er & P2 & C2 & I2 & _ & _ & Ee & P' & I' & C' & _ & _).
  destruct (enforcePopulationLimit_inv _ _ _ Ee) as (C3 & S3 & R3).
  set (x := Prog.id program) in *.
  assert (Hk : k < length (islands d)) by (eapply lookup_lt_Some; eauto).
  assert (Hkc : k < length (islandFeatureMaps d)) by (eapply lookup_lt_Some; eauto).
  (* the cell entries of [d2] *)
  assert (Hcell : forall k' y, inCellOf d2 k' y ->
            (k' = k /\ y = x /\ replaces = true) \/
            (inCellOf d k' y /\
             (k' = k -> replaces = true -> cells !! key <> Some y))).
  { intros k' y (cells' & key' & H1 & H2). rewrite C2 in H1. destruct replaces.
    - destruct (decide (k = k')) as [<-|Hne].
      + rewrite list_lookup_insert_eq in H1 by exact Hkc. injection H1 as <-.
        destruct (decide (key = key')) as [<-|Hkey].
        * rewrite lookup_insert_eq in H2. injection H2 as <-. now left.
        * rewrite lookup_insert_ne in H2 by exact Hkey. right. split.
          -- exists cells, key'. auto.
          -- intros _ _ Hc. apply Hkey. eapply HI; eauto.
      + rewrite list_lookup_insert_ne in H1 by exact Hne. right. split.
        * exists cells', key'. auto.
        * intros ->. congruence.
    - right. split; [exists cells', key'; auto|]. intros _ ?. discriminate. }
  (* the residents of [d2] *)
  assert (Hres : exists R1,
            islands d2 !! k = Some (setAdd x R1) /\
            (forall y, In y residents ->
                       (replaces = true -> cells !! key <> Some y) -> In y R1) /\
            (forall k', k' <> k -> islands d2 !! k' = islands d !! k')).
  { rewrite I2. destruct replaces; [destruct (cells !! key) as [e|] eqn:Ek;
                                     [destruct (truthy e)|]|].
    - exists (setDelete e residents). split; [|split].
      + rewrite list_lookup_alter_eq, list_lookup_insert_eq by exact Hk. reflexivity.
      + intros y Hy Hc. apply In_setDelete. split; [|exact Hy].
        intros ->. now apply Hc.
      + intros k' Hne. rewrite list_lookup_alter_ne, list_lookup_insert_ne by auto.
        reflexivity.
    - exists residents. split; [|split].
      + now rewrite list_lookup_alter_eq, Er.
      + auto.
      + intros k' Hne. now rewrite list_lookup_alter_ne by auto.
    - exists residents. split; [|split].
      + now rewrite list_lookup_alter_eq, Er.
      + auto.
      + intros k' Hne. now rewrite list_lookup_alter_ne by auto.
    - exists residents. split; [|split].
      + now rewrite list_lookup_alter_eq, Er.
      + auto.
      + intros k' Hne. now rewrite list_lookup_alter_ne by auto. }
  destruct Hres as (R1 & HR1 & HR1in & HRother).
  assert (Hstored2 : forall y, stored d2 y -> y = x \/ stored d y).
  { intros y Hy. unfold stored in Hy. eapply stored_mapSet; [exact P2|exact Hy]. }
  assert (HR2 : forall k' y, inCellOf d2 k' y -> stored d2 y -> residentOf d2 k' y).
  { intros k' y Hc Hs. destruct (Hcell _ _ Hc) as [(-> & -> & _)|(Hold & Hkey)].
    - exists (setAdd x R1). split; [exact HR1|]. apply In_setAdd. now left.
    - assert (Hyx : y <> x) by (intros ->; exact (Hnc _ Hold)).
      destruct (Hstored2 _ Hs) as [?|Hsd]; [contradiction|].
      destruct (HR _ _ Hold Hsd) as (r & Hr & Hin).
      destruct (decide (k' = k)) as [->|Hne].
      + exists (setAdd x R1). split; [exact HR1|]. apply In_setAdd. right.
        apply HR1in; [congruence|]. intros Hrep. now apply Hkey.
      + exists r. split; [|exact Hin]. now rewrite HRother. }
  assert (Hcells' : forall k' y, inCellOf d' k' y <-> inCellOf d2 k' y).
  { intros k' y. unfold inCellOf. now rewrite C', C3. }
  assert (Hstored' : forall y, stored d' y <-> stored d3 y).
  { intros y. unfold stored. now rewrite P'. }
  assert (Hres' : forall k' y, residentOf d' k' y <-> residentOf d3 k' y).
  { intros k' y. unfold residentOf. now rewrite I'. }
  split; [|split; [|split]].
  - intros k' y Hc Hs. apply Hres'. apply Hcells' in Hc. apply Hstored' in Hs.
    apply R3; [|exact Hs]. apply HR2; [exact Hc|]. now apply S3.
  - intros k' cells' key1 key2 y H1 H2 H3. rewrite C', C3, C2 in H1.
    destruct replaces; [|eapply HI; eauto].
    destruct (decide (k = k')) as [<-|Hne];
      [|rewrite list_lookup_insert_ne in H1 by exact Hne; eapply HI; eauto].
    rewrite list_lookup_insert_eq in H1 by exact Hkc. injection H1 as <-.
    destruct (decide (key = key1)) as [<-|N1]; destruct (decide (key = key2)) as [<-|N2];
      auto.
    + rewrite lookup_insert_eq in H2. injection H2 as <-.
      rewrite lookup_insert_ne in H3 by exact N2.
      exfalso. apply (Hnc k). exists cells, key2. auto.
    + rewrite lookup_insert_eq in H3. injection H3 as <-.
      rewrite lookup_insert_ne in H2 by exact N1.
      exfalso. apply (Hnc k). exists cells, key1. auto.
    + rewrite lookup_insert_ne in H2, H3 by auto. eapply HI; eauto.
  - intros y Hy. apply Hstored2, S3, Hstored', Hy.
  - intros k' y Hc. apply Hcells' in Hc.
    destruct (Hcell _ _ Hc) as [(_ & -> & _)|(Hold & _)]; auto.
Qed.

Section Reachable.
Variable uuid : nat -> string.
Hypothesis uuid_injective : forall i j, uuid i = uuid j -> i = j.

Local Abbreviation good := (invariant uuid).

Lemma add_good (d d' : t) (n : nat) (program : Program) (iteration targetIsland : option nat) :
  good (d, n) -> Prog.id program = uuid n ->
  add d program iteration targetIsland = Some d' ->
  good (d', S n).
Proof.
  intros (HR & HI & HB) Hid Hadd. simpl in *.
  assert (Hun : unused d (Prog.id program)).
  { rewrite Hid. split.
    - intros Hs. destruct (HB (uuid n) (or_introl Hs)) as (i & Hi & E).
      apply uuid_injective in E. lia.
    - intros k Hc. destruct (HB (uuid n) (or_intror (ex_intro _ k Hc))) as (i & Hi & E).
      apply uuid_injective in E. lia. }
  destruct (add_preserves _ _ _ _ _ HR HI Hun Hadd) as (HR' & HI' & HS & HC).
  split; [exact HR'|]. split; [exact HI'|]. simpl.
  intros y [Hy|(k & Hy)].
  - destruct (HS _ Hy) as [->|Hold].
    + exists n. split; [lia|exact Hid].
    + destruct (HB y (or_introl Hold)) as (i & Hi & E). exists i. split; [lia|exact E].
  - destruct (HC _ _ Hy) as [->|Hold].
    + exists n. split; [lia|exact Hid].
    + destruct (HB y (or_intror (ex_intro _ k Hold))) as (i & Hi & E).
      exists i. split; [lia|exact E].
Qed.

Lemma migrateIsland_good (numMigrants : Z) (st st' : t * nat) (i : nat) :
  good st -> migrateIsland uuid numMigrants st i = Some st' -> good st'.
Proof.
  unfold migrateIsland. intros Hg.
  destruct (islands (fst st) !! i) as [[|src srcs]|]; [| |discriminate].
  - intros [= <-]. exact Hg.
  - generalize (sliceTo numMigrants
                  (stableSort (descending (fst st)) (lookupAll (fst st) (src :: srcs)))).
    intros migrants.
    apply (foldOpt_invariant _ good (fun _ => True)); auto.
    intros [d n] migrant s' _ Hs. simpl.
    destruct (add d (Prog.withId migrant (uuid n)) None _) as [d1|] eqn:Ea; [|discriminate].
    intros [= <-]. eapply add_good; eauto. reflexivity.
Qed.

Lemma migratePrograms_good (d d' : t) (n n' : nat) :
  good (d, n) -> migratePrograms uuid d n = Some (d', n') -> good (d', n').
Proof.
  unfold migratePrograms. intros Hg.
  destruct (foldOpt _ _ (d, n)) as [[d1 n1]|] eqn:Ef; [|discriminate].
  assert (Hg1 : good (d1, n1)).
  { eapply (foldOpt_invariant _ good (fun _ => True)); [| |exact Hg|exact Ef]; auto.
    intros s i s' _ Hs Hm. eapply migrateIsland_good; eauto. }
  destruct (minGeneration d1); [|discriminate].
  intros [= <- <-]. exact Hg1.
Qed.

Lemma new_good (cfg : DatabaseConfig) : good (new cfg, 0).
Proof.
  assert (Hc : forall k x, ~ inCellOf (new cfg) k x).
  { intros k x (cells & key & H1 & H2). simpl in H1.
    apply lookup_replicate_1 in H1 as [-> _]. rewrite lookup_empty in H2. discriminate. }
  split; [|split]; simpl.
  - intros k x H. now apply Hc in H.
  - intros k cells key1 key2 x H1 H2. simpl in H1.
    apply lookup_replicate_1 in H1 as [-> _]. rewrite lookup_empty in H2. discriminate.
  - intros x [H|(k & H)]; [exfalso; apply H; reflexivity|now apply Hc in H].
Qed.

Lemma reachable_good (cfg : DatabaseConfig) (st : t * nat) :
  reachable uuid cfg st -> good st.
Proof.
  induction 1.
  - apply new_good.
  - eapply add_good; eauto.
  - eapply migratePrograms_good; eauto.
Qed.

(** An insertion leaves the entry of a cell, or writes the identifier of
    the inserted program. *)
Lemma add_keeps_or_takes (n k : nat) (key x : string) (d : t) (m : nat)
    (program : Program) (iteration targetIsland : option nat) (d' : t) :
  n <= m /\ keptUntilTaken uuid n k key x (d, m) ->
  Prog.id program = uuid m ->
  add d program iteration targetIsland = Some d' ->
  n <= S m /\ keptUntilTaken uuid n k key x (d', S m).
Proof.
  intros (Hn & cells & Hc & Hx) Hid Hadd. split; [lia|].
  simpl in Hc.
  assert (Hx' : cells !! key = Some x \/
                exists i, n <= i < S m /\ cells !! key = Some (uuid i)).
  { destruct Hx as [Hx|(i & Hi & Hx)]; [now left|right; exists i; split; [simpl in Hi; lia|exact Hx]]. }
  clear Hx.
  destruct (add_cells _ _ _ _ _ Hadd) as (_ & k0 & key0 & cells0 & d0 & E0 & _ & _ & M' & _).
  unfold keptUntilTaken. simpl fst. simpl snd. rewrite M'.
  destruct (shouldReplace d0 _ (cells0 !! key0)); [|exists cells; auto].
  destruct (decide (k0 = k)) as [->|Hk];
    [|exists cells; rewrite list_lookup_insert_ne by exact Hk; auto].
  rewrite list_lookup_insert_eq by (eapply lookup_lt_Some; eauto).
  assert (cells0 = cells) as -> by congruence.
  eexists. split; [reflexivity|].
  destruct (decide (key0 = key)) as [->|Hkey].
  - right. exists m. split; [lia|]. now rewrite lookup_insert_eq, Hid.
  - now rewrite lookup_insert_ne by exact Hkey.
Qed.

(** A property of the database and the identifier count that insertions
    with the next identifier keep is kept by [migratePrograms]. *)
Lemma migratePrograms_counted (P : t * nat -> Prop) :
  (forall d m program iteration targetIsland d',
      P (d, m) -> Prog.id program = uuid m ->
      add d program iteration targetIsland = Some d' -> P (d', S m)) ->
  (forall d m g, P (d, m) -> P (setLastMigrationGeneration g d, m)) ->
  forall d n d' n',
    P (d, n) -> migratePrograms uuid d n = Some (d', n') -> P (d', n').
Proof.
  intros Hadd Hset d n d' n' HP. unfold migratePrograms.
  destruct (foldOpt _ _ (d, n)) as [[d1 n1]|] eqn:Ef; [|discriminate].
  assert (HP1 : P (d1, n1)).
  { revert Ef.
    apply (foldOpt_invariant
             (migrateIsland uuid
                (Qfloor (inject_Z (Z.of_nat (populationSize (config d)))
                         * migrationRate (config d))))
             P (fun _ => True)); auto.
    intros [s m] i [s' m'] _ Hs. unfold migrateIsland. simpl fst. simpl snd.
    destruct (islands s !! i) as [[|src srcs]|]; [now intros [= <- <-]| |discriminate].
    apply (foldOpt_invariant
             (fun (st : t * nat) (migrant : Program) =>
                match add (fst st) (Prog.withId migrant (uuid (snd st))) None
                        (Some (S i mod length (islands s))) with
                | Some d' => Some (d', S (snd st))
                | None => None
                end)
             P (fun _ => True)); auto.
    intros [s1 m1] migrant [s2 m2] _ Hs1. simpl.
    destruct (add s1 _ None _) as [s3|] eqn:Ea; [|discriminate].
    intros [= <- <-]. eapply Hadd; [exact Hs1| |exact Ea]. reflexivity. }
  destruct (minGeneration d1); [|discriminate].
  intros [= <- <-]. now apply Hset.
Qed.

Lemma later_keeps_or_takes (n k : nat) (key x : string) (d : t) (st' : t * nat) :
  keptUntilTaken uuid n k key x (d, n) ->
  later uuid (d, n) st' ->
  n <= snd st' /\ keptUntilTaken uuid n k key x st'.
Proof.
  intros H0. induction 1 as [|d1 m program iteration targetIsland d' _ IH Hid Hadd
                              |d1 m d' m' _ IH Hm].
  - split; [reflexivity|exact H0].
  - simpl in IH. eapply add_keeps_or_takes; eauto.
  - simpl in IH. revert Hm.
    apply (migratePrograms_counted
             (fun st => n <= snd st /\ keptUntilTaken uuid n k key x st)); [| |exact IH].
    + intros s j program iteration targetIsland s' Hs Hid Hadd.
      eapply add_keeps_or_takes; eauto.
    + intros s j g Hs. exact Hs.
Qed.

(** C1, as the code has it.  In every state reached from the constructor by
    [add] with fresh identifiers and by [migratePrograms], a cell of an
    island holds one identifier, and the identifier is a resident of the
    island as long as its program is stored.  Whether its program is stored
    or was evicted, the identifier stays in its cell in every later state
    until the cell is given to a program inserted after it. *)
Theorem cells_name_residents (cfg : DatabaseConfig) (d : t) (n k : nat)
    (cells : gmap string string) (key x : string) :
  reachable uuid cfg (d, n) ->
  islandFeatureMaps d !! k = Some cells ->
  cells !! key = Some x ->
  (forall y, cells !! key = Some y -> y = x) /\
  (stored d x -> residentOf d k x) /\
  (forall st', later uuid (d, n) st' -> keptUntilTaken uuid n k key x st').
Proof.
  intros Hr Hc Hx. split; [congruence|]. split.
  - intros Hs. destruct (reachable_good _ _ Hr) as (HR & _).
    apply HR; [|exact Hs]. exists cells, key. auto.
  - intros st' Hl. eapply later_keeps_or_takes; [|exact Hl].
    exists cells. auto.
Qed.

End Reachable.

End DatabaseFacts.

Lemma tallyUuid_injective (i j : nat) : tallyUuid i = tallyUuid j -> i = j.
Proof.
  unfold tallyUuid. intros [= H]. revert j H.
  induction i as [|i IH]; intros [|j]; simpl; try discriminate; auto.
  intros [= H]. f_equal. now apply IH.
Qed.

Lemma fitness_config (d d0 : ProgramDatabase.t) (p : Program) :
  ProgramDatabase.config d0 = ProgramDatabase.config d ->
  ProgramDatabase.fitness d0 p = ProgramDatabase.fitness d p.
Proof. unfold ProgramDatabase.fitness. now intros ->. Qed.

(** C2, as the code has it.  Let [add] return, and let the cell [key] of
    island [k] hold an occupant other than the incoming program before the
    call.  If the cell holds the incoming program afterwards while the
    occupant was stored in the programs map, the incoming program's fitness
    is strictly greater than the occupant's.  If [key] on [k] is the cell of
    the incoming program and the occupant is not in the programs map (it was
    evicted), the cell holds the incoming program afterwards, whatever the
    fitness values are; if the occupant is stored, the cell holds the
    incoming program afterwards exactly when its fitness is strictly
    greater. *)
Theorem add_replaces_stored_occupant_by_improvement
    (d d' : ProgramDatabase.t) (program : Program) (iteration targetIsland : option nat)
    (k : nat) (cells cells' : gmap string string) (key occupant : string) :
  ProgramDatabase.add d program iteration targetIsland = Some d' ->
  ProgramDatabase.islandFeatureMaps d !! k = Some cells ->
  cells !! key = Some occupant ->
  ProgramDatabase.islandFeatureMaps d' !! k = Some cells' ->
  occupant <> Prog.id program ->
  (forall existing,
      cells' !! key = Some (Prog.id program) ->
      mapGet occupant (ProgramDatabase.programs d) = Some existing ->
      (ProgramDatabase.fitness d existing < ProgramDatabase.fitness d program)%Q) /\
  (ProgramDatabase.cellFor d program iteration targetIsland = Some (k, key) ->
   (mapGet occupant (ProgramDatabase.programs d) = None ->
    cells' !! key = Some (Prog.id program)) /\
   (forall existing,
       mapGet occupant (ProgramDatabase.programs d) = Some existing ->
       (ProgramDatabase.fitness d existing < ProgramDatabase.fitness d program)%Q ->
       cells' !! key = Some (Prog.id program))).
Proof.
  intros Hadd Hc Ho Hc' Hne.
  destruct (add_cells _ _ _ _ _ Hadd)
    as (_ & k0 & key0 & cells0 & d0 & E0 & G0 & P0 & M' & F0).
  set (p := match iteration with
            | Some i => Prog.withIterationFound program i
            | None => program
            end) in *.
  assert (Hm : Prog.metrics p = Prog.metrics program)
    by (subst p; destruct iteration; reflexivity).
  rewrite M' in Hc'. split.
  - intros existing Hn Hex.
    destruct (ProgramDatabase.shouldReplace d0 p (cells0 !! key0)) eqn:Esr;
      [|rewrite Hc in Hc'; injection Hc' as <-; congruence].
    destruct (decide (k0 = k)) as [->|Hk];
      [|rewrite list_lookup_insert_ne in Hc' by exact Hk; congruence].
    rewrite list_lookup_insert_eq in Hc' by (eapply lookup_lt_Some; eauto).
    injection Hc' as <-. assert (cells0 = cells) as -> by congruence.
    destruct (decide (key0 = key)) as [->|Hkey];
      [|rewrite lookup_insert_ne in Hn by exact Hkey; congruence].
    rewrite Ho in Esr. unfold ProgramDatabase.shouldReplace in Esr.
    rewrite P0, mapGet_mapSet_ne, Hex in Esr by congruence.
    unfold ProgramDatabase.isBetter in Esr. apply Qltb_lt in Esr.
    rewrite !(fitness_config d d0) in Esr by exact G0.
    unfold ProgramDatabase.fitness in *. now rewrite Hm in Esr.
  - intros Hf. rewrite F0 in Hf. injection Hf as -> ->.
    assert (cells0 = cells) as -> by congruence.
    assert (Hin : forall b, ProgramDatabase.shouldReplace d0 p (cells !! key) = b ->
                  b = true -> cells' !! key = Some (Prog.id program)).
    { intros b Eb ->. rewrite Eb in Hc'.
      rewrite list_lookup_insert_eq in Hc' by (eapply lookup_lt_Some; eauto).
      injection Hc' as <-. now rewrite lookup_insert_eq. }
    split.
    + intros Hex. apply (Hin _ eq_refl).
      rewrite Ho. unfold ProgramDatabase.shouldReplace.
      now rewrite P0, mapGet_mapSet_ne, Hex by congruence.
    + intros existing Hex Hlt. apply (Hin _ eq_refl).
      rewrite Ho. unfold ProgramDatabase.shouldReplace.
      rewrite P0, mapGet_mapSet_ne, Hex by congruence.
      unfold ProgramDatabase.isBetter. apply Qltb_lt.
      rewrite !(fitness_config d d0) by exact G0.
      unfold ProgramDatabase.fitness in *. now rewrite Hm.
Qed.

(** Three programs of equal length, hence of one cell. *)
Lemma singleton_history :
  (fun d => (map fst (ProgramDatabase.programs d), ProgramDatabase.islands d,
             cellOf d 0 "0,0"))
    <$> addAll (ProgramDatabase.new singletonConfig)
               [exampleProgram "p1" (9 # 10) 1; exampleProgram "p2" (5 # 10) 2]
  = Some (["p2"], [["p2"]], Some "p1").
Proof. vm_compute. reflexivity. Qed.

(** C1 as stated fails: with room for one program, the second insertion
    evicts the first, whose identifier stays in the cell and leaves the
    island. *)
Lemma evicted_program_keeps_its_cell :
  exists d,
    addAll (ProgramDatabase.new singletonConfig)
           [exampleProgram "p1" (9 # 10) 1; exampleProgram "p2" (5 # 10) 2] = Some d /\
    ProgramDatabase.inCellOf d 0 "p1" /\
    ~ ProgramDatabase.residentOf d 0 "p1".
Proof.
  destruct (addAll _ _) as [d|] eqn:E; [|vm_compute in E; discriminate].
  exists d. split; [reflexivity|].
  assert (Hi : ProgramDatabase.islands d = [["p2"]]).
  { assert (H : ProgramDatabase.islands <$> Some d = Some [["p2"]])
      by (rewrite <- E; vm_compute; reflexivity).
    now injection H. }
  assert (Hc : cellOf d 0 "0,0" = Some "p1").
  { assert (H : (fun d => cellOf d 0 "0,0") <$> Some d = Some (Some "p1"))
      by (rewrite <- E; vm_compute; reflexivity).
    now injection H. }
  split.
  - unfold cellOf in Hc. unfold ProgramDatabase.inCellOf.
    destruct (ProgramDatabase.islandFeatureMaps d !! 0) as [cells|]; [|discriminate].
    exists cells, "0,0". auto.
  - intros (r & Hr & Hin). rewrite Hi in Hr. injection Hr as <-.
    destruct Hin as [H|[]]. discriminate.
Qed.

(** Why the identifiers have to be fresh: an identifier that is inserted
    twice can name two cells of an island, and the replacement in one of
    them removes it from the residents although its program is stored. *)
Example repeated_identifier_leaves_island :
  (fun d => (cellOf d 0 "9,0", mapHas "a" (ProgramDatabase.programs d),
             ProgramDatabase.islands d !! 0))
    <$> addAll (ProgramDatabase.new defaultDatabaseConfig) repeatedId
  = Some (Some "a", true, Some ["b"]).
Proof. vm_compute. reflexivity. Qed.

(** C2 as stated fails: the third insertion takes the cell of the evicted
    first program although its fitness, 0.1, is below the 0.9 of the program
    it replaces. *)
Lemma evicted_occupant_replaced_by_worse :
  let p1 := exampleProgram "p1" (9 # 10) 1 in
  let p2 := exampleProgram "p2" (5 # 10) 2 in
  let p3 := exampleProgram "p3" (1 # 10) 3 in
  (fun d => cellOf d 0 "0,0") <$> addAll (ProgramDatabase.new singletonConfig) [p1; p2]
    = Some (Some "p1") /\
  (fun d => cellOf d 0 "0,0") <$> addAll (ProgramDatabase.new singletonConfig) [p1; p2; p3]
    = Some (Some "p3") /\
  (ProgramDatabase.fitness (ProgramDatabase.new singletonConfig) p3
   < ProgramDatabase.fitness (ProgramDatabase.new singletonConfig) p1)%Q.
Proof. cbv zeta. split; [|split]; vm_compute; reflexivity. Qed.

(** [cells_name_residents] for the database that holds one program. *)
Lemma cells_name_residents_witness :
  ProgramDatabase.residentOf oneProgramDb 0 (tallyUuid 0).
Proof.
  refine (proj1 (proj2 (cells_name_residents tallyUuid tallyUuid_injective
                          defaultDatabaseConfig oneProgramDb 1 0
                          {["0,0" := tallyUuid 0]} "0,0" (tallyUuid 0) _ _ _)) _).
  - apply (ProgramDatabase.reachable_add tallyUuid defaultDatabaseConfig
             (ProgramDatabase.new defaultDatabaseConfig) 0
             (exampleProgram (tallyUuid 0) (5 # 10) 1) None (Some 0)).
    + apply ProgramDatabase.reachable_new.
    + reflexivity.
    + vm_compute. reflexivity.
  - vm_compute. reflexivity.
  - vm_compute. reflexivity.
  - unfold ProgramDatabase.stored. vm_compute. discriminate.
Defined.

(** [add_replaces_stored_occupant_by_improvement] for the second insertion
    into the default database. *)
Lemma add_replaces_stored_occupant_by_improvement_witness :
  (ProgramDatabase.fitness oneProgramDb (exampleProgram (tallyUuid 0) (5 # 10) 1)
   < ProgramDatabase.fitness oneProgramDb (exampleProgram (tallyUuid 1) (8 # 10) 2))%Q.
Proof.
  refine (proj1 (add_replaces_stored_occupant_by_improvement oneProgramDb twoProgramDb
                   (exampleProgram (tallyUuid 1) (8 # 10) 2) None (Some 0) 0
                   {["0,0" := tallyUuid 0]} {["0,0" := tallyUuid 1]} "0,0" (tallyUuid 0)
                   _ _ _ _ _)
                (exampleProgram (tallyUuid 0) (5 # 10) 1) _ _).
  - vm_compute. reflexivity.
  - vm_compute. reflexivity.
  - vm_compute. reflexivity.
  - vm_compute. reflexivity.
  - vm_compute. discriminate.
  - vm_compute. reflexivity.
  - vm_compute. reflexivity.
Defined.

(** ** Sampling *)

Lemma fold_left_Qplus (l : list Q) (a : Q) :
  (fold_left Qplus l a == a + fold_left Qplus l 0)%Q.
Proof.
  revert a; induction l as [|x l IH]; intros a; simpl.
  - ring.
  - rewrite IH, (IH (0 + x)%Q). ring.
Qed.

Lemma sumQ_cons (x : Q) (l : list Q) : (sumQ (x :: l) == x + sumQ l)%Q.
Proof. unfold sumQ. simpl. rewrite fold_left_Qplus. ring. Qed.

Lemma uniform_index (r : Q) (n : nat) :
  (0 <= r)%Q -> (r < 1)%Q -> 0 < n ->
  (0 <= Qfloor (r * inject_Z (Z.of_nat n)) < Z.of_nat n)%Z /\
  inSlot r (Z.to_nat (Qfloor (r * inject_Z (Z.of_nat n)))) n.
Proof.
  intros H0 H1 Hn.
  set (N := inject_Z (Z.of_nat n)).
  assert (HN : (0 < N)%Q) by (subst N; change 0%Q with (inject_Z 0); rewrite <- Zlt_Qlt; lia).
  assert (Hlo : (0 <= Qfloor (r * N))%Z).
  { rewrite <- (Qfloor_Z 0). apply Qfloor_resp_le. simpl. apply Qmult_le_0_compat; lra. }
  assert (Hhi : (Qfloor (r * N) < Z.of_nat n)%Z).
  { rewrite Zlt_Qlt. eapply Qle_lt_trans; [apply Qfloor_le|]. fold N. nra. }
  split; [lia|]. unfold inSlot. fold N.
  rewrite Nat2Z.inj_succ, Z2Nat.id by exact Hlo. split.
  - apply Qle_shift_div_r; [exact HN|]. apply Qfloor_le.
  - apply Qlt_shift_div_l; [exact HN|]. unfold Z.succ. apply Qlt_floor.
Qed.

Section SamplingFacts.
Import ProgramDatabase.

Lemma sampleFromIslandRandom_uniform (d : t) (k : nat) (r : Q) (residents : list string) :
  islands d !! k = Some residents -> residents <> [] ->
  (0 <= r)%Q -> (r < 1)%Q ->
  exists i x,
    residents !! i = Some x /\ inSlot r i (length residents) /\
    sampleFromIslandRandom d k r = mapGet x (programs d).
Proof.
  intros Hk Hne H0 H1. unfold sampleFromIslandRandom. rewrite Hk.
  assert (Hlen : 0 < length residents) by (destruct residents; simpl; [congruence|lia]).
  destruct (uniform_index r (length residents) H0 H1 Hlen) as [[Hlo Hhi] Hslot].
  set (idx := Qfloor _) in *.
  assert ((idx <? 0)%Z = false) as -> by lia.
  destruct (lookup_lt_is_Some_2 residents (Z.to_nat idx)) as [x Hx]; [lia|].
  exists (Z.to_nat idx), x. rewrite Hx. auto.
Qed.

Lemma islandArchive_spec (d : t) (k : nat) (x : string) :
  In x (islandArchive d k) <->
  In x (archive d) /\
  exists p, mapGet x (programs d) = Some p /\ metadataIsland d !! Prog.metadata p = Some k.
Proof.
  unfold islandArchive. rewrite filter_In. split; intros [Ha H]; split; auto.
  - destruct (mapGet x (programs d)) as [p|]; [|discriminate].
    destruct (metadataIsland d !! Prog.metadata p) as [k'|] eqn:E; [|discriminate].
    apply Nat.eqb_eq in H. subst. eauto.
  - destruct H as (p & -> & ->). apply Nat.eqb_refl.
Qed.

Lemma sampleFromArchiveForIsland_uniform (d : t) (k : nat) (r : Q) :
  (0 <= r)%Q -> (r < 1)%Q ->
  (islandArchive d k = [] ->
   sampleFromArchiveForIsland d k r = sampleFromIslandRandom d k r) /\
  (islandArchive d k <> [] ->
   exists i x,
     islandArchive d k !! i = Some x /\ inSlot r i (length (islandArchive d k)) /\
     sampleFromArchiveForIsland d k r = mapGet x (programs d)).
Proof.
  intros H0 H1. unfold sampleFromArchiveForIsland.
  destruct (islandArchive d k) as [|c cs] eqn:E; split; try congruence; intros _.
  assert (Hlen : 0 < length (c :: cs)) by (simpl; lia).
  destruct (uniform_index r (length (c :: cs)) H0 H1 Hlen) as [[Hlo Hhi] Hslot].
  set (idx := Qfloor _) in *.
  assert ((idx <? 0)%Z = false) as -> by lia.
  destruct (lookup_lt_is_Some_2 (c :: cs) (Z.to_nat idx)) as [x Hx]; [lia|].
  exists (Z.to_nat idx), x. rewrite Hx. auto.
Qed.

Lemma pickWeighted_slot (d : t) (rand : Q) :
  forall candidates c,
    (c <= rand)%Q -> (rand < c + sumQ (map (fitness d) candidates))%Q ->
    exists i p,
      candidates !! i = Some p /\
      pickWeighted d rand c candidates = Some p /\
      (c + sumQ (map (fitness d) (firstn i candidates)) <= rand)%Q /\
      (rand < c + sumQ (map (fitness d) (firstn (S i) candidates)))%Q.
Proof.
  induction candidates as [|p rest IH]; intros c Hlo Hhi.
  - exfalso. unfold sumQ in Hhi. simpl in Hhi. lra.
  - simpl. destruct (Qltb rand (c + fitness d p)) eqn:E.
    + apply Qltb_lt in E. exists 0, p. split; [reflexivity|]. split; [reflexivity|].
      split.
      * unfold sumQ. simpl. lra.
      * simpl. rewrite sumQ_cons. unfold sumQ at 1. simpl. lra.
    + apply Qltb_ge in E. simpl in Hhi. rewrite sumQ_cons in Hhi.
      destruct (IH (c + fitness d p)%Q E) as (i & q & Hq & Hp & L1 & L2); [lra|].
      exists (S i), q. split; [exact Hq|]. split; [exact Hp|].
      split.
      * change (firstn (S i) (p :: rest)) with (p :: firstn i rest).
        simpl map. rewrite sumQ_cons. lra.
      * change (firstn (S (S i)) (p :: rest)) with (p :: firstn (S i) rest).
        simpl map. rewrite sumQ_cons. simpl in L2. lra.
Qed.

Lemma sampleFromIslandWeighted_proportional (d : t) (k : nat) (r : Q)
    (residents : list string) :
  islands d !! k = Some residents ->
  (0 <= r)%Q -> (r < 1)%Q ->
  (0 < sumQ (map (fitness d) (lookupAll d residents)))%Q ->
  exists i p,
    lookupAll d residents !! i = Some p /\
    sampleFromIslandWeighted d k r = Some p /\
    (sumQ (map (fitness d) (firstn i (lookupAll d residents)))
     <= r * sumQ (map (fitness d) (lookupAll d residents)))%Q /\
    (r * sumQ (map (fitness d) (lookupAll d residents))
     < sumQ (map (fitness d) (firstn (S i) (lookupAll d residents))))%Q.
Proof.
  intros Hk H0 H1 Ht. unfold sampleFromIslandWeighted. rewrite Hk.
  set (total := sumQ _) in *.
  destruct (pickWeighted_slot d (r * total) (lookupAll d residents) 0)
    as (i & p & Hp & Hpick & L1 & L2).
  - nra.
  - fold total. nra.
  - exists i, p. rewrite Hpick. split; [exact Hp|]. split; [reflexivity|]. split; lra.
Qed.

End SamplingFacts.

Section SampleFromIsland.
Import ProgramDatabase.
Variable shuffle : list string -> list string.
Hypothesis shuffle_permutes : forall l, Permutation l (shuffle l).

Lemma parentBranch_cases (d : t) (randVal : Q) :
  ((randVal < explorationRatio (config d))%Q -> parentBranch d randVal = Exploration) /\
  ((explorationRatio (config d) <= randVal)%Q ->
   (randVal < explorationRatio (config d) + exploitationRatio (config d))%Q ->
   parentBranch d randVal = Exploitation) /\
  ((explorationRatio (config d) <= randVal)%Q ->
   (explorationRatio (config d) + exploitationRatio (config d) <= randVal)%Q ->
   parentBranch d randVal = Weighted).
Proof.
  unfold parentBranch. repeat split.
  - intros H. apply Qltb_lt in H. now rewrite H.
  - intros H1 H2. apply Qltb_ge in H1. apply Qltb_lt in H2. now rewrite H1, H2.
  - intros H1 H2. apply Qltb_ge in H1. apply Qltb_ge in H2. now rewrite H1, H2.
Qed.

Lemma sampleFromIsland_result (d : t) (islandId numInspirations : nat) (randVal r : Q)
    (residents : list string) :
  islands d !! (islandId mod length (islands d)) = Some residents ->
  residents <> [] ->
  sampleFromIsland shuffle d islandId numInspirations randVal r =
    match sampleParent d (islandId mod length (islands d)) (parentBranch d randVal) r with
    | None => None
    | Some parent =>
        Some (parent,
              lookupAll d
                (if (length (othersThan parent residents) <=? numInspirations)%nat
                 then othersThan parent residents
                 else firstn numInspirations (shuffle (othersThan parent residents))))
    end.
Proof.
  intros Hk Hne. unfold sampleFromIsland. rewrite Hk.
  destruct residents as [|x xs]; [congruence|]. reflexivity.
Qed.

Lemma inspirations_without_replacement (others : list string) (n : nat) :
  let ids := if (length others <=? n)%nat then others else firstn n (shuffle others) in
  (exists rest, Permutation (ids ++ rest) others) /\
  length ids = Nat.min n (length others) /\
  (length others <= n -> ids = others).
Proof.
  cbv zeta. destruct (length others <=? n)%nat eqn:E.
  - apply Nat.leb_le in E. split; [exists []; now rewrite app_nil_r|]. split; [lia|auto].
  - apply Nat.leb_gt in E. split; [|split; [|lia]].
    + exists (skipn n (shuffle others)). rewrite firstn_skipn.
      symmetry. apply shuffle_permutes.
    + rewrite length_firstn, <- (Permutation_length (shuffle_permutes others)). reflexivity.
Qed.

(** What the code does in place of the strategy.
    [sampleFromIsland(islandId, numInspirations)] has no third parameter: on
    a non-empty island the first draw [randVal] selects
    the branch, exploration below [explorationRatio], exploitation below
    [explorationRatio + exploitationRatio], weighted otherwise.  For a second
    draw [r] of the unit interval, exploration returns the resident whose
    slot of equal width holds [r]; exploitation does the same over the archive
    members whose stored program is tagged with the island, and is the
    exploration draw when there is none; the weighted branch returns the
    stored resident whose slot, of a width proportional to its fitness, holds
    [r].  The call returns as soon as the drawn parent is a stored program;
    the inspirations are the stored programs among identifiers drawn without
    replacement from the residents other than the parent, [numInspirations]
    of them, or all when there are no more than that. *)
Theorem sampleFromIsland_by_ratio (d : t) (islandId numInspirations : nat)
    (randVal r : Q) (residents : list string) :
  islands d !! (islandId mod length (islands d)) = Some residents ->
  residents <> [] ->
  (0 <= r)%Q -> (r < 1)%Q ->
  let k := islandId mod length (islands d) in
  (((randVal < explorationRatio (config d))%Q -> parentBranch d randVal = Exploration) /\
   ((explorationRatio (config d) <= randVal)%Q ->
    (randVal < explorationRatio (config d) + exploitationRatio (config d))%Q ->
    parentBranch d randVal = Exploitation) /\
   ((explorationRatio (config d) <= randVal)%Q ->
    (explorationRatio (config d) + exploitationRatio (config d) <= randVal)%Q ->
    parentBranch d randVal = Weighted)) /\
  (exists i x,
     residents !! i = Some x /\ inSlot r i (length residents) /\
     sampleParent d k Exploration r = mapGet x (programs d)) /\
  ((islandArchive d k = [] ->
    sampleParent d k Exploitation r = sampleParent d k Exploration r) /\
   (islandArchive d k <> [] ->
    exists i x,
      islandArchive d k !! i = Some x /\ inSlot r i (length (islandArchive d k)) /\
      sampleParent d k Exploitation r = mapGet x (programs d))) /\
  ((0 < sumQ (map (fitness d) (lookupAll d residents)))%Q ->
   exists i p,
     lookupAll d residents !! i = Some p /\
     sampleParent d k Weighted r = Some p /\
     (sumQ (map (fitness d) (firstn i (lookupAll d residents)))
      <= r * sumQ (map (fitness d) (lookupAll d residents)))%Q /\
     (r * sumQ (map (fitness d) (lookupAll d residents))
      < sumQ (map (fitness d) (firstn (S i) (lookupAll d residents))))%Q) /\
  (forall parent,
     sampleParent d k (parentBranch d randVal) r = Some parent ->
     exists ids rest,
       sampleFromIsland shuffle d islandId numInspirations randVal r
         = Some (parent, lookupAll d ids) /\
       Permutation (ids ++ rest) (othersThan parent residents) /\
       length ids = Nat.min numInspirations (length (othersThan parent residents)) /\
       (length (othersThan parent residents) <= numInspirations ->
        ids = othersThan parent residents)) /\
  (sampleParent d k (parentBranch d randVal) r = None ->
   sampleFromIsland shuffle d islandId numInspirations randVal r = None).
Proof.
  intros Hk Hne H0 H1 k.
  split; [apply parentBranch_cases|].
  split; [now apply sampleFromIslandRandom_uniform|].
  split; [now apply sampleFromArchiveForIsland_uniform|].
  split; [intros Ht; now apply sampleFromIslandWeighted_proportional|].
  split.
  - intros parent Hp.
    rewrite (sampleFromIsland_result _ _ _ _ _ _ Hk Hne). fold k. rewrite Hp.
    destruct (inspirations_without_replacement (othersThan parent residents) numInspirations)
      as ((rest & Hperm) & Hlen & Hall).
    eexists _, rest. split; [reflexivity|]. auto.
  - intros Hp. rewrite (sampleFromIsland_result _ _ _ _ _ _ Hk Hne). fold k. now rewrite Hp.
Qed.

End SampleFromIsland.

(** [sampleFromIsland_by_ratio] on the island of two residents, for the
    draws 0.1 and 0.6: exploration, second resident, the first as the
    inspiration. *)
Lemma sampleFromIsland_by_ratio_witness :
  ProgramDatabase.parentBranch pairDb (1 # 10) = ProgramDatabase.Exploration /\
  ProgramDatabase.sampleFromIsland (fun l => l) pairDb 0 5 (1 # 10) (6 # 10)
  = Some (exampleProgram (tallyUuid 1) (2 # 10) 2,
          [exampleProgram (tallyUuid 0) (5 # 10) 1]).
Proof.
  destruct (sampleFromIsland_by_ratio (fun l => l) (fun l => Permutation_refl l)
              pairDb 0 5 (1 # 10) (6 # 10) [tallyUuid 0; tallyUuid 1])
    as ((B & _) & _ & _ & _ & _ & _).
  - vm_compute. reflexivity.
  - discriminate.
  - unfold Qle. vm_compute. discriminate.
  - unfold Qlt. vm_compute. reflexivity.
  - split.
    + apply B. unfold Qlt. vm_compute. reflexivity.
    + vm_compute. reflexivity.
Defined.

(** C4 fails on the code.  [controller.ts] computes a
    strategy and passes it as the third argument, and [sampleFromIsland]
    drops it.  On the island of two residents the call
    [sampleFromIsland(0, 5, 'explore')] takes the weighted branch when the
    first draw is 0.95, and for the second draw 0.6 returns the first
    resident as the parent, where the uniform draw that the strategy asks
    for returns the second. *)
Lemma sampleFromIsland_ignores_strategy :
  ProgramDatabase.parentBranch pairDb (95 # 100)
    <> ProgramDatabase.branchOfStrategy ProgramDatabase.StrategyExplore /\
  fst <$> ProgramDatabase.sampleFromIslandCall (fun l => l) pairDb 0 5
            ProgramDatabase.StrategyExplore (95 # 100) (6 # 10)
    = Some (exampleProgram (tallyUuid 0) (5 # 10) 1) /\
  ProgramDatabase.sampleParent pairDb 0
      (ProgramDatabase.branchOfStrategy ProgramDatabase.StrategyExplore) (6 # 10)
    = Some (exampleProgram (tallyUuid 1) (2 # 10) 2).
Proof.
  split; [|split].
  - vm_compute. discriminate.
  - vm_compute. reflexivity.
  - vm_compute. reflexivity.
Qed.

(** ** Insertions and migrations do not throw *)

Lemma foldOpt_total {A S} (body : S -> A -> option S) (P : S -> Prop) (l : list A) :
  (forall s x, In x l -> P s -> exists s', body s x = Some s' /\ P s') ->
  forall s, P s -> exists s', foldOpt body l s = Some s' /\ P s'.
Proof.
  induction l as [|x l IH]; simpl; intros Hstep s HP.
  - eauto.
  - destruct (Hstep s x (or_introl eq_refl) HP) as (s1 & -> & HP1).
    apply IH; auto.
Qed.

Section Totality.
Import ProgramDatabase.

Lemma valueTobin_total (stats : gmap string FeatureStat.t) (dim : string) (v : Q) (bins : Z) :
  exists r, valueTobin stats dim v bins = Some r.
Proof.
  unfold valueTobin. destruct (stats !! dim) as [st|]; [|eauto].
  cbv zeta. unfold checkedDiv. destruct (Qeq_bool _ 0); eauto.
Qed.

Lemma calculateFeatureCoordsFrom_total (d : t) (p : Program) (dims : list string) :
  forall stats, exists r, calculateFeatureCoordsFrom d p dims stats = Some r.
Proof.
  induction dims as [|dim dims IH]; intros stats; simpl; [eauto|].
  destruct (valueTobin_total stats dim (featureValue d p dim) (binsFor d dim))
    as ([stats1 b] & ->).
  destruct (IH stats1) as ([coords stats2] & ->). eauto.
Qed.

Lemma removeProgram_total (d : t) (q : Program) :
  (forall ref k, metadataIsland d !! ref = Some k -> k < length (islands d)) ->
  exists d', removeProgram d q = Some d'.
Proof.
  intros H. unfold removeProgram. simpl.
  destruct (metadataIsland d !! Prog.metadata q) as [island|] eqn:E; [|eauto].
  destruct (lookup_lt_is_Some_2 (islands d) island (H _ _ E)) as [res ->]. eauto.
Qed.

Lemma removeProgram_generations (d d' : t) (q : Program) :
  removeProgram d q = Some d' -> islandGenerations d' = islandGenerations d.
Proof.
  unfold removeProgram. simpl.
  destruct (metadataIsland d !! Prog.metadata q) as [island|].
  - destruct (islands d !! island); [|discriminate]. now intros [= <-].
  - now intros [= <-].
Qed.

Lemma enforcePopulationLimit_total (d : t) (x : string) :
  (forall ref k, metadataIsland d !! ref = Some k -> k < length (islands d)) ->
  exists d', enforcePopulationLimit d x = Some d' /\
             islandGenerations d' = islandGenerations d.
Proof.
  intros H. unfold enforcePopulationLimit.
  destruct (length (programs d) <=? populationSize (config d))%nat; [eauto|].
  destruct (foldOpt_total removeProgram
              (fun s => metadataIsland s = metadataIsland d /\
                        length (islands s) = length (islands d) /\
                        islandGenerations s = islandGenerations d)
              (sliceTo (Z.of_nat (length (programs d)) - Z.of_nat (populationSize (config d)))
                 (stableSort (ascending d)
                    (List.filter (fun p => negb (String.eqb (Prog.id p) x))
                                 (map snd (programs d))))))
    with (s := d) as (d' & Hd' & _ & _ & Hg); auto.
  - intros s q _ (H1 & H2 & H3).
    destruct (removeProgram_total s q) as (s' & Hs').
    { intros ref k Hk. rewrite H1 in Hk. rewrite H2. eauto. }
    exists s'. split; [exact Hs'|].
    destruct (removeProgram_cells _ _ _ Hs') as (_ & _ & E3 & E4).
    pose proof (removeProgram_generations _ _ _ Hs'). repeat split; congruence.
  - eauto.
Qed.

Lemma updateArchive_generations (d : t) (p : Program) :
  islandGenerations (updateArchive d p) = islandGenerations d.
Proof.
  unfold updateArchive.
  destruct (length (archive d) <? archiveSize (config d))%nat; [reflexivity|].
  destruct (stableSort _ _) as [|worst ?]; [reflexivity|].
  destruct (isBetter d p worst); reflexivity.
Qed.

Lemma placeInCell_generations (d : t) (p : Program) (k : nat) (key : string)
    (cells : gmap string string) (residents : list string) :
  islandGenerations (placeInCell d p k key cells residents) = islandGenerations d.
Proof.
  unfold placeInCell. destruct (shouldReplace d p (cells !! key)); [|reflexivity].
  destruct (cells !! key) as [e|]; [|reflexivity].
  destruct (truthy e); [|reflexivity].
  simpl. destruct (setHas e (archive d)); reflexivity.
Qed.

(** On a well-shaped database [add] returns, and the result is well
    shaped. *)
Lemma add_total (d : t) (program : Program) (iteration targetIsland : option nat) :
  wellShaped d ->
  exists d', add d program iteration targetIsland = Some d' /\ wellShaped d'.
Proof.
  intros (Hpos & Hlen & Hgen & Hmeta). unfold add.
  set (p := match iteration with Some i => Prog.withIterationFound program i | None => program end).
  set (dL := match iteration with Some i => setLastIteration _ d | None => d end).
  assert (HL : islandFeatureMaps dL = islandFeatureMaps d /\ islands dL = islands d /\
               metadataIsland dL = metadataIsland d /\
               islandGenerations dL = islandGenerations d)
    by (subst dL; destruct iteration; simpl; auto).
  destruct HL as (HL2 & HL4 & HL5 & HL6).
  destruct (calculateFeatureCoordsFrom_total
              (setPrograms (mapSet (Prog.id p) p (programs dL)) dL) p
              (featureDimensions (config (setPrograms (mapSet (Prog.id p) p (programs dL)) dL)))
              (featureStats (setPrograms (mapSet (Prog.id p) p (programs dL)) dL)))
    as ([coords stats] & Hcoords).
  unfold calculateFeatureCoords. rewrite Hcoords.
  set (d0 := setFeatureStats stats (setPrograms (mapSet (Prog.id p) p (programs dL)) dL)).
  assert (H0i : islands d0 = islands d) by (rewrite <- HL4; reflexivity).
  assert (H0m : islandFeatureMaps d0 = islandFeatureMaps d) by (rewrite <- HL2; reflexivity).
  assert (H0h : metadataIsland d0 = metadataIsland d) by (rewrite <- HL5; reflexivity).
  assert (H0g : islandGenerations d0 = islandGenerations d) by (rewrite <- HL6; reflexivity).
  set (k := (chooseIsland d0 p targetIsland mod length (islands d0))%nat).
  assert (Hk : k < length (islands d)).
  { subst k. rewrite H0i. apply Nat.mod_upper_bound. lia. }
  destruct (lookup_lt_is_Some_2 (islandFeatureMaps d0) k) as [cells Ec];
    [rewrite H0m; lia|].
  destruct (lookup_lt_is_Some_2 (islands d0) k) as [residents Er]; [rewrite H0i; lia|].
  rewrite Ec, Er.
  set (d1 := placeInCell d0 p k (featureCoordsToKey coords) cells residents).
  destruct (placeInCell_cells d0 p k (featureCoordsToKey coords) cells residents)
    as (C1 & _ & _ & C4).
  pose proof (placeInCell_islands d0 p k (featureCoordsToKey coords) cells residents) as C5.
  pose proof (placeInCell_generations d0 p k (featureCoordsToKey coords) cells residents) as C6.
  fold d1 in C1, C4, C5, C6.
  assert (Hlen1 : length (islands d1) = length (islands d)).
  { rewrite C5, H0i.
    destruct (shouldReplace _ _ _); [|reflexivity].
    destruct (cells !! featureCoordsToKey coords) as [e|]; [|reflexivity].
    destruct (truthy e); [apply length_insert|reflexivity]. }
  assert (Hcl1 : length (islandFeatureMaps d1) = length (islands d)).
  { rewrite C1, H0m. destruct (shouldReplace _ _ _); [rewrite length_insert|]; exact Hlen. }
  set (dM := setMetadataIsland _ _).
  destruct (updateArchive_frame dM p) as (_ & A2 & A3 & A4 & _).
  pose proof (updateArchive_generations dM p) as A6.
  set (d2 := updateArchive dM p) in *.
  assert (H2i : length (islands d2) = length (islands d)).
  { rewrite A2. change (islands dM) with (alter (setAdd (Prog.id p)) k (islands d1)).
    now rewrite length_alter. }
  assert (H2h : forall ref k', metadataIsland d2 !! ref = Some k' -> k' < length (islands d2)).
  { intros ref k' Hr. rewrite H2i. rewrite A4 in Hr.
    change (metadataIsland dM) with (<[Prog.metadata p := k]> (metadataIsland d1)) in Hr.
    rewrite C4, H0h in Hr. destruct (decide (Prog.metadata p = ref)) as [E|Hne].
    - rewrite E, lookup_insert_eq in Hr. injection Hr as <-. exact Hk.
    - rewrite lookup_insert_ne in Hr by exact Hne. eauto. }
  destruct (enforcePopulationLimit_total d2 (Prog.id p) H2h) as (d3 & Ee & E6).
  rewrite Ee. eexists. split; [reflexivity|].
  destruct (enforcePopulationLimit_cells _ _ _ Ee) as (F1 & _ & F3 & F4).
  destruct (updateIslandBestProgram_frame (updateBestProgram d3 p) p k) as (_ & G2 & G3 & G4 & _).
  destruct (updateBestProgram_frame d3 p) as (_ & B2 & B3 & B4 & _).
  unfold wellShaped. rewrite G2, G3, G4, B2, B3, B4, F1, F3, F4, H2i, A3.
  change (islandFeatureMaps dM) with (islandFeatureMaps d1).
  split; [exact Hpos|]. split; [exact Hcl1|]. split.
  - assert (islandGenerations (updateIslandBestProgram (updateBestProgram d3 p) p k)
            = islandGenerations d3) as ->.
    { unfold updateIslandBestProgram, updateBestProgram.
      repeat (destruct (replacesBest _ _ _)); reflexivity. }
    rewrite E6, A6. change (islandGenerations dM) with (islandGenerations d1).
    now rewrite C6, H0g.
  - intros ref k' Hr. rewrite <- H2i. eauto.
Qed.

Lemma new_wellShaped (cfg : DatabaseConfig) : 0 < numIslands cfg -> wellShaped (new cfg).
Proof.
  intros H. unfold wellShaped. simpl. rewrite !length_replicate.
  split; [exact H|]. split; [reflexivity|]. split.
  - destruct (numIslands cfg); [lia|discriminate].
  - intros ref k Hk. rewrite lookup_empty in Hk. discriminate.
Qed.

Lemma add_islands_length (d d' : t) (program : Program) (iteration targetIsland : option nat) :
  add d program iteration targetIsland = Some d' ->
  length (islands d') = length (islands d).
Proof.
  intros Ha.
  destruct (add_inversion _ _ _ _ _ Ha)
    as (rep & k & key & cells & res & d2 & d3 & _ & Er & _ & _ & I2 & _ & _ & Ee & _ & I' & _).
  destruct (enforcePopulationLimit_cells _ _ _ Ee) as (_ & _ & _ & F4).
  rewrite I', F4, I2, length_alter.
  destruct rep; [|reflexivity].
  destruct (cells !! key) as [e|]; [|reflexivity].
  destruct (truthy e); [apply length_insert|reflexivity].
Qed.

(** On a well-shaped database [migratePrograms] returns, and the result is
    well shaped. *)
Lemma migratePrograms_total (uuid : nat -> string) (d : t) (n : nat) :
  wellShaped d ->
  exists d' n', migratePrograms uuid d n = Some (d', n') /\ wellShaped d'.
Proof.
  intros Hw. unfold migratePrograms.
  destruct (foldOpt_total
              (migrateIsland uuid
                 (Qfloor (inject_Z (Z.of_nat (populationSize (config d)))
                          * migrationRate (config d))))
              (fun st => wellShaped (fst st) /\ length (islands (fst st)) = length (islands d))
              (seq 0 (length (islands d))))
    with (s := (d, n)) as ([d1 n1] & Hf & Hw1 & Hl1);
    [|split; [exact Hw|reflexivity]|].
  - intros [s m] i Hi [Hs Hl]. unfold migrateIsland. simpl fst in *.
    apply in_seq in Hi.
    destruct (lookup_lt_is_Some_2 (islands s) i) as [src Ei]; [rewrite Hl; lia|].
    rewrite Ei. destruct src as [|src srcs].
    + eexists. split; [reflexivity|auto].
    + apply (foldOpt_total _
               (fun st => wellShaped (fst st) /\ length (islands (fst st)) = length (islands d))).
      * intros [s1 m1] migrant _ [Hs1 Hl1]. simpl.
        destruct (add_total s1 (Prog.withId migrant (uuid m1)) None
                    (Some (S i mod length (islands s))) Hs1) as (s2 & Ha & Hs2).
        rewrite Ha. eexists. split; [reflexivity|]. split; [exact Hs2|]. simpl.
        rewrite (add_islands_length _ _ _ _ _ Ha). exact Hl1.
      * auto.
  - simpl in Hw1. rewrite Hf. destruct Hw1 as (P1 & P2 & P3 & P4).
    unfold minGeneration. destruct (islandGenerations d1) as [|g gs] eqn:Eg; [congruence|].
    eexists _, _. split; [reflexivity|]. unfold wellShaped. simpl. rewrite Eg.
    repeat split; auto.
Qed.

(** Every reachable state of a database with at least one island is well
    shaped: from it, [add] and [migratePrograms] return. *)
Lemma reachable_wellShaped (uuid : nat -> string) (cfg : DatabaseConfig) (st : t * nat) :
  0 < numIslands cfg -> reachable uuid cfg st -> wellShaped (fst st).
Proof.
  intros Hn. induction 1; simpl in *.
  - now apply new_wellShaped.
  - destruct (add_total d program iteration targetIsland IHreachable) as (d1 & Ha & Hw).
    congruence.
  - destruct (migratePrograms_total uuid d n IHreachable) as (d1 & n1 & Hm & Hw).
    congruence.
Qed.

End Totality.

(* ================================================================== *)
(** * Part III.  Further properties of the engine                      *)
(* ================================================================== *)

(** ** utils.ts: the edit distance *)

Lemma levenshtein_nil_r (a : list ascii) : levenshtein a [] = length a.
Proof. destruct a; reflexivity. Qed.

Lemma rowFrom_nil (t : string) :
  forall b, rowFrom [] b t = seq (length b) (S (String.length t)).
Proof.
  induction t as [|d t IH]; intros b; simpl; [reflexivity|].
  f_equal. rewrite IH. reflexivity.
Qed.

(** Filling one row from the row above gives the next row of the table. *)
Lemma editRow_rowFrom (c : ascii) (a : list ascii) (t : string) :
  forall b, editRow c t (rowFrom a b t) (levenshtein (c :: a) b)
            = tail (rowFrom (c :: a) b t).
Proof.
  induction t as [|d t IH]; intros b; [reflexivity|].
  cbn [rowFrom editRow tail].
  destruct t as [|d' t'].
  - cbn [rowFrom editRow]. f_equal.
  - cbn [rowFrom]. cbn [rowFrom] in IH.
    specialize (IH (d :: b)). cbn [tail] in IH.
    cbn [editRow].
    assert (Hv : (if Ascii.eqb c d then levenshtein a b
                  else 1 + Nat.min (levenshtein a (d :: b))
                                   (Nat.min (levenshtein (c :: a) b) (levenshtein a b)))
                 = levenshtein (c :: a) (d :: b)).
    { cbn [levenshtein]. destruct (Ascii.eqb c d); reflexivity. }
    rewrite Hv. f_equal. exact IH.
Qed.

Lemma editRows_rowFrom (s1 s2 : string) :
  forall a, editRows s1 s2 (length a) (rowFrom a [] s2)
            = rowFrom (rev (list_ascii_of_string s1) ++ a) [] s2.
Proof.
  induction s1 as [|c s1 IH]; intros a; [reflexivity|].
  cbn [editRows list_ascii_of_string rev].
  rewrite <- app_assoc. cbn [app]. rewrite <- (IH (c :: a)). cbn [length].
  change (S (length a)) with (levenshtein (c :: a) []).
  rewrite editRow_rowFrom. destruct s2; reflexivity.
Qed.

Lemma last_rowFrom (a : list ascii) (t : string) :
  forall b, List.last (rowFrom a b t) 0 = levenshtein a (rev (list_ascii_of_string t) ++ b).
Proof.
  induction t as [|d t IH]; intros b; [reflexivity|].
  cbn [rowFrom list_ascii_of_string rev]. rewrite <- app_assoc. cbn [app].
  rewrite <- IH. destruct t; reflexivity.
Qed.

(** The table of [calculateEditDistance] computes the Levenshtein
    recurrence. *)
Lemma calculateEditDistance_levenshtein (s1 s2 : string) :
  calculateEditDistance s1 s2
  = levenshtein (rev (list_ascii_of_string s1)) (rev (list_ascii_of_string s2)).
Proof.
  unfold calculateEditDistance.
  pose proof (rowFrom_nil s2 []) as H. cbn [length] in H. rewrite <- H.
  pose proof (editRows_rowFrom s1 s2 []) as H1. cbn [length] in H1. rewrite H1.
  rewrite last_rowFrom, !app_nil_r. reflexivity.
Qed.

Lemma levenshtein_cons (x y : ascii) (a b : list ascii) :
  levenshtein (x :: a) (y :: b)
  = if Ascii.eqb x y then levenshtein a b
    else 1 + Nat.min (levenshtein a (y :: b))
                     (Nat.min (levenshtein (x :: a) b) (levenshtein a b)).
Proof. reflexivity. Qed.

Lemma levenshtein_refl (a : list ascii) : levenshtein a a = 0.
Proof.
  induction a as [|x a IH]; [reflexivity|].
  rewrite levenshtein_cons, Ascii.eqb_refl. exact IH.
Qed.

Lemma levenshtein_sym (a : list ascii) : forall b, levenshtein a b = levenshtein b a.
Proof.
  induction a as [|x a IHa]; intros b.
  - now rewrite levenshtein_nil_r.
  - induction b as [|y b IHb]; [reflexivity|].
    rewrite !levenshtein_cons, (Ascii.eqb_sym y x).
    rewrite (IHa (y :: b)), (IHa b), IHb.
    destruct (Ascii.eqb x y); [reflexivity|]. lia.
Qed.

Lemma levenshtein_bounds (a : list ascii) :
  forall b, Nat.max (length a) (length b) - Nat.min (length a) (length b) <= levenshtein a b
            /\ levenshtein a b <= Nat.max (length a) (length b).
Proof.
  induction a as [|x a IHa]; intros b.
  - cbn [levenshtein length]. lia.
  - induction b as [|y b IHb]; [cbn [levenshtein length]; lia|].
    rewrite levenshtein_cons.
    pose proof (IHa (y :: b)) as H1. pose proof (IHa b) as H2.
    cbn [length] in *.
    destruct (Ascii.eqb x y); lia.
Qed.

Lemma levenshtein_zero (a : list ascii) : forall b, levenshtein a b = 0 -> a = b.
Proof.
  induction a as [|x a IHa]; intros b.
  - destruct b; [reflexivity|discriminate].
  - destruct b as [|y b]; [discriminate|].
    rewrite levenshtein_cons.
    destruct (Ascii.eqb_spec x y) as [->|Hne]; [|discriminate].
    intros H. f_equal. now apply IHa.
Qed.

Lemma length_list_ascii_of_string (s : string) :
  length (list_ascii_of_string s) = String.length s.
Proof. induction s; simpl; congruence. Qed.

(** X1.  The edit distance of two texts is zero exactly when the texts are
    equal. *)
Theorem calculateEditDistance_zero_iff_equal (s1 s2 : string) :
  calculateEditDistance s1 s2 = 0 <-> s1 = s2.
Proof.
  rewrite calculateEditDistance_levenshtein. split.
  - intros H. apply levenshtein_zero in H.
    apply (f_equal (@rev ascii)) in H. rewrite !rev_involutive in H.
    apply (f_equal string_of_list_ascii) in H.
    now rewrite !string_of_list_ascii_of_string in H.
  - intros ->. apply levenshtein_refl.
Qed.

(** X2.  The edit distance does not depend on the order of its two
    arguments. *)
Theorem calculateEditDistance_symmetric (s1 s2 : string) :
  calculateEditDistance s1 s2 = calculateEditDistance s2 s1.
Proof.
  rewrite !calculateEditDistance_levenshtein. apply levenshtein_sym.
Qed.

(** X3.  The edit distance is at least the difference of the two lengths
    and at most the larger length; in particular the distance to the empty
    text is the length of the other text. *)
Theorem calculateEditDistance_between_lengths (s1 s2 : string) :
  Nat.max (String.length s1) (String.length s2)
    - Nat.min (String.length s1) (String.length s2) <= calculateEditDistance s1 s2
  /\ calculateEditDistance s1 s2 <= Nat.max (String.length s1) (String.length s2).
Proof.
  rewrite calculateEditDistance_levenshtein.
  pose proof (levenshtein_bounds (rev (list_ascii_of_string s1))
                                 (rev (list_ascii_of_string s2))) as H.
  rewrite !length_rev, !length_list_ascii_of_string in H. exact H.
Qed.

(** ** utils.ts: diffs that do not match *)

Lemma jsReplace_absent (s search replacement : string) :
  indexOf search s = None -> jsReplace s search replacement = s.
Proof.
  unfold indexOf, jsReplace.
  destruct (splitAtFirst search s) as [[? ?]|]; [discriminate|reflexivity].
Qed.

(** X4.  When the search text of no diff occurs in the code, [applyDiffs]
    returns the code unchanged, however many diffs there are. *)
Theorem applyDiffs_without_match (C : string) (diffs : list Diff) :
  (forall d, In d diffs -> ~ occursIn (search d) C) ->
  applyDiffs C diffs = C.
Proof.
  unfold applyDiffs. induction diffs as [|d diffs IH]; intros H; [reflexivity|].
  cbn [fold_left]. rewrite jsReplace_absent.
  - apply IH. intros d' Hd'. apply H. now right.
  - apply indexOf_None_iff. apply H. now left.
Qed.

Lemma applyDiffs_without_match_witness :
  applyDiffs "x=1" [mkDiff "y" "z"; mkDiff "=2" "=3"] = "x=1".
Proof.
  apply (applyDiffs_without_match "x=1" [mkDiff "y" "z"; mkDiff "=2" "=3"]).
  intros d [<-|[<-|[]]]; apply indexOf_None_iff; reflexivity.
Defined.

(** ** context-manager.ts: the similarity of two summaries *)

(** X5.  [calculateSimilarity] lies between 0 and 1 and does not depend on
    the order of its arguments; it is 1 exactly for two equal texts that are
    not empty, and 0 for two empty texts. *)
Theorem calculateSimilarity_unit_interval (a b : string) :
  (0 <= calculateSimilarity a b)%Q /\ (calculateSimilarity a b <= 1)%Q /\
  calculateSimilarity a b = calculateSimilarity b a /\
  ((calculateSimilarity a b == 1)%Q <-> a = b /\ a <> EmptyString).
Proof.
  unfold calculateSimilarity.
  rewrite (calculateEditDistance_levenshtein b a), <- levenshtein_sym,
    <- calculateEditDistance_levenshtein, (Nat.max_comm (String.length b)).
  pose proof (levenshtein_bounds (rev (list_ascii_of_string a))
                                 (rev (list_ascii_of_string b))) as [_ Hle].
  rewrite !length_rev, !length_list_ascii_of_string,
    <- calculateEditDistance_levenshtein in Hle.
  set (dist := calculateEditDistance a b) in *.
  set (maxLen := Nat.max (String.length a) (String.length b)) in *.
  destruct (Nat.eqb_spec maxLen 0) as [E0|Hpos].
  - split; [apply Qle_refl|]. split; [discriminate|]. split; [reflexivity|].
    split; [intros H; discriminate H|].
    intros [_ Hne]. destruct a; [congruence|]. simpl in maxLen. lia.
  - assert (HM : (0 < inject_Z (Z.of_nat maxLen))%Q)
      by (change 0%Q with (inject_Z 0); rewrite <- Zlt_Qlt; lia).
    assert (HD : (0 <= inject_Z (Z.of_nat dist))%Q)
      by (change 0%Q with (inject_Z 0); rewrite <- Zle_Qle; lia).
    assert (HDM : (inject_Z (Z.of_nat dist) <= inject_Z (Z.of_nat maxLen))%Q)
      by (rewrite <- Zle_Qle; lia).
    assert (Hq0 : (0 <= inject_Z (Z.of_nat dist) / inject_Z (Z.of_nat maxLen))%Q)
      by (now apply Qdiv_nonneg).
    assert (Hq1 : (inject_Z (Z.of_nat dist) / inject_Z (Z.of_nat maxLen) <= 1)%Q).
    { apply Qle_shift_div_r; [exact HM|]. lra. }
    split; [lra|]. split; [lra|]. split; [reflexivity|]. split.
    + intros H.
      assert (Hz : (inject_Z (Z.of_nat dist) / inject_Z (Z.of_nat maxLen) == 0)%Q) by lra.
      assert (Hd : dist = 0).
      { destruct dist as [|n]; [reflexivity|]. exfalso.
        assert (0 < inject_Z (Z.of_nat (S n)) / inject_Z (Z.of_nat maxLen))%Q.
        { apply Qlt_shift_div_l; [exact HM|]. rewrite Qmult_0_l.
          change 0%Q with (inject_Z 0). rewrite <- Zlt_Qlt. lia. }
        lra. }
      subst dist. rewrite calculateEditDistance_levenshtein in Hd.
      apply levenshtein_zero in Hd.
      apply (f_equal (@rev ascii)) in Hd. rewrite !rev_involutive in Hd.
      apply (f_equal string_of_list_ascii) in Hd.
      rewrite !string_of_list_ascii_of_string in Hd.
      split; [exact Hd|]. intros Ha. apply Hpos. unfold maxLen.
      rewrite <- Hd, Ha. reflexivity.
    + intros [Hab _].
      assert (Hd : dist = 0).
      { subst dist. rewrite Hab, calculateEditDistance_levenshtein. apply levenshtein_refl. }
      rewrite Hd. change (inject_Z (Z.of_nat 0)) with 0%Q.
      unfold Qdiv. rewrite Qmult_0_l. lra.
Qed.

(** ** The momentum tracker over a run *)

Lemma last_pushBounded_cases {A} (limit : nat) (l : list A) (x d : A) :
  List.last (MomentumTracker.pushBounded limit l x) d = x \/
  List.last (MomentumTracker.pushBounded limit l x) d = d.
Proof.
  unfold MomentumTracker.pushBounded.
  destruct (limit <? length (l ++ [x]))%nat.
  - destruct l as [|y l]; [right; reflexivity|left]. simpl. apply List.last_last.
  - left. apply List.last_last.
Qed.

Lemma relativeGap_pos (previousBest : Q) (targetScore : option Q) :
  (0 < MomentumTracker.relativeGap previousBest targetScore)%Q.
Proof.
  unfold MomentumTracker.relativeGap.
  destruct targetScore; (eapply Qlt_le_trans; [|apply Q.le_max_r]); reflexivity.
Qed.

Lemma getState_update_other (tr : MomentumTracker.t) program iteration islandId targetScore other :
  other <> islandId ->
  MomentumTracker.getState
    (MomentumTracker.update tr program iteration islandId targetScore) other
  = MomentumTracker.getState tr other.
Proof.
  intros Hne. unfold MomentumTracker.update.
  destruct (negb _); [reflexivity|].
  unfold MomentumTracker.getState. simpl. now rewrite lookup_insert_ne.
Qed.

Lemma update_config (tr : MomentumTracker.t) program iteration islandId targetScore :
  MomentumTracker.config (MomentumTracker.update tr program iteration islandId targetScore)
  = MomentumTracker.config tr.
Proof. unfold MomentumTracker.update. now destruct (negb _). Qed.

Lemma updates_config (calls : list MomentumTracker.Call) :
  forall tr, MomentumTracker.config (MomentumTracker.updates tr calls) = MomentumTracker.config tr.
Proof.
  induction calls as [|c calls IH]; intros tr; [reflexivity|].
  change (MomentumTracker.updates tr (c :: calls))
    with (MomentumTracker.updates
            (MomentumTracker.update tr (MomentumTracker.callProgram c)
               (MomentumTracker.callIteration c) (MomentumTracker.callIsland c)
               (MomentumTracker.callTarget c)) calls).
  rewrite IH. apply update_config.
Qed.

Lemma updates_snoc (tr : MomentumTracker.t) (calls : list MomentumTracker.Call)
    (c : MomentumTracker.Call) :
  MomentumTracker.updates tr (calls ++ [c])
  = MomentumTracker.update (MomentumTracker.updates tr calls)
      (MomentumTracker.callProgram c) (MomentumTracker.callIteration c)
      (MomentumTracker.callIsland c) (MomentumTracker.callTarget c).
Proof. unfold MomentumTracker.updates. now rewrite fold_left_app. Qed.

(** The relative improvement that [recordScore] appends is not negative. *)
Lemma recordScore_steady (cfg : PACEvolveConfig) (st : MomentumTracker.IslandState)
    (program : Program) (iteration : nat) (targetScore : option Q) :
  MomentumTracker.steady st ->
  let st' := MomentumTracker.recordScore cfg st program iteration targetScore in
  (0 <= MomentumTracker.latestImprovement st')%Q /\
  MomentumTracker.momentum st' = MomentumTracker.momentum st /\
  MomentumTracker.currentBestScore st' <> None.
Proof.
  intros [Hm Hi]. cbv zeta. unfold MomentumTracker.recordScore, MomentumTracker.latestImprovement.
  destruct (MomentumTracker.currentBestScore st) as [best|] eqn:Eb.
  - destruct (Qltb best (Prog.combinedScoreOr0 program)) eqn:El; simpl.
    + split; [|split; [reflexivity|discriminate]].
      destruct (last_pushBounded_cases (momentumWindowSize cfg)
                  (MomentumTracker.recentRelativeImprovements st)
                  ((Prog.combinedScoreOr0 program - best)
                   / MomentumTracker.relativeGap best targetScore)%Q 0%Q) as [-> | ->];
        [|apply Qle_refl].
      apply Qdiv_nonneg; [|apply relativeGap_pos].
      apply Qltb_lt in El. lra.
    + split; [|split; [reflexivity|congruence]].
      destruct (last_pushBounded_cases (momentumWindowSize cfg)
                  (MomentumTracker.recentRelativeImprovements st) 0%Q 0%Q) as [-> | ->];
        apply Qle_refl.
  - rewrite (Hi eq_refl). simpl.
    split; [|split; [reflexivity|discriminate]].
    match goal with
    | |- (0 <= List.last (MomentumTracker.pushBounded ?n ?l ?x) 0)%Q =>
        destruct (last_pushBounded_cases n l x 0%Q) as [-> | ->]; [|apply Qle_refl]
    end.
    apply Qdiv_nonneg; [|apply relativeGap_pos].
    destruct (Qeq_bool (Prog.combinedScoreOr0 program) 0); lra.
Qed.

Lemma update_steady (tr : MomentumTracker.t) program iteration islandId targetScore :
  (0 <= momentumBeta (MomentumTracker.config tr) <= 1)%Q ->
  (forall k, MomentumTracker.steady (MomentumTracker.getState tr k)) ->
  forall k, MomentumTracker.steady
              (MomentumTracker.getState
                 (MomentumTracker.update tr program iteration islandId targetScore) k).
Proof.
  intros Hb H k. destruct (enableMBB (MomentumTracker.config tr)) eqn:Hen.
  - destruct (decide (k = islandId)) as [->|Hne].
    + rewrite (getState_update_same _ _ _ _ _ Hen). cbv zeta.
      destruct (recordScore_steady (MomentumTracker.config tr)
                  (MomentumTracker.getState tr islandId) program iteration targetScore
                  (H islandId)) as (H1 & H2 & H3).
      destruct (H islandId) as [Hm _].
      split; simpl.
      * rewrite H2.
        set (b := momentumBeta (MomentumTracker.config tr)) in *.
        set (m := MomentumTracker.momentum (MomentumTracker.getState tr islandId)) in *.
        set (l := MomentumTracker.latestImprovement _) in *.
        assert (0 <= b * m)%Q by (apply Qmult_le_0_compat; lra).
        assert (0 <= (1 - b) * l)%Q by (apply Qmult_le_0_compat; lra).
        lra.
      * intros E. now apply H3 in E.
    + rewrite getState_update_other by exact Hne. apply H.
  - unfold MomentumTracker.update. rewrite Hen. apply H.
Qed.

(** X6.  With a smoothing factor between 0 and 1, the momentum of an island
    is never negative, whatever the calls of [update] on a new tracker: the
    relative improvements it averages are zero or positive. *)
Theorem momentum_never_negative (cfg : PACEvolveConfig)
    (calls : list MomentumTracker.Call) (islandId : nat) :
  (0 <= momentumBeta cfg <= 1)%Q ->
  (0 <= MomentumTracker.momentum
          (MomentumTracker.getState
             (MomentumTracker.updates (MomentumTracker.new cfg) calls) islandId))%Q.
Proof.
  intros Hb.
  assert (H : forall k, MomentumTracker.steady
                          (MomentumTracker.getState
                             (MomentumTracker.updates (MomentumTracker.new cfg) calls) k)).
  { induction calls as [|c calls IH] using rev_ind; intros k.
    - unfold MomentumTracker.getState. simpl. rewrite lookup_empty.
      split; [apply Qle_refl|reflexivity].
    - rewrite updates_snoc. apply update_steady; [|exact IH].
      now rewrite updates_config. }
  apply H.
Qed.

Lemma momentum_never_negative_witness :
  (0 <= MomentumTracker.momentum
          (MomentumTracker.getState
             (MomentumTracker.updates (MomentumTracker.new defaultPACEvolveConfig)
                [MomentumTracker.mkCall (exampleProgram "a" (5 # 10) 0) 1 0 None;
                 MomentumTracker.mkCall (exampleProgram "b" (3 # 10) 1) 2 0 None;
                 MomentumTracker.mkCall (exampleProgram "c" (8 # 10) 2) 3 0 (Some 1)]) 0))%Q.
Proof.
  apply (momentum_never_negative defaultPACEvolveConfig).
  split; unfold Qle; simpl; lia.
Defined.

Lemma scoresOn_snoc (k : nat) (calls : list MomentumTracker.Call) (c : MomentumTracker.Call) :
  MomentumTracker.scoresOn k (calls ++ [c])
  = MomentumTracker.scoresOn k calls
    ++ (if Nat.eqb (MomentumTracker.callIsland c) k
        then [Prog.combinedScoreOr0 (MomentumTracker.callProgram c)] else []).
Proof.
  unfold MomentumTracker.scoresOn. rewrite List.filter_app, map_app. simpl.
  now destruct (Nat.eqb _ k).
Qed.

(** X7.  The best score that the tracker keeps for an island is the largest
    score among the calls of [update] for that island: it is one of them and
    none of them exceeds it; without such a call there is no best score. *)
Theorem currentBestScore_is_largest (cfg : PACEvolveConfig)
    (calls : list MomentumTracker.Call) (islandId : nat) :
  enableMBB cfg = true ->
  match MomentumTracker.currentBestScore
          (MomentumTracker.getState
             (MomentumTracker.updates (MomentumTracker.new cfg) calls) islandId) with
  | None => MomentumTracker.scoresOn islandId calls = []
  | Some best =>
      In best (MomentumTracker.scoresOn islandId calls) /\
      forall s, In s (MomentumTracker.scoresOn islandId calls) -> (s <= best)%Q
  end.
Proof.
  intros Hen. induction calls as [|c calls IH] using rev_ind.
  - unfold MomentumTracker.getState. simpl. rewrite lookup_empty. reflexivity.
  - rewrite updates_snoc, scoresOn_snoc.
    destruct (Nat.eqb_spec (MomentumTracker.callIsland c) islandId) as [E|Hne].
    + rewrite E, getState_update_same by (now rewrite updates_config).
      cbv zeta. simpl. unfold MomentumTracker.recordScore.
      set (st := MomentumTracker.getState _ islandId) in *.
      set (score := Prog.combinedScoreOr0 (MomentumTracker.callProgram c)).
      destruct (MomentumTracker.currentBestScore st) as [best|] eqn:Eb.
      * destruct IH as [Hin Hmax].
        destruct (Qltb best score) eqn:El; simpl.
        -- split; [apply in_or_app; right; now left|].
           intros s Hs. apply in_app_or in Hs as [Hs|[<-|[]]]; [|apply Qle_refl].
           apply Qltb_lt in El. specialize (Hmax s Hs). lra.
        -- split; [apply in_or_app; now left|].
           intros s Hs. apply in_app_or in Hs as [Hs|[<-|[]]]; [now apply Hmax|].
           now apply Qltb_ge.
      * simpl. rewrite IH. simpl. split; [now left|].
        intros s [<-|[]]. apply Qle_refl.
    + rewrite getState_update_other by auto. rewrite app_nil_r. exact IH.
Qed.

Lemma currentBestScore_is_largest_witness :
  In (8 # 10)
     (MomentumTracker.scoresOn 0
        [MomentumTracker.mkCall (exampleProgram "a" (5 # 10) 0) 1 0 None;
         MomentumTracker.mkCall (exampleProgram "b" (8 # 10) 1) 2 0 None;
         MomentumTracker.mkCall (exampleProgram "c" (9 # 10) 2) 3 1 None;
         MomentumTracker.mkCall (exampleProgram "d" (6 # 10) 3) 4 0 None]).
Proof.
  pose proof (currentBestScore_is_largest defaultPACEvolveConfig
                [MomentumTracker.mkCall (exampleProgram "a" (5 # 10) 0) 1 0 None;
                 MomentumTracker.mkCall (exampleProgram "b" (8 # 10) 1) 2 0 None;
                 MomentumTracker.mkCall (exampleProgram "c" (9 # 10) 2) 3 1 None;
                 MomentumTracker.mkCall (exampleProgram "d" (6 # 10) 3) 4 0 None]
                0 eq_refl) as H.
  vm_compute in H. destruct H as [H _]. vm_compute. exact H.
Defined.

(** ** Backtracking *)

Lemma powerLawLoop_bound (weights : list Q) :
  forall rand i j, MomentumTracker.powerLawLoop rand weights i = Some j ->
                   i <= j < i + length weights.
Proof.
  induction weights as [|w ws IH]; intros rand i j; simpl; [discriminate|].
  destruct (Qle_bool (rand - w) 0).
  - intros [= <-]. lia.
  - intros H. apply IH in H. lia.
Qed.

Lemma samplePowerLawIndex_range (bt : BacktrackConfig) (count : nat) (r : Q) :
  1 <= count ->
  (0 <= MomentumTracker.samplePowerLawIndex bt count r < Z.of_nat count)%Z.
Proof.
  intros Hc. unfold MomentumTracker.samplePowerLawIndex.
  destruct (MomentumTracker.powerLawLoop _ _ 0) as [j|] eqn:E; [|lia].
  apply powerLawLoop_bound in E. rewrite length_map, length_seq in E. lia.
Qed.

(** X8.  With backtracking enabled and a history that is not empty,
    [getBacktrackTarget] does not throw and returns a program of the
    history; when the history has two entries or more the most recent one is
    never chosen.  The call empties the window, sets the momentum and the
    stagnation counter to zero and keeps the history and the best score, so
    that [shouldBacktrack] is false right afterwards; the other islands keep
    their state. *)
Theorem getBacktrackTarget_returns_earlier_best (bt : BacktrackConfig)
    (tr : MomentumTracker.t) (islandId : nat) (r : Q) :
  enableMBB (MomentumTracker.config tr) = true ->
  MomentumTracker.backtrackHistory (MomentumTracker.getState tr islandId) <> [] ->
  let history := MomentumTracker.backtrackHistory (MomentumTracker.getState tr islandId) in
  exists index iteration program tr',
    MomentumTracker.getBacktrackTarget bt tr islandId r = Some (Some program, tr') /\
    history !! index = Some (iteration, program) /\
    (2 <= length history -> index + 1 < length history) /\
    MomentumTracker.getState tr' islandId
    = MomentumTracker.mkState [] 0 history 0
        (MomentumTracker.currentBestScore (MomentumTracker.getState tr islandId))
        (MomentumTracker.initialScore (MomentumTracker.getState tr islandId)) /\
    MomentumTracker.shouldBacktrack bt tr' islandId = false /\
    forall other, other <> islandId ->
      MomentumTracker.getState tr' other = MomentumTracker.getState tr other.
Proof.
  intros Hen Hne. cbv zeta. unfold MomentumTracker.getBacktrackTarget. rewrite Hen.
  cbn [negb].
  set (state := MomentumTracker.getState tr islandId) in *.
  destruct (MomentumTracker.backtrackHistory state) as [|entry rest] eqn:Eh; [congruence|].
  cbv beta iota.
  set (history := entry :: rest) in *.
  assert (Hlen : 1 <= length history) by (simpl; lia).
  pose proof (samplePowerLawIndex_range bt (Nat.max 1 (length history - 1)) r
                (Nat.le_max_l _ _)) as Hr.
  set (targetIndex := MomentumTracker.samplePowerLawIndex bt _ r) in *.
  set (index := Z.min targetIndex (Z.of_nat (length history) - 1)).
  assert (Hi : (0 <= index < Z.of_nat (length history))%Z) by lia.
  destruct (index <? 0)%Z eqn:En; [apply Z.ltb_lt in En; lia|].
  destruct (lookup_lt_is_Some_2 history (Z.to_nat index)) as [[iteration program] Et]; [lia|].
  rewrite Et. exists (Z.to_nat index), iteration, program. eexists.
  split; [reflexivity|]. split; [exact Et|]. split; [lia|].
  split; [|split].
  - unfold MomentumTracker.getState at 1. simpl. now rewrite lookup_insert_eq.
  - unfold MomentumTracker.shouldBacktrack. simpl. rewrite Hen. simpl.
    unfold MomentumTracker.getState. simpl. rewrite lookup_insert_eq. simpl.
    now rewrite andb_false_r.
  - intros other Ho. unfold MomentumTracker.getState. simpl.
    now rewrite lookup_insert_ne.
Qed.

Lemma getBacktrackTarget_returns_earlier_best_witness :
  exists index iteration program tr',
    MomentumTracker.getBacktrackTarget exampleBacktrackConfig trackedTwice 0 (9 # 10)
    = Some (Some program, tr') /\
    MomentumTracker.backtrackHistory (MomentumTracker.getState trackedTwice 0) !! index
    = Some (iteration, program) /\
    index + 1 < 2.
Proof.
  destruct (getBacktrackTarget_returns_earlier_best exampleBacktrackConfig trackedTwice 0
              (9 # 10) eq_refl)
    as (index & iteration & program & tr' & H1 & H2 & H3 & _).
  - vm_compute. discriminate.
  - exists index, iteration, program, tr'.
    split; [exact H1|]. split; [exact H2|]. apply H3. vm_compute. lia.
Defined.

(** ** Crossover between islands *)

Lemma fold_largest (l : list CollaborativeEvolution.IslandProgress) :
  forall best0,
    let m := fold_left
               (fun best state =>
                  if Qltb best (CollaborativeEvolution.absoluteProgress state)
                  then CollaborativeEvolution.absoluteProgress state else best)
               l best0 in
    (best0 <= m)%Q /\
    (forall state, In state l -> (CollaborativeEvolution.absoluteProgress state <= m)%Q) /\
    (m = best0 \/ exists state, In state l /\ m = CollaborativeEvolution.absoluteProgress state).
Proof.
  induction l as [|x l IH]; intros best0; cbv zeta; simpl.
  - split; [apply Qle_refl|]. split; [intros ? []|now left].
  - destruct (Qltb best0 (CollaborativeEvolution.absoluteProgress x)) eqn:E.
    + destruct (IH (CollaborativeEvolution.absoluteProgress x)) as (H1 & H2 & H3).
      apply Qltb_lt in E. split; [lra|]. split.
      * intros state [<-|Hin]; [exact H1|now apply H2].
      * right. destruct H3 as [->|(state & Hin & ->)]; eauto.
    + destruct (IH best0) as (H1 & H2 & H3).
      apply Qltb_ge in E. split; [exact H1|]. split.
      * intros state [<-|Hin]; [lra|now apply H2].
      * destruct H3 as [->|(state & Hin & ->)]; [now left|right; eauto].
Qed.

(** The largest recorded progress is that of some island, or zero. *)
Lemma getMaxAbsoluteProgress_spec (ce : CollaborativeEvolution.t) :
  (0 <= CollaborativeEvolution.getMaxAbsoluteProgress ce)%Q /\
  (forall k, (CollaborativeEvolution.getAbsoluteProgress ce k
              <= CollaborativeEvolution.getMaxAbsoluteProgress ce)%Q) /\
  (CollaborativeEvolution.getMaxAbsoluteProgress ce = 0%Q \/
   exists k, CollaborativeEvolution.getMaxAbsoluteProgress ce
             = CollaborativeEvolution.getAbsoluteProgress ce k).
Proof.
  unfold CollaborativeEvolution.getMaxAbsoluteProgress.
  destruct (fold_largest (map snd (map_to_list (CollaborativeEvolution.islandProgress ce))) 0%Q)
    as (H1 & H2 & H3).
  cbv zeta in H1, H2, H3. split; [exact H1|]. split.
  - intros k. unfold CollaborativeEvolution.getAbsoluteProgress.
    destruct (CollaborativeEvolution.islandProgress ce !! k) as [state|] eqn:E; [|exact H1].
    apply H2. apply in_map_iff. exists (k, state). split; [reflexivity|].
    apply list_elem_of_In. now apply elem_of_map_to_list.
  - destruct H3 as [H3|(state & Hin & H3)]; [now left|right].
    apply in_map_iff in Hin as ([k state'] & <- & Hin).
    apply list_elem_of_In, elem_of_map_to_list in Hin.
    exists k. unfold CollaborativeEvolution.getAbsoluteProgress. now rewrite Hin.
Qed.

(** X9.  [shouldPerformCrossover] answers true only when crossover is
    enabled, the island stagnates, at least [crossoverFrequency] iterations
    have passed since the last crossover, and either some island's recorded
    progress exceeds this island's by more than 0.05 or this island's own
    progress is below -0.05. *)
Theorem shouldPerformCrossover_needs_better_peer (ce : CollaborativeEvolution.t)
    (currentIteration islandId : nat) (stagnating : bool) :
  CollaborativeEvolution.shouldPerformCrossover ce currentIteration islandId stagnating = true ->
  enableCE (CollaborativeEvolution.config ce) = true /\
  stagnating = true /\
  CollaborativeEvolution.lastCrossoverIteration ce
    + crossoverFrequency (CollaborativeEvolution.config ce) <= currentIteration /\
  ((exists peer,
      (CollaborativeEvolution.getAbsoluteProgress ce islandId + (5 # 100)
       < CollaborativeEvolution.getAbsoluteProgress ce peer)%Q) \/
   (CollaborativeEvolution.getAbsoluteProgress ce islandId < - (5 # 100))%Q).
Proof.
  unfold CollaborativeEvolution.shouldPerformCrossover.
  destruct (enableCE (CollaborativeEvolution.config ce)); [|discriminate]. cbn [negb].
  intros H. apply andb_prop in H as [H Hpeer]. apply andb_prop in H as [Htime Hst].
  split; [reflexivity|]. split; [exact Hst|]. split; [apply Z.leb_le in Htime; lia|].
  apply Qltb_lt in Hpeer.
  destruct (getMaxAbsoluteProgress_spec ce) as (_ & _ & [E|(k & E)]); rewrite E in Hpeer.
  - right. lra.
  - left. exists k. lra.
Qed.

Lemma shouldPerformCrossover_needs_better_peer_witness :
  (exists peer,
     (CollaborativeEvolution.getAbsoluteProgress laggingCoordinator 0 + (5 # 100)
      < CollaborativeEvolution.getAbsoluteProgress laggingCoordinator peer)%Q) \/
  (CollaborativeEvolution.getAbsoluteProgress laggingCoordinator 0 < - (5 # 100))%Q.
Proof.
  apply (shouldPerformCrossover_needs_better_peer laggingCoordinator 20 0 true).
  vm_compute. reflexivity.
Defined.

Lemma pickPartner_In (weighted : list (nat * Q)) :
  forall rand idx, CollaborativeEvolution.pickPartner rand weighted = Some idx ->
                   In idx (map fst weighted).
Proof.
  induction weighted as [|[i w] weighted IH]; intros rand idx; simpl; [discriminate|].
  destruct (Qle_bool (rand - w) 0).
  - intros [= <-]. now left.
  - intros H. right. eapply IH, H.
Qed.

(** X10.  For two islands or more, [selectIslandsForCrossover] returns two
    different islands, both below [numIslands], whatever the recorded
    progress and the two draws. *)
Theorem selectIslandsForCrossover_distinct (ce : CollaborativeEvolution.t)
    (numIslands : nat) (r1 r2 : Q) :
  2 <= numIslands -> (0 <= r1)%Q -> (r1 < 1)%Q ->
  exists island1 island2,
    CollaborativeEvolution.selectIslandsForCrossover ce numIslands r1 r2
    = (Z.of_nat island1, Some island2) /\
    island1 < numIslands /\ island2 < numIslands /\ island1 <> island2.
Proof.
  intros Hn H0 H1. unfold CollaborativeEvolution.selectIslandsForCrossover.
  destruct (uniform_index r1 numIslands H0 H1) as [Hi _]; [lia|].
  set (island1 := Qfloor (r1 * inject_Z (Z.of_nat numIslands))) in *.
  set (candidates := List.filter (fun idx => negb (Z.of_nat idx =? island1)%Z)
                                 (seq 0 numIslands)).
  assert (Hc : forall idx, In idx candidates -> idx < numIslands /\ Z.of_nat idx <> island1).
  { intros idx Hin. apply filter_In in Hin as [Hs Hne]. apply in_seq in Hs.
    apply negb_true_iff, Z.eqb_neq in Hne. split; [lia|exact Hne]. }
  assert (Hne : exists c, head candidates = Some c).
  { destruct candidates as [|c cs] eqn:E; [|eauto]. exfalso.
    assert (Hin : In (if (island1 =? 0)%Z then 1 else 0) candidates).
    { apply filter_In. split; [apply in_seq; destruct (island1 =? 0)%Z; lia|].
      apply negb_true_iff, Z.eqb_neq.
      destruct (island1 =? 0)%Z eqn:E0; [apply Z.eqb_eq in E0|apply Z.eqb_neq in E0]; lia. }
    rewrite E in Hin. destruct Hin. }
  exists (Z.to_nat island1).
  assert (Hsecond : exists island2,
             match CollaborativeEvolution.pickPartner
                     (r2 * sumQ (map snd
                        (map (fun idx =>
                                (idx, Qmax (1 # 100)
                                        (CollaborativeEvolution.getAbsoluteProgress ce idx
                                         + (1 # 100)))) candidates)))
                     (map (fun idx =>
                             (idx, Qmax (1 # 100)
                                     (CollaborativeEvolution.getAbsoluteProgress ce idx
                                      + (1 # 100)))) candidates) with
             | Some idx => Some idx
             | None => head candidates
             end = Some island2 /\ In island2 candidates).
  { destruct (CollaborativeEvolution.pickPartner _ _) as [idx|] eqn:E.
    - exists idx. split; [reflexivity|]. apply pickPartner_In in E.
      rewrite map_map in E. simpl in E. now rewrite map_id in E.
    - destruct Hne as [c Hc']. exists c. split; [exact Hc'|].
      destruct candidates; [discriminate|]. injection Hc' as <-. now left. }
  destruct Hsecond as (island2 & -> & Hin).
  exists island2. rewrite Z2Nat.id by lia.
  split; [reflexivity|]. destruct (Hc island2 Hin). repeat split; lia.
Qed.

Lemma selectIslandsForCrossover_distinct_witness :
  exists island1 island2,
    CollaborativeEvolution.selectIslandsForCrossover laggingCoordinator 5 (1 # 2) (1 # 2)
    = (Z.of_nat island1, Some island2) /\
    island1 < 5 /\ island2 < 5 /\ island1 <> island2.
Proof.
  apply (selectIslandsForCrossover_distinct laggingCoordinator 5 (1 # 2) (1 # 2)).
  - lia.
  - unfold Qle. simpl. lia.
  - unfold Qlt. simpl. lia.
Defined.

(** X11.  [updateIslandProgress] never lowers the best score it keeps for an
    island: afterwards the recorded best is at least the score passed and at
    least the best recorded before.  When no initial score was ever given,
    the recorded progress is not negative. *)
Theorem updateIslandProgress_keeps_best (ce : CollaborativeEvolution.t) (islandId : nat)
    (currentBest : Q) (initial targetScore : option Q) :
  let before := default (CollaborativeEvolution.mkProgress None None 0)
                        (CollaborativeEvolution.islandProgress ce !! islandId) in
  let ce' := CollaborativeEvolution.updateIslandProgress ce islandId currentBest initial
               targetScore in
  exists after best,
    CollaborativeEvolution.islandProgress ce' !! islandId = Some after /\
    CollaborativeEvolution.bestScore after = Some best /\
    (currentBest <= best)%Q /\
    (forall b, CollaborativeEvolution.bestScore before = Some b -> (b <= best)%Q) /\
    (initial = None -> CollaborativeEvolution.initialScore before = None ->
     (0 <= CollaborativeEvolution.getAbsoluteProgress ce' islandId)%Q).
Proof.
  cbv zeta. unfold CollaborativeEvolution.updateIslandProgress,
              CollaborativeEvolution.getAbsoluteProgress. simpl.
  rewrite lookup_insert_eq.
  set (before := default _ _).
  eexists _, _. split; [reflexivity|]. simpl. split; [reflexivity|].
  assert (Hbest : (currentBest <=
                   match CollaborativeEvolution.bestScore before with
                   | Some b => if Qltb b currentBest then currentBest else b
                   | None => currentBest
                   end)%Q).
  { destruct (CollaborativeEvolution.bestScore before) as [b|]; [|apply Qle_refl].
    destruct (Qltb b currentBest) eqn:E; [apply Qle_refl|now apply Qltb_ge]. }
  split; [exact Hbest|]. split.
  - intros b ->. destruct (Qltb b currentBest) eqn:E; [|apply Qle_refl].
    apply Qltb_lt in E. lra.
  - intros -> ->. simpl. unfold CollaborativeEvolution.calculateAbsoluteProgress.
    destruct targetScore; apply Qdiv_nonneg; try lra;
      (eapply Qlt_le_trans; [|apply Q.le_max_r]); reflexivity.
Qed.

Lemma updateIslandProgress_keeps_best_witness :
  exists after best,
    CollaborativeEvolution.islandProgress
      (CollaborativeEvolution.updateIslandProgress laggingCoordinator 0 (3 # 10) None None)
      !! 0 = Some after /\
    CollaborativeEvolution.bestScore after = Some best /\
    (3 # 10 <= best)%Q.
Proof.
  destruct (updateIslandProgress_keeps_best laggingCoordinator 0 (3 # 10) None None)
    as (after & best & H1 & H2 & H3 & _).
  exists after, best. auto.
Defined.

(** ** The evaluator: cascade mode, first success, pending artifacts *)

(** With a first stage, [cascadeEvaluate] resolves whatever the stages do:
    what a [catch] block throws is a [TypeError], whose message the outer
    [catch] can read. *)
Lemma cascadeEvaluate_resolves (cfg : EvaluatorConfig) (m : Evaluator.EvaluationModule)
    (attempt : nat) (stage1 : nat -> Evaluator.UserCall) :
  Evaluator.evaluate_stage1 m = Some stage1 ->
  exists result, Evaluator.cascadeEvaluate cfg m attempt = Evaluator.Resolved result.
Proof.
  intros E. unfold Evaluator.cascadeEvaluate. rewrite E.
  assert (Hm : forall error typeError,
             Evaluator.messageOf error = inl typeError ->
             exists text, typeError = Evaluator.WithMessage text).
  { intros [m0| | |] typeError; simpl; intros [= <-]; eauto. }
  assert (Hs : forall stage error typeError,
             Evaluator.setupFailed stage error = inl typeError ->
             exists text, typeError = Evaluator.WithMessage text).
  { intros stage error typeError. unfold Evaluator.setupFailed.
    destruct (Evaluator.messageOf error) eqn:Em; [|discriminate].
    intros [= <-]. eapply Hm; eauto. }
  assert (Hf : forall r stage error typeError,
             Evaluator.stageFailed r stage error = inl typeError ->
             exists text, typeError = Evaluator.WithMessage text).
  { intros r stage error typeError. unfold Evaluator.stageFailed.
    destruct (Evaluator.artifacts r); [|discriminate].
    destruct (Evaluator.messageOf error) eqn:Em; [|discriminate].
    intros [= <-]. eapply Hm; eauto. }
  destruct (Evaluator.cascadeStages cfg m stage1 attempt) as [typeError|result] eqn:Ec;
    [|eauto].
  assert (Ht : exists text, typeError = Evaluator.WithMessage text).
  { revert Ec. unfold Evaluator.cascadeStages.
    destruct (Evaluator.runEvaluationStage cfg stage1 attempt) as [r1|e1]; [|apply Hs].
    destruct (negb _); [discriminate|].
    destruct (Evaluator.evaluate_stage2 m) as [stage2|]; [|discriminate].
    destruct (Evaluator.runEvaluationStage cfg stage2 attempt) as [r2|e2]; [|apply Hf].
    destruct (_ && _); [|discriminate].
    destruct (Evaluator.evaluate_stage3 m) as [stage3|]; [|discriminate].
    destruct (Evaluator.runEvaluationStage cfg stage3 attempt) as [r3|e3]; [discriminate|].
    apply Hf. }
  destruct Ht as [text ->]. simpl. eauto.
Qed.

(** X12.  [evaluateProgram] returns the metrics of the first attempt that
    does not throw.  Let the temporary directory be made at the attempts 0
    to [k], let the attempts before [k] throw, a value other than [null] and
    [undefined] where failure records are kept, and let attempt [k] succeed:
    then exactly the attempts 0 to [k] are made, with [k] sleeps, and no
    later attempt runs. *)
Theorem evaluateProgram_first_success (cfg : EvaluatorConfig)
    (env : Evaluator.Surroundings) (programId : string)
    (pending : gmap string Evaluator.Artifacts)
    (k : nat) (result : Evaluator.EvaluationResult) :
  k <= maxRetries cfg ->
  (forall a, a <= k -> Evaluator.makeTempDirError env a = None) ->
  (forall a, a < k -> exists error,
      Evaluator.tryBlock cfg env a = Evaluator.Rejected error /\
      (Evaluator.artifactsEnabled env && truthy programId = true ->
       exists message, Evaluator.messageOf error = inr message)) ->
  Evaluator.tryBlock cfg env k = Evaluator.Resolved result ->
  let out := Evaluator.evaluateProgram cfg env programId pending in
  fst (fst out) = Evaluator.Returned (Evaluator.metrics result) /\
  Evaluator.attemptsMade (snd out) = seq 0 (S k) /\
  Evaluator.sleepsMade (snd out) = k.
Proof.
  intros Hk Hdir Hrej Hres. cbv zeta.
  destruct (evaluateProgram_up_to cfg env programId pending k Hk)
    as (pending' & events & -> & Ha & Hs & _); [intros a Ha; apply Hdir; lia|exact Hrej|].
  cbn [Evaluator.attempts]. rewrite (Hdir k) by lia. rewrite Hres.
  destruct (Evaluator.artifacts result) as [a|];
    [destruct (Evaluator.artifactsEnabled env && truthy programId)|];
    cbn [fst snd]; rewrite seq_S, ?attemptsMade_app, ?sleepsMade_app, Ha, Hs; cbn;
    rewrite ?app_nil_r, ?Nat.add_0_r; auto.
Qed.

Lemma evaluateProgram_first_success_witness :
  fst (fst (Evaluator.evaluateProgram (directConfig 3) flakySurroundings "p" ∅))
  = Evaluator.Returned [("combined_score", 1 # 2)] /\
  Evaluator.attemptsMade
    (snd (Evaluator.evaluateProgram (directConfig 3) flakySurroundings "p" ∅)) = [0; 1].
Proof.
  destruct (evaluateProgram_first_success (directConfig 3) flakySurroundings "p" ∅ 1
              (Evaluator.mkResult [("combined_score", 1 # 2)] None))
    as (H1 & H2 & _).
  - simpl. lia.
  - intros a _. reflexivity.
  - intros a Ha. exists (Evaluator.WithMessage "boom").
    destruct a; [split; [reflexivity|intros _; now exists (Some "boom")]|lia].
  - reflexivity.
  - split; [exact H1|exact H2].
Defined.

(** X13.  In cascade mode with a first stage, when the temporary directory
    and the temporary file of the first attempt can be written,
    [evaluateProgram] never retries and never raises: the first attempt is
    the only one, no sleep follows and metrics are returned, whatever the
    stages do.  Without LLM feedback, a first stage that throws a value with
    a message gives the metrics [stage1_passed = 0], [error = 0]; when
    artifacts are enabled and the program identifier is not empty, the
    message is stored as the pending artifact of the program. *)
Theorem evaluateProgram_cascade_never_retries (cfg : EvaluatorConfig)
    (env : Evaluator.Surroundings) (programId : string)
    (pending : gmap string Evaluator.Artifacts) (stage1 : nat -> Evaluator.UserCall) :
  cascadeEvaluation cfg = true ->
  Evaluator.evaluate_stage1 (Evaluator.evaluationModule env) = Some stage1 ->
  Evaluator.makeTempDirError env 0 = None ->
  Evaluator.writeFileError env 0 = None ->
  let out := Evaluator.evaluateProgram cfg env programId pending in
  (exists metrics, fst (fst out) = Evaluator.Returned metrics) /\
  Evaluator.attemptsMade (snd out) = [0] /\
  Evaluator.sleepsMade (snd out) = 0 /\
  forall error message,
    stage1 0 = Evaluator.Throws error ->
    Evaluator.messageOf error = inr message ->
    useLlmFeedback cfg = false ->
    fst (fst out) = Evaluator.Returned [("stage1_passed", 0%Q); ("error", 0%Q)] /\
    (Evaluator.artifactsEnabled env && truthy programId = true ->
     snd (fst out) !! programId
     = Some (Evaluator.Produced [("stderr", message); ("failureStage", Some "stage1")])).
Proof.
  intros Hc Hs Hd Hw. cbv zeta.
  destruct (cascadeEvaluate_resolves cfg (Evaluator.evaluationModule env) 0 stage1 Hs)
    as [r Hr].
  assert (Ht : exists result, Evaluator.tryBlock cfg env 0 = Evaluator.Resolved result).
  { unfold Evaluator.tryBlock. rewrite Hw, Hc, Hr.
    destruct (useLlmFeedback cfg); [|eauto].
    destruct (Evaluator.llmFeedback env); eauto. }
  destruct Ht as [result Ht].
  assert (Hout : Evaluator.evaluateProgram cfg env programId pending =
            match Evaluator.artifacts result with
            | Some a =>
                if Evaluator.artifactsEnabled env && truthy programId
                then (Evaluator.Returned (Evaluator.metrics result),
                      <[programId := Evaluator.Produced a]> pending,
                      [Evaluator.Attempt 0;
                       Evaluator.SetPending programId (Evaluator.Produced a)])
                else (Evaluator.Returned (Evaluator.metrics result), pending,
                      [Evaluator.Attempt 0])
            | None => (Evaluator.Returned (Evaluator.metrics result), pending,
                       [Evaluator.Attempt 0])
            end).
  { unfold Evaluator.evaluateProgram. rewrite Nat.add_1_r.
    cbn [Evaluator.attempts]. rewrite Hd, Ht. reflexivity. }
  rewrite Hout.
  split; [|split; [|split]].
  - destruct (Evaluator.artifacts result); [destruct (_ && _)|]; cbn [fst snd]; eauto.
  - destruct (Evaluator.artifacts result); [destruct (_ && _)|]; reflexivity.
  - destruct (Evaluator.artifacts result); [destruct (_ && _)|]; reflexivity.
  - intros error message Hthrow Hmsg Hllm.
    assert (Hres : result = Evaluator.mkResult [("stage1_passed", 0%Q); ("error", 0%Q)]
                              (Some [("stderr", message); ("failureStage", Some "stage1")])).
    { unfold Evaluator.tryBlock in Ht. rewrite Hw, Hc, Hllm in Ht.
      unfold Evaluator.cascadeEvaluate, Evaluator.cascadeStages,
        Evaluator.runEvaluationStage, Evaluator.settle in Ht.
      rewrite Hs, Hthrow in Ht. unfold Evaluator.setupFailed in Ht. rewrite Hmsg in Ht.
      now injection Ht as <-. }
    rewrite Hres. cbn [Evaluator.artifacts Evaluator.metrics].
    split; [destruct (_ && _); reflexivity|].
    intros Hrec. rewrite Hrec. cbn [fst snd]. apply lookup_insert_eq.
Qed.

Lemma evaluateProgram_cascade_never_retries_witness :
  Evaluator.attemptsMade
    (snd (Evaluator.evaluateProgram (cascadeConfig 3) throwingCascade "p" ∅)) = [0] /\
  fst (fst (Evaluator.evaluateProgram (cascadeConfig 3) throwingCascade "p" ∅))
  = Evaluator.Returned [("stage1_passed", 0%Q); ("error", 0%Q)].
Proof.
  destruct (evaluateProgram_cascade_never_retries (cascadeConfig 3) throwingCascade "p" ∅
              (fun _ => Evaluator.Throws (Evaluator.WithMessage "stage one failed"))
              eq_refl eq_refl eq_refl eq_refl)
    as (_ & H1 & _ & H3).
  split; [exact H1|].
  exact (proj1 (H3 (Evaluator.WithMessage "stage one failed") (Some "stage one failed")
                   eq_refl eq_refl eq_refl)).
Defined.

(** X14.  After an evaluation whose attempts all throw, with artifacts
    enabled and a program identifier, while the temporary directory can be
    made at every attempt and nothing thrown is [null] or [undefined],
    [getPendingArtifacts] returns the failure record of the last attempt and
    removes it: a second call for the same program returns nothing, and the
    entries of other programs are as they were before the evaluation. *)
Theorem getPendingArtifacts_consumes_failure_record (cfg : EvaluatorConfig)
    (env : Evaluator.Surroundings) (programId : string)
    (pending : gmap string Evaluator.Artifacts)
    (error : nat -> Evaluator.Thrown) (message : nat -> option string) :
  Evaluator.artifactsEnabled env = true -> truthy programId = true ->
  (forall a, a <= maxRetries cfg -> Evaluator.makeTempDirError env a = None) ->
  (forall a, a <= maxRetries cfg ->
     Evaluator.tryBlock cfg env a = Evaluator.Rejected (error a)) ->
  (forall a, a <= maxRetries cfg -> Evaluator.messageOf (error a) = inr (message a)) ->
  let pending' := snd (fst (Evaluator.evaluateProgram cfg env programId pending)) in
  let got := Evaluator.getPendingArtifacts pending' programId in
  fst got = Some (Evaluator.FailureRecord (message (maxRetries cfg)) "evaluation"
                    (maxRetries cfg + 1)) /\
  fst (Evaluator.getPendingArtifacts (snd got) programId) = None /\
  forall other, other <> programId -> snd got !! other = pending !! other.
Proof.
  intros He Hp Hdir Hrej Hmsg. cbv zeta.
  rewrite (evaluateProgram_all_rejected cfg env programId pending error message)
    by auto.
  rewrite He, Hp. cbn [andb fst snd].
  unfold Evaluator.getPendingArtifacts. cbn [fst snd].
  rewrite lookup_insert_eq, lookup_delete_eq. repeat split.
  intros other Hne. rewrite lookup_delete_ne, lookup_insert_ne by congruence. reflexivity.
Qed.

Lemma getPendingArtifacts_consumes_failure_record_witness :
  fst (Evaluator.getPendingArtifacts
         (snd (fst (Evaluator.evaluateProgram (directConfig 2) (throwingSurroundings true)
                      "p" ∅))) "p")
  = Some (Evaluator.FailureRecord (Some "boom") "evaluation" 3).
Proof.
  apply (getPendingArtifacts_consumes_failure_record (directConfig 2)
           (throwingSurroundings true) "p" ∅ (fun _ => Evaluator.WithMessage "boom")
           (fun _ => Some "boom") eq_refl eq_refl).
  - intros a _. reflexivity.
  - intros a _. reflexivity.
  - intros a _. reflexivity.
Defined.

(** ** Templates: which names are defined *)

Lemma loadTemplatesFromDir_lookup (dir : option TemplateManager.Directory) (name : string) :
  forall templates,
    (~ In name (TemplateManager.templateNames dir) ->
     TemplateManager.loadTemplatesFromDir dir templates !! name = templates !! name) /\
    (is_Some (TemplateManager.loadTemplatesFromDir dir templates !! name) <->
     In name (TemplateManager.templateNames dir) \/ is_Some (templates !! name)).
Proof.
  destruct dir as [files|]; simpl; [|intros; split; [auto|tauto]].
  induction files as [|[file content] files IH]; intros templates; simpl; [split; [auto|tauto]|].
  destruct (TemplateManager.endsWith file ".txt") eqn:E; simpl.
  - destruct (IH (<[TemplateManager.basename file ".txt" := content]> templates)) as [H1 H2].
    split.
    + intros Hn. rewrite H1 by tauto. apply lookup_insert_ne. tauto.
    + rewrite H2. destruct (decide (TemplateManager.basename file ".txt" = name)) as [->|Hne].
      * rewrite lookup_insert_eq. split; [auto|]. intros _. right. eauto.
      * rewrite lookup_insert_ne by exact Hne. tauto.
  - apply IH.
Qed.

(** X15.  After [loadTemplates], a name has a template exactly when a
    [.txt] file of the user directory or of the defaults directory defines
    it; and a user template whose name no default file shares is returned by
    [getTemplate] as the user directory defines it. *)
Theorem loadTemplates_names (fs : string -> option TemplateManager.Directory)
    (userDir defaultTemplateDir name : string) :
  truthy userDir = true ->
  let templates := TemplateManager.loadTemplates fs (Some userDir) defaultTemplateDir in
  (TemplateManager.hasTemplate templates name = true <->
   In name (TemplateManager.templateNames (fs userDir)) \/
   In name (TemplateManager.templateNames (fs defaultTemplateDir))) /\
  (~ In name (TemplateManager.templateNames (fs defaultTemplateDir)) ->
   TemplateManager.getTemplate templates name
   = TemplateManager.getTemplate (TemplateManager.loadTemplatesFromDir (fs userDir) ∅) name).
Proof.
  intros Ht. cbv zeta. unfold TemplateManager.loadTemplates. rewrite Ht. split.
  - unfold TemplateManager.hasTemplate. rewrite bool_decide_eq_true.
    rewrite (proj2 (loadTemplatesFromDir_lookup (fs defaultTemplateDir) name _)).
    rewrite (proj2 (loadTemplatesFromDir_lookup (fs userDir) name ∅)).
    rewrite lookup_empty. split; [|tauto].
    intros [H|[H|H]]; [tauto|tauto|]. destruct H as [? H]. discriminate.
  - intros Hn. unfold TemplateManager.getTemplate.
    now rewrite (proj1 (loadTemplatesFromDir_lookup (fs defaultTemplateDir) name _) Hn).
Qed.

Lemma loadTemplates_names_witness :
  TemplateManager.getTemplate
    (TemplateManager.loadTemplates collidingFiles (Some "user") "defaults") "extra"
  = TemplateManager.getTemplate
      (TemplateManager.loadTemplatesFromDir (collidingFiles "user") ∅) "extra".
Proof.
  apply (loadTemplates_names collidingFiles "user" "defaults" "extra" eq_refl).
  vm_compute. intros [H|[]]. discriminate.
Defined.

(** ** The run loop: which iterations run *)

Section RunLoopShape.
Import EvolutionEngine.
Context {World : Type} (e : Engine World) (targetScore : option Q).







End RunLoopShape.



(** Without a listener for errors the first iteration that throws ends the
    run, and the status stays [running]. *)
Example run_ends_on_unheard_error :
  let r := EvolutionEngine.run unheardEngine (Some 4) None 0 in
  EvolutionEngine.iterationsRun r = [1] /\
  EvolutionEngine.leftOnError r = true /\
  EvolutionEngine.status (EvolutionEngine.currentStatus r) = EvolutionEngine.running.
Proof. cbv zeta. repeat split. Qed.

(** ** The program database: the steps of an insertion *)

Section InsertionSteps.
Import ProgramDatabase.

(** The states that [add] goes through. *)
Lemma add_steps (d d' : t) (program : Program) (iteration targetIsland : option nat) :
  add d program iteration targetIsland = Some d' ->
  let p := match iteration with
           | Some i => Prog.withIterationFound program i
           | None => program
           end in
  let dL := match iteration with
            | Some i => setLastIteration (Nat.max (lastIteration d) i) d
            | None => d
            end in
  exists coords stats cells residents d3,
    let d0 := setFeatureStats stats (setPrograms (mapSet (Prog.id p) p (programs dL)) dL) in
    let k := chooseIsland d0 p targetIsland mod length (islands d0) in
    let d1 := placeInCell d0 p k (featureCoordsToKey coords) cells residents in
    let dI := setIslands (alter (setAdd (Prog.id p)) k (islands d1)) d1 in
    let dM := setMetadataIsland (<[Prog.metadata p := k]> (metadataIsland dI)) dI in
    let d2 := updateArchive dM p in
    islandFeatureMaps d0 !! k = Some cells /\
    islands d0 !! k = Some residents /\
    enforcePopulationLimit d2 (Prog.id p) = Some d3 /\
    d' = updateIslandBestProgram (updateBestProgram d3 p) p k.
Proof.
  unfold add. cbv zeta.
  set (p := match iteration with Some i => Prog.withIterationFound program i | None => program end).
  set (dL := match iteration with Some i => setLastIteration _ d | None => d end).
  destruct (calculateFeatureCoords _ p) as [[coords stats]|]; [|discriminate].
  set (d0 := setFeatureStats stats (setPrograms (mapSet (Prog.id p) p (programs dL)) dL)).
  set (k := (chooseIsland d0 p targetIsland mod length (islands d0))%nat).
  destruct (islandFeatureMaps d0 !! k) as [cells|] eqn:Ec; [|discriminate].
  destruct (islands d0 !! k) as [residents|] eqn:Er; [|discriminate].
  destruct (enforcePopulationLimit _ (Prog.id p)) as [d3|] eqn:Ee; [|discriminate].
  intros [= <-]. exists coords, stats, cells, residents, d3.
  split; [exact Ec|]. split; [exact Er|]. split; [exact Ee|reflexivity].
Qed.


Lemma sameSettings_refl (d : t) : sameSettings d d.
Proof. unfold sameSettings. auto. Qed.

Lemma sameSettings_trans (d1 d2 d3 : t) :
  sameSettings d1 d2 -> sameSettings d2 d3 -> sameSettings d1 d3.
Proof. unfold sameSettings. intuition congruence. Qed.

Lemma removeProgram_settings (d d' : t) (q : Program) :
  removeProgram d q = Some d' ->
  sameSettings d d' /\
  programs d' = mapDelete (Prog.id q) (programs d) /\
  archive d' = setDelete (Prog.id q) (archive d) /\
  bestProgramId d' = bestProgramId d /\
  islandBestPrograms d' = islandBestPrograms d.
Proof.
  unfold removeProgram, sameSettings. simpl.
  destruct (metadataIsland d !! Prog.metadata q) as [island|].
  - destruct (islands d !! island); [|discriminate]. intros [= <-]. simpl. auto 10.
  - intros [= <-]. simpl. auto 10.
Qed.

Lemma enforcePopulationLimit_settings (d d' : t) (x : string) :
  enforcePopulationLimit d x = Some d' ->
  sameSettings d d' /\ bestProgramId d' = bestProgramId d /\
  islandBestPrograms d' = islandBestPrograms d.
Proof.
  unfold enforcePopulationLimit.
  destruct (length (programs d) <=? populationSize (config d))%nat.
  - intros [= <-]. split; [apply sameSettings_refl|auto].
  - apply (foldOpt_invariant removeProgram
             (fun s => sameSettings d s /\ bestProgramId s = bestProgramId d /\
                       islandBestPrograms s = islandBestPrograms d)
             (fun _ => True)); auto using sameSettings_refl.
    intros s q s' _ (H1 & H2 & H3) Hr.
    destruct (removeProgram_settings _ _ _ Hr) as (E1 & _ & _ & E2 & E3).
    split; [eapply sameSettings_trans; eauto|]. split; congruence.
Qed.

Lemma updateArchive_settings (d : t) (p : Program) :
  sameSettings d (updateArchive d p) /\
  bestProgramId (updateArchive d p) = bestProgramId d /\
  islandBestPrograms (updateArchive d p) = islandBestPrograms d.
Proof.
  unfold updateArchive, sameSettings.
  destruct (length (archive d) <? archiveSize (config d))%nat; [simpl; auto 10|].
  destruct (stableSort _ _) as [|worst ?]; [auto 10|].
  destruct (isBetter d p worst); simpl; auto 10.
Qed.

Lemma placeInCell_settings (d : t) (p : Program) (k : nat) (key : string)
    (cells : gmap string string) (residents : list string) :
  sameSettings d (placeInCell d p k key cells residents) /\
  bestProgramId (placeInCell d p k key cells residents) = bestProgramId d /\
  islandBestPrograms (placeInCell d p k key cells residents) = islandBestPrograms d.
Proof.
  unfold placeInCell, sameSettings.
  destruct (shouldReplace d p (cells !! key)); [|auto 10].
  destruct (cells !! key) as [e|]; [|simpl; auto 10].
  destruct (truthy e); [|simpl; auto 10].
  simpl. destruct (setHas e (archive d)); simpl; auto 10.
Qed.

Lemma updateBest_settings (d : t) (p : Program) (k : nat) :
  sameSettings d (updateIslandBestProgram (updateBestProgram d p) p k) /\
  archive (updateIslandBestProgram (updateBestProgram d p) p k) = archive d.
Proof.
  unfold updateIslandBestProgram, updateBestProgram, sameSettings.
  destruct (replacesBest d (bestProgramId d) p); destruct (replacesBest _ _ p); simpl; auto.
Qed.

(** An insertion leaves the configuration, the generation counters, the
    generation of the last migration and the reference set as they are. *)
Lemma add_settings (d d' : t) (program : Program) (iteration targetIsland : option nat) :
  add d program iteration targetIsland = Some d' -> sameSettings d d'.
Proof.
  intros Ha. destruct (add_steps _ _ _ _ _ Ha) as (coords & stats & cells & residents & d3 & H).
  cbv zeta in H. destruct H as (_ & _ & Ee & ->).
  eapply sameSettings_trans; [|apply updateBest_settings].
  eapply sameSettings_trans; [|apply (enforcePopulationLimit_settings _ _ _ Ee)].
  eapply sameSettings_trans; [|apply updateArchive_settings].
  match goal with
  | |- sameSettings d (setMetadataIsland _ (setIslands _ (placeInCell ?d0 ?p ?k ?key ?c ?r))) =>
      apply (sameSettings_trans d (placeInCell d0 p k key c r));
        [apply (sameSettings_trans d d0); [|apply placeInCell_settings]|]
  end.
  - destruct iteration; repeat split; reflexivity.
  - repeat split; reflexivity.
Qed.

(** A property that [add] keeps and that does not depend on the generation
    of the last migration is kept by [migratePrograms]. *)
Lemma migratePrograms_invariant (P : t -> Prop) :
  (forall d program iteration targetIsland d',
      P d -> add d program iteration targetIsland = Some d' -> P d') ->
  (forall d g, P d -> P (setLastMigrationGeneration g d)) ->
  forall uuid d n d' n',
    P d -> migratePrograms uuid d n = Some (d', n') -> P d'.
Proof.
  intros Hadd Hset uuid d n d' n' HP. unfold migratePrograms.
  destruct (foldOpt _ _ (d, n)) as [[d1 n1]|] eqn:Ef; [|discriminate].
  assert (HP1 : P d1).
  { change d1 with (fst (d1, n1)). revert Ef.
    apply (foldOpt_invariant
             (migrateIsland uuid
                (Qfloor (inject_Z (Z.of_nat (populationSize (config d)))
                         * migrationRate (config d))))
             (fun st : t * nat => P (fst st)) (fun _ => True)); auto.
    intros [s m] i [s' m'] _ Hs. unfold migrateIsland. simpl fst. simpl snd.
    destruct (islands s !! i) as [[|src srcs]|]; [now intros [= <- <-]| |discriminate].
    apply (foldOpt_invariant
             (fun (st : t * nat) (migrant : Program) =>
                match add (fst st) (Prog.withId migrant (uuid (snd st))) None
                        (Some (S i mod length (islands s))) with
                | Some d' => Some (d', S (snd st))
                | None => None
                end)
             (fun st : t * nat => P (fst st)) (fun _ => True)); auto.
    intros [s1 m1] migrant [s2 m2] _ Hs1. simpl.
    destruct (add s1 _ None _) as [s3|] eqn:Ea; [|discriminate].
    intros [= <- <-]. eapply Hadd; eauto. }
  destruct (minGeneration d1); [|discriminate].
  intros [= <- <-]. now apply Hset.
Qed.

(** Induction over the databases built from the constructor. *)
Lemma built_invariant (cfg : DatabaseConfig) (P : t -> Prop) :
  P (new cfg) ->
  (forall d program iteration targetIsland d',
      P d -> add d program iteration targetIsland = Some d' -> P d') ->
  (forall d g, P d -> P (setLastMigrationGeneration g d)) ->
  (forall d islandIdx d', P d -> incrementIslandGeneration d islandIdx = Some d' -> P d') ->
  forall d, built cfg d -> P d.
Proof.
  intros Hnew Hadd Hset Hinc d H. induction H; eauto.
  eapply migratePrograms_invariant; eauto.
Qed.

End InsertionSteps.

(** ** The program database: the migration schedule *)

Section Migration.
Import ProgramDatabase.

Lemma fold_left_min_spec (gs : list nat) :
  forall g, fold_left Nat.min gs g <= g /\
            Forall (fun x => fold_left Nat.min gs g <= x) gs /\
            (fold_left Nat.min gs g = g \/ In (fold_left Nat.min gs g) gs).
Proof.
  induction gs as [|x gs IH]; intros g; simpl.
  - split; [lia|]. split; [constructor|now left].
  - destruct (IH (Nat.min g x)) as (H1 & H2 & H3).
    split; [lia|]. split; [constructor; [lia|exact H2]|].
    destruct H3 as [H3|H3]; [|right; now right].
    rewrite H3.
    destruct (Nat.min_spec g x) as [[_ E]|[_ E]]; rewrite E; [now left|right; now left].
Qed.

(** X19.  [shouldMigrate] answers true exactly when every island's
    generation counter has advanced by at least [migrationInterval] since
    the generation of the last migration: the slowest island decides. *)
Theorem shouldMigrate_waits_for_slowest_island (d : t) :
  shouldMigrate d = true <->
  Forall (fun g => lastMigrationGeneration d + migrationInterval (config d) <= g)
         (islandGenerations d).
Proof.
  unfold shouldMigrate, minGeneration.
  destruct (islandGenerations d) as [|g gs]; [split; [constructor|reflexivity]|].
  destruct (fold_left_min_spec gs g) as (H1 & H2 & H3).
  rewrite Z.leb_le. split.
  - intros H. constructor; [lia|].
    eapply Forall_impl; [exact H2|]. simpl. intros x Hx. lia.
  - intros H. inversion H as [|? ? Hg Hgs]; subst.
    destruct H3 as [->|Hin]; [lia|].
    rewrite List.Forall_forall in Hgs. specialize (Hgs _ Hin). simpl in Hgs. lia.
Qed.

(** X20.  [migratePrograms] leaves the generation counters as they are and
    records their minimum as the generation of the last migration, so that
    for a positive [migrationInterval] [shouldMigrate] is false right after
    a migration. *)
Theorem migratePrograms_resets_schedule (uuid : nat -> string) (d d' : t) (n n' : nat) :
  migratePrograms uuid d n = Some (d', n') ->
  1 <= migrationInterval (config d) ->
  islandGenerations d' = islandGenerations d /\
  minGeneration d' = Some (lastMigrationGeneration d') /\
  shouldMigrate d' = false.
Proof.
  intros Hm Hint.
  assert (Hs : config d' = config d /\ islandGenerations d' = islandGenerations d).
  { apply (migratePrograms_invariant
             (fun s => config s = config d /\ islandGenerations s = islandGenerations d))
      with (uuid := uuid) (d := d) (n := n) (n' := n'); auto.
    intros s program iteration targetIsland s' [H1 H2] Ha.
    destruct (add_settings _ _ _ _ _ Ha) as (E1 & E2 & _). split; congruence. }
  destruct Hs as [Hc Hg]. split; [exact Hg|].
  revert Hm. unfold migratePrograms.
  destruct (foldOpt _ _ (d, n)) as [[d1 n1]|]; [|discriminate].
  destruct (minGeneration d1) as [g|] eqn:Eg; [|discriminate].
  intros [= <- <-]. unfold shouldMigrate.
  change (minGeneration (setLastMigrationGeneration g d1)) with (minGeneration d1).
  rewrite Eg. simpl. split; [reflexivity|]. apply Z.leb_gt. simpl in Hc. rewrite Hc. lia.
Qed.

Lemma migratePrograms_resets_schedule_witness : shouldMigrate migratedDb = false.
Proof.
  unfold migratedDb.
  destruct (migratePrograms tallyUuid twoProgramDb 2) as [[d' n']|] eqn:E.
  - apply (migratePrograms_resets_schedule tallyUuid twoProgramDb d' 2 n' E).
    vm_compute. lia.
  - vm_compute in E. discriminate.
Defined.

End Migration.

(** ** The program database: insertions into built databases *)

Section BuiltDatabases.
Import ProgramDatabase.

Lemma incrementIslandGeneration_wellShaped (d d' : t) (islandIdx : nat) :
  wellShaped d -> incrementIslandGeneration d islandIdx = Some d' -> wellShaped d'.
Proof.
  intros (H1 & H2 & H3 & H4). unfold incrementIslandGeneration.
  destruct (islandGenerations d !! islandIdx) as [g|]; [|discriminate].
  intros [= <-]. unfold wellShaped. simpl. repeat split; auto.
  intros E. apply (f_equal length) in E. rewrite length_insert in E.
  destruct (islandGenerations d); [congruence|discriminate].
Qed.

Lemma built_wellShaped (cfg : DatabaseConfig) (d : t) :
  0 < numIslands cfg -> built cfg d -> wellShaped d.
Proof.
  intros Hn H. induction H.
  - now apply new_wellShaped.
  - destruct (add_total d program iteration targetIsland IHbuilt) as (d1 & Ha & Hw).
    congruence.
  - destruct (migratePrograms_total uuid d n IHbuilt) as (d1 & n1 & Hm & Hw).
    congruence.
  - eapply incrementIslandGeneration_wellShaped; eauto.
Qed.

(** X21.  On a database of at least one island that was built from the
    constructor by insertions, migrations and generation increments, [add]
    and [migratePrograms] do not throw, whatever the program, and whatever
    the iteration and the target island among the non-negative integers (or
    absent). *)
Theorem add_and_migrate_never_throw (cfg : DatabaseConfig) (d : t) :
  0 < numIslands cfg -> built cfg d ->
  (forall program iteration targetIsland,
      exists d', add d program iteration targetIsland = Some d') /\
  (forall uuid n, exists d' n', migratePrograms uuid d n = Some (d', n')).
Proof.
  intros Hn Hb. pose proof (built_wellShaped cfg d Hn Hb) as Hw. split.
  - intros program iteration targetIsland.
    destruct (add_total d program iteration targetIsland Hw) as (d' & Ha & _). eauto.
  - intros uuid n. destruct (migratePrograms_total uuid d n Hw) as (d' & n' & Hm & _). eauto.
Qed.

Lemma add_and_migrate_never_throw_witness :
  exists d', add (new defaultDatabaseConfig) (exampleProgram "a" (5 # 10) 1) (Some 3) None
             = Some d'.
Proof.
  apply (add_and_migrate_never_throw defaultDatabaseConfig (new defaultDatabaseConfig)).
  - simpl. lia.
  - apply built_new.
Defined.

Lemma built_settings (cfg : DatabaseConfig) (d : t) :
  built cfg d -> config d = cfg /\ diversityReferenceSet d = [].
Proof.
  apply (built_invariant cfg (fun s => config s = cfg /\ diversityReferenceSet s = [])).
  - split; reflexivity.
  - intros s program iteration targetIsland s' [H1 H2] Ha.
    destruct (add_settings _ _ _ _ _ Ha) as (E1 & _ & _ & E4). split; congruence.
  - intros s g H. exact H.
  - intros s islandIdx s' H. unfold incrementIslandGeneration.
    destruct (islandGenerations s !! islandIdx); [|discriminate]. now intros [= <-].
Qed.

(** X22.  No operation of the database fills the reference set of the
    diversity measure: in every built database [calculateDiversity] is 0 for
    every program, so the [diversity] feature never separates two
    programs. *)
Theorem calculateDiversity_is_zero (cfg : DatabaseConfig) (d : t) (p q : Program) :
  built cfg d ->
  calculateDiversity d p = 0%Q /\
  featureValue d p "diversity" = featureValue d q "diversity".
Proof.
  intros Hb. destruct (built_settings cfg d Hb) as [_ Hr].
  unfold featureValue, calculateDiversity. rewrite Hr. simpl. split; reflexivity.
Qed.

Lemma calculateDiversity_is_zero_witness :
  calculateDiversity twoProgramDb (exampleProgram "z" (1 # 10) 9) = 0%Q.
Proof.
  refine (proj1 (calculateDiversity_is_zero defaultDatabaseConfig twoProgramDb
                   (exampleProgram "z" (1 # 10) 9) (exampleProgram "z" (1 # 10) 9) _)).
  unfold twoProgramDb.
  destruct (add oneProgramDb (exampleProgram (tallyUuid 1) (8 # 10) 2) None (Some 0))
    as [d2|] eqn:E2; [|vm_compute in E2; discriminate].
  refine (built_add _ _ _ _ _ _ _ E2).
  unfold oneProgramDb.
  destruct (add (new defaultDatabaseConfig) (exampleProgram (tallyUuid 0) (5 # 10) 1)
              None (Some 0)) as [d1|] eqn:E1; [|vm_compute in E1; discriminate].
  exact (built_add _ _ _ _ _ _ (built_new _) E1).
Defined.

End BuiltDatabases.

(** ** The program database: what an insertion guarantees *)

Section InsertionGuarantees.
Import ProgramDatabase.

(** The program that [enforcePopulationLimit] is told to spare stays stored
    and stays a resident. *)
Lemma enforcePopulationLimit_excluded (d d' : t) (x : string) :
  enforcePopulationLimit d x = Some d' ->
  mapGet x (programs d') = mapGet x (programs d) /\
  (forall k, residentOf d k x -> residentOf d' k x).
Proof.
  unfold enforcePopulationLimit.
  destruct (length (programs d) <=? populationSize (config d))%nat.
  - intros [= <-]. auto.
  - apply (foldOpt_invariant removeProgram
             (fun s => mapGet x (programs s) = mapGet x (programs d) /\
                       (forall k, residentOf d k x -> residentOf s k x))
             (fun q => Prog.id q <> x)); auto.
    + intros s q s' Hq [H1 H2] Hr.
      destruct (removeProgram_settings _ _ _ Hr) as (_ & Ep & _).
      destruct (removeProgram_inv _ _ _ Hr) as (_ & _ & E3).
      split.
      * rewrite Ep, mapGet_mapDelete_ne by exact Hq. exact H1.
      * intros k Hk. apply E3; [now apply H2|congruence].
    + intros q Hq. apply In_sliceTo, In_stableSort, filter_In in Hq as [_ Hq].
      apply negb_true_iff, String.eqb_neq in Hq. exact Hq.
Qed.

(** X23.  After [add] the program is stored under its identifier, with the
    iteration it was given; it is a resident of one island, its metadata
    names that island, and the island is the target island modulo the number
    of islands when one is given.  The insertion never evicts the program it
    inserts, and the number of islands does not change. *)
Theorem add_stores_program (d d' : t) (program : Program)
    (iteration targetIsland : option nat) :
  add d program iteration targetIsland = Some d' ->
  exists k,
    get d' (Prog.id program)
    = Some (match iteration with
            | Some i => Prog.withIterationFound program i
            | None => program
            end) /\
    residentOf d' k (Prog.id program) /\
    metadataIsland d' !! Prog.metadata program = Some k /\
    k < length (islands d') /\
    length (islands d') = length (islands d) /\
    (forall target, targetIsland = Some target -> k = target mod length (islands d)).
Proof.
  intros Ha. pose proof (add_islands_length _ _ _ _ _ Ha) as Hlen.
  destruct (add_steps _ _ _ _ _ Ha) as (coords & stats & cells & residents & d3 & H).
  cbv zeta in H. revert H.
  set (p := match iteration with Some i => Prog.withIterationFound program i | None => program end).
  set (dL := match iteration with Some i => setLastIteration _ d | None => d end).
  assert (Hid : Prog.id p = Prog.id program) by (subst p; destruct iteration; reflexivity).
  assert (Hmd : Prog.metadata p = Prog.metadata program)
    by (subst p; destruct iteration; reflexivity).
  assert (HLi : islands dL = islands d) by (subst dL; destruct iteration; reflexivity).
  set (d0 := setFeatureStats stats (setPrograms (mapSet (Prog.id p) p (programs dL)) dL)).
  set (k := chooseIsland d0 p targetIsland mod length (islands d0)).
  set (d1 := placeInCell d0 p k (featureCoordsToKey coords) cells residents).
  set (dI := setIslands (alter (setAdd (Prog.id p)) k (islands d1)) d1).
  set (dM := setMetadataIsland (<[Prog.metadata p := k]> (metadataIsland dI)) dI).
  set (d2 := updateArchive dM p).
  intros (Ec & Er & Ee & Hd').
  assert (H0i : islands d0 = islands d) by (rewrite <- HLi; reflexivity).
  assert (Hk : k < length (islands d)).
  { rewrite <- H0i. eapply lookup_lt_Some, Er. }
  destruct (placeInCell_cells d0 p k (featureCoordsToKey coords) cells residents)
    as (_ & C2 & _ & _).
  pose proof (placeInCell_islands d0 p k (featureCoordsToKey coords) cells residents) as C5.
  fold d1 in C2, C5.
  assert (Hlen1 : length (islands d1) = length (islands d)).
  { rewrite C5, H0i. destruct (shouldReplace _ _ _); [|reflexivity].
    destruct (cells !! featureCoordsToKey coords) as [e|]; [|reflexivity].
    destruct (truthy e); [apply length_insert|reflexivity]. }
  destruct (updateArchive_frame dM p) as (A1 & A2 & _ & A4 & _). fold d2 in A1, A2, A4.
  destruct (enforcePopulationLimit_excluded _ _ _ Ee) as (X1 & X2).
  destruct (enforcePopulationLimit_cells _ _ _ Ee) as (_ & _ & F3 & _).
  destruct (updateIslandBestProgram_frame (updateBestProgram d3 p) p k) as (G1 & G2 & _ & G4 & _).
  destruct (updateBestProgram_frame d3 p) as (B1 & B2 & _ & B4 & _).
  rewrite <- Hd' in G1, G2, G4.
  exists k. split; [|split; [|split; [|split; [|split]]]].
  - unfold get. rewrite G1, B1, <- Hid, X1, A1.
    change (programs dM) with (programs d1). rewrite C2. apply mapGet_mapSet_eq.
  - assert (Hres : residentOf d2 k (Prog.id p)).
    { unfold residentOf. rewrite A2.
      change (islands dM) with (alter (setAdd (Prog.id p)) k (islands d1)).
      destruct (lookup_lt_is_Some_2 (islands d1) k) as [r1 Hr1]; [lia|].
      exists (setAdd (Prog.id p) r1). split.
      - rewrite list_lookup_alter, Hr1. destruct (decide (k = k)); [reflexivity|congruence].
      - apply In_setAdd. now left. }
    apply X2 in Hres. destruct Hres as (r & Hr & Hin).
    exists r. rewrite G2, B2, <- Hid. auto.
  - rewrite G4, B4, F3, A4, <- Hmd.
    change (metadataIsland dM) with (<[Prog.metadata p := k]> (metadataIsland d1)).
    apply lookup_insert_eq.
  - lia.
  - exact Hlen.
  - intros target ->. subst k. rewrite H0i. reflexivity.
Qed.

(** X24.  After [add], [bestProgramId] names a stored program whose fitness
    is at least that of the program inserted; when the identifier is not
    empty, [getBestProgram()] returns that program. *)
Theorem add_tracks_stored_best (d d' : t) (program : Program)
    (iteration targetIsland : option nat) :
  add d program iteration targetIsland = Some d' ->
  exists bestId best,
    bestProgramId d' = Some bestId /\
    get d' bestId = Some best /\
    (fitness d' program <= fitness d' best)%Q /\
    (truthy bestId = true -> getBestProgram d' None = Some best).
Proof.
  intros Ha.
  destruct (add_steps _ _ _ _ _ Ha) as (coords & stats & cells & residents & d3 & H).
  cbv zeta in H. revert H.
  set (p := match iteration with Some i => Prog.withIterationFound program i | None => program end).
  set (dL := match iteration with Some i => setLastIteration _ d | None => d end).
  assert (Hfit : forall s, fitness s p = fitness s program)
    by (intros s; subst p; destruct iteration; reflexivity).
  set (d0 := setFeatureStats stats (setPrograms (mapSet (Prog.id p) p (programs dL)) dL)).
  set (k := chooseIsland d0 p targetIsland mod length (islands d0)).
  set (d1 := placeInCell d0 p k (featureCoordsToKey coords) cells residents).
  set (dM := setMetadataIsland _ (setIslands _ d1)).
  set (d2 := updateArchive dM p).
  intros (_ & _ & Ee & Hd').
  destruct (placeInCell_cells d0 p k (featureCoordsToKey coords) cells residents)
    as (_ & C2 & _ & _).
  fold d1 in C2.
  destruct (updateArchive_frame dM p) as (A1 & _). fold d2 in A1.
  destruct (enforcePopulationLimit_excluded _ _ _ Ee) as (X1 & _).
  assert (Hp3 : mapGet (Prog.id p) (programs d3) = Some p).
  { rewrite X1, A1. change (programs dM) with (programs d1). rewrite C2.
    apply mapGet_mapSet_eq. }
  destruct (updateIslandBestProgram_frame (updateBestProgram d3 p) p k) as (G1 & _ & _ & _ & G5).
  destruct (updateBestProgram_frame d3 p) as (B1 & _ & _ & _ & B5).
  rewrite <- Hd' in G1, G5.
  assert (Hbest : bestProgramId d' = bestProgramId (updateBestProgram d3 p)).
  { rewrite Hd'. unfold updateIslandBestProgram. now destruct (replacesBest _ _ p). }
  assert (Hc : config d' = config d3) by congruence.
  assert (Hget : forall x, get d' x = mapGet x (programs d3))
    by (intros x; unfold get; now rewrite G1, B1).
  assert (Hmain : exists bestId best,
             bestProgramId d' = Some bestId /\ get d' bestId = Some best /\
             (fitness d' program <= fitness d' best)%Q).
  { rewrite Hbest. unfold updateBestProgram.
    destruct (replacesBest d3 (bestProgramId d3) p) eqn:Er.
    - exists (Prog.id p), p. simpl. rewrite Hget, Hp3, <- Hfit.
      split; [reflexivity|]. split; [reflexivity|apply Qle_refl].
    - unfold replacesBest in Er.
      destruct (bestProgramId d3) as [b|] eqn:Eb; [|discriminate].
      destruct (truthy b); [|discriminate].
      destruct (mapGet b (programs d3)) as [cb|] eqn:Ecb; [|discriminate].
      exists b, cb. rewrite Hget. split; [reflexivity|]. split; [exact Ecb|].
      unfold isBetter in Er. apply Qltb_ge in Er.
      rewrite <- Hfit, !(fitness_config d3 d' _ Hc). exact Er. }
  destruct Hmain as (bestId & best & H1 & H2 & H3).
  exists bestId, best. split; [exact H1|]. split; [exact H2|]. split; [exact H3|].
  intros Ht. unfold getBestProgram, trackedBest. rewrite H1, Ht.
  unfold get in H2. rewrite H2.
  destruct (programs d'); [discriminate|reflexivity].
Qed.

Lemma add_stores_program_witness :
  exists k,
    get oneProgramDb (tallyUuid 0) = Some (exampleProgram (tallyUuid 0) (5 # 10) 1) /\
    residentOf oneProgramDb k (tallyUuid 0).
Proof.
  unfold oneProgramDb.
  destruct (add (new defaultDatabaseConfig) (exampleProgram (tallyUuid 0) (5 # 10) 1)
              None (Some 0)) as [d1|] eqn:E; [|vm_compute in E; discriminate].
  destruct (add_stores_program _ _ _ _ _ E) as (k & H1 & H2 & _).
  exists k. split; [exact H1|exact H2].
Defined.

Lemma add_tracks_stored_best_witness :
  exists bestId best,
    bestProgramId twoProgramDb = Some bestId /\
    get twoProgramDb bestId = Some best /\
    (8 # 10 <= fitness twoProgramDb best)%Q.
Proof.
  unfold twoProgramDb.
  destruct (add oneProgramDb (exampleProgram (tallyUuid 1) (8 # 10) 2) None (Some 0))
    as [d2|] eqn:E; [|vm_compute in E; discriminate].
  destruct (add_tracks_stored_best _ _ _ _ _ E) as (bestId & best & H1 & H2 & H3 & _).
  exists bestId, best. split; [exact H1|]. split; [exact H2|exact H3].
Defined.

(** X25.  An insertion changes at most one cell of one island: that cell
    then names the inserted program, every other cell of every island keeps
    its entry, and no occupied cell becomes empty. *)
Theorem add_changes_at_most_one_cell (d d' : t) (program : Program)
    (iteration targetIsland : option nat) :
  add d program iteration targetIsland = Some d' ->
  exists k key,
    (forall k' key', (k', key') <> (k, key) -> cellOf d' k' key' = cellOf d k' key') /\
    (cellOf d' k key = Some (Prog.id program) \/ cellOf d' k key = cellOf d k key) /\
    (forall k' key', is_Some (cellOf d k' key') -> is_Some (cellOf d' k' key')).
Proof.
  intros Ha.
  destruct (add_cells _ _ _ _ _ Ha) as (_ & k & key & cells & d0 & Ec & _ & _ & Em & _).
  exists k, key.
  destruct (shouldReplace d0 _ (cells !! key)).
  - assert (Hk : k < length (islandFeatureMaps d)) by (eapply lookup_lt_Some, Ec).
    assert (Hother : forall k' key', (k', key') <> (k, key) ->
                                     cellOf d' k' key' = cellOf d k' key').
    { intros k' key' Hne. unfold cellOf. rewrite Em.
      destruct (decide (k' = k)) as [->|Hk'].
      - rewrite list_lookup_insert_eq by exact Hk. rewrite Ec.
        apply lookup_insert_ne. congruence.
      - now rewrite list_lookup_insert_ne by auto. }
    assert (Hcell : cellOf d' k key = Some (Prog.id program)).
    { unfold cellOf. rewrite Em, list_lookup_insert_eq by exact Hk. apply lookup_insert_eq. }
    split; [exact Hother|]. split; [now left|].
    intros k' key' Hs. destruct (decide ((k', key') = (k, key))) as [[= -> ->]|Hne].
    + rewrite Hcell. eauto.
    + now rewrite Hother.
  - split; [intros; unfold cellOf; now rewrite Em|].
    split; [right; unfold cellOf; now rewrite Em|].
    intros k' key'. unfold cellOf. now rewrite Em.
Qed.

Lemma add_changes_at_most_one_cell_witness :
  exists k key,
    forall k' key', (k', key') <> (k, key) ->
                    cellOf twoProgramDb k' key' = cellOf oneProgramDb k' key'.
Proof.
  unfold twoProgramDb at 1.
  destruct (add oneProgramDb (exampleProgram (tallyUuid 1) (8 # 10) 2) None (Some 0))
    as [d2|] eqn:E; [|vm_compute in E; discriminate].
  destruct (add_changes_at_most_one_cell _ _ _ _ _ E) as (k & key & H & _).
  exists k, key. exact H.
Defined.

Lemma mapGet_In {V} (k : string) (v : V) (m : list (string * V)) :
  mapGet k m = Some v -> In (k, v) m.
Proof.
  induction m as [|[k' v'] m IH]; simpl; [discriminate|].
  destruct (String.eqb_spec k k') as [->|Hne].
  - intros [= ->]. now left.
  - intros H. right. now apply IH.
Qed.

(** The first program of the list sorted by descending fitness has the
    largest fitness. *)
Lemma head_stableSort_descending (d : t) (l : list Program) :
  match head (stableSort (descending d) l) with
  | None => l = []
  | Some p => In p l /\ forall q, In q l -> (fitness d q <= fitness d p)%Q
  end.
Proof.
  induction l as [|x l IH]; [reflexivity|].
  cbn [stableSort fold_right]. fold (stableSort (descending d) l).
  destruct (stableSort (descending d) l) as [|y sorted] eqn:Es; cbn [head] in IH.
  - subst l. simpl. split; [now left|]. intros q [<-|[]]. apply Qle_refl.
  - destruct IH as [Hy Hmax]. cbn [insertSorted].
    destruct (descending d x y) eqn:Ed; cbn [head].
    + unfold descending in Ed. apply Qle_bool_iff in Ed.
      split; [now left|]. intros q [<-|Hq]; [apply Qle_refl|].
      specialize (Hmax q Hq). lra.
    + assert (Hlt : (fitness d x <= fitness d y)%Q).
      { unfold descending in Ed.
        destruct (Qlt_le_dec (fitness d x) (fitness d y)) as [H|H]; [lra|].
        apply Qle_bool_iff in H. congruence. }
      split; [now right|]. intros q [<-|Hq]; [exact Hlt|now apply Hmax].
Qed.

(** X26.  [getBestProgram()] returns null exactly when no program is
    stored.  Otherwise it returns a stored program: the one that
    [bestProgramId] names, or, when that identifier is missing, empty or
    names no stored program, a stored program of the largest fitness. *)
Theorem getBestProgram_returns_stored_program (d : t) :
  (getBestProgram d None = None <-> programs d = []) /\
  forall p, getBestProgram d None = Some p ->
    In p (map snd (programs d)) /\
    (trackedBest d = None ->
     forall q, In q (map snd (programs d)) -> (fitness d q <= fitness d p)%Q).
Proof.
  unfold getBestProgram.
  destruct (programs d) as [|entry entries] eqn:Ep; [split; [tauto|discriminate]|].
  cbv zeta.
  pose proof (head_stableSort_descending d (map snd (entry :: entries))) as Hs.
  destruct (trackedBest d) as [best|] eqn:Et.
  - split; [split; discriminate|]. intros p [= <-]. split; [|discriminate].
    unfold trackedBest in Et.
    destruct (bestProgramId d) as [b|]; [|discriminate].
    destruct (truthy b); [|discriminate].
    rewrite Ep in Et. apply mapGet_In in Et.
    apply in_map_iff. exists (b, best). auto.
  - destruct (head (stableSort (descending d) (map snd (entry :: entries)))) as [p0|].
    + split; [split; discriminate|]. intros p [= <-]. destruct Hs as [H1 H2]. auto.
    + discriminate.
Qed.

Lemma getBestProgram_returns_stored_program_witness :
  getBestProgram (new defaultDatabaseConfig) None = None.
Proof.
  apply (proj1 (getBestProgram_returns_stored_program (new defaultDatabaseConfig))).
  reflexivity.
Defined.

End InsertionGuarantees.

(** ** The program database: the limits on the population and the archive *)

Lemma In_fst_mapSet {V} (k k' : string) (v : V) (m : list (string * V)) :
  In k' (map fst (mapSet k v m)) <-> k' = k \/ In k' (map fst m).
Proof.
  induction m as [|[k0 v0] m IH]; simpl; [intuition|].
  destruct (String.eqb_spec k k0) as [->|Hne]; simpl; [intuition|].
  rewrite IH. intuition.
Qed.

Lemma NoDup_mapSet {V} (k : string) (v : V) (m : list (string * V)) :
  List.NoDup (map fst m) -> List.NoDup (map fst (mapSet k v m)).
Proof.
  induction m as [|[k0 v0] m IH]; simpl; intros H.
  - constructor; [intros []|constructor].
  - inversion H as [|? ? Hnin Hnd]; subst.
    destruct (String.eqb_spec k k0) as [->|Hne]; simpl; [now constructor|].
    constructor; [|now apply IH].
    rewrite In_fst_mapSet. intros [E|Hin]; [congruence|contradiction].
Qed.

Lemma Forall_mapSet {V} (P : string * V -> Prop) (k : string) (v : V) (m : list (string * V)) :
  P (k, v) -> Forall P m -> Forall P (mapSet k v m).
Proof.
  intros Hkv. induction m as [|[k0 v0] m IH]; simpl; intros H.
  - now constructor.
  - inversion H; subst. destruct (String.eqb k k0); constructor; auto.
Qed.

Lemma In_fst_mapDelete {V} (k k' : string) (m : list (string * V)) :
  In k' (map fst (mapDelete k m)) <-> k' <> k /\ In k' (map fst m).
Proof.
  unfold mapDelete. rewrite !in_map_iff. split.
  - intros ([k0 v0] & <- & Hin). apply filter_In in Hin as [Hin Hne]. simpl in *.
    apply negb_true_iff, String.eqb_neq in Hne. split; [congruence|].
    exists (k0, v0). auto.
  - intros (Hne & [k0 v0] & <- & Hin). simpl in *. exists (k0, v0). split; [reflexivity|].
    apply filter_In. split; [exact Hin|]. simpl.
    apply negb_true_iff, String.eqb_neq. congruence.
Qed.

Lemma NoDup_mapDelete {V} (k : string) (m : list (string * V)) :
  List.NoDup (map fst m) -> List.NoDup (map fst (mapDelete k m)).
Proof.
  induction m as [|[k0 v0] m IH]; simpl; intros H; [constructor|].
  inversion H as [|? ? Hnin Hnd]; subst.
  destruct (negb (String.eqb k k0)); simpl; [|now apply IH].
  constructor; [|now apply IH].
  fold (mapDelete k m). rewrite In_fst_mapDelete. tauto.
Qed.

Lemma mapDelete_absent {V} (k : string) (m : list (string * V)) :
  ~ In k (map fst m) -> mapDelete k m = m.
Proof.
  induction m as [|[k0 v0] m IH]; simpl; intros H; [reflexivity|].
  destruct (String.eqb_spec k k0) as [->|Hne]; simpl; [tauto|].
  f_equal. apply IH. tauto.
Qed.

Lemma length_mapDelete {V} (k : string) (m : list (string * V)) :
  List.NoDup (map fst m) -> In k (map fst m) -> S (length (mapDelete k m)) = length m.
Proof.
  induction m as [|[k0 v0] m IH]; simpl; intros Hnd Hin; [destruct Hin|].
  inversion Hnd as [|? ? Hnin Hnd']; subst.
  destruct (String.eqb_spec k k0) as [->|Hne]; simpl.
  - fold (mapDelete k0 m). now rewrite mapDelete_absent.
  - f_equal. apply IH; [exact Hnd'|]. destruct Hin; [congruence|assumption].
Qed.

Lemma length_setAdd (x : string) (s : list string) : length (setAdd x s) <= S (length s).
Proof.
  unfold setAdd. destruct (setHas x s); [lia|]. rewrite length_app. simpl. lia.
Qed.

Lemma length_setDelete (x : string) (s : list string) :
  length (setDelete x s) <= length s /\ (In x s -> length (setDelete x s) < length s).
Proof.
  unfold setDelete. induction s as [|y s [IH1 IH2]]; simpl; [split; [lia|intros []]|].
  destruct (String.eqb_spec x y) as [->|Hne]; simpl.
  - split; [lia|]. intros _. lia.
  - split; [lia|]. intros [E|Hin]; [congruence|]. specialize (IH2 Hin). lia.
Qed.

Lemma Permutation_insertSorted {A} (goesBefore : A -> A -> bool) (x : A) (l : list A) :
  Permutation (x :: l) (insertSorted goesBefore x l).
Proof.
  induction l as [|y l IH]; simpl; [reflexivity|].
  destruct (goesBefore x y); [reflexivity|].
  rewrite perm_swap. now constructor.
Qed.

Lemma Permutation_stableSort {A} (goesBefore : A -> A -> bool) (l : list A) :
  Permutation l (stableSort goesBefore l).
Proof.
  induction l as [|x l IH]; simpl; [reflexivity|].
  rewrite <- Permutation_insertSorted. now constructor.
Qed.

Lemma NoDup_firstn {A} (n : nat) (l : list A) : List.NoDup l -> List.NoDup (firstn n l).
Proof.
  intros H. rewrite <- (firstn_skipn n l) in H. now apply List.NoDup_app_remove_r in H.
Qed.

Section Limits.
Import ProgramDatabase.

Lemma keyed_mapGet (d : t) (i : string) (q : Program) :
  keyed d -> mapGet i (programs d) = Some q -> Prog.id q = i.
Proof.
  intros [_ Hall] H. apply mapGet_In in H.
  rewrite List.Forall_forall in Hall. exact (Hall _ H).
Qed.

Lemma In_lookupAll (d : t) (q : Program) (ids : list string) :
  In q (lookupAll d ids) -> exists i, In i ids /\ mapGet i (programs d) = Some q.
Proof.
  unfold lookupAll. induction ids as [|i ids IH]; simpl; [intros []|].
  destruct (mapGet i (programs d)) as [q0|] eqn:E.
  - intros [<-|Hin]; [eauto|]. destruct (IH Hin) as (j & Hj & Hq). eauto.
  - intros Hin. destruct (IH Hin) as (j & Hj & Hq). eauto.
Qed.

Lemma removeProgram_keyed (d d' : t) (q : Program) :
  keyed d -> removeProgram d q = Some d' -> keyed d'.
Proof.
  intros [Hnd Hall] Hr. destruct (removeProgram_settings _ _ _ Hr) as (_ & Ep & _).
  unfold keyed. rewrite Ep. split; [now apply NoDup_mapDelete|].
  rewrite List.Forall_forall in *. intros kv Hin. apply filter_In in Hin as [Hin _]. auto.
Qed.

(** Removing programs with distinct identifiers that are all stored
    shortens the programs map by their number. *)
Lemma foldOpt_removeProgram_length (l : list Program) :
  forall d d',
    foldOpt removeProgram l d = Some d' ->
    keyed d -> List.NoDup (map Prog.id l) ->
    (forall q, In q l -> In (Prog.id q) (map fst (programs d))) ->
    keyed d' /\ length (programs d') + length l = length (programs d) /\
    length (archive d') <= length (archive d).
Proof.
  induction l as [|q l IH]; simpl; intros d d' Hf Hk Hnd Hin.
  - injection Hf as <-. split; [exact Hk|]. split; lia.
  - destruct (removeProgram d q) as [d1|] eqn:Er; [|discriminate].
    destruct (removeProgram_settings _ _ _ Er) as (_ & Ep & Ea & _).
    inversion Hnd as [|? ? Hnin Hnd']; subst.
    destruct (IH d1 d' Hf (removeProgram_keyed _ _ _ Hk Er) Hnd') as (K & L & A).
    + intros q' Hq'. rewrite Ep. apply In_fst_mapDelete. split; [|apply Hin; now right].
      intros E. apply Hnin. rewrite <- E. now apply in_map.
    + split; [exact K|].
      assert (Hlen : S (length (programs d1)) = length (programs d)).
      { rewrite Ep. apply length_mapDelete; [apply Hk|apply Hin; now left]. }
      pose proof (proj1 (length_setDelete (Prog.id q) (archive d))) as Hs.
      rewrite <- Ea in Hs. split; lia.
Qed.

Lemma filtered_candidates (x : string) (m : list (string * Program)) :
  Forall (fun kv => Prog.id (snd kv) = fst kv) m ->
  List.filter (fun p => negb (String.eqb (Prog.id p) x)) (map snd m)
  = map snd (mapDelete x m).
Proof.
  induction m as [|[k0 v0] m IH]; simpl; intros H; [reflexivity|].
  inversion H as [|? ? Hid Hrest]; subst. simpl in Hid.
  rewrite Hid, (String.eqb_sym k0 x).
  destruct (negb (String.eqb x k0)); simpl; rewrite IH by exact Hrest; reflexivity.
Qed.

Lemma map_id_snd (m : list (string * Program)) :
  Forall (fun kv => Prog.id (snd kv) = fst kv) m ->
  map Prog.id (map snd m) = map fst m.
Proof.
  induction 1 as [|[k0 v0] m Hid _ IH]; simpl; [reflexivity|].
  simpl in Hid. now rewrite Hid, IH.
Qed.

(** After [enforcePopulationLimit] at most [populationSize] programs are
    stored, or the single program that is spared. *)
Lemma enforcePopulationLimit_bound (d d' : t) (x : string) :
  keyed d -> In x (map fst (programs d)) ->
  enforcePopulationLimit d x = Some d' ->
  keyed d' /\
  length (programs d') <= Nat.max (populationSize (config d)) 1 /\
  length (archive d') <= length (archive d).
Proof.
  intros Hk Hx. unfold enforcePopulationLimit.
  destruct (Nat.leb_spec (length (programs d)) (populationSize (config d))) as [Hle|Hgt].
  - intros [= <-]. split; [exact Hk|]. split; lia.
  - destruct Hk as [Hnd Hall].
    rewrite (filtered_candidates x (programs d) Hall).
    set (sorted := stableSort (ascending d) (map snd (mapDelete x (programs d)))).
    unfold sliceTo.
    assert ((0 <=? Z.of_nat (length (programs d)) - Z.of_nat (populationSize (config d)))%Z
            = true) as -> by (apply Z.leb_le; lia).
    replace (Z.to_nat (Z.of_nat (length (programs d)) - Z.of_nat (populationSize (config d))))
      with (length (programs d) - populationSize (config d)) by lia.
    set (toRemove := firstn (length (programs d) - populationSize (config d)) sorted).
    intros Hf.
    assert (Hkd : keyed (setPrograms (mapDelete x (programs d)) d)).
    { split; simpl; [now apply NoDup_mapDelete|].
      rewrite List.Forall_forall in *. intros kv Hin.
      apply filter_In in Hin as [Hin _]. auto. }
    assert (Hperm : Permutation (map snd (mapDelete x (programs d))) sorted)
      by apply Permutation_stableSort.
    assert (Hids : List.NoDup (map Prog.id sorted)).
    { eapply Permutation_NoDup; [apply Permutation_map, Hperm|].
      rewrite map_id_snd by apply Hkd. now apply NoDup_mapDelete. }
    assert (Hsub : forall q, In q sorted -> In (Prog.id q) (map fst (programs d))).
    { intros q Hq. apply (Permutation_in _ (Permutation_sym Hperm)) in Hq.
      apply in_map_iff in Hq as ([k0 v0] & <- & Hin). simpl.
      apply filter_In in Hin as [Hin _].
      rewrite List.Forall_forall in Hall. pose proof (Hall _ Hin) as Hid. simpl in Hid.
      rewrite Hid. apply in_map_iff. exists (k0, v0). auto. }
    destruct (foldOpt_removeProgram_length toRemove d d' Hf (conj Hnd Hall))
      as (K & L & A).
    + subst toRemove. rewrite <- firstn_map. now apply NoDup_firstn.
    + intros q Hq. apply Hsub. eapply In_firstn_In, Hq.
    + split; [exact K|]. split; [|exact A].
      assert (Hs : S (length sorted) = length (programs d)).
      { subst sorted. rewrite length_stableSort, length_map.
        now apply length_mapDelete. }
      assert (Ht : length toRemove
                   = Nat.min (length (programs d) - populationSize (config d)) (length sorted))
        by (subst toRemove; apply length_firstn).
      lia.
Qed.

Lemma placeInCell_archive (d : t) (p : Program) (k : nat) (key : string)
    (cells : gmap string string) (residents : list string) :
  length (archive (placeInCell d p k key cells residents)) <= length (archive d).
Proof.
  unfold placeInCell. destruct (shouldReplace d p (cells !! key)); [|lia].
  destruct (cells !! key) as [e|]; [|simpl; lia].
  destruct (truthy e); [|simpl; lia].
  simpl. destruct (setHas e (archive d)) eqn:E; simpl; [|lia].
  apply setHas_In in E.
  pose proof (length_setAdd (Prog.id p) (setDelete e (archive d))).
  pose proof (proj2 (length_setDelete e (archive d)) E). lia.
Qed.

Lemma updateArchive_bound (d : t) (p : Program) :
  keyed d -> length (archive d) <= archiveSize (config d) ->
  length (archive (updateArchive d p)) <= archiveSize (config d).
Proof.
  intros Hk Hle. unfold updateArchive.
  destruct (Nat.ltb_spec (length (archive d)) (archiveSize (config d))) as [Hlt|Hge].
  - simpl. pose proof (length_setAdd (Prog.id p) (archive d)). lia.
  - destruct (stableSort (ascending d) (lookupAll d (archive d))) as [|worst rest] eqn:Es;
      [exact Hle|].
    destruct (isBetter d p worst); [|exact Hle]. simpl.
    assert (Hw : In worst (lookupAll d (archive d))).
    { apply (In_stableSort (ascending d)). rewrite Es. now left. }
    apply In_lookupAll in Hw as (i & Hi & Hg).
    rewrite (keyed_mapGet d i worst Hk Hg).
    pose proof (length_setAdd (Prog.id p) (setDelete i (archive d))).
    pose proof (proj2 (length_setDelete i (archive d)) Hi). lia.
Qed.

(** What one insertion keeps: the keys of the programs map, and the two
    limits. *)
Lemma add_bounds (d d' : t) (program : Program) (iteration targetIsland : option nat) :
  keyed d -> length (archive d) <= archiveSize (config d) ->
  add d program iteration targetIsland = Some d' ->
  keyed d' /\
  length (programs d') <= Nat.max (populationSize (config d)) 1 /\
  length (archive d') <= archiveSize (config d).
Proof.
  intros Hk Harch Ha.
  destruct (add_steps _ _ _ _ _ Ha) as (coords & stats & cells & residents & d3 & H).
  cbv zeta in H. revert H.
  set (p := match iteration with Some i => Prog.withIterationFound program i | None => program end).
  set (dL := match iteration with Some i => setLastIteration _ d | None => d end).
  assert (HL : programs dL = programs d /\ archive dL = archive d /\ config dL = config d)
    by (subst dL; destruct iteration; auto).
  destruct HL as (HLp & HLa & HLc).
  set (d0 := setFeatureStats stats (setPrograms (mapSet (Prog.id p) p (programs dL)) dL)).
  set (k := chooseIsland d0 p targetIsland mod length (islands d0)).
  set (d1 := placeInCell d0 p k (featureCoordsToKey coords) cells residents).
  set (dM := setMetadataIsland _ (setIslands _ d1)).
  set (d2 := updateArchive dM p).
  intros (_ & _ & Ee & Hd').
  destruct (placeInCell_cells d0 p k (featureCoordsToKey coords) cells residents)
    as (_ & C2 & C3 & _).
  pose proof (placeInCell_archive d0 p k (featureCoordsToKey coords) cells residents) as C6.
  fold d1 in C2, C3, C6.
  assert (HkM : keyed dM).
  { unfold keyed. change (programs dM) with (programs d1). rewrite C2.
    change (programs d0) with (mapSet (Prog.id p) p (programs dL)). rewrite HLp.
    destruct Hk as [Hnd Hall]. split; [now apply NoDup_mapSet|].
    now apply Forall_mapSet. }
  assert (H0c : config d0 = config dL) by reflexivity.
  assert (HcM : config dM = config d) by (change (config dM) with (config d1); congruence).
  assert (HaM : length (archive dM) <= archiveSize (config dM)).
  { rewrite HcM. change (archive dM) with (archive d1).
    assert (H0a : archive d0 = archive d) by (rewrite <- HLa; reflexivity).
    rewrite H0a in C6. lia. }
  pose proof (updateArchive_bound dM p HkM HaM) as A6. fold d2 in A6.
  destruct (updateArchive_frame dM p) as (A1 & _ & _ & _ & A5). fold d2 in A1, A5.
  assert (Hk2 : keyed d2) by (unfold keyed; rewrite A1; exact HkM).
  assert (Hx : In (Prog.id p) (map fst (programs d2))).
  { rewrite A1. change (programs dM) with (programs d1). rewrite C2.
    change (programs d0) with (mapSet (Prog.id p) p (programs dL)).
    apply In_fst_mapSet. now left. }
  destruct (enforcePopulationLimit_bound _ _ _ Hk2 Hx Ee) as (K3 & L3 & A3).
  destruct (updateIslandBestProgram_frame (updateBestProgram d3 p) p k) as (G1 & _).
  destruct (updateBestProgram_frame d3 p) as (B1 & _).
  destruct (updateBest_settings d3 p k) as (_ & Ga).
  rewrite <- Hd' in G1, Ga.
  split; [unfold keyed; rewrite G1, B1; exact K3|].
  split; [rewrite G1, B1; congruence|].
  rewrite Ga. rewrite HcM in A6. lia.
Qed.

(** The keys and the two limits in every built database. *)
Lemma built_bounds (cfg : DatabaseConfig) (d : t) :
  built cfg d ->
  config d = cfg /\ keyed d /\
  length (programs d) <= Nat.max (populationSize cfg) 1 /\
  length (archive d) <= archiveSize cfg.
Proof.
  apply (built_invariant cfg
           (fun s => config s = cfg /\ keyed s /\
                     length (programs s) <= Nat.max (populationSize cfg) 1 /\
                     length (archive s) <= archiveSize cfg)).
  - split; [reflexivity|]. split; [split; simpl; constructor|]. simpl. split; lia.
  - intros s program iteration targetIsland s' (Hc & Hk & _ & Ha) Hadd.
    destruct (add_settings _ _ _ _ _ Hadd) as (Ec & _).
    rewrite <- Hc in Ha.
    destruct (add_bounds _ _ _ _ _ Hk Ha Hadd) as (K & L & A).
    rewrite Hc in L, A. split; [congruence|]. auto.
  - intros s g H. exact H.
  - intros s islandIdx s' H. unfold incrementIslandGeneration.
    destruct (islandGenerations s !! islandIdx); [|discriminate]. now intros [= <-].
Qed.

Lemma twoProgramDb_built : built defaultDatabaseConfig twoProgramDb.
Proof.
  unfold twoProgramDb.
  destruct (add oneProgramDb (exampleProgram (tallyUuid 1) (8 # 10) 2) None (Some 0))
    as [d2|] eqn:E2; [|vm_compute in E2; discriminate].
  refine (built_add _ _ _ _ _ _ _ E2).
  unfold oneProgramDb.
  destruct (add (new defaultDatabaseConfig) (exampleProgram (tallyUuid 0) (5 # 10) 1)
              None (Some 0)) as [d1|] eqn:E1; [|vm_compute in E1; discriminate].
  exact (built_add _ _ _ _ _ _ (built_new _) E1).
Qed.

(** X27.  In every database built from the constructor the programs map
    holds at most [populationSize] programs, or one program when
    [populationSize] is zero: an insertion evicts the worst programs but
    never the one it inserts. *)
Theorem population_within_limit (cfg : DatabaseConfig) (d : t) :
  built cfg d -> length (programs d) <= Nat.max (populationSize cfg) 1.
Proof. intros H. apply (built_bounds cfg d H). Qed.

Lemma population_within_limit_witness : length (programs twoProgramDb) <= 1000.
Proof.
  exact (population_within_limit defaultDatabaseConfig twoProgramDb twoProgramDb_built).
Defined.

(** X28.  In every database built from the constructor the archive holds at
    most [archiveSize] identifiers. *)
Theorem archive_within_limit (cfg : DatabaseConfig) (d : t) :
  built cfg d -> length (archive d) <= archiveSize cfg.
Proof. intros H. apply (built_bounds cfg d H). Qed.

Lemma archive_within_limit_witness : length (archive twoProgramDb) <= 100.
Proof.
  exact (archive_within_limit defaultDatabaseConfig twoProgramDb twoProgramDb_built).
Defined.

End Limits.

(** ** Sampling: the inspirations *)

Section Inspirations.
Import ProgramDatabase.
Variable shuffle : list string -> list string.
Hypothesis shuffle_permutes : forall l, Permutation l (shuffle l).

Lemma length_lookupAll (d : t) (ids : list string) :
  length (lookupAll d ids) <= length ids.
Proof.
  unfold lookupAll. induction ids as [|i ids IH]; [simpl; lia|].
  change (omap (fun i => mapGet i (programs d)) (i :: ids))
    with (match mapGet i (programs d) with
          | Some q => q :: omap (fun i => mapGet i (programs d)) ids
          | None => omap (fun i => mapGet i (programs d)) ids
          end).
  destruct (mapGet i (programs d)); cbn [length]; lia.
Qed.

(** X29.  In a built database the inspirations that [sampleFromIsland]
    returns are at most [numInspirations] stored programs, each a resident
    of the island sampled, and none of them is the parent. *)
Theorem sampleFromIsland_inspirations_exclude_parent (cfg : DatabaseConfig) (d : t)
    (islandId numInspirations : nat) (randVal r : Q)
    (parent : Program) (inspirations : list Program) :
  built cfg d ->
  sampleFromIsland shuffle d islandId numInspirations randVal r
  = Some (parent, inspirations) ->
  length inspirations <= numInspirations /\
  forall q, In q inspirations ->
    Prog.id q <> Prog.id parent /\
    residentOf d (islandId mod length (islands d)) (Prog.id q) /\
    get d (Prog.id q) = Some q.
Proof.
  intros Hb. destruct (built_bounds cfg d Hb) as (_ & Hk & _).
  unfold sampleFromIsland.
  set (k := islandId mod length (islands d)).
  destruct (islands d !! k) as [residents|] eqn:Er; [|discriminate].
  destruct residents as [|x xs] eqn:Ex; [discriminate|]. rewrite <- Ex in *.
  destruct (sampleParent d k (parentBranch d randVal) r) as [parent0|]; [|discriminate].
  intros [= <- <-].
  set (others := List.filter (fun i => negb (String.eqb i (Prog.id parent0))) residents).
  set (ids := if (length others <=? numInspirations)%nat then others
              else sampleRandom shuffle others numInspirations).
  assert (Hids : length ids <= numInspirations /\ forall i, In i ids -> In i others).
  { subst ids. destruct (Nat.leb_spec (length others) numInspirations) as [Hle|Hgt].
    - auto.
    - unfold sampleRandom. split; [rewrite length_firstn; lia|].
      intros i Hi. apply In_firstn_In in Hi.
      eapply Permutation_in; [apply Permutation_sym, shuffle_permutes|exact Hi]. }
  destruct Hids as [Hlen Hsub]. split.
  - pose proof (length_lookupAll d ids). lia.
  - intros q Hq. apply In_lookupAll in Hq as (i & Hi & Hg).
    rewrite (keyed_mapGet d i q Hk Hg).
    apply Hsub, filter_In in Hi as [Hres Hne].
    apply negb_true_iff, String.eqb_neq in Hne.
    split; [exact Hne|]. split; [|exact Hg].
    exists residents. auto.
Qed.

End Inspirations.

Lemma pairDb_built : ProgramDatabase.built defaultDatabaseConfig pairDb.
Proof.
  unfold pairDb.
  destruct (ProgramDatabase.add oneProgramDb (exampleProgram (tallyUuid 1) (2 # 10) 2)
              None (Some 0)) as [d2|] eqn:E2; [|vm_compute in E2; discriminate].
  refine (ProgramDatabase.built_add _ _ _ _ _ _ _ E2).
  unfold oneProgramDb.
  destruct (ProgramDatabase.add (ProgramDatabase.new defaultDatabaseConfig)
              (exampleProgram (tallyUuid 0) (5 # 10) 1) None (Some 0))
    as [d1|] eqn:E1; [|vm_compute in E1; discriminate].
  exact (ProgramDatabase.built_add _ _ _ _ _ _ (ProgramDatabase.built_new _) E1).
Qed.

Lemma sampleFromIsland_inspirations_exclude_parent_witness :
  match ProgramDatabase.sampleFromIsland (fun l => l) pairDb 0 5 (1 # 10) 0 with
  | Some (parent, inspirations) =>
      forall q, In q inspirations -> Prog.id q <> Prog.id parent
  | None => False
  end.
Proof.
  destruct (ProgramDatabase.sampleFromIsland (fun l => l) pairDb 0 5 (1 # 10) 0)
    as [[parent inspirations]|] eqn:E; [|vm_compute in E; discriminate].
  intros q Hq.
  exact (proj1 (proj2 (sampleFromIsland_inspirations_exclude_parent
                         (fun l => l) (fun l => Permutation_refl l)
                         defaultDatabaseConfig pairDb 0 5 (1 # 10) 0 parent inspirations
                         pairDb_built E) q Hq)).
Defined.
